(** * A stepped Dijkstra engine on a grid of nodes

    Shallow embedding of [node.py], [grid.py] and [dijkstra.py].

    Python objects live in a store mapping addresses to records, so that
    the aliasing between the grid, the neighbour lists, the predecessor
    links, the priority queue and the visited set is kept: all of them
    hold addresses of the same [Node] objects.  Object identity (the
    default [==] and [hash] of a class without [__eq__]) is equality of
    addresses. *)

From stdpp Require Import base decidable option list gmap sets.
From Stdlib Require Import ZArith Lia.

Local Open Scope Z_scope.
Local Open Scope nat_scope.

(** ** node.py *)

Inductive NodeState := EMPTY | START | END | BARRIER | VISITED | PATH.

#[global] Instance NodeState_eq_dec : EqDecision NodeState.
Proof. solve_decision. Defined.

(** [Node.distance] holds [float('inf')] or a Python integer that the
    engine obtained from [0] by adding [1]. *)
Inductive dist := Fin (n : nat) | Inf.

#[global] Instance dist_eq_dec : EqDecision dist.
Proof. solve_decision. Defined.

#[global] Instance dist_inhabited : Inhabited dist := populate Inf.

(** [a < b] on distances. *)
Definition dist_ltb (a b : dist) : bool :=
  match a, b with
  | Fin x, Fin y => bool_decide (x < y)
  | Fin _, Inf => true
  | Inf, _ => false
  end.

(** [a <= b] on distances, used in statements only. *)
Definition dist_le (a b : dist) : Prop := dist_ltb b a = false.

(** [d + 1]; [inf + 1] is [inf]. *)
Definition dist_succ (d : dist) : dist :=
  match d with Fin n => Fin (S n) | Inf => Inf end.

Definition addr := nat.

Module Node.

Record t := mk {
  row : Z;
  col : Z;
  x : Z;
  y : Z;
  width : Z;
  total_rows : Z;
  state : NodeState;
  distance : dist;
  previous : option addr;
  neighbors : list addr
}.

(** [Node.__init__] *)
Definition init (row col width total_rows : Z) : t :=
  mk row col (row * width)%Z (col * width)%Z width total_rows
     EMPTY Inf None [].

Definition get_pos (n : t) : Z * Z := (row n, col n).

Definition is_empty (n : t) : bool := bool_decide (state n = EMPTY).
Definition is_start (n : t) : bool := bool_decide (state n = START).
Definition is_end (n : t) : bool := bool_decide (state n = END).
Definition is_barrier (n : t) : bool := bool_decide (state n = BARRIER).
Definition is_visited (n : t) : bool := bool_decide (state n = VISITED).
Definition is_path (n : t) : bool := bool_decide (state n = PATH).

Definition set_state (s : NodeState) (n : t) : t :=
  mk (row n) (col n) (x n) (y n) (width n) (total_rows n)
     s (distance n) (previous n) (neighbors n).

Definition set_distance (d : dist) (n : t) : t :=
  mk (row n) (col n) (x n) (y n) (width n) (total_rows n)
     (state n) d (previous n) (neighbors n).

Definition set_previous (p : option addr) (n : t) : t :=
  mk (row n) (col n) (x n) (y n) (width n) (total_rows n)
     (state n) (distance n) p (neighbors n).

Definition set_neighbors (l : list addr) (n : t) : t :=
  mk (row n) (col n) (x n) (y n) (width n) (total_rows n)
     (state n) (distance n) (previous n) l.

(** [Node.reset] *)
Definition reset (n : t) : t :=
  set_previous None (set_distance Inf (set_state EMPTY n)).

(** [Node.reset_algorithm_data] *)
Definition reset_algorithm_data (n : t) : t :=
  let n := if bool_decide (state n = VISITED) || bool_decide (state n = PATH)
           then set_state EMPTY n else n in
  set_previous None (set_distance Inf n).

(** [Node.__lt__] *)
Definition lt (self other : t) : bool :=
  dist_ltb (distance self) (distance other).

End Node.

#[global] Instance Node_inhabited : Inhabited Node.t :=
  populate (Node.init 0 0 0 0).

(** The store of [Node] objects. *)
Abbreviation store := (gmap addr Node.t).

(** Reading and writing one object of the store. *)
Definition deref (σ : store) (a : addr) : Node.t := σ !!! a.
Definition modify (f : Node.t → Node.t) (a : addr) (σ : store) : store :=
  alter f a σ.

(** Python exceptions that the modelled code can raise. *)
Inductive exn := AttributeError | IndexError | ZeroDivisionError.

(** ** heapq (the reference implementation [heapq.py] of the standard
    library), on a list of [(distance, node)] tuples. *)
Module heapq.

Abbreviation entry := (dist * addr)%type.

(** [a < b] on tuples: the first components that differ (by [==], which
    is identity on nodes) decide, and nodes compare by [Node.__lt__],
    which reads their current distances. *)
Definition entry_lt (σ : store) (a b : entry) : bool :=
  if decide (a.1 = b.1) then
    if decide (a.2 = b.2) then false
    else Node.lt (deref σ a.2) (deref σ b.2)
  else dist_ltb a.1 b.1.

(** The [while pos > startpos] loop of [_siftdown]; [pos] halves at
    every turn, so [fuel = pos] turns are enough. *)
Fixpoint _siftdown_loop (fuel : nat) (σ : store) (heap : list entry)
    (startpos pos : nat) (newitem : entry) : list entry * nat :=
  match fuel with
  | 0 => (heap, pos)
  | S fuel' =>
      if decide (startpos < pos) then
        let parentpos := (pos - 1) / 2 in
        let parent := heap !!! parentpos in
        if entry_lt σ newitem parent
        then _siftdown_loop fuel' σ (<[pos := parent]> heap)
               startpos parentpos newitem
        else (heap, pos)
      else (heap, pos)
  end.

Definition _siftdown (σ : store) (heap : list entry) (startpos pos : nat)
    : list entry :=
  let newitem := heap !!! pos in
  let '(heap, pos) := _siftdown_loop pos σ heap startpos pos newitem in
  <[pos := newitem]> heap.

Definition heappush (σ : store) (heap : list entry) (item : entry)
    : list entry :=
  _siftdown σ (heap ++ [item]) 0 (length heap).

(** The [while childpos < endpos] loop of [_siftup]; [pos] grows at
    every turn, so [fuel = endpos] turns are enough. *)
Fixpoint _siftup_loop (fuel : nat) (σ : store) (heap : list entry)
    (endpos pos : nat) : list entry * nat :=
  match fuel with
  | 0 => (heap, pos)
  | S fuel' =>
      let childpos := 2 * pos + 1 in
      if decide (childpos < endpos) then
        let rightpos := childpos + 1 in
        let childpos :=
          if bool_decide (rightpos < endpos)
             && negb (entry_lt σ (heap !!! childpos) (heap !!! rightpos))
          then rightpos else childpos in
        _siftup_loop fuel' σ (<[pos := heap !!! childpos]> heap)
          endpos childpos
      else (heap, pos)
  end.

Definition _siftup (σ : store) (heap : list entry) (pos : nat)
    : list entry :=
  let endpos := length heap in
  let startpos := pos in
  let newitem := heap !!! pos in
  let '(heap, pos) := _siftup_loop endpos σ heap endpos pos in
  _siftdown σ (<[pos := newitem]> heap) startpos pos.

(** [heappop]; [None] is the [IndexError] of popping an empty list. *)
Definition heappop (σ : store) (heap : list entry)
    : option (entry * list entry) :=
  match last heap with
  | None => None
  | Some lastelt =>
      match removelast heap with
      | [] => Some (lastelt, [])
      | returnitem :: rest =>
          Some (returnitem, _siftup σ (lastelt :: rest) 0)
      end
  end.

End heapq.

(** ** dijkstra.py *)
Module DijkstraAlgorithm.

Record t := mk {
  start_node : addr;
  end_node : option addr;
  visited_count : nat;
  path_length : Z;
  is_running : bool;
  is_complete : bool;
  path_found : bool;
  priority_queue : list heapq.entry;
  visited_nodes : gset addr
}.

Definition set_flags (running complete found : bool) (e : t) : t :=
  mk (start_node e) (end_node e) (visited_count e) (path_length e)
     running complete found (priority_queue e) (visited_nodes e).

Definition set_priority_queue (q : list heapq.entry) (e : t) : t :=
  mk (start_node e) (end_node e) (visited_count e) (path_length e)
     (is_running e) (is_complete e) (path_found e) q (visited_nodes e).

Definition set_path_length (n : Z) (e : t) : t :=
  mk (start_node e) (end_node e) (visited_count e) n
     (is_running e) (is_complete e) (path_found e)
     (priority_queue e) (visited_nodes e).

(** [self.visited_nodes.add(node); self.visited_count += 1] *)
Definition mark_visited (a : addr) (e : t) : t :=
  mk (start_node e) (end_node e) (S (visited_count e)) (path_length e)
     (is_running e) (is_complete e) (path_found e)
     (priority_queue e) ({[a]} ∪ visited_nodes e).

(** [DijkstraAlgorithm.__init__].  An argument is [None] when the caller
    passes Python's [None]; [self.start_node.distance = 0] then raises
    [AttributeError], while a [None] end is only stored. *)
Definition init (σ : store) (start_node end_node : option addr)
    : exn + (store * t) :=
  match start_node with
  | None => inl AttributeError
  | Some s =>
      inr (modify (Node.set_distance (Fin 0)) s σ,
           mk s end_node 0 0%Z false false false [(Fin 0, s)] ∅)
  end.

(** [while current is not None: path_nodes.append(current);
    current = current.previous].  The loop does not end on a cycle of
    [previous] links; [None] is running out of [fuel]. *)
Fixpoint walk_previous (fuel : nat) (σ : store) (current : option addr)
    : option (list addr) :=
  match current with
  | None => Some []
  | Some c =>
      match fuel with
      | 0 => None
      | S fuel' =>
          match walk_previous fuel' σ (Node.previous (deref σ c)) with
          | Some l => Some (c :: l)
          | None => None
          end
      end
  end.

(** [path_nodes[1:-1]] *)
Definition interior (path_nodes : list addr) : list addr :=
  removelast (tail path_nodes).

(** [for node in nodes: node.set_state(NodeState.PATH)] *)
Definition mark_path (nodes : list addr) (σ : store) : store :=
  foldl (λ σ a, modify (Node.set_state PATH) a σ) σ nodes.

Definition _reconstruct_path (fuel : nat) (σ : store) (e : t)
    : option (store * t) :=
  if negb (path_found e) then Some (σ, e)
  else
    match walk_previous fuel σ (end_node e) with
    | None => None
    | Some path_nodes =>
        Some (mark_path (interior path_nodes) σ,
              set_path_length (Z.of_nat (length path_nodes) - 1)%Z e)
    end.

(** One turn of [for neighbor in current_node.neighbors]. *)
Definition relax (e : t) (current_node : addr)
    (acc : store * list heapq.entry) (neighbor : addr)
    : store * list heapq.entry :=
  let '(σ, q) := acc in
  if decide (neighbor ∈ visited_nodes e) then (σ, q)
  else
    let new_distance := dist_succ (Node.distance (deref σ current_node)) in
    if dist_ltb new_distance (Node.distance (deref σ neighbor)) then
      let σ := modify (Node.set_distance new_distance) neighbor σ in
      let σ := modify (Node.set_previous (Some current_node)) neighbor σ in
      (σ, heapq.heappush σ q (new_distance, neighbor))
    else (σ, q).

(** [for neighbor in current_node.neighbors: ...] *)
Definition relax_all (e : t) (current_node : addr) (σ : store)
    : store * list heapq.entry :=
  foldl (relax e current_node) (σ, priority_queue e)
    (Node.neighbors (deref σ current_node)).

(** [if not current_node.is_start() and not current_node.is_end():
    current_node.set_state(NodeState.VISITED)] *)
Definition mark_explored (current_node : addr) (σ : store) : store :=
  if negb (Node.is_start (deref σ current_node))
     && negb (Node.is_end (deref σ current_node))
  then modify (Node.set_state VISITED) current_node σ
  else σ.

(** [DijkstraAlgorithm.step]; [None] is divergence (of path
    reconstruction). *)
Definition step (fuel : nat) (σ : store) (e : t)
    : option (store * t * (bool * option addr)) :=
  if bool_decide (priority_queue e = []) || is_complete e then
    Some (σ, set_flags false true (path_found e) e, (false, None))
  else
    match heapq.heappop σ (priority_queue e) with
    | None => None
    | Some ((current_distance, current_node), q) =>
        let e := set_priority_queue q e in
        if dist_ltb (Node.distance (deref σ current_node)) current_distance
        then Some (σ, e, (true, None))
        else if decide (current_node ∈ visited_nodes e)
        then Some (σ, e, (true, None))
        else
          let e := mark_visited current_node e in
          let σ := mark_explored current_node σ in
          if decide (Some current_node = end_node e) then
            let e := set_flags false true true e in
            match _reconstruct_path fuel σ e with
            | None => None
            | Some (σ, e) => Some (σ, e, (false, Some current_node))
            end
          else
            let '(σ, q) := relax_all e current_node σ in
            Some (σ, set_priority_queue q e, (true, Some current_node))
    end.

(** The loop of [run_complete] (without a [draw_callback]); [n] bounds
    the number of turns. *)
Fixpoint run_loop (n fuel : nat) (σ : store) (e : t) : option (store * t) :=
  if is_complete e then Some (σ, e)
  else
    match n with
    | 0 => None
    | S n' =>
        match step fuel σ e with
        | None => None
        | Some (σ, e, (continue_running, _)) =>
            if continue_running then run_loop n' fuel σ e
            else Some (σ, e)
        end
    end.

Definition run_complete (fuel : nat) (σ : store) (e : t)
    : option (store * t * bool) :=
  let e := set_flags true (is_complete e) (path_found e) e in
  match run_loop fuel fuel σ e with
  | None => None
  | Some (σ, e) => Some (σ, e, path_found e)
  end.

(** The dictionary that [get_stats] builds. *)
Record stats := mk_stats {
  stats_visited_count : nat;
  stats_path_length : Z;
  stats_is_running : bool;
  stats_is_complete : bool;
  stats_path_found : bool
}.

Definition get_stats (e : t) : stats :=
  mk_stats (visited_count e)
           (if path_found e then path_length e else 0%Z)
           (is_running e) (is_complete e) (path_found e).

End DijkstraAlgorithm.

(** [Node.update_neighbors(grid)] for the node at address [self]; the
    result is [inl IndexError] when [grid[new_row][new_col]] is out of
    range. *)
Definition directions : list (Z * Z) :=
  [(-1, 0); (1, 0); (0, -1); (0, 1)]%Z.

Definition grid_lookup (grid : list (list addr)) (r c : Z) : option addr :=
  grid !! Z.to_nat r ≫= λ cells, cells !! Z.to_nat c.

Definition add_neighbor (grid : list (list addr)) (self : addr)
    (acc : exn + store) (d : Z * Z) : exn + store :=
  match acc with
  | inl err => inl err
  | inr σ =>
      let new_row := (Node.row (deref σ self) + d.1)%Z in
      let new_col := (Node.col (deref σ self) + d.2)%Z in
      let total_rows := Node.total_rows (deref σ self) in
      if bool_decide (0 ≤ new_row < total_rows)%Z
         && bool_decide (0 ≤ new_col < total_rows)%Z then
        match grid_lookup grid new_row new_col with
        | None => inl IndexError
        | Some neighbor =>
            if Node.is_barrier (deref σ neighbor) then inr σ
            else inr (modify (λ n, Node.set_neighbors
                                     (Node.neighbors n ++ [neighbor]) n)
                             self σ)
        end
      else inr σ
  end.

Definition Node_update_neighbors (grid : list (list addr)) (self : addr)
    (σ : store) : exn + store :=
  foldl (add_neighbor grid self)
        (inr (modify (Node.set_neighbors []) self σ)) directions.

(** ** grid.py *)
Module Grid.

Record t := mk {
  rows : Z;
  width : Z;
  gap : Z;
  grid : list (list addr);
  start_node : option addr;
  end_node : option addr
}.

Definition set_start_node (s : option addr) (g : t) : t :=
  mk (rows g) (width g) (gap g) (grid g) s (end_node g).

Definition set_end_node (s : option addr) (g : t) : t :=
  mk (rows g) (width g) (gap g) (grid g) (start_node g) s.

(** The inner loop of [_create_grid]: the node of cell [(i, j)] is the
    [(i * n + j)]-th object created, which serves as its address. *)
Definition create_row (rows gap : Z) (n i : nat) (σ : store)
    : store * list addr :=
  foldl (λ (acc : store * list addr) (j : nat),
           let a := i * n + j in
           (<[a := Node.init (Z.of_nat i) (Z.of_nat j) gap rows]> acc.1,
            acc.2 ++ [a]))
        (σ, []) (seq 0 n).

(** [Grid._create_grid] *)
Definition _create_grid (rows gap : Z) : store * list (list addr) :=
  let n := Z.to_nat rows in
  foldl (λ (acc : store * list (list addr)) (i : nat),
           let '(σ, cells) := create_row rows gap n i acc.1 in
           (σ, acc.2 ++ [cells]))
        (∅, []) (seq 0 n).

(** [Grid.__init__]; [width // rows] raises when [rows] is [0]. *)
Definition init (rows width : Z) : exn + (store * t) :=
  if bool_decide (rows = 0%Z) then inl ZeroDivisionError
  else
    let gap := (width / rows)%Z in
    let '(σ, cells) := _create_grid rows gap in
    inr (σ, mk rows width gap cells None None).

(** [Grid.get_clicked_pos]: [y, x = pos; row = y // self.gap;
    col = x // self.gap], which raises when [gap] is [0]. *)
Definition get_clicked_pos (g : t) (pos : Z * Z) : exn + (Z * Z) :=
  let '(y, x) := pos in
  if bool_decide (gap g = 0%Z) then inl ZeroDivisionError
  else inr ((y / gap g)%Z, (x / gap g)%Z).

(** [Grid.get_node]; on a grid built by [_create_grid] the lookup is
    defined whenever the bounds check passes. *)
Definition get_node (g : t) (row col : Z) : option addr :=
  if bool_decide (0 ≤ row < rows g)%Z && bool_decide (0 ≤ col < rows g)%Z
  then grid_lookup (grid g) row col
  else None.

Definition demote (holder : option addr) (σ : store) : store :=
  match holder with
  | Some a => modify (Node.set_state EMPTY) a σ
  | None => σ
  end.

Definition set_start (row col : Z) (σ : store) (g : t)
    : store * t * bool :=
  match get_node g row col with
  | Some node =>
      if Node.is_empty (deref σ node) || Node.is_start (deref σ node) then
        let σ := demote (start_node g) σ in
        let σ := modify (Node.set_state START) node σ in
        (σ, set_start_node (Some node) g, true)
      else (σ, g, false)
  | None => (σ, g, false)
  end.

Definition set_end (row col : Z) (σ : store) (g : t)
    : store * t * bool :=
  match get_node g row col with
  | Some node =>
      if Node.is_empty (deref σ node) || Node.is_end (deref σ node) then
        let σ := demote (end_node g) σ in
        let σ := modify (Node.set_state END) node σ in
        (σ, set_end_node (Some node) g, true)
      else (σ, g, false)
  | None => (σ, g, false)
  end.

Definition toggle_barrier (row col : Z) (σ : store) (g : t)
    : store * t * bool :=
  match get_node g row col with
  | Some node =>
      if Node.is_empty (deref σ node) || Node.is_barrier (deref σ node) then
        if Node.is_barrier (deref σ node)
        then (modify (Node.set_state EMPTY) node σ, g, true)
        else (modify (Node.set_state BARRIER) node σ, g, true)
      else (σ, g, false)
  | None => (σ, g, false)
  end.

Definition set_barrier (row col : Z) (σ : store) (g : t)
    : store * t * bool :=
  match get_node g row col with
  | Some node =>
      if Node.is_empty (deref σ node)
      then (modify (Node.set_state BARRIER) node σ, g, true)
      else (σ, g, false)
  | None => (σ, g, false)
  end.

(** [for row in self.grid: for node in row: f(node)] *)
Definition for_each_node (f : addr → store → store) (g : t) (σ : store)
    : store :=
  foldl (λ σ cells, foldl (λ σ a, f a σ) σ cells) σ (grid g).

Definition reset_grid (σ : store) (g : t) : store * t :=
  (for_each_node (modify Node.reset) g σ,
   set_end_node None (set_start_node None g)).

Definition reset_algorithm_data (σ : store) (g : t) : store :=
  for_each_node (modify Node.reset_algorithm_data) g σ.

Definition update_neighbors (σ : store) (g : t) : exn + store :=
  foldl (λ acc cells,
           foldl (λ acc a,
                    match acc with
                    | inl err => inl err
                    | inr σ => Node_update_neighbors (grid g) a σ
                    end) acc cells)
        (inr σ) (grid g).

Definition is_ready_for_pathfinding (g : t) : bool :=
  bool_decide (start_node g ≠ None) && bool_decide (end_node g ≠ None).

Definition get_all_nodes (g : t) : list addr :=
  foldl (λ nodes cells, nodes ++ cells) [] (grid g).

End Grid.

(** ** The drivers of dijkstra.py *)

(** The values that the generator [run_dijkstra_step_by_step] yields when
    it is driven to its end, with the store and engine it leaves. *)
Fixpoint step_by_step_loop (n fuel : nat) (σ : store)
    (algorithm : DijkstraAlgorithm.t)
    : option (store * DijkstraAlgorithm.t *
              list (bool * option addr * DijkstraAlgorithm.stats)) :=
  if DijkstraAlgorithm.is_complete algorithm then Some (σ, algorithm, [])
  else
    match n with
    | 0 => None
    | S n' =>
        match DijkstraAlgorithm.step fuel σ algorithm with
        | None => None
        | Some (σ, algorithm, (continue_running, current_node)) =>
            let stats := DijkstraAlgorithm.get_stats algorithm in
            let yielded := (continue_running, current_node, stats) in
            if continue_running then
              match step_by_step_loop n' fuel σ algorithm with
              | None => None
              | Some (σ, algorithm, ys) => Some (σ, algorithm, yielded :: ys)
              end
            else Some (σ, algorithm, [yielded])
        end
    end.

Definition run_dijkstra_step_by_step (fuel : nat) (σ : store)
    (start_node end_node : option addr)
    : exn + option (store * DijkstraAlgorithm.t *
                    list (bool * option addr * DijkstraAlgorithm.stats)) :=
  match DijkstraAlgorithm.init σ start_node end_node with
  | inl err => inl err
  | inr (σ, algorithm) =>
      let algorithm :=
        DijkstraAlgorithm.set_flags true
          (DijkstraAlgorithm.is_complete algorithm)
          (DijkstraAlgorithm.path_found algorithm) algorithm in
      inr (step_by_step_loop fuel fuel σ algorithm)
  end.

Definition run_dijkstra_complete (fuel : nat) (σ : store)
    (start_node end_node : option addr)
    : exn + option (store * (bool * DijkstraAlgorithm.stats)) :=
  match DijkstraAlgorithm.init σ start_node end_node with
  | inl err => inl err
  | inr (σ, algorithm) =>
      match DijkstraAlgorithm.run_complete fuel σ algorithm with
      | None => inr None
      | Some (σ, algorithm, path_found) =>
          inr (Some (σ, (path_found, DijkstraAlgorithm.get_stats algorithm)))
      end
  end.

(** Driving one engine by hand: call [step] until it returns
    [shouldContinue = false]. *)
Fixpoint drive (n fuel : nat) (σ : store) (e : DijkstraAlgorithm.t)
    : option (store * DijkstraAlgorithm.t) :=
  match n with
  | 0 => None
  | S n' =>
      match DijkstraAlgorithm.step fuel σ e with
      | None => None
      | Some (σ, e, (continue_running, _)) =>
          if continue_running then drive n' fuel σ e else Some (σ, e)
      end
  end.


(** * Specification vocabulary *)

(** ** The heap shape that heapq maintains

    Only the first component of a tuple (the recorded distance) is
    ordered by the heap shape: ties are broken by the nodes' current
    distances, which change between two heap operations. *)
Definition heap_ok (h : list heapq.entry) : Prop :=
  ∀ i j x y, h !! i = Some x → h !! j = Some y →
    j = 2 * i + 1 ∨ j = 2 * i + 2 → dist_le x.1 y.1.

(** The heap shape everywhere but at the position being sifted. *)
Definition heap_except (h : list heapq.entry) (pos : nat) : Prop :=
  ∀ i j x y, h !! i = Some x → h !! j = Some y →
    j = 2 * i + 1 ∨ j = 2 * i + 2 → i ≠ pos → j ≠ pos → dist_le x.1 y.1.

(** The parent of [pos] is below the children of [pos]. *)
Definition grand_ok (h : list heapq.entry) (pos : nat) : Prop :=
  ∀ c x y, 0 < pos → h !! ((pos - 1) / 2) = Some x → h !! c = Some y →
    c = 2 * pos + 1 ∨ c = 2 * pos + 2 → dist_le x.1 y.1.

(** The item being sifted is below the children of [pos]. *)
Definition below_ok (h : list heapq.entry) (pos : nat) (new : heapq.entry)
    : Prop :=
  ∀ c y, h !! c = Some y → c = 2 * pos + 1 ∨ c = 2 * pos + 2 →
    dist_le new.1 y.1.

(** ** Sequences of [step] calls on one engine *)
Inductive steps :
    store → DijkstraAlgorithm.t → store → DijkstraAlgorithm.t → Prop :=
  | steps_refl σ e : steps σ e σ e
  | steps_step fuel σ e σ1 e1 r σ2 e2 :
      DijkstraAlgorithm.step fuel σ e = Some (σ1, e1, r) →
      steps σ1 e1 σ2 e2 →
      steps σ e σ2 e2.

(** What [step] found on top of the queue: the popped tuple and the rest
    of the queue, when the engine is still running. *)
Definition pops (σ : store) (e : DijkstraAlgorithm.t)
    (d : dist) (n : addr) (q : list heapq.entry) : Prop :=
  DijkstraAlgorithm.is_complete e = false ∧
  heapq.heappop σ (DijkstraAlgorithm.priority_queue e) = Some ((d, n), q).

(** The popped tuple is stale or its node is already visited. *)
Definition discarded (σ : store) (e : DijkstraAlgorithm.t)
    (d : dist) (n : addr) : Prop :=
  dist_ltb (Node.distance (deref σ n)) d = true ∨
  n ∈ DijkstraAlgorithm.visited_nodes e.

(** The popped tuple is current and its node is not visited yet. *)
Definition fresh_pop (σ : store) (e : DijkstraAlgorithm.t)
    (d : dist) (n : addr) : Prop :=
  dist_ltb (Node.distance (deref σ n)) d = false ∧
  n ∉ DijkstraAlgorithm.visited_nodes e.

(** The engine right after [visited_nodes.add] and [visited_count += 1]. *)
Definition visiting (e : DijkstraAlgorithm.t) (n : addr)
    (q : list heapq.entry) : DijkstraAlgorithm.t :=
  DijkstraAlgorithm.mark_visited n (DijkstraAlgorithm.set_priority_queue q e).

(** ** Graphs and fresh traversal state *)

(** Neighbour lists only hold nodes of the store. *)
Definition closed (σ : store) : Prop :=
  map_Forall (λ _ nd, Forall (λ b, b ∈ dom σ) (Node.neighbors nd)) σ.

(** The traversal fields as [Node.__init__] and
    [Node.reset_algorithm_data] leave them. *)
Definition fresh (σ : store) : Prop :=
  map_Forall (λ _ nd, Node.distance nd = Inf ∧ Node.previous nd = None) σ.

(** [b]'s distance is at most one more than [v]'s. *)
Definition relaxed_from (σ : store) (v b : addr) : Prop :=
  dist_le (Node.distance (deref σ b))
          (dist_succ (Node.distance (deref σ v))).

(** ** The invariant of a run

    [σ0] is the store the engine was constructed on and [s] its start
    node. *)
Record Core (σ0 : store) (s : addr) (σ : store) (e : DijkstraAlgorithm.t)
    : Prop := {
  core_dom : dom σ = dom σ0;
  core_nbrs : ∀ a, Node.neighbors (deref σ a) = Node.neighbors (deref σ0 a);
  core_start : DijkstraAlgorithm.start_node e = s;
  core_s_dom : s ∈ dom σ;
  core_s_dist : Node.distance (deref σ s) = Fin 0;
  core_s_prev : Node.previous (deref σ s) = None;
  core_visited : DijkstraAlgorithm.visited_nodes e ⊆ dom σ;
  core_count :
    DijkstraAlgorithm.visited_count e
    = size (DijkstraAlgorithm.visited_nodes e);
  core_heap : heap_ok (DijkstraAlgorithm.priority_queue e);
  core_queue : ∀ d a, (d, a) ∈ DijkstraAlgorithm.priority_queue e →
    a ∈ dom σ ∧ ∃ k, d = Fin k ∧ dist_le (Node.distance (deref σ a)) d;
  core_prev : ∀ a u, Node.previous (deref σ a) = Some u →
    u ∈ DijkstraAlgorithm.visited_nodes e ∧
    ∃ k, Node.distance (deref σ u) = Fin k ∧
         Node.distance (deref σ a) = Fin (S k);
  core_noprev : ∀ a, Node.previous (deref σ a) = None →
    a = s ∨ Node.distance (deref σ a) = Inf;
  core_bound : ∀ a k, Node.distance (deref σ a) = Fin k →
    k ≤ DijkstraAlgorithm.visited_count e;
  core_found : DijkstraAlgorithm.path_found e = true →
    DijkstraAlgorithm.is_complete e = true
}.

Arguments core_dom {_ _ _ _} _.
Arguments core_nbrs {_ _ _ _} _.
Arguments core_start {_ _ _ _} _.
Arguments core_s_dom {_ _ _ _} _.
Arguments core_s_dist {_ _ _ _} _.
Arguments core_s_prev {_ _ _ _} _.
Arguments core_visited {_ _ _ _} _.
Arguments core_count {_ _ _ _} _.
Arguments core_heap {_ _ _ _} _.
Arguments core_queue {_ _ _ _} _.
Arguments core_prev {_ _ _ _} _.
Arguments core_noprev {_ _ _ _} _.
Arguments core_bound {_ _ _ _} _.
Arguments core_found {_ _ _ _} _.

(** Every reached, unvisited node has its current distance queued. *)
Definition queued (σ : store) (V : gset addr) (q : list heapq.entry) : Prop :=
  ∀ a k, a ∉ V → Node.distance (deref σ a) = Fin k → (Fin k, a) ∈ q.

(** Visited nodes are at most as far as anything queued. *)
Definition settled (σ : store) (V : gset addr) (q : list heapq.entry)
    : Prop :=
  ∀ v d a, v ∈ V → (d, a) ∈ q → dist_le (Node.distance (deref σ v)) d.

(** The neighbours of the nodes of [V] have been relaxed. *)
Definition expanded (σ : store) (V : gset addr) : Prop :=
  ∀ v b, v ∈ V → b ∈ Node.neighbors (deref σ v) → relaxed_from σ v b.

Record Running (σ : store) (e : DijkstraAlgorithm.t) : Prop := {
  run_queued : queued σ (DijkstraAlgorithm.visited_nodes e)
                 (DijkstraAlgorithm.priority_queue e);
  run_settled : settled σ (DijkstraAlgorithm.visited_nodes e)
                  (DijkstraAlgorithm.priority_queue e);
  run_expanded : expanded σ (DijkstraAlgorithm.visited_nodes e);
  run_end : ∀ t, DijkstraAlgorithm.end_node e = Some t →
    t ∉ DijkstraAlgorithm.visited_nodes e
}.

Arguments run_queued {_ _} _.
Arguments run_settled {_ _} _.
Arguments run_expanded {_ _} _.
Arguments run_end {_ _} _.

Definition Inv (σ0 : store) (s : addr) (σ : store) (e : DijkstraAlgorithm.t)
    : Prop :=
  Core σ0 s σ e ∧ (DijkstraAlgorithm.is_complete e = false → Running σ e).

(** The invariant of the [for neighbor in current_node.neighbors] loop
    while [n], at distance [kn], is being expanded. *)
Record Expanding (σ0 : store) (s : addr) (e1 : DijkstraAlgorithm.t)
    (n : addr) (kn : nat) (σ : store) (q : list heapq.entry) : Prop := {
  exp_core : Core σ0 s σ (DijkstraAlgorithm.set_priority_queue q e1);
  exp_queued : queued σ (DijkstraAlgorithm.visited_nodes e1) q;
  exp_settled : settled σ (DijkstraAlgorithm.visited_nodes e1) q;
  exp_expanded : expanded σ (DijkstraAlgorithm.visited_nodes e1 ∖ {[n]});
  exp_n : n ∈ DijkstraAlgorithm.visited_nodes e1;
  exp_dist : Node.distance (deref σ n) = Fin kn;
  exp_near : ∀ v, v ∈ DijkstraAlgorithm.visited_nodes e1 →
    dist_le (Node.distance (deref σ v)) (Fin kn);
  exp_count : kn < DijkstraAlgorithm.visited_count e1
}.

Arguments exp_core {_ _ _ _ _ _ _} _.
Arguments exp_queued {_ _ _ _ _ _ _} _.
Arguments exp_settled {_ _ _ _ _ _ _} _.
Arguments exp_expanded {_ _ _ _ _ _ _} _.
Arguments exp_n {_ _ _ _ _ _ _} _.
Arguments exp_dist {_ _ _ _ _ _ _} _.
Arguments exp_near {_ _ _ _ _ _ _} _.
Arguments exp_count {_ _ _ _ _ _ _} _.

(** ** The fuel that every run on [σ] stays within *)
Definition degree (σ : store) (a : addr) : nat :=
  length (Node.neighbors (deref σ a)).

Definition weight (σ : store) (X : gset addr) : nat :=
  sum_list_with (degree σ) (elements X).

Definition enough_fuel (σ : store) : nat :=
  size (dom σ) + weight σ (dom σ) + 2.

(** The measure that every [step] of a running engine decreases. *)
Definition measure (σ0 : store) (e : DijkstraAlgorithm.t) : nat :=
  length (DijkstraAlgorithm.priority_queue e)
  + weight σ0 (dom σ0 ∖ DijkstraAlgorithm.visited_nodes e).

(** The store after [neighbor.distance = new_distance;
    neighbor.previous = current_node]. *)
Definition improve (current_node neighbor : addr) (σ : store) : store :=
  modify (Node.set_previous (Some current_node)) neighbor
    (modify (Node.set_distance
               (dist_succ (Node.distance (deref σ current_node))))
            neighbor σ).

(** Two stores that differ in presentation state only. *)
Definition same_traversal (σ σ' : store) : Prop :=
  dom σ' = dom σ ∧
  ∀ a, Node.distance (deref σ' a) = Node.distance (deref σ a) ∧
       Node.previous (deref σ' a) = Node.previous (deref σ a) ∧
       Node.neighbors (deref σ' a) = Node.neighbors (deref σ a).

(** The engine with its [is_running] flag set to [b]. *)
Definition running (b : bool) (e : DijkstraAlgorithm.t)
    : DijkstraAlgorithm.t :=
  DijkstraAlgorithm.set_flags b (DijkstraAlgorithm.is_complete e)
    (DijkstraAlgorithm.path_found e) e.

(** ** Distances known in advance

    [φ] gives every node its number of edges from the start node: it is
    [0] at the start, grows by at most one along an edge, and every other
    node has a neighbour one step closer. *)
Record potential (σ0 : store) (s : addr) (φ : addr → nat) : Prop := {
  pot_start : φ s = 0;
  pot_edge : ∀ a b, a ∈ dom σ0 → b ∈ Node.neighbors (deref σ0 a) →
    φ b ≤ S (φ a);
  pot_pred : ∀ a, a ∈ dom σ0 → a ≠ s →
    ∃ p, p ∈ dom σ0 ∧ a ∈ Node.neighbors (deref σ0 p) ∧ S (φ p) = φ a
}.
Arguments pot_start {_ _ _} _.
Arguments pot_edge {_ _ _} _.
Arguments pot_pred {_ _ _} _.

(** The distances the engine holds agree with [φ]; [t] is the end node. *)
Record PInv (φ : addr → nat) (t : addr) (σ : store)
    (e : DijkstraAlgorithm.t) : Prop := {
  pinv_end : DijkstraAlgorithm.end_node e = Some t;
  pinv_lb : ∀ a k, Node.distance (deref σ a) = Fin k → φ a ≤ k;
  pinv_vis : ∀ v, v ∈ DijkstraAlgorithm.visited_nodes e →
    Node.distance (deref σ v) = Fin (φ v);
  pinv_done : DijkstraAlgorithm.is_complete e = true →
    DijkstraAlgorithm.path_found e = true ∧
    DijkstraAlgorithm.path_length e = Z.of_nat (φ t)
}.
Arguments pinv_end {_ _ _ _} _.
Arguments pinv_lb {_ _ _ _} _.
Arguments pinv_vis {_ _ _ _} _.
Arguments pinv_done {_ _ _ _} _.

(** ** Grid graphs

    The node of cell [(r, c)] of a grid with [C] columns has address
    [r * C + c] (the order in which [Grid._create_grid] creates nodes). *)

(** The list that [Node.update_neighbors] builds for the cell at address
    [a] of a grid of [R] rows and [C] columns without barriers. *)
Definition grid_neighbors (R C : nat) (a : addr) : list addr :=
  let row := Z.of_nat (a / C) in
  let col := Z.of_nat (a mod C) in
  flat_map
    (λ d : Z * Z,
       let new_row := (row + d.1)%Z in
       let new_col := (col + d.2)%Z in
       if bool_decide (0 ≤ new_row < Z.of_nat R)%Z
          && bool_decide (0 ≤ new_col < Z.of_nat C)%Z
       then [Z.to_nat (new_row * Z.of_nat C + new_col)]
       else [])
    directions.

(** An [R] x [C] grid in which no node is a barrier, with neighbours
    computed. *)
Definition grid_graph (R C : nat) (σ : store) : Prop :=
  dom σ = set_seq 0 (R * C) ∧
  map_Forall
    (λ a nd,
       Node.row nd = Z.of_nat (a / C) ∧ Node.col nd = Z.of_nat (a mod C) ∧
       Node.state nd ≠ BARRIER ∧
       Node.neighbors nd = grid_neighbors R C a) σ.

(** The Manhattan distance of the cell at address [a] from cell [(0, 0)]. *)
Definition manhattan (C : nat) (a : addr) : nat := a / C + a mod C.

(** ** The grid and its editing operations *)

Inductive grid_op :=
  | SetStart (row col : Z)
  | SetEnd (row col : Z)
  | ToggleBarrier (row col : Z)
  | SetBarrier (row col : Z)
  | ResetGrid
  | ResetAlgorithmData.

Definition apply_op (w : store * Grid.t) (op : grid_op) : store * Grid.t :=
  match op with
  | SetStart row col => (Grid.set_start row col w.1 w.2).1
  | SetEnd row col => (Grid.set_end row col w.1 w.2).1
  | ToggleBarrier row col => (Grid.toggle_barrier row col w.1 w.2).1
  | SetBarrier row col => (Grid.set_barrier row col w.1 w.2).1
  | ResetGrid => Grid.reset_grid w.1 w.2
  | ResetAlgorithmData => (Grid.reset_algorithm_data w.1 w.2, w.2)
  end.

Definition apply_ops (w : store * Grid.t) (ops : list grid_op)
    : store * Grid.t :=
  foldl apply_op w ops.

(** The cells that are in state [st]. *)
Definition holders (st : NodeState) (σ : store) (g : Grid.t) : list addr :=
  filter (λ a, Node.state (deref σ a) = st) (Grid.get_all_nodes g).

(** What the editing operations keep true of a grid. *)
Record GInv (σ : store) (g : Grid.t) : Prop := {
  ginv_cells : ∀ a, a ∈ mjoin (Grid.grid g) → a ∈ dom σ;
  ginv_nodup : NoDup (mjoin (Grid.grid g));
  ginv_start : ∀ a, Node.state (deref σ a) = START ↔ Grid.start_node g = Some a;
  ginv_end : ∀ a, Node.state (deref σ a) = END ↔ Grid.end_node g = Some a;
  ginv_start_cell : ∀ a, Grid.start_node g = Some a → a ∈ mjoin (Grid.grid g);
  ginv_end_cell : ∀ a, Grid.end_node g = Some a → a ∈ mjoin (Grid.grid g)
}.
Arguments ginv_cells {_ _} _.
Arguments ginv_nodup {_ _} _.
Arguments ginv_start {_ _} _.
Arguments ginv_end {_ _} _.
Arguments ginv_start_cell {_ _} _.
Arguments ginv_end_cell {_ _} _.

(** ** The shape of a grid that [Grid.__init__] built *)

(** [self.grid] of a grid of [n] rows: row [i] holds the addresses
    [i * n], ..., [i * n + n - 1]. *)
Definition cells (n : nat) : list (list addr) :=
  (λ i, (λ j, i * n + j) <$> seq 0 n) <$> seq 0 n.

(** The fields of a node that only [Node.__init__] writes. *)
Definition layout (nd : Node.t) : Z * Z * Z * Z * Z * Z :=
  (Node.row nd, Node.col nd, Node.x nd, Node.y nd, Node.width nd,
   Node.total_rows nd).

Record GShape (n : nat) (σ : store) (g : Grid.t) : Prop := {
  gshape_rows : Grid.rows g = Z.of_nat n;
  gshape_gap : Grid.gap g = (Grid.width g / Z.of_nat n)%Z;
  gshape_grid : Grid.grid g = cells n;
  gshape_dom : dom σ = set_seq 0 (n * n);
  gshape_layout : ∀ a, a < n * n →
    layout (deref σ a) =
    layout (Node.init (Z.of_nat (a / n)) (Z.of_nat (a mod n))
              (Grid.gap g) (Z.of_nat n))
}.
Arguments gshape_rows {_ _ _} _.
Arguments gshape_gap {_ _ _} _.
Arguments gshape_grid {_ _ _} _.
Arguments gshape_dom {_ _ _} _.
Arguments gshape_layout {_ _ _} _.

(** Two stores with the same nodes, laid out alike. *)
Definition same_layout (σ σ' : store) : Prop :=
  dom σ' = dom σ ∧ ∀ a, layout (deref σ' a) = layout (deref σ a).

(** Two grids with the same dimensions and the same matrix of nodes. *)
Definition same_grid (g g' : Grid.t) : Prop :=
  Grid.rows g' = Grid.rows g ∧ Grid.width g' = Grid.width g ∧
  Grid.gap g' = Grid.gap g ∧ Grid.grid g' = Grid.grid g.

(** The cells next to the cell at address [a] that are no barriers, in
    the order up, down, left, right. *)
Definition open_neighbors (n : nat) (σ : store) (a : addr) : list addr :=
  filter (λ b, Node.state (deref σ b) ≠ BARRIER) (grid_neighbors n n a).

(** Cells [(r, c)] and [(r', c')] share a side. *)
Definition adjacent (r c r' c' : nat) : Prop :=
  (r' = r ∧ (c' + 1 = c ∨ c' = c + 1)) ∨
  (c' = c ∧ (r' + 1 = r ∨ r' = r + 1)).

(** What [DijkstraVisualizer.start_algorithm] does to the grid before it
    creates the generator: [self.grid.reset_algorithm_data();
    self.grid.update_neighbors()]. *)
Definition prepare (σ : store) (g : Grid.t) : exn + store :=
  Grid.update_neighbors (Grid.reset_algorithm_data σ g) g.

(** ** Walks *)

(** Each node of [l] is in the neighbour list of the node before it. *)
Definition walk (σ : store) (l : list addr) : Prop :=
  ∀ i a b, l !! i = Some a → l !! S i = Some b →
    b ∈ Node.neighbors (deref σ a).

(** [l] is a walk from [s] to [t]. *)
Definition walk_from_to (σ : store) (s t : addr) (l : list addr) : Prop :=
  walk σ l ∧ head l = Some s ∧ last l = Some t.

(** A [previous] link points to a node that has the linked node among
    its neighbours. *)
Definition prev_edge (σ0 σ : store) : Prop :=
  ∀ a u, Node.previous (deref σ a) = Some u →
    a ∈ Node.neighbors (deref σ0 u).

(** The distance that [v] holds in [σ] is its number of edges from [s]:
    no walk from [s] reaches [v] in fewer steps. *)
Definition shortest (σ0 : store) (s : addr) (σ : store) (v : addr) : Prop :=
  ∃ k, Node.distance (deref σ v) = Fin k ∧
       ∀ l i, walk σ0 l → head l = Some s → l !! i = Some v → k ≤ i.

(** ** Presentation states during a run *)

(** What the engine relies on without checking it: the start is no
    barrier, no node is shown as explored or on a path, the states
    [START] and [END] mark the engine's own endpoints only, and no
    neighbour list holds a barrier. *)
Definition Tidy (σ0 : store) (s : addr) (t : option addr) : Prop :=
  Node.state (deref σ0 s) ≠ BARRIER ∧
  map_Forall
    (λ a nd,
       Node.state nd ≠ VISITED ∧ Node.state nd ≠ PATH ∧
       (Node.state nd = START → a = s) ∧
       (Node.state nd = END → t = Some a) ∧
       Forall (λ b, Node.state (deref σ0 b) ≠ BARRIER) (Node.neighbors nd))
    σ0.

(** A node is laid out as in [σ0] and has the state it had there, unless
    it was [EMPTY] and is now shown as explored or on the path. *)
Definition recoloured (σ0 σ : store) : Prop :=
  ∀ a, layout (deref σ a) = layout (deref σ0 a) ∧
       (Node.state (deref σ a) = Node.state (deref σ0 a) ∨
        (Node.state (deref σ0 a) = EMPTY ∧
         (Node.state (deref σ a) = VISITED ∨
          Node.state (deref σ a) = PATH))).

(** The display agrees with the engine: a visited node is not shown as
    [EMPTY], and a node shown as explored or on the path is visited. *)
Definition shown (σ : store) (e : DijkstraAlgorithm.t) : Prop :=
  (∀ v, v ∈ DijkstraAlgorithm.visited_nodes e →
     Node.state (deref σ v) ≠ EMPTY) ∧
  (∀ a, Node.state (deref σ a) = VISITED ∨ Node.state (deref σ a) = PATH →
     a ∈ DijkstraAlgorithm.visited_nodes e).

(** A route on a grid of [n] rows: cells that are no barriers, each
    sharing a side with the one before it. *)
Definition route (n : nat) (σ : store) (l : list addr) : Prop :=
  (∀ a, a ∈ l → a < n * n ∧ Node.state (deref σ a) ≠ BARRIER) ∧
  ∀ i a b, l !! i = Some a → l !! S i = Some b →
    adjacent (a / n) (a mod n) (b / n) (b mod n).

(** ** Runs and scenarios *)

(** The address of cell [(r, c)] of a grid with [C] columns. *)
Definition cell (C r c : nat) : addr := r * C + c.

(** [k] successive calls of [step] on one engine, whatever they return. *)
Fixpoint step_n (k fuel : nat) (σ : store) (e : DijkstraAlgorithm.t)
    : option (store * DijkstraAlgorithm.t) :=
  match k with
  | 0 => Some (σ, e)
  | S k' =>
      match DijkstraAlgorithm.step fuel σ e with
      | None => None
      | Some (σ', e', _) => step_n k' fuel σ' e'
      end
  end.

(** What [DijkstraVisualizer.start_algorithm] hands to the engine on an
    [n] x [n] grid of the given pixel width whose start is cell [(0, 0)]
    and whose end is cell [(n - 1, n - 1)]: the grid is built, both
    endpoints are placed, the traversal fields are reset and the
    neighbour lists are computed. *)
Definition scenario (n width : Z) : exn + (store * Grid.t) :=
  match Grid.init n width with
  | inl err => inl err
  | inr (σ, g) =>
      let '(σ, g, _) := Grid.set_start 0 0 σ g in
      let '(σ, g, _) := Grid.set_end (n - 1) (n - 1) σ g in
      let σ := Grid.reset_algorithm_data σ g in
      match Grid.update_neighbors σ g with
      | inl err => inl err
      | inr σ => inr (σ, g)
      end
  end.

(** The store of the 3 x 3 scenario. *)
Definition store3 : store :=
  match scenario 3 600 with
  | inr (σ, _) => σ
  | inl _ => ∅
  end.

#[global] Instance closed_dec (σ : store) : Decision (closed σ).
Proof. unfold closed. apply _. Defined.

#[global] Instance fresh_dec (σ : store) : Decision (fresh σ).
Proof. unfold fresh. apply _. Defined.

#[global] Instance Tidy_dec (σ0 : store) s t : Decision (Tidy σ0 s t).
Proof. unfold Tidy. apply _. Defined.

#[global] Instance grid_graph_dec R C (σ : store) :
  Decision (grid_graph R C σ).
Proof. unfold grid_graph. apply _. Defined.

(** The engine of the 3 x 3 scenario, constructed on cells [(0, 0)] and
    [(2, 2)], after [k] calls of [step]. *)
Definition run3 (k : nat) : store * DijkstraAlgorithm.t :=
  match DijkstraAlgorithm.init store3 (Some (cell 3 0 0)) (Some (cell 3 2 2))
  with
  | inr (σ, e) => default (σ, e) (step_n k 40 σ e)
  | inl _ =>
      (store3, DijkstraAlgorithm.mk 0 None 0 0 false false false [] ∅)
  end.

(** The same engine right after its construction, with an outdated tuple
    of the start node in place of its queue. *)
Definition stale3 : store * DijkstraAlgorithm.t :=
  ((run3 0).1,
   DijkstraAlgorithm.set_priority_queue [(Fin 2, cell 3 0 0)] (run3 0).2).

(** A session of edits on a 3 x 3 grid: the start is placed, moved and
    put on the cell of the end (which is refused), a barrier is drawn. *)
Definition edits3 : list grid_op :=
  [SetStart 0 0; SetEnd 2 2; SetStart 1 1; ToggleBarrier 0 1;
   SetStart 2 2; ResetAlgorithmData].

(** The 3 x 3 grid as [Grid.__init__] builds it, and after the session
    of edits. *)
Definition grid3 : store * Grid.t :=
  match Grid.init 3 600 with
  | inr w => w
  | inl _ => (∅, Grid.mk 0 0 0 [] None None)
  end.

Definition edited3 : store * Grid.t := apply_ops grid3 edits3.

(** A 3 x 3 grid whose start, cell [(0, 0)], and end, cell [(0, 2)], are
    separated by the barriers [(0, 1)] and [(1, 1)], so that the route
    between them goes around through the bottom row. *)
Definition walls3 : list grid_op :=
  [SetStart 0 0; SetEnd 0 2; SetBarrier 0 1; SetBarrier 1 1].

Definition maze3 : store * Grid.t := apply_ops grid3 walls3.

(** The store of that grid as [start_algorithm] prepares it. *)
Definition ready3 : store :=
  match prepare maze3.1 maze3.2 with
  | inr σ => σ
  | inl _ => ∅
  end.

(** The engine on that store after [k] calls of [step]. *)
Definition tour3 (k : nat) : store * DijkstraAlgorithm.t :=
  match DijkstraAlgorithm.init ready3 (Some (cell 3 0 0)) (Some (cell 3 0 2))
  with
  | inr (σ, e) => default (σ, e) (step_n k 40 σ e)
  | inl _ =>
      (ready3, DijkstraAlgorithm.mk 0 None 0 0 false false false [] ∅)
  end.

(** What [run_dijkstra_complete] returns on a store, with the store it
    leaves. *)
Definition outcome (σ0 : store) (s t : addr)
    : store * (bool * DijkstraAlgorithm.stats) :=
  match run_dijkstra_complete 40 σ0 (Some s) (Some t) with
  | inr (Some r) => r
  | _ => (σ0, (false, DijkstraAlgorithm.mk_stats 0 0 false false false))
  end.

(** A 3 x 3 grid whose start, cell [(0, 0)], is walled in by the barriers
    [(0, 1)] and [(1, 0)], and its prepared store. *)
Definition enclosure3 : list grid_op :=
  [SetStart 0 0; SetEnd 2 2; SetBarrier 0 1; SetBarrier 1 0].

Definition island3 : store * Grid.t := apply_ops grid3 enclosure3.

Definition sealed3 : store :=
  match prepare island3.1 island3.2 with
  | inr σ => σ
  | inl _ => ∅
  end.

(** A 3 x 3 grid of 10 pixels (cells of 3 pixels, so that the last pixel
    belongs to no cell) and one of 2 pixels (cells of 0 pixels). *)
Definition narrow3 : store * Grid.t :=
  match Grid.init 3 10 with
  | inr w => w
  | inl _ => (∅, Grid.mk 0 0 0 [] None None)
  end.

Definition flat3 : store * Grid.t :=
  match Grid.init 3 2 with
  | inr w => w
  | inl _ => (∅, Grid.mk 0 0 0 [] None None)
  end.

(** ** Tactics *)

(** Closes a goal that is one of the fields of [HC : Core _ _ _ _]. *)
Ltac use_core HC :=
  first [ exact (core_dom HC) | exact (core_nbrs HC) | exact (core_start HC)
        | exact (core_s_dom HC) | exact (core_s_dist HC)
        | exact (core_s_prev HC) | exact (core_visited HC)
        | exact (core_count HC) | exact (core_heap HC)
        | exact (core_queue HC) | exact (core_prev HC)
        | exact (core_noprev HC) | exact (core_bound HC)
        | exact (core_found HC) ].

(** Closes a decidable closed goal by evaluating its decision procedure. *)
Ltac by_evaluation := apply (bool_decide_unpack _); vm_compute; exact I.

(** Closes an equation between closed terms by evaluating both sides. *)
Ltac by_computation := vm_compute; reflexivity.

(** * Distances *)

Lemma dist_le_refl a : dist_le a a.
Proof. destruct a; unfold dist_le; simpl; [case_bool_decide; [lia | done] | done]. Qed.

Lemma dist_le_trans a b c : dist_le a b → dist_le b c → dist_le a c.
Proof.
  unfold dist_le. destruct a, b, c; simpl; try done;
    repeat case_bool_decide; try done; lia.
Qed.

Lemma dist_ltb_le a b : dist_ltb a b = true → dist_le a b.
Proof.
  unfold dist_le. destruct a, b; simpl; try done;
    repeat case_bool_decide; try done; lia.
Qed.

Lemma dist_le_Fin a b : dist_le (Fin a) (Fin b) ↔ a ≤ b.
Proof.
  unfold dist_le; simpl. case_bool_decide; split; try done; lia.
Qed.

Lemma dist_le_Inf a : dist_le a Inf.
Proof. by destruct a. Qed.

Lemma dist_le_Fin_inv a k : dist_le a (Fin k) → ∃ j, a = Fin j ∧ j ≤ k.
Proof.
  destruct a as [j|]; [|done]. intros H%dist_le_Fin. eauto.
Qed.

Lemma dist_ltb_Fin a b : dist_ltb (Fin a) (Fin b) = true ↔ a < b.
Proof. simpl. by rewrite bool_decide_eq_true. Qed.

Lemma dist_ltb_irrefl a : dist_ltb a a = false.
Proof. apply dist_le_refl. Qed.

(** * heapq *)

Lemma entry_lt_true σ a b : heapq.entry_lt σ a b = true → dist_le a.1 b.1.
Proof.
  unfold heapq.entry_lt. destruct (decide (a.1 = b.1)) as [->|].
  - intros _. apply dist_le_refl.
  - apply dist_ltb_le.
Qed.

Lemma entry_lt_false σ a b : heapq.entry_lt σ a b = false → dist_le b.1 a.1.
Proof.
  unfold heapq.entry_lt. destruct (decide (a.1 = b.1)) as [->|].
  - intros _. apply dist_le_refl.
  - done.
Qed.

Lemma parent_cases pos :
  0 < pos → pos = 2 * ((pos - 1) / 2) + 1 ∨ pos = 2 * ((pos - 1) / 2) + 2.
Proof.
  intros Hpos.
  pose proof (Nat.div_mod_eq (pos - 1) 2) as Hd.
  pose proof (Nat.mod_upper_bound (pos - 1) 2) as Hm. lia.
Qed.

Lemma child_parent c i : c = 2 * i + 1 ∨ c = 2 * i + 2 → (c - 1) / 2 = i.
Proof.
  intros [->| ->].
  - replace (2 * i + 1 - 1) with (i * 2) by lia. by rewrite Nat.div_mul.
  - replace (2 * i + 2 - 1) with (1 + i * 2) by lia.
    rewrite Nat.div_add by done. done.
Qed.

Lemma lookup_total_Some (h : list heapq.entry) i :
  i < length h → h !! i = Some (h !!! i).
Proof. intros H. by apply list_lookup_lookup_total_lt. Qed.

Lemma list_delete_insert_same (h : list heapq.entry) i x :
  delete i (<[i := x]> h) = delete i h.
Proof.
  revert i. induction h as [|a h IH]; intros [|i]; simpl; try done.
  by rewrite IH.
Qed.

(** Filling two positions in turn moves one element. *)
Lemma insert_move_perm (h : list heapq.entry) i j x y :
  i < length h → h !! j = Some y →
  <[j := x]> (<[i := y]> h) ≡ₚ <[i := x]> h.
Proof.
  intros Hi Hj. destruct (decide (i = j)) as [->|Hne].
  { by rewrite list_insert_insert_eq. }
  assert (Hj' : j < length h) by (by eapply lookup_lt_Some).
  assert (H1 : <[i := x]> h ≡ₚ x :: delete i h).
  { rewrite (delete_Permutation (<[i := x]> h) i x)
      by (by apply list_lookup_insert_eq).
    by rewrite list_delete_insert_same. }
  assert (H2 : <[i := y]> h ≡ₚ y :: delete i h).
  { rewrite (delete_Permutation (<[i := y]> h) i y)
      by (by apply list_lookup_insert_eq).
    by rewrite list_delete_insert_same. }
  assert (H3 : <[i := y]> h ≡ₚ y :: delete j (<[i := y]> h)).
  { apply delete_Permutation. by rewrite list_lookup_insert_ne. }
  assert (H4 : delete j (<[i := y]> h) ≡ₚ delete i h).
  { apply (Permutation_cons_inv (a := y)). by rewrite <- H3, H2. }
  rewrite H1, <- H4.
  rewrite (delete_Permutation (<[j := x]> (<[i := y]> h)) j x).
  - by rewrite list_delete_insert_same.
  - apply list_lookup_insert_eq. by rewrite length_insert.
Qed.

Lemma heap_fill (h : list heapq.entry) pos new :
  pos < length h → heap_except h pos → below_ok h pos new →
  (0 < pos → ∀ x, h !! ((pos - 1) / 2) = Some x → dist_le x.1 new.1) →
  heap_ok (<[pos := new]> h).
Proof.
  intros Hlen Hex Hbelow Habove i j x y Hi Hj Hc.
  destruct (decide (i = pos)) as [->|Hip].
  - rewrite list_lookup_insert_eq in Hi by done. injection Hi as <-.
    rewrite list_lookup_insert_ne in Hj by lia. by eapply Hbelow.
  - rewrite list_lookup_insert_ne in Hi by done.
    destruct (decide (j = pos)) as [->|Hjp].
    + rewrite list_lookup_insert_eq in Hj by done. injection Hj as <-.
      apply Habove; [lia|]. by rewrite (child_parent pos i).
    + rewrite list_lookup_insert_ne in Hj by done. by eapply Hex.
Qed.

Lemma siftdown_step (h : list heapq.entry) pos new parent :
  0 < pos → pos < length h →
  h !! ((pos - 1) / 2) = Some parent →
  dist_le new.1 parent.1 →
  heap_except h pos → grand_ok h pos → below_ok h pos new →
  let h1 := <[pos := parent]> h in
  let p := (pos - 1) / 2 in
  heap_except h1 p ∧ grand_ok h1 p ∧ below_ok h1 p new.
Proof.
  intros Hpos Hlen Hparent Hnew Hex Hgrand Hbelow h1 p.
  pose proof (parent_cases pos Hpos) as Hpc. fold p in Hpc, Hparent.
  assert (Hup : ∀ x, 0 < p → h !! ((p - 1) / 2) = Some x →
                     dist_le x.1 parent.1).
  { intros x Hp Hx. pose proof (parent_cases p Hp).
    eapply (Hex ((p - 1) / 2) p); eauto; lia. }
  assert (Hdown : ∀ c y, c ≠ pos → h !! c = Some y →
                         c = 2 * p + 1 ∨ c = 2 * p + 2 →
                         dist_le parent.1 y.1).
  { intros c y Hcp Hy Hc. eapply (Hex p c); eauto; lia. }
  split_and!.
  - intros i j x y Hi Hj Hc Hip Hjp. unfold h1 in Hi, Hj.
    destruct (decide (i = pos)) as [->|Hne].
    + rewrite list_lookup_insert_eq in Hi by done. injection Hi as <-.
      rewrite list_lookup_insert_ne in Hj by lia.
      eapply Hgrand; eauto.
    + rewrite list_lookup_insert_ne in Hi by done.
      destruct (decide (j = pos)) as [->|Hne'].
      * exfalso. apply Hip. rewrite <- (child_parent pos i) by done. done.
      * rewrite list_lookup_insert_ne in Hj by done. by eapply Hex.
  - intros c x y Hp Hx Hy Hc. unfold h1 in Hx, Hy.
    pose proof (parent_cases p Hp).
    rewrite list_lookup_insert_ne in Hx by lia.
    destruct (decide (c = pos)) as [->|Hne].
    + rewrite list_lookup_insert_eq in Hy by done. injection Hy as <-.
      by apply Hup.
    + rewrite list_lookup_insert_ne in Hy by done.
      eapply dist_le_trans; [by apply Hup | by eapply Hdown].
  - intros c y Hy Hc. unfold h1 in Hy.
    destruct (decide (c = pos)) as [->|Hne].
    + rewrite list_lookup_insert_eq in Hy by done. by injection Hy as <-.
    + rewrite list_lookup_insert_ne in Hy by done.
      eapply dist_le_trans; [done | by eapply Hdown].
Qed.

Lemma siftdown_loop_spec σ new fuel :
  ∀ (h : list heapq.entry) pos h' pos',
    pos ≤ fuel → pos < length h →
    heap_except h pos → grand_ok h pos → below_ok h pos new →
    heapq._siftdown_loop fuel σ h 0 pos new = (h', pos') →
    heap_ok (<[pos' := new]> h') ∧ <[pos' := new]> h' ≡ₚ <[pos := new]> h.
Proof.
  induction fuel as [|fuel IH]; intros h pos h' pos' Hfuel Hlen Hex Hgr Hbe;
    cbn [heapq._siftdown_loop].
  - intros [= <- <-]. split; [|done].
    apply heap_fill; try done; lia.
  - destruct (decide (0 < pos)) as [Hpos|Hpos].
    2:{ intros [= <- <-]. split; [|done]. apply heap_fill; try done; lia. }
    pose proof (parent_cases pos Hpos) as Hpc.
    assert (Hp : h !! ((pos - 1) / 2) = Some (h !!! ((pos - 1) / 2))).
    { apply lookup_total_Some. lia. }
    destruct (heapq.entry_lt σ new (h !!! ((pos - 1) / 2))) eqn:Hlt.
    + intros Hloop.
      destruct (siftdown_step h pos new _ Hpos Hlen Hp
                  (entry_lt_true _ _ _ Hlt) Hex Hgr Hbe) as (H1 & H2 & H3).
      apply IH in Hloop as [Hok Hperm];
        [ | lia | rewrite length_insert; lia | done | done | done ].
      split; [done|]. rewrite Hperm. by apply insert_move_perm.
    + intros [= <- <-]. split; [|done]. apply heap_fill; try done.
      intros _ x Hx.
      rewrite Hp in Hx. injection Hx as <-.
      by eapply entry_lt_false.
Qed.

Lemma heap_ok_except (h : list heapq.entry) pos :
  heap_ok h → heap_except h pos.
Proof. intros H i j x y Hi Hj Hc _ _. by eapply H. Qed.

Lemma heap_ok_app_except (h : list heapq.entry) x :
  heap_ok h → heap_except (h ++ [x]) (length h).
Proof.
  intros H i j a b Hi Hj Hc Hil Hjl.
  assert (i < length h ∧ j < length h) as [Hi' Hj'].
  { apply lookup_lt_Some in Hi, Hj. rewrite length_app in Hi, Hj.
    simpl in *. lia. }
  rewrite lookup_app_l in Hi, Hj by done. by eapply H.
Qed.

Lemma heappush_spec σ (h : list heapq.entry) x :
  heap_ok h →
  heap_ok (heapq.heappush σ h x) ∧ heapq.heappush σ h x ≡ₚ x :: h.
Proof.
  intros Hok. unfold heapq.heappush, heapq._siftdown.
  assert (Hx : (h ++ [x]) !!! length h = x).
  { apply list_lookup_total_correct. by rewrite list_lookup_middle. }
  rewrite Hx.
  destruct (heapq._siftdown_loop _ _ _ _ _ _) as [h' pos'] eqn:Hloop.
  apply siftdown_loop_spec in Hloop as [H1 H2].
  - split; [done|]. rewrite H2.
    rewrite list_insert_id by (by rewrite list_lookup_middle).
    by rewrite Permutation_app_comm.
  - done.
  - rewrite length_app. simpl. lia.
  - by apply heap_ok_app_except.
  - intros c a b _ _ Hc Hcc. apply lookup_lt_Some in Hc.
    rewrite length_app in Hc. simpl in Hc. lia.
  - intros c b Hc Hcc. apply lookup_lt_Some in Hc.
    rewrite length_app in Hc. simpl in Hc. lia.
Qed.

(** [heappush] keeps every queued entry, whatever the shape of the list. *)
Lemma heappush_perm σ (h : list heapq.entry) x :
  heapq.heappush σ h x ≡ₚ x :: h.
Proof.
  unfold heapq.heappush, heapq._siftdown.
  assert (Hx : (h ++ [x]) !!! length h = x).
  { apply list_lookup_total_correct. by rewrite list_lookup_middle. }
  rewrite Hx.
  assert (Hgen : ∀ fuel (l : list heapq.entry) pos l' pos',
    pos < length l →
    heapq._siftdown_loop fuel σ l 0 pos x = (l', pos') →
    <[pos' := x]> l' ≡ₚ <[pos := x]> l).
  { induction fuel as [|fuel IH]; intros l pos l' pos' Hlen;
      cbn [heapq._siftdown_loop].
    - by intros [= <- <-].
    - destruct (decide (0 < pos)) as [Hpos|]; [|by intros [= <- <-]].
      pose proof (parent_cases pos Hpos).
      destruct (heapq.entry_lt _ _ _); [|by intros [= <- <-]].
      intros Hloop. apply IH in Hloop.
      + rewrite Hloop. apply insert_move_perm; [done|].
        apply lookup_total_Some. lia.
      + rewrite length_insert. lia. }
  destruct (heapq._siftdown_loop _ _ _ _ _ _) as [h' pos'] eqn:Hloop.
  apply Hgen in Hloop.
  - rewrite Hloop.
    rewrite list_insert_id by (by rewrite list_lookup_middle).
    by rewrite Permutation_app_comm.
  - rewrite length_app. simpl. lia.
Qed.

Lemma siftup_loop_spec σ new fuel :
  ∀ (h : list heapq.entry) pos h' pos',
    length h ≤ pos + fuel → pos < length h →
    heap_except h pos → grand_ok h pos →
    heapq._siftup_loop fuel σ h (length h) pos = (h', pos') →
    length h' = length h ∧ pos' < length h ∧ length h ≤ 2 * pos' + 1 ∧
    heap_except h' pos' ∧ <[pos' := new]> h' ≡ₚ <[pos := new]> h.
Proof.
  induction fuel as [|fuel IH]; intros h pos h' pos' Hfuel Hlen Hex Hgr;
    cbn [heapq._siftup_loop].
  - intros [= <- <-]. split_and!; try done; lia.
  - destruct (decide (2 * pos + 1 < length h)) as [Hchild|Hleaf].
    2:{ intros [= <- <-]. split_and!; try done; lia. }
    set (c := if bool_decide (2 * pos + 1 + 1 < length h)
                 && negb (heapq.entry_lt σ (h !!! (2 * pos + 1))
                            (h !!! (2 * pos + 1 + 1)))
              then 2 * pos + 1 + 1 else 2 * pos + 1).
    assert (Hc : (c = 2 * pos + 1 ∨ c = 2 * pos + 2) ∧ c < length h).
    { unfold c. destruct (bool_decide _) eqn:Hb; simpl.
      - apply bool_decide_eq_true in Hb.
        destruct (heapq.entry_lt _ _ _); simpl; lia.
      - lia. }
    destruct Hc as [Hc Hclen].
    assert (Hsib : ∀ j y, h !! j = Some y →
                     j = 2 * pos + 1 ∨ j = 2 * pos + 2 →
                     dist_le (h !!! c).1 y.1).
    { intros j y Hj Hjc. pose proof (lookup_lt_Some _ _ _ Hj) as Hjlen.
      destruct (decide (j = c)) as [->|Hjne].
      { rewrite lookup_total_Some in Hj by done. injection Hj as <-.
        apply dist_le_refl. }
      unfold c in *. destruct (bool_decide _) eqn:Hb; simpl in *.
      - destruct (heapq.entry_lt _ _ _) eqn:Hlt; simpl in *.
        + assert (j = 2 * pos + 1 + 1) as -> by lia.
          rewrite lookup_total_Some in Hj by done. injection Hj as <-.
          by eapply entry_lt_true.
        + assert (j = 2 * pos + 1) as -> by lia.
          rewrite lookup_total_Some in Hj by done. injection Hj as <-.
          by eapply entry_lt_false.
      - apply bool_decide_eq_false in Hb. lia. }
    intros Hloop.
    pose proof (IH (<[pos := h !!! c]> h) c h' pos') as IH'.
    rewrite length_insert in IH'.
    destruct IH' as (H1 & H2 & H3 & H4 & H5); try done; try lia.
    + intros i j x y Hi Hj Hij Hic Hjc.
      destruct (decide (i = pos)) as [->|Hip].
      * rewrite list_lookup_insert_eq in Hi by done. injection Hi as <-.
        rewrite list_lookup_insert_ne in Hj by lia. by eapply Hsib.
      * rewrite list_lookup_insert_ne in Hi by done.
        destruct (decide (j = pos)) as [->|Hjp].
        -- rewrite list_lookup_insert_eq in Hj by done. injection Hj as <-.
           eapply (Hgr c x); try done; [lia| |by apply lookup_total_Some].
           by rewrite (child_parent pos i).
        -- rewrite list_lookup_insert_ne in Hj by done. by eapply Hex.
    + intros cc x y _ Hx Hy Hcc.
      rewrite (child_parent c pos) in Hx by done.
      rewrite list_lookup_insert_eq in Hx by done. injection Hx as <-.
      rewrite list_lookup_insert_ne in Hy by lia.
      eapply (Hex c cc); eauto; try lia. by apply lookup_total_Some.
    + split_and!; try done. rewrite H5.
      apply insert_move_perm; [done|]. by apply lookup_total_Some.
Qed.

Lemma siftup_spec σ (h : list heapq.entry) :
  0 < length h → heap_except h 0 →
  heap_ok (heapq._siftup σ h 0) ∧ heapq._siftup σ h 0 ≡ₚ h.
Proof.
  intros Hlen Hex. unfold heapq._siftup.
  destruct (heapq._siftup_loop _ _ _ _ _) as [h' pos'] eqn:Hup.
  apply (siftup_loop_spec σ (h !!! 0)) in Hup
    as (H1 & H2 & H3 & H4 & H5); try done; try lia.
  2:{ intros c x y Hpos. lia. }
  unfold heapq._siftdown.
  assert (Hnew : <[pos' := h !!! 0]> h' !!! pos' = h !!! 0).
  { apply list_lookup_total_correct, list_lookup_insert_eq. lia. }
  rewrite Hnew.
  destruct (heapq._siftdown_loop _ _ _ _ _ _) as [h'' pos''] eqn:Hdown.
  apply siftdown_loop_spec in Hdown as [Hok Hperm].
  - split; [done|]. rewrite Hperm, list_insert_insert_eq, H5.
    rewrite list_insert_id; [done|]. by apply lookup_total_Some.
  - done.
  - rewrite length_insert. lia.
  - intros i j x y Hi Hj Hij Hip Hjp.
    rewrite list_lookup_insert_ne in Hi, Hj by done. by eapply H4.
  - intros c x y _ _ Hc Hcc. apply lookup_lt_Some in Hc.
    rewrite length_insert in Hc. lia.
  - intros c y Hc Hcc. apply lookup_lt_Some in Hc.
    rewrite length_insert in Hc. lia.
Qed.

(** The root of a heap carries a least recorded distance. *)
Lemma heap_root_min (h : list heapq.entry) x :
  heap_ok h → h !! 0 = Some x → ∀ i y, h !! i = Some y → dist_le x.1 y.1.
Proof.
  intros Hok Hx i. induction (lt_wf i) as [i _ IH]. intros y Hy.
  destruct (decide (i = 0)) as [->|Hi].
  { rewrite Hx in Hy. injection Hy as <-. apply dist_le_refl. }
  pose proof (parent_cases i ltac:(lia)) as Hpc.
  assert (Hp : (i - 1) / 2 < length h).
  { apply lookup_lt_Some in Hy. lia. }
  eapply dist_le_trans.
  - apply (IH ((i - 1) / 2)); [lia|]. by apply lookup_total_Some.
  - eapply (Hok ((i - 1) / 2) i); [by apply lookup_total_Some | done | lia].
Qed.

Lemma heappop_None σ (h : list heapq.entry) :
  heapq.heappop σ h = None ↔ h = [].
Proof.
  unfold heapq.heappop. split.
  - destruct (last h) eqn:Hl.
    + by destruct (removelast h).
    + intros _. by apply last_None.
  - by intros ->.
Qed.

Lemma heappop_spec σ (h : list heapq.entry) x h' :
  heap_ok h → heapq.heappop σ h = Some (x, h') →
  h ≡ₚ x :: h' ∧ heap_ok h' ∧ ∀ y, y ∈ h → dist_le x.1 y.1.
Proof.
  intros Hok. unfold heapq.heappop.
  destruct (last h) as [lastelt|] eqn:Hl; [|done].
  apply last_Some in Hl as [front ->].
  rewrite removelast_last.
  destruct front as [|returnitem rest].
  - intros [= <- <-]. split_and!; [done| |].
    + intros i j x y Hi. by rewrite lookup_nil in Hi.
    + intros y ->%list_elem_of_singleton. apply dist_le_refl.
  - intros [= <- <-].
    destruct (siftup_spec σ (lastelt :: rest)) as [H1 H2].
    + simpl. lia.
    + intros i j a b Hi Hj Hij Hi0 Hj0.
      destruct i as [|i], j as [|j]; try done. simpl in Hi, Hj.
      eapply (Hok (S i) (S j)); [| |done].
      * simpl. rewrite lookup_app_l; [done|]. by eapply lookup_lt_Some.
      * simpl. rewrite lookup_app_l; [done|]. by eapply lookup_lt_Some.
    + split_and!; [|done|].
      * rewrite H2. simpl. constructor.
        by rewrite Permutation_app_comm.
      * intros y [i Hy]%list_elem_of_lookup.
        by eapply (heap_root_min _ _ Hok).
Qed.

(** * The store *)

Lemma deref_modify_ne f a b (σ : store) :
  a ≠ b → deref (modify f a σ) b = deref σ b.
Proof. intros. unfold deref, modify. by rewrite lookup_total_alter_ne. Qed.

Lemma deref_modify_eq f a (σ : store) :
  a ∈ dom σ → deref (modify f a σ) a = f (deref σ a).
Proof.
  intros [nd Hnd]%elem_of_dom. unfold deref, modify.
  rewrite lookup_total_alter_eq, lookup_total_alt, Hnd. done.
Qed.

Lemma deref_modify_proj {B} (proj : Node.t → B) f a b (σ : store) :
  (∀ nd, proj (f nd) = proj nd) →
  proj (deref (modify f a σ) b) = proj (deref σ b).
Proof.
  intros Hf. unfold deref, modify. rewrite lookup_total_alter.
  case_decide; [subst|done]. rewrite lookup_total_alt.
  destruct (σ !! b); simpl; auto.
Qed.

Lemma dom_modify f a (σ : store) : dom (modify f a σ) = dom σ.
Proof. apply dom_alter_L. Qed.

Lemma lookup_modify f a b (σ : store) :
  modify f a σ !! b = if decide (a = b) then f <$> σ !! b else σ !! b.
Proof.
  unfold modify. case_decide; [subst; apply lookup_alter_eq|].
  by apply lookup_alter_ne.
Qed.

Lemma deref_lookup (σ : store) a nd : σ !! a = Some nd → deref σ a = nd.
Proof. apply lookup_total_correct. Qed.

Lemma lookup_deref (σ : store) a : a ∈ dom σ → σ !! a = Some (deref σ a).
Proof. intros H%elem_of_dom. by apply lookup_lookup_total. Qed.

(** * One call of [step], case by case *)

Lemma step_terminal fuel σ e :
  DijkstraAlgorithm.priority_queue e = [] ∨
  DijkstraAlgorithm.is_complete e = true →
  DijkstraAlgorithm.step fuel σ e =
    Some (σ, DijkstraAlgorithm.set_flags false true
               (DijkstraAlgorithm.path_found e) e, (false, None)).
Proof.
  intros H. unfold DijkstraAlgorithm.step.
  destruct H as [->| ->]; [done|]. by rewrite orb_true_r.
Qed.

Lemma pops_nonempty σ e d n q :
  pops σ e d n q →
  bool_decide (DijkstraAlgorithm.priority_queue e = [])
  || DijkstraAlgorithm.is_complete e = false.
Proof.
  intros [Hc Hpop]. rewrite Hc, orb_false_r. apply bool_decide_eq_false.
  intros Hnil. rewrite Hnil in Hpop. done.
Qed.

Lemma step_discard fuel σ e d n q :
  pops σ e d n q → discarded σ e d n →
  DijkstraAlgorithm.step fuel σ e =
    Some (σ, DijkstraAlgorithm.set_priority_queue q e, (true, None)).
Proof.
  intros Hpops Hdis. unfold DijkstraAlgorithm.step.
  rewrite (pops_nonempty _ _ _ _ _ Hpops).
  destruct Hpops as [_ ->].
  destruct (dist_ltb _ d) eqn:Hstale; [done|].
  destruct Hdis as [Hd|Hv]; [congruence|].
  by rewrite decide_True.
Qed.

Lemma step_found fuel σ e d n q :
  pops σ e d n q → fresh_pop σ e d n →
  Some n = DijkstraAlgorithm.end_node e →
  DijkstraAlgorithm.step fuel σ e =
    match DijkstraAlgorithm._reconstruct_path fuel
            (DijkstraAlgorithm.mark_explored n σ)
            (DijkstraAlgorithm.set_flags false true true (visiting e n q))
    with
    | None => None
    | Some (σ', e') => Some (σ', e', (false, Some n))
    end.
Proof.
  intros Hpops [Hd Hv] Hend. unfold DijkstraAlgorithm.step.
  rewrite (pops_nonempty _ _ _ _ _ Hpops).
  destruct Hpops as [_ ->]. rewrite Hd.
  rewrite decide_False by done. by rewrite decide_True.
Qed.

Lemma step_expand fuel σ e d n q :
  pops σ e d n q → fresh_pop σ e d n →
  Some n ≠ DijkstraAlgorithm.end_node e →
  DijkstraAlgorithm.step fuel σ e =
    let r := DijkstraAlgorithm.relax_all (visiting e n q) n
               (DijkstraAlgorithm.mark_explored n σ) in
    Some (r.1, DijkstraAlgorithm.set_priority_queue r.2 (visiting e n q),
          (true, Some n)).
Proof.
  intros Hpops [Hd Hv] Hend. unfold DijkstraAlgorithm.step.
  rewrite (pops_nonempty _ _ _ _ _ Hpops).
  destruct Hpops as [_ ->]. rewrite Hd.
  rewrite decide_False by done. rewrite decide_False by done.
  simpl. by destruct (DijkstraAlgorithm.relax_all _ _ _).
Qed.

(** Every call of [step] is one of the four cases. *)
Lemma step_cases σ e :
  (DijkstraAlgorithm.priority_queue e = [] ∨
   DijkstraAlgorithm.is_complete e = true) ∨
  ∃ d n q, pops σ e d n q ∧ (discarded σ e d n ∨ fresh_pop σ e d n).
Proof.
  destruct (DijkstraAlgorithm.is_complete e) eqn:Hc; [by left; right|].
  destruct (heapq.heappop σ (DijkstraAlgorithm.priority_queue e))
    as [[[d n] q]|] eqn:Hpop.
  - right. exists d, n, q. split; [done|].
    unfold discarded, fresh_pop.
    destruct (dist_ltb _ d); [by left; left|].
    destruct (decide (n ∈ DijkstraAlgorithm.visited_nodes e)); auto.
  - left; left. by apply heappop_None in Hpop.
Qed.

(** * What the parts of [step] leave unchanged *)

Lemma dom_mark_explored n (σ : store) :
  dom (DijkstraAlgorithm.mark_explored n σ) = dom σ.
Proof.
  unfold DijkstraAlgorithm.mark_explored.
  destruct (_ && _); [apply dom_modify | done].
Qed.

Lemma mark_explored_proj {B} (proj : Node.t → B) n a (σ : store) :
  (∀ s nd, proj (Node.set_state s nd) = proj nd) →
  proj (deref (DijkstraAlgorithm.mark_explored n σ) a) = proj (deref σ a).
Proof.
  intros Hproj. unfold DijkstraAlgorithm.mark_explored.
  destruct (_ && _); [|done]. by apply deref_modify_proj.
Qed.

Lemma dom_mark_path l (σ : store) :
  dom (DijkstraAlgorithm.mark_path l σ) = dom σ.
Proof.
  revert σ. induction l as [|a l IH]; intros σ; [done|].
  unfold DijkstraAlgorithm.mark_path in *. simpl.
  by rewrite IH, dom_modify.
Qed.

Lemma mark_path_proj {B} (proj : Node.t → B) l a (σ : store) :
  (∀ s nd, proj (Node.set_state s nd) = proj nd) →
  proj (deref (DijkstraAlgorithm.mark_path l σ) a) = proj (deref σ a).
Proof.
  intros Hproj. revert σ. induction l as [|b l IH]; intros σ; [done|].
  unfold DijkstraAlgorithm.mark_path in *. simpl.
  rewrite IH. by apply deref_modify_proj.
Qed.

(** Applying an idempotent update to every node of a list. *)
Lemma lookup_modify_all f l a (σ : store) :
  (∀ nd, f (f nd) = f nd) →
  foldl (λ σ a, modify f a σ) σ l !! a =
    if decide (a ∈ l) then f <$> σ !! a else σ !! a.
Proof.
  intros Hf. revert σ. induction l as [|b l IH]; intros σ.
  { by rewrite decide_False by apply not_elem_of_nil. }
  simpl. rewrite IH. rewrite lookup_modify.
  destruct (decide (b = a)) as [->|Hne].
  - rewrite (decide_True (P := a ∈ a :: l)) by apply list_elem_of_here.
    destruct (decide (a ∈ l)); [|done].
    destruct (σ !! a); simpl; [|done]. by rewrite Hf.
  - destruct (decide (a ∈ l)) as [Hin|Hin].
    + by rewrite decide_True by (by apply list_elem_of_further).
    + rewrite decide_False; [done|].
      intros [?|?]%elem_of_cons; congruence.
Qed.

(** The nodes of [l] get the on-path state; nothing else changes. *)
Lemma lookup_mark_path l a (σ : store) :
  DijkstraAlgorithm.mark_path l σ !! a =
    if decide (a ∈ l) then Node.set_state PATH <$> σ !! a else σ !! a.
Proof. by apply lookup_modify_all. Qed.

Lemma dom_improve c nb (σ : store) : dom (improve c nb σ) = dom σ.
Proof. unfold improve. by rewrite !dom_modify. Qed.

Lemma deref_improve_ne c nb a (σ : store) :
  a ≠ nb → deref (improve c nb σ) a = deref σ a.
Proof. intros. unfold improve. by rewrite !deref_modify_ne. Qed.

Lemma deref_improve_eq c nb (σ : store) :
  nb ∈ dom σ →
  deref (improve c nb σ) nb =
    Node.set_previous (Some c)
      (Node.set_distance (dist_succ (Node.distance (deref σ c)))
         (deref σ nb)).
Proof.
  intros Hnb. unfold improve.
  rewrite deref_modify_eq by (by rewrite dom_modify).
  by rewrite deref_modify_eq.
Qed.

Lemma improve_proj {B} (proj : Node.t → B) c nb a (σ : store) :
  (∀ d nd, proj (Node.set_distance d nd) = proj nd) →
  (∀ p nd, proj (Node.set_previous p nd) = proj nd) →
  proj (deref (improve c nb σ) a) = proj (deref σ a).
Proof.
  intros H1 H2. unfold improve.
  rewrite deref_modify_proj by done. by rewrite deref_modify_proj.
Qed.

(** One turn of the neighbour loop either skips or improves. *)
Lemma relax_cases e c (σ : store) q nb :
  let new := dist_succ (Node.distance (deref σ c)) in
  (((dist_ltb new (Node.distance (deref σ nb)) = false ∨
     nb ∈ DijkstraAlgorithm.visited_nodes e) ∧
    DijkstraAlgorithm.relax e c (σ, q) nb = (σ, q)) ∨
   ((nb ∉ DijkstraAlgorithm.visited_nodes e) ∧
    dist_ltb new (Node.distance (deref σ nb)) = true ∧
    DijkstraAlgorithm.relax e c (σ, q) nb =
      (improve c nb σ, heapq.heappush (improve c nb σ) q (new, nb)))).
Proof.
  intros new. unfold DijkstraAlgorithm.relax.
  destruct (decide (nb ∈ DijkstraAlgorithm.visited_nodes e)); [by left; auto|].
  fold new. destruct (dist_ltb new _) eqn:Hlt; [|by left; auto].
  right. done.
Qed.

(** An induction principle for the neighbour loop. *)
Lemma relax_all_ind (P : store → list heapq.entry → Prop) e c :
  ∀ l (σ : store) q,
    (∀ σ q nb, P σ q → nb ∈ l →
       nb ∉ DijkstraAlgorithm.visited_nodes e →
       dist_ltb (dist_succ (Node.distance (deref σ c)))
                (Node.distance (deref σ nb)) = true →
       P (improve c nb σ)
         (heapq.heappush (improve c nb σ) q
            (dist_succ (Node.distance (deref σ c)), nb))) →
    P σ q →
    P (foldl (DijkstraAlgorithm.relax e c) (σ, q) l).1
      (foldl (DijkstraAlgorithm.relax e c) (σ, q) l).2.
Proof.
  induction l as [|nb l IH]; intros σ q Hstep HP; [done|].
  cbn [foldl].
  destruct (relax_cases e c σ q nb) as [[_ ->]|(Hv & Hlt & ->)].
  - apply IH; [|done]. intros σ' q' nb' HP' Hin. apply Hstep; [done|].
    by apply list_elem_of_further.
  - apply IH.
    + intros σ' q' nb' HP' Hin. apply Hstep; [done|].
      by apply list_elem_of_further.
    + apply Hstep; try done. apply list_elem_of_here.
Qed.

(** * Visited nodes keep their distance *)

Lemma reconstruct_path_cases fuel (σ : store) e σ' e' :
  DijkstraAlgorithm._reconstruct_path fuel σ e = Some (σ', e') →
  (DijkstraAlgorithm.path_found e = false ∧ σ' = σ ∧ e' = e) ∨
  (DijkstraAlgorithm.path_found e = true ∧
   ∃ path_nodes,
     DijkstraAlgorithm.walk_previous fuel σ (DijkstraAlgorithm.end_node e)
       = Some path_nodes ∧
     σ' = DijkstraAlgorithm.mark_path
            (DijkstraAlgorithm.interior path_nodes) σ ∧
     e' = DijkstraAlgorithm.set_path_length
            (Z.of_nat (length path_nodes) - 1)%Z e).
Proof.
  unfold DijkstraAlgorithm._reconstruct_path.
  destruct (DijkstraAlgorithm.path_found e); simpl.
  - destruct (DijkstraAlgorithm.walk_previous _ _ _) as [l|]; [|done].
    intros [= <- <-]. right. eauto.
  - intros [= <- <-]. by left.
Qed.

Lemma step_visited_frame fuel (σ : store) e σ' e' r n :
  DijkstraAlgorithm.step fuel σ e = Some (σ', e', r) →
  n ∈ DijkstraAlgorithm.visited_nodes e →
  n ∈ DijkstraAlgorithm.visited_nodes e' ∧
  Node.distance (deref σ' n) = Node.distance (deref σ n).
Proof.
  intros Hstep Hn.
  destruct (step_cases σ e) as [Hterm|(d & c & q & Hpops & [Hdis|Hfresh])].
  - rewrite (step_terminal fuel σ e Hterm) in Hstep.
    by injection Hstep as <- <- <-.
  - rewrite (step_discard fuel σ e d c q Hpops Hdis) in Hstep.
    by injection Hstep as <- <- <-.
  - destruct (decide (Some c = DijkstraAlgorithm.end_node e)) as [Hend|Hend].
    + rewrite (step_found fuel σ e d c q Hpops Hfresh Hend) in Hstep.
      destruct (DijkstraAlgorithm._reconstruct_path _ _ _)
        as [[σ1 e1]|] eqn:Hrec; [|done].
      injection Hstep as <- <- <-.
      apply reconstruct_path_cases in Hrec
        as [(_ & -> & ->)|(_ & l & _ & -> & ->)]; simpl.
      * split; [set_solver|]. by apply mark_explored_proj.
      * split; [set_solver|].
        rewrite mark_path_proj by done. by apply mark_explored_proj.
    + rewrite (step_expand fuel σ e d c q Hpops Hfresh Hend) in Hstep.
      injection Hstep as <- <- <-. simpl. split; [set_solver|].
      unfold DijkstraAlgorithm.relax_all.
      rewrite <- (mark_explored_proj Node.distance c n σ) by done.
      apply (relax_all_ind
               (λ σ1 _, Node.distance (deref σ1 n) =
                        Node.distance
                          (deref (DijkstraAlgorithm.mark_explored c σ) n)));
        [|done].
      intros σ1 q1 nb Heq _ Hnb _. rewrite <- Heq.
      apply (f_equal Node.distance), deref_improve_ne.
      intros ->. apply Hnb. simpl. set_solver.
Qed.

(** * The invariant holds along every run *)

Lemma fresh_deref (σ : store) a :
  fresh σ →
  Node.distance (deref σ a) = Inf ∧ Node.previous (deref σ a) = None.
Proof.
  intros Hfresh. unfold deref. rewrite lookup_total_alt.
  destruct (σ !! a) as [nd|] eqn:Ha; simpl; [by eapply Hfresh | done].
Qed.

Lemma closed_spec (σ : store) a b :
  closed σ → a ∈ dom σ → b ∈ Node.neighbors (deref σ a) → b ∈ dom σ.
Proof.
  intros Hclosed Ha Hb. apply lookup_deref in Ha.
  specialize (Hclosed _ _ Ha). simpl in Hclosed.
  rewrite Forall_forall in Hclosed. by apply Hclosed.
Qed.

Lemma same_traversal_refl (σ : store) : same_traversal σ σ.
Proof. by split. Qed.

Lemma same_traversal_trans (σ1 σ2 σ3 : store) :
  same_traversal σ1 σ2 → same_traversal σ2 σ3 → same_traversal σ1 σ3.
Proof.
  intros [D1 H1] [D2 H2]. split; [congruence|]. intros a.
  destruct (H1 a) as (?&?&?), (H2 a) as (?&?&?). split_and!; congruence.
Qed.

Lemma same_traversal_mark_explored n (σ : store) :
  same_traversal σ (DijkstraAlgorithm.mark_explored n σ).
Proof.
  split; [apply dom_mark_explored|]. intros a.
  split_and!; by apply mark_explored_proj.
Qed.

Lemma same_traversal_mark_path l (σ : store) :
  same_traversal σ (DijkstraAlgorithm.mark_path l σ).
Proof.
  split; [apply dom_mark_path|]. intros a.
  split_and!; by apply mark_path_proj.
Qed.

Lemma Core_same σ0 s (σ σ' : store) e :
  same_traversal σ σ' → Core σ0 s σ e → Core σ0 s σ' e.
Proof.
  intros [Hdom Hsame] HC.
  assert (Hd : ∀ a, Node.distance (deref σ' a) = Node.distance (deref σ a))
    by (intros a; apply Hsame).
  assert (Hp : ∀ a, Node.previous (deref σ' a) = Node.previous (deref σ a))
    by (intros a; apply Hsame).
  assert (Hn : ∀ a, Node.neighbors (deref σ' a) = Node.neighbors (deref σ a))
    by (intros a; apply Hsame).
  constructor.
  - rewrite Hdom. apply (core_dom HC).
  - intros a. rewrite Hn. apply (core_nbrs HC).
  - apply (core_start HC).
  - rewrite Hdom. apply (core_s_dom HC).
  - rewrite Hd. apply (core_s_dist HC).
  - rewrite Hp. apply (core_s_prev HC).
  - rewrite Hdom. apply (core_visited HC).
  - apply (core_count HC).
  - apply (core_heap HC).
  - intros d a Hin. rewrite Hdom, Hd. by apply (core_queue HC).
  - intros a u. rewrite Hp, !Hd. apply (core_prev HC).
  - intros a. rewrite Hp, Hd. apply (core_noprev HC).
  - intros a k. rewrite Hd. apply (core_bound HC).
  - apply (core_found HC).
Qed.

Lemma Running_same (σ σ' : store) e :
  same_traversal σ σ' → Running σ e → Running σ' e.
Proof.
  intros [Hdom Hsame] HR.
  assert (Hd : ∀ a, Node.distance (deref σ' a) = Node.distance (deref σ a))
    by (intros a; apply Hsame).
  assert (Hn : ∀ a, Node.neighbors (deref σ' a) = Node.neighbors (deref σ a))
    by (intros a; apply Hsame).
  constructor.
  - intros a k. rewrite Hd. apply (run_queued HR).
  - intros v d a. rewrite Hd. apply (run_settled HR).
  - intros v b. unfold relaxed_from. rewrite Hn, !Hd.
    apply (run_expanded HR).
  - apply (run_end HR).
Qed.

Lemma init_Inv (σ0 : store) s t σ e :
  fresh σ0 → s ∈ dom σ0 →
  DijkstraAlgorithm.init σ0 (Some s) t = inr (σ, e) →
  Inv σ0 s σ e.
Proof.
  intros Hfresh Hs [= <- <-].
  assert (Hds : deref (modify (Node.set_distance (Fin 0)) s σ0) s
                = Node.set_distance (Fin 0) (deref σ0 s))
    by (by apply deref_modify_eq).
  assert (Hother : ∀ a k,
    Node.distance (deref (modify (Node.set_distance (Fin 0)) s σ0) a)
      = Fin k → a = s ∧ k = 0).
  { intros a k. destruct (decide (a = s)) as [->|Hne].
    - rewrite Hds. simpl. by intros [= <-].
    - rewrite deref_modify_ne by done.
      destruct (fresh_deref σ0 a Hfresh) as [-> _]. done. }
  assert (Hprev : ∀ a,
    Node.previous (deref (modify (Node.set_distance (Fin 0)) s σ0) a)
      = None).
  { intros a. rewrite (deref_modify_proj Node.previous) by done.
    by apply fresh_deref. }
  split.
  - constructor; simpl; try done.
    + apply dom_modify.
    + intros a. by apply (deref_modify_proj Node.neighbors).
    + by rewrite dom_modify.
    + by rewrite Hds.
    + intros i j x y Hi Hj Hij.
      apply lookup_lt_Some in Hj. simpl in Hj. lia.
    + intros d a [= -> ->]%list_elem_of_singleton.
      split; [by rewrite dom_modify|]. exists 0. split; [done|].
      rewrite Hds. apply dist_le_refl.
    + intros a u. by rewrite Hprev.
    + intros a _. destruct (decide (a = s)); [by left|right].
      rewrite deref_modify_ne by done. by apply fresh_deref.
    + intros a k Hk. apply Hother in Hk as [_ ->]. done.
  - intros _. constructor; simpl.
    + intros a k _ Hk. apply Hother in Hk as [-> ->].
      apply list_elem_of_here.
    + intros v d a Hv. set_solver.
    + intros v b Hv. set_solver.
    + intros t' _. set_solver.
Qed.

Lemma pops_spec σ0 s (σ : store) e d n q :
  Core σ0 s σ e → pops σ e d n q →
  DijkstraAlgorithm.priority_queue e ≡ₚ (d, n) :: q ∧ heap_ok q ∧
  (∀ y, y ∈ DijkstraAlgorithm.priority_queue e → dist_le d y.1) ∧
  n ∈ dom σ ∧
  ∃ k, d = Fin k ∧ dist_le (Node.distance (deref σ n)) d.
Proof.
  intros HC [_ Hpop].
  destruct (heappop_spec _ _ _ _ (core_heap HC) Hpop) as (Hperm & Hok & Hmin).
  split_and!; try done.
  - apply (core_queue HC d n). rewrite Hperm. apply list_elem_of_here.
  - apply (core_queue HC d n). rewrite Hperm. apply list_elem_of_here.
Qed.

(** A popped tuple that is not stale carries the node's distance. *)
Lemma fresh_pop_dist σ0 s (σ : store) e d n q :
  Core σ0 s σ e → pops σ e d n q → fresh_pop σ e d n →
  ∃ k, d = Fin k ∧ Node.distance (deref σ n) = Fin k.
Proof.
  intros HC Hpops [Hd _].
  destruct (pops_spec _ _ _ _ _ _ _ HC Hpops) as (_ & _ & _ & _ & k & -> & Hle).
  exists k. split; [done|].
  apply dist_le_Fin_inv in Hle as (j & Hj & Hjk). rewrite Hj in Hd |- *.
  apply bool_decide_eq_false in Hd. f_equal. lia.
Qed.

Lemma terminal_Inv σ0 s (σ : store) e :
  Inv σ0 s σ e →
  Inv σ0 s σ (DijkstraAlgorithm.set_flags false true
                (DijkstraAlgorithm.path_found e) e).
Proof.
  intros [HC _]. split; [|done].
  constructor; simpl; try use_core HC. done.
Qed.

Lemma discard_Inv σ0 s (σ : store) e d n q :
  Inv σ0 s σ e → pops σ e d n q → discarded σ e d n →
  Inv σ0 s σ (DijkstraAlgorithm.set_priority_queue q e).
Proof.
  intros [HC HR] Hpops Hdis.
  destruct (pops_spec _ _ _ _ _ _ _ HC Hpops)
    as (Hperm & Hok & Hmin & Hn & k & -> & Hle).
  assert (Hsub : ∀ y, y ∈ q → y ∈ DijkstraAlgorithm.priority_queue e).
  { intros y Hy. rewrite Hperm. by apply list_elem_of_further. }
  split.
  - constructor; simpl; try use_core HC; try done.
    intros d a Hin. apply (core_queue HC). by apply Hsub.
  - simpl. intros Hc. specialize (HR Hc). constructor; simpl.
    + intros a j Ha Hj.
      pose proof (run_queued HR a j Ha Hj) as Hin.
      rewrite Hperm in Hin. apply elem_of_cons in Hin as [[= -> ->]|Hin];
        [|done].
      exfalso. destruct Hdis as [Hstale|Hvis]; [|done].
      rewrite Hj in Hstale. by rewrite dist_ltb_irrefl in Hstale.
    + intros v d a Hv Hin. apply (run_settled HR v d a Hv). by apply Hsub.
    + apply (run_expanded HR).
    + apply (run_end HR).
Qed.

Lemma visiting_Core σ0 s (σ : store) e d n q :
  Core σ0 s σ e → pops σ e d n q → fresh_pop σ e d n →
  Core σ0 s σ (visiting e n q).
Proof.
  intros HC Hpops [_ Hv].
  destruct (pops_spec _ _ _ _ _ _ _ HC Hpops)
    as (Hperm & Hok & Hmin & Hn & k & -> & Hle).
  pose proof (core_visited HC) as HV.
  constructor; simpl; try use_core HC; try done.
  - set_solver.
  - rewrite size_union by set_solver. rewrite size_singleton.
    by rewrite (core_count HC).
  - intros d a Hin. apply (core_queue HC). rewrite Hperm.
    by apply list_elem_of_further.
  - intros a u Hu. destruct (core_prev HC a u Hu) as [HuV Hk].
    split; [set_solver|done].
  - intros a j Hj. pose proof (core_bound HC a j Hj). lia.
Qed.

Lemma Core_flags σ0 s (σ : store) e running found len :
  Core σ0 s σ e →
  Core σ0 s σ (DijkstraAlgorithm.set_path_length len
                 (DijkstraAlgorithm.set_flags running true found e)).
Proof. intros HC. constructor; simpl; try use_core HC; done. Qed.

Lemma walk_previous_None fuel (σ : store) :
  DijkstraAlgorithm.walk_previous fuel σ None = Some [].
Proof. by destruct fuel. Qed.

(** Following [previous] from a reached node ends at the start node, one
    node per unit of distance. *)
Lemma walk_previous_total σ0 s (σ : store) e :
  Core σ0 s σ e →
  ∀ k a fuel, Node.distance (deref σ a) = Fin k → k < fuel →
    ∃ chain,
      DijkstraAlgorithm.walk_previous fuel σ (Some a) = Some chain ∧
      length chain = S k ∧ head chain = Some a ∧ last chain = Some s ∧
      ∀ i b, chain !! i = Some b →
        Node.distance (deref σ b) = Fin (k - i).
Proof.
  intros HC. induction k as [|k IH]; intros a fuel Ha Hfuel.
  - destruct fuel as [|fuel]; [lia|]. simpl.
    destruct (Node.previous (deref σ a)) as [u|] eqn:Hprev.
    { destruct (core_prev HC a u Hprev) as (_ & j & _ & Hj). congruence. }
    destruct (core_noprev HC a Hprev) as [->|Hinf]; [|congruence].
    rewrite walk_previous_None. exists [s]. split_and!; try done.
    intros [|i] b; [|done]. by intros [= <-].
  - destruct fuel as [|fuel]; [lia|]. simpl.
    destruct (Node.previous (deref σ a)) as [u|] eqn:Hprev.
    2:{ destruct (core_noprev HC a Hprev) as [->|Hinf]; [|congruence].
        rewrite (core_s_dist HC) in Ha. done. }
    destruct (core_prev HC a u Hprev) as (_ & j & Hu & Hj).
    assert (j = k) as -> by congruence.
    destruct (IH u fuel Hu ltac:(lia)) as (chain & -> & Hlen & Hhd & Hlast & Hd).
    exists (a :: chain). split_and!; try done.
    + simpl. by rewrite Hlen.
    + destruct chain; [done|]. done.
    + intros [|i] b; simpl.
      * by intros [= <-].
      * intros Hb. by apply Hd.
Qed.

(** The node that a fresh pop visits is at a distance below the number of
    nodes. *)
Lemma fresh_pop_bound σ0 s (σ : store) e d n q k :
  Core σ0 s σ e → pops σ e d n q → fresh_pop σ e d n →
  Node.distance (deref σ n) = Fin k →
  k < size (dom σ0).
Proof.
  intros HC Hpops [_ Hv] Hk.
  destruct (pops_spec _ _ _ _ _ _ _ HC Hpops) as (_ & _ & _ & Hn & _).
  pose proof (core_bound HC n k Hk) as Hb.
  rewrite (core_count HC) in Hb. rewrite <- (core_dom HC).
  eapply Nat.le_lt_trans; [done|]. apply subset_size.
  pose proof (core_visited HC). set_solver.
Qed.

(** What [step] does when it pops the end node. *)
Lemma found_spec σ0 s (σ : store) e d n q fuel :
  Inv σ0 s σ e → pops σ e d n q → fresh_pop σ e d n →
  size (dom σ0) ≤ fuel →
  ∃ k chain,
    d = Fin k ∧ Node.distance (deref σ n) = Fin k ∧
    DijkstraAlgorithm.walk_previous fuel
      (DijkstraAlgorithm.mark_explored n σ) (Some n) = Some chain ∧
    length chain = S k ∧ head chain = Some n ∧ last chain = Some s ∧
    (∀ i b, chain !! i = Some b → Node.distance (deref σ b) = Fin (k - i)) ∧
    Inv σ0 s
      (DijkstraAlgorithm.mark_path (DijkstraAlgorithm.interior chain)
         (DijkstraAlgorithm.mark_explored n σ))
      (DijkstraAlgorithm.set_path_length (Z.of_nat k)
         (DijkstraAlgorithm.set_flags false true true (visiting e n q))).
Proof.
  intros [HC _] Hpops Hfresh Hfuel.
  destruct (fresh_pop_dist _ _ _ _ _ _ _ HC Hpops Hfresh) as (k & -> & Hk).
  pose proof (fresh_pop_bound _ _ _ _ _ _ _ _ HC Hpops Hfresh Hk) as Hlt.
  pose proof (visiting_Core _ _ _ _ _ _ _ HC Hpops Hfresh) as HC1.
  pose proof (same_traversal_mark_explored n σ) as Hsame.
  pose proof (Core_same _ _ _ _ _ Hsame HC1) as HC2.
  destruct (walk_previous_total _ _ _ _ HC2 k n fuel)
    as (chain & Hwalk & Hlen & Hhd & Hlast & Hd).
  { destruct Hsame as [_ Hs]. destruct (Hs n) as [-> _]. done. }
  { lia. }
  exists k, chain. split_and!; try done.
  - intros i b Hb. rewrite <- (Hd i b Hb).
    destruct Hsame as [_ Hs]. by destruct (Hs b) as [-> _].
  - split; [|done].
    eapply Core_same; [apply same_traversal_mark_path|].
    by apply Core_flags.
Qed.

Lemma step_found_spec (σ : store) e d n q fuel k chain :
  pops σ e d n q → fresh_pop σ e d n →
  Some n = DijkstraAlgorithm.end_node e →
  DijkstraAlgorithm.walk_previous fuel
    (DijkstraAlgorithm.mark_explored n σ) (Some n) = Some chain →
  length chain = S k →
  DijkstraAlgorithm.step fuel σ e =
    Some (DijkstraAlgorithm.mark_path (DijkstraAlgorithm.interior chain)
            (DijkstraAlgorithm.mark_explored n σ),
          DijkstraAlgorithm.set_path_length (Z.of_nat k)
            (DijkstraAlgorithm.set_flags false true true (visiting e n q)),
          (false, Some n)).
Proof.
  intros Hpops Hfresh Hend Hwalk Hlen.
  rewrite (step_found fuel σ e d n q Hpops Hfresh Hend).
  unfold DijkstraAlgorithm._reconstruct_path. simpl.
  rewrite <- Hend, Hwalk, Hlen.
  repeat f_equal. lia.
Qed.

(** ** Expanding a node *)

Lemma expand_start σ0 s (σ : store) e d n q kn :
  Inv σ0 s σ e → pops σ e d n q → fresh_pop σ e d n →
  Node.distance (deref σ n) = Fin kn →
  Expanding σ0 s (visiting e n q) n kn
    (DijkstraAlgorithm.mark_explored n σ) q.
Proof.
  intros [HC HR] Hpops Hfresh Hkn.
  pose proof (visiting_Core _ _ _ _ _ _ _ HC Hpops Hfresh) as HC1.
  pose proof (same_traversal_mark_explored n σ) as Hsame.
  destruct (pops_spec _ _ _ _ _ _ _ HC Hpops)
    as (Hperm & Hok & Hmin & Hn & k & -> & Hle).
  destruct (fresh_pop_dist _ _ _ _ _ _ _ HC Hpops Hfresh) as (k' & Hk' & Hk'').
  assert (k' = k) as -> by congruence. clear Hk'.
  assert (kn = k) as -> by congruence.
  destruct Hpops as [Hc Hpop]. specialize (HR Hc).
  assert (Hd : ∀ a, Node.distance (deref (DijkstraAlgorithm.mark_explored n σ) a)
                    = Node.distance (deref σ a))
    by (intros a; apply Hsame).
  assert (Hnb : ∀ a, Node.neighbors
                       (deref (DijkstraAlgorithm.mark_explored n σ) a)
                     = Node.neighbors (deref σ a))
    by (intros a; apply Hsame).
  assert (Hnear : ∀ v, v ∈ DijkstraAlgorithm.visited_nodes (visiting e n q) →
                       dist_le (Node.distance (deref σ v)) (Fin k)).
  { simpl. intros v [->%elem_of_singleton|Hv]%elem_of_union.
    - rewrite Hkn. apply dist_le_refl.
    - apply (run_settled HR v (Fin k) n Hv). rewrite Hperm.
      apply list_elem_of_here. }
  constructor.
  - eapply Core_same; [done|].
    constructor; simpl; try use_core HC1.
  - simpl. intros a j Ha Hj. rewrite Hd in Hj.
    assert (a ≠ n ∧ a ∉ DijkstraAlgorithm.visited_nodes e) as [Han HaV]
      by (split; intros ?; apply Ha; set_solver).
    pose proof (run_queued HR a j HaV Hj) as Hin.
    rewrite Hperm in Hin.
    apply elem_of_cons in Hin as [[= _ ?]|Hin]; [done|done].
  - intros v d a Hv Hin. rewrite Hd.
    eapply dist_le_trans; [by apply Hnear|].
    apply (Hmin (d, a)). rewrite Hperm. by apply list_elem_of_further.
  - intros v b Hv. rewrite Hnb. unfold relaxed_from. rewrite !Hd.
    apply (run_expanded HR). simpl in Hv. destruct Hfresh. set_solver.
  - simpl. set_solver.
  - by rewrite Hd.
  - intros v Hv. rewrite Hd. by apply Hnear.
  - simpl. pose proof (core_bound HC n k Hkn). lia.
Qed.

Lemma improve_Expanding σ0 s e1 n kn (σ : store) q nb :
  Expanding σ0 s e1 n kn σ q →
  nb ∈ dom σ →
  nb ∉ DijkstraAlgorithm.visited_nodes e1 →
  dist_ltb (dist_succ (Node.distance (deref σ n)))
           (Node.distance (deref σ nb)) = true →
  Expanding σ0 s e1 n kn (improve n nb σ)
    (heapq.heappush (improve n nb σ) q
       (dist_succ (Node.distance (deref σ n)), nb)).
Proof.
  intros HE Hdom HnbV Hlt.
  pose proof (exp_core HE) as HC. pose proof (exp_dist HE) as Hkn.
  pose proof (exp_n HE) as HnV.
  rewrite Hkn in Hlt |- *. simpl in Hlt |- *.
  set (σ' := improve n nb σ).
  destruct (heappush_spec σ' q (Fin (S kn), nb) (core_heap HC))
    as [Hheap Hperm].
  set (q' := heapq.heappush σ' q (Fin (S kn), nb)) in *.
  assert (Hne : ∀ a, a ≠ nb → deref σ' a = deref σ a)
    by (intros a Ha; by apply deref_improve_ne).
  assert (Heq : Node.distance (deref σ' nb) = Fin (S kn) ∧
                Node.previous (deref σ' nb) = Some n).
  { unfold σ'. rewrite deref_improve_eq by done. by rewrite Hkn. }
  destruct Heq as [Hnbd Hnbp].
  assert (Hnbs : nb ≠ s).
  { intros ->. rewrite (core_s_dist HC) in Hlt. done. }
  assert (Hnbn : nb ≠ n) by (by intros ->).
  assert (Hvis : ∀ v, v ∈ DijkstraAlgorithm.visited_nodes e1 →
                      deref σ' v = deref σ v).
  { intros v Hv. apply Hne. by intros ->. }
  assert (Hdec : ∀ a, dist_le (Node.distance (deref σ' a))
                              (Node.distance (deref σ a))).
  { intros a. destruct (decide (a = nb)) as [->|Ha].
    - rewrite Hnbd. by apply dist_ltb_le.
    - rewrite Hne by done. apply dist_le_refl. }
  assert (Hnbrs : ∀ a, Node.neighbors (deref σ' a)
                       = Node.neighbors (deref σ a))
    by (intros a; by apply (improve_proj Node.neighbors)).
  assert (Hin : ∀ y, y ∈ q' ↔ y = (Fin (S kn), nb) ∨ y ∈ q).
  { intros y. rewrite Hperm. apply elem_of_cons. }
  constructor.
  - constructor; simpl.
    + unfold σ'. rewrite dom_improve. use_core HC.
    + intros a. rewrite Hnbrs. apply (core_nbrs HC).
    + use_core HC.
    + unfold σ'. rewrite dom_improve. use_core HC.
    + rewrite Hne by done. use_core HC.
    + rewrite Hne by done. use_core HC.
    + unfold σ'. rewrite dom_improve. use_core HC.
    + use_core HC.
    + done.
    + intros d a [[= -> ->]|Hq]%Hin.
      * split; [by unfold σ'; rewrite dom_improve|].
        exists (S kn). split; [done|]. rewrite Hnbd. apply dist_le_refl.
      * destruct (core_queue HC d a Hq) as (Ha & k & -> & Hle).
        split; [by unfold σ'; rewrite dom_improve|].
        exists k. split; [done|]. by eapply dist_le_trans.
    + intros a u Hu. destruct (decide (a = nb)) as [->|Ha].
      * rewrite Hnbp in Hu. injection Hu as <-. split; [done|].
        exists kn. by rewrite Hne, Hkn, Hnbd.
      * rewrite Hne in Hu by done.
        destruct (core_prev HC a u Hu) as (HuV & k & Hk1 & Hk2).
        simpl in HuV. split; [done|]. exists k.
        by rewrite (Hvis u HuV), (Hne a Ha).
    + intros a Ha. destruct (decide (a = nb)) as [->|Hanb]; [congruence|].
      rewrite Hne in Ha |- * by done. by apply (core_noprev HC).
    + intros a k Hk. destruct (decide (a = nb)) as [->|Hanb].
      * rewrite Hnbd in Hk. injection Hk as <-.
        pose proof (exp_count HE). lia.
      * rewrite Hne in Hk by done. by apply (core_bound HC a k).
    + use_core HC.
  - intros a k Ha Hk. apply Hin. destruct (decide (a = nb)) as [->|Hanb].
    + left. congruence.
    + right. rewrite Hne in Hk by done. by apply (exp_queued HE).
  - intros v d a Hv [[= -> ->]|Hq]%Hin; rewrite (Hvis v Hv).
    + eapply dist_le_trans; [by apply (exp_near HE)|].
      apply dist_le_Fin. lia.
    + by apply (exp_settled HE v d a).
  - intros v b Hv. rewrite Hnbrs. intros Hb. unfold relaxed_from.
    rewrite (Hvis v) by set_solver.
    eapply dist_le_trans; [apply Hdec|]. by apply (exp_expanded HE).
  - done.
  - by rewrite Hne.
  - intros v Hv. rewrite (Hvis v Hv). by apply (exp_near HE).
  - apply (exp_count HE).
Qed.

Lemma relax_fold_Expanding σ0 s e1 n kn :
  ∀ l (σ : store) q,
    Expanding σ0 s e1 n kn σ q →
    (∀ b, b ∈ l → b ∈ dom σ0) →
    let r := foldl (DijkstraAlgorithm.relax e1 n) (σ, q) l in
    Expanding σ0 s e1 n kn r.1 r.2 ∧
    (∀ b, relaxed_from σ n b → relaxed_from r.1 n b) ∧
    (∀ b, b ∈ l → relaxed_from r.1 n b) ∧
    length r.2 ≤ length q + length l.
Proof.
  induction l as [|nb l IH]; intros σ q HE Hl.
  { simpl. split_and!; try done; [set_solver|lia]. }
  cbn [foldl].
  assert (Hnbdom : nb ∈ dom σ).
  { rewrite (core_dom (exp_core HE)). apply Hl, list_elem_of_here. }
  assert (Hl' : ∀ b, b ∈ l → b ∈ dom σ0).
  { intros b Hb. by apply Hl, list_elem_of_further. }
  destruct (relax_cases e1 n σ q nb) as [[Hskip ->]|(Hv & Hlt & ->)].
  - destruct (IH σ q HE Hl') as (H1 & H2 & H3 & H4).
    split_and!; try done.
    + intros b [->|Hb]%elem_of_cons; [|by apply H3].
      apply H2. destruct Hskip as [Hge|HnbV]; [done|].
      unfold relaxed_from. rewrite (exp_dist HE). simpl.
      eapply dist_le_trans; [by apply (exp_near HE)|].
      apply dist_le_Fin. lia.
    + simpl. lia.
  - pose proof (improve_Expanding _ _ _ _ _ _ _ _ HE Hnbdom Hv Hlt) as HE'.
    destruct (IH _ _ HE' Hl') as (H1 & H2 & H3 & H4).
    assert (Hn : deref (improve n nb σ) n = deref σ n).
    { apply deref_improve_ne. intros <-. apply Hv, (exp_n HE). }
    assert (Hpres : ∀ b, relaxed_from σ n b →
                         relaxed_from (improve n nb σ) n b).
    { intros b Hb. unfold relaxed_from in *. rewrite Hn.
      destruct (decide (b = nb)) as [->|Hne].
      - rewrite deref_improve_eq by done. simpl. apply dist_le_refl.
      - by rewrite deref_improve_ne. }
    split_and!; try done.
    + intros b Hb. by apply H2, Hpres.
    + intros b [->|Hb]%elem_of_cons; [|by apply H3].
      apply H2. unfold relaxed_from. rewrite Hn.
      rewrite deref_improve_eq by done. simpl. apply dist_le_refl.
    + etrans; [apply H4|].
      rewrite (Permutation_length (heappush_perm _ _ _)). simpl. lia.
Qed.

(** What [step] does when it expands a node other than the end node. *)
Lemma expand_spec σ0 s (σ : store) e d n q :
  closed σ0 →
  Inv σ0 s σ e → pops σ e d n q → fresh_pop σ e d n →
  Some n ≠ DijkstraAlgorithm.end_node e →
  let r := DijkstraAlgorithm.relax_all (visiting e n q) n
             (DijkstraAlgorithm.mark_explored n σ) in
  Inv σ0 s r.1 (DijkstraAlgorithm.set_priority_queue r.2 (visiting e n q)) ∧
  length r.2 ≤ length q + degree σ0 n.
Proof.
  intros Hclosed HI Hpops Hfresh Hend.
  pose proof HI as [HC HR].
  destruct (fresh_pop_dist _ _ _ _ _ _ _ HC Hpops Hfresh) as (kn & -> & Hkn).
  pose proof (expand_start _ _ _ _ _ _ _ _ HI Hpops Hfresh Hkn) as HE.
  destruct (pops_spec _ _ _ _ _ _ _ HC Hpops) as (_ & _ & _ & Hn & _).
  unfold DijkstraAlgorithm.relax_all.
  assert (Hnb : Node.neighbors
                  (deref (DijkstraAlgorithm.mark_explored n σ) n)
                = Node.neighbors (deref σ0 n)).
  { rewrite (mark_explored_proj Node.neighbors) by done.
    apply (core_nbrs HC). }
  rewrite Hnb. simpl DijkstraAlgorithm.priority_queue.
  destruct (relax_fold_Expanding σ0 s (visiting e n q) n kn
              (Node.neighbors (deref σ0 n)) _ _ HE)
    as (HE' & _ & Hrel & Hlen).
  { intros b Hb. apply (closed_spec σ0 n b); [done| |done].
    by rewrite <- (core_dom HC). }
  cbv zeta. split; [|done].
  set (r := foldl _ _ _) in *.
  split; [apply (exp_core HE')|]. intros _.
  destruct Hpops as [Hc _]. specialize (HR Hc).
  constructor; simpl.
  - apply (exp_queued HE').
  - apply (exp_settled HE').
  - intros v b Hv Hb. destruct (decide (v = n)) as [->|Hvn].
    + apply Hrel. rewrite (core_nbrs (exp_core HE')) in Hb. done.
    + apply (exp_expanded HE'); [|done]. simpl. set_solver.
  - intros t Ht. pose proof (run_end HR t Ht).
    assert (t ≠ n) by congruence. set_solver.
Qed.

(** * Every step keeps the invariant, and runs end *)

Lemma step_Inv σ0 s (σ : store) e fuel σ' e' r :
  closed σ0 → Inv σ0 s σ e →
  DijkstraAlgorithm.step fuel σ e = Some (σ', e', r) →
  Inv σ0 s σ' e'.
Proof.
  intros Hclosed HI Hstep.
  destruct (step_cases σ e) as [Hterm|(d & n & q & Hpops & [Hdis|Hfresh])].
  - rewrite (step_terminal fuel σ e Hterm) in Hstep.
    injection Hstep as <- <- <-. by apply terminal_Inv.
  - rewrite (step_discard fuel σ e d n q Hpops Hdis) in Hstep.
    injection Hstep as <- <- <-. by eapply discard_Inv.
  - destruct (decide (Some n = DijkstraAlgorithm.end_node e)) as [Hend|Hend].
    + rewrite (step_found fuel σ e d n q Hpops Hfresh Hend) in Hstep.
      destruct (DijkstraAlgorithm._reconstruct_path _ _ _)
        as [[σ1 e1]|] eqn:Hrec; [|done].
      injection Hstep as <- <- <-.
      destruct HI as [HC _].
      pose proof (visiting_Core _ _ _ _ _ _ _ HC Hpops Hfresh) as HC1.
      apply reconstruct_path_cases in Hrec
        as [(Hpf & _)|(_ & l & _ & -> & ->)]; [done|].
      split; [|done].
      eapply Core_same.
      { eapply same_traversal_trans;
          [apply same_traversal_mark_explored|apply same_traversal_mark_path]. }
      by apply Core_flags.
    + rewrite (step_expand fuel σ e d n q Hpops Hfresh Hend) in Hstep.
      injection Hstep as <- <- <-.
      by apply (expand_spec σ0 s σ e d n q).
Qed.

Lemma steps_Inv σ0 s (σ : store) e σ' e' :
  closed σ0 → Inv σ0 s σ e → steps σ e σ' e' → Inv σ0 s σ' e'.
Proof.
  intros Hclosed HI Hsteps.
  induction Hsteps as [|fuel σ e σ1 e1 r σ2 e2 Hstep _ IH]; [done|].
  apply IH. by eapply step_Inv.
Qed.

(** With fuel for one node per node of the graph, [step] returns. *)
Lemma step_total σ0 s (σ : store) e fuel :
  Inv σ0 s σ e → size (dom σ0) ≤ fuel →
  ∃ σ' e' r, DijkstraAlgorithm.step fuel σ e = Some (σ', e', r).
Proof.
  intros HI Hfuel.
  destruct (step_cases σ e) as [Hterm|(d & n & q & Hpops & [Hdis|Hfresh])].
  - rewrite (step_terminal fuel σ e Hterm). eauto.
  - rewrite (step_discard fuel σ e d n q Hpops Hdis). eauto.
  - destruct (decide (Some n = DijkstraAlgorithm.end_node e)) as [Hend|Hend].
    + destruct (found_spec _ _ _ _ _ _ _ fuel HI Hpops Hfresh Hfuel)
        as (k & chain & _ & _ & Hwalk & Hlen & _).
      rewrite (step_found_spec σ e d n q fuel k chain); eauto.
    + rewrite (step_expand fuel σ e d n q Hpops Hfresh Hend). eauto.
Qed.

(** A call that returns [shouldContinue = false] leaves the engine
    complete; one that returns [true] leaves the flags alone. *)
Lemma step_stop (σ : store) e fuel σ' e' x :
  DijkstraAlgorithm.step fuel σ e = Some (σ', e', (false, x)) →
  DijkstraAlgorithm.is_complete e' = true ∧
  DijkstraAlgorithm.is_running e' = false.
Proof.
  intros Hstep.
  destruct (step_cases σ e) as [Hterm|(d & n & q & Hpops & [Hdis|Hfresh])].
  - rewrite (step_terminal fuel σ e Hterm) in Hstep.
    by injection Hstep as <- <- <-.
  - by rewrite (step_discard fuel σ e d n q Hpops Hdis) in Hstep.
  - destruct (decide (Some n = DijkstraAlgorithm.end_node e)) as [Hend|Hend].
    + rewrite (step_found fuel σ e d n q Hpops Hfresh Hend) in Hstep.
      destruct (DijkstraAlgorithm._reconstruct_path _ _ _)
        as [[σ1 e1]|] eqn:Hrec; [|done].
      injection Hstep as <- <- <-.
      by apply reconstruct_path_cases in Hrec
        as [(Hpf & _)|(_ & l & _ & -> & ->)].
    + by rewrite (step_expand fuel σ e d n q Hpops Hfresh Hend) in Hstep.
Qed.

Lemma step_continue (σ : store) e fuel σ' e' x :
  DijkstraAlgorithm.step fuel σ e = Some (σ', e', (true, x)) →
  DijkstraAlgorithm.is_complete e = false ∧
  DijkstraAlgorithm.is_complete e' = false ∧
  DijkstraAlgorithm.is_running e' = DijkstraAlgorithm.is_running e ∧
  DijkstraAlgorithm.path_found e' = DijkstraAlgorithm.path_found e ∧
  DijkstraAlgorithm.path_length e' = DijkstraAlgorithm.path_length e.
Proof.
  intros Hstep.
  destruct (step_cases σ e) as [Hterm|(d & n & q & Hpops & [Hdis|Hfresh])].
  - by rewrite (step_terminal fuel σ e Hterm) in Hstep.
  - rewrite (step_discard fuel σ e d n q Hpops Hdis) in Hstep.
    injection Hstep as <- <- <-. destruct Hpops as [Hc _]. by simpl.
  - destruct (decide (Some n = DijkstraAlgorithm.end_node e)) as [Hend|Hend].
    + rewrite (step_found fuel σ e d n q Hpops Hfresh Hend) in Hstep.
      by destruct (DijkstraAlgorithm._reconstruct_path _ _ _) as [[σ1 e1]|].
    + rewrite (step_expand fuel σ e d n q Hpops Hfresh Hend) in Hstep.
      injection Hstep as <- <- <-. destruct Hpops as [Hc _]. by simpl.
Qed.

Lemma weight_remove (σ : store) (X : gset addr) n :
  n ∈ X → weight σ X = degree σ n + weight σ (X ∖ {[n]}).
Proof.
  intros Hn. unfold weight.
  assert (HX : X = {[n]} ∪ X ∖ {[n]}).
  { apply set_eq. intros a. destruct (decide (a = n)); set_solver. }
  rewrite HX at 1.
  rewrite elements_union_singleton by set_solver. done.
Qed.

(** A call that returns [shouldContinue = true] decreases the measure. *)
Lemma step_measure σ0 s (σ : store) e fuel σ' e' x :
  closed σ0 → Inv σ0 s σ e →
  DijkstraAlgorithm.step fuel σ e = Some (σ', e', (true, x)) →
  measure σ0 e' < measure σ0 e.
Proof.
  intros Hclosed HI Hstep. pose proof HI as [HC _].
  destruct (step_cases σ e) as [Hterm|(d & n & q & Hpops & [Hdis|Hfresh])].
  - by rewrite (step_terminal fuel σ e Hterm) in Hstep.
  - rewrite (step_discard fuel σ e d n q Hpops Hdis) in Hstep.
    injection Hstep as <- <- <-.
    destruct (pops_spec _ _ _ _ _ _ _ HC Hpops) as (Hperm & _).
    unfold measure. simpl. rewrite (Permutation_length Hperm). simpl. lia.
  - destruct (decide (Some n = DijkstraAlgorithm.end_node e)) as [Hend|Hend].
    + rewrite (step_found fuel σ e d n q Hpops Hfresh Hend) in Hstep.
      by destruct (DijkstraAlgorithm._reconstruct_path _ _ _) as [[σ1 e1]|].
    + rewrite (step_expand fuel σ e d n q Hpops Hfresh Hend) in Hstep.
      injection Hstep as <- <- <-.
      destruct (expand_spec σ0 s σ e d n q Hclosed HI Hpops Hfresh Hend)
        as [_ Hlen].
      destruct (pops_spec _ _ _ _ _ _ _ HC Hpops) as (Hperm & _ & _ & Hn & _).
      unfold measure. simpl. rewrite (Permutation_length Hperm). simpl.
      rewrite (weight_remove σ0 (dom σ0 ∖ DijkstraAlgorithm.visited_nodes e) n).
      2:{ destruct Hfresh as [_ ?]. rewrite <- (core_dom HC). set_solver. }
      replace (dom σ0 ∖ ({[n]} ∪ DijkstraAlgorithm.visited_nodes e))
        with (dom σ0 ∖ DijkstraAlgorithm.visited_nodes e ∖ {[n]})
        by set_solver.
      lia.
Qed.

Lemma run_loop_total σ0 s fuel :
  closed σ0 → size (dom σ0) ≤ fuel →
  ∀ m (σ : store) e,
    Inv σ0 s σ e → measure σ0 e < m →
    ∃ σ' e',
      DijkstraAlgorithm.run_loop m fuel σ e = Some (σ', e') ∧
      Inv σ0 s σ' e' ∧ DijkstraAlgorithm.is_complete e' = true.
Proof.
  intros Hclosed Hfuel. induction m as [|m IH]; intros σ e HI Hm; [lia|].
  simpl. destruct (DijkstraAlgorithm.is_complete e) eqn:Hc; [by eauto|].
  destruct (step_total _ _ _ _ fuel HI Hfuel) as (σ1 & e1 & [c x] & Hstep).
  rewrite Hstep.
  pose proof (step_Inv _ _ _ _ _ _ _ _ Hclosed HI Hstep) as HI1.
  destruct c.
  - apply IH; [done|].
    pose proof (step_measure _ _ _ _ _ _ _ _ Hclosed HI Hstep). lia.
  - apply step_stop in Hstep as [? _]. eauto.
Qed.

(** * Driving by hand, [run_complete] and the generator agree *)

Lemma relax_ext e e' c (acc : store * list heapq.entry) nb :
  DijkstraAlgorithm.visited_nodes e = DijkstraAlgorithm.visited_nodes e' →
  DijkstraAlgorithm.relax e c acc nb = DijkstraAlgorithm.relax e' c acc nb.
Proof. intros H. unfold DijkstraAlgorithm.relax. by rewrite H. Qed.

Lemma relax_all_ext e e' c (σ : store) :
  DijkstraAlgorithm.visited_nodes e = DijkstraAlgorithm.visited_nodes e' →
  DijkstraAlgorithm.priority_queue e = DijkstraAlgorithm.priority_queue e' →
  DijkstraAlgorithm.relax_all e c σ = DijkstraAlgorithm.relax_all e' c σ.
Proof.
  intros HV Hq. unfold DijkstraAlgorithm.relax_all. rewrite Hq.
  generalize (σ, DijkstraAlgorithm.priority_queue e').
  induction (Node.neighbors (deref σ c)) as [|nb l IH]; intros acc; [done|].
  simpl. by rewrite (relax_ext e e' c acc nb HV).
Qed.

(** [step] never reads [is_running]; it writes it only when it stops. *)
Lemma step_running b fuel (σ : store) e :
  DijkstraAlgorithm.step fuel σ (running b e) =
    match DijkstraAlgorithm.step fuel σ e with
    | Some (σ', e', (c, x)) =>
        Some (σ', if c then running b e' else e', (c, x))
    | None => None
    end.
Proof.
  destruct (step_cases σ e) as [Hterm|(d & n & q & Hpops & Hcase)].
  - rewrite (step_terminal fuel σ e Hterm).
    rewrite (step_terminal fuel σ (running b e)) by done. done.
  - assert (Hpops' : pops σ (running b e) d n q) by done.
    destruct Hcase as [Hdis|Hfresh].
    + rewrite (step_discard fuel σ e d n q Hpops Hdis).
      by rewrite (step_discard fuel σ (running b e) d n q Hpops' Hdis).
    + assert (Hfresh' : fresh_pop σ (running b e) d n) by done.
      destruct (decide (Some n = DijkstraAlgorithm.end_node e)) as [Hend|Hend].
      * rewrite (step_found fuel σ e d n q Hpops Hfresh Hend).
        rewrite (step_found fuel σ (running b e) d n q Hpops' Hfresh' Hend).
        change (DijkstraAlgorithm.set_flags false true true
                  (visiting (running b e) n q))
          with (DijkstraAlgorithm.set_flags false true true (visiting e n q)).
        by destruct (DijkstraAlgorithm._reconstruct_path _ _ _) as [[??]|].
      * rewrite (step_expand fuel σ e d n q Hpops Hfresh Hend).
        rewrite (step_expand fuel σ (running b e) d n q Hpops' Hfresh' Hend).
        cbv zeta.
        by rewrite (relax_all_ext (visiting (running b e) n q)
                      (visiting e n q)).
Qed.

Lemma run_loop_drive b fuel :
  ∀ n (σ : store) e,
    DijkstraAlgorithm.is_complete e = false →
    DijkstraAlgorithm.run_loop n fuel σ (running b e) = drive n fuel σ e.
Proof.
  induction n as [|n IH]; intros σ e Hc; simpl; rewrite Hc; [done|].
  rewrite step_running.
  destruct (DijkstraAlgorithm.step fuel σ e) as [[[σ1 e1] [c x]]|] eqn:Hstep;
    [|done].
  destruct c; [|done].
  apply IH. by apply step_continue in Hstep as (_ & ? & _).
Qed.

Lemma run_complete_drive fuel (σ : store) e :
  DijkstraAlgorithm.is_complete e = false →
  DijkstraAlgorithm.run_complete fuel σ e =
    match drive fuel fuel σ e with
    | Some (σ', e') => Some (σ', e', DijkstraAlgorithm.path_found e')
    | None => None
    end.
Proof.
  intros Hc. unfold DijkstraAlgorithm.run_complete.
  change (DijkstraAlgorithm.set_flags true _ _ e) with (running true e).
  rewrite (run_loop_drive true fuel fuel σ e Hc).
  by destruct (drive fuel fuel σ e) as [[??]|].
Qed.

(** The generator yields once per call of [step]; its last yield carries
    the statistics of the engine it leaves. *)
Lemma step_by_step_loop_drive fuel :
  ∀ n (σ : store) e,
    DijkstraAlgorithm.is_complete e = false →
    match drive n fuel σ e with
    | Some (σ', e') =>
        ∃ ys x, step_by_step_loop n fuel σ e =
                  Some (σ', e',
                        ys ++ [(false, x, DijkstraAlgorithm.get_stats e')])
    | None => step_by_step_loop n fuel σ e = None
    end.
Proof.
  induction n as [|n IH]; intros σ e Hc; simpl; rewrite Hc; [done|].
  destruct (DijkstraAlgorithm.step fuel σ e) as [[[σ1 e1] [c x]]|] eqn:Hstep;
    [|done].
  destruct c.
  - apply step_continue in Hstep as (_ & Hc1 & _).
    specialize (IH σ1 e1 Hc1).
    destruct (drive n fuel σ1 e1) as [[σ' e']|].
    + destruct IH as (ys & y & ->).
      by exists ((true, x, DijkstraAlgorithm.get_stats e1) :: ys), y.
    + by rewrite IH.
  - by exists [], x.
Qed.

Lemma Inv_running σ0 s (σ : store) e b :
  Inv σ0 s σ e → Inv σ0 s σ (running b e).
Proof.
  intros [HC HR]. split.
  - constructor; simpl; use_core HC.
  - simpl. intros Hc. specialize (HR Hc). constructor; simpl.
    + exact (run_queued HR).
    + exact (run_settled HR).
    + exact (run_expanded HR).
    + exact (run_end HR).
Qed.

Lemma drive_total σ0 s fuel (σ : store) e :
  closed σ0 → size (dom σ0) ≤ fuel → measure σ0 e < fuel →
  Inv σ0 s σ e → DijkstraAlgorithm.is_complete e = false →
  ∃ σ' e',
    drive fuel fuel σ e = Some (σ', e') ∧
    Inv σ0 s σ' e' ∧ DijkstraAlgorithm.is_complete e' = true.
Proof.
  intros Hclosed Hfuel Hm HI Hc.
  destruct (run_loop_total σ0 s fuel Hclosed Hfuel fuel σ (running false e))
    as (σ' & e' & Hrun & HI' & Hc').
  - by apply Inv_running.
  - done.
  - rewrite run_loop_drive in Hrun by done. eauto.
Qed.

Lemma steps_drive fuel :
  ∀ n (σ : store) e σ' e',
    drive n fuel σ e = Some (σ', e') → steps σ e σ' e'.
Proof.
  induction n as [|n IH]; intros σ e σ' e'; simpl; [done|].
  destruct (DijkstraAlgorithm.step fuel σ e) as [[[σ1 e1] [c x]]|] eqn:Hstep;
    [|done].
  destruct c.
  - intros Hd. eapply steps_step; [done|]. by apply IH.
  - intros [= <- <-]. eapply steps_step; [done|]. apply steps_refl.
Qed.

Lemma init_measure (σ0 : store) s t σ e :
  DijkstraAlgorithm.init σ0 (Some s) t = inr (σ, e) →
  measure σ0 e < enough_fuel σ0 ∧ size (dom σ0) ≤ enough_fuel σ0 ∧
  DijkstraAlgorithm.is_complete e = false.
Proof.
  intros [= <- <-]. unfold measure, enough_fuel. simpl.
  rewrite difference_empty_L. lia.
Qed.

Lemma visited_count_bound σ0 s (σ : store) e :
  Inv σ0 s σ e → DijkstraAlgorithm.visited_count e ≤ size (dom σ0).
Proof.
  intros [HC _]. rewrite (core_count HC), <- (core_dom HC).
  apply subseteq_size, (core_visited HC).
Qed.

(** * Runs on a graph whose distances are known in advance *)

Lemma improve_distance c nb (σ : store) k :
  Node.distance (deref (improve c nb σ) nb) = Fin k →
  Fin k = dist_succ (Node.distance (deref σ c)).
Proof.
  unfold improve, deref, modify.
  rewrite lookup_total_alter_eq, lookup_alter_eq.
  destruct (σ !! nb) as [nd|] eqn:Hnb; simpl; [|done].
  by intros <-.
Qed.

Lemma walk_previous_length σ0 s (σ : store) e :
  Core σ0 s σ e →
  ∀ fuel a k chain,
    Node.distance (deref σ a) = Fin k →
    DijkstraAlgorithm.walk_previous fuel σ (Some a) = Some chain →
    length chain = S k.
Proof.
  intros HC. induction fuel as [|fuel IH]; intros a k chain Hk; [done|].
  simpl. destruct (Node.previous (deref σ a)) as [u|] eqn:Hprev.
  - destruct (core_prev HC a u Hprev) as (_ & j & Hu & Hj).
    assert (k = S j) as -> by congruence.
    destruct (DijkstraAlgorithm.walk_previous fuel σ (Some u)) as [l|] eqn:Hw;
      [|done].
    intros [= <-]. simpl. f_equal. by eapply IH.
  - rewrite walk_previous_None. intros [= <-].
    destruct (core_noprev HC a Hprev) as [->|Hinf]; [|congruence].
    rewrite (core_s_dist HC) in Hk. by injection Hk as <-.
Qed.

Section potential.
Context (σ0 : store) (s t : addr) (φ : addr → nat).
Hypothesis Hclosed : closed σ0.
Hypothesis Hpot : potential σ0 s φ.
Hypothesis Ht : t ∈ dom σ0.

(** While the engine runs, below every unvisited node there is a queued
    tuple that is at most as far. *)
Lemma frontier (σ : store) e :
  Inv σ0 s σ e → PInv φ t σ e →
  DijkstraAlgorithm.is_complete e = false →
  ∀ m, m ∈ dom σ0 → m ∉ DijkstraAlgorithm.visited_nodes e →
    ∃ m' k', (Fin k', m') ∈ DijkstraAlgorithm.priority_queue e ∧ k' ≤ φ m.
Proof.
  intros [HC HR] HP Hc. specialize (HR Hc).
  assert (Hgen : ∀ k m, φ m ≤ k → m ∈ dom σ0 →
    m ∉ DijkstraAlgorithm.visited_nodes e →
    ∃ m' k', (Fin k', m') ∈ DijkstraAlgorithm.priority_queue e ∧ k' ≤ φ m).
  { induction k as [|k IH]; intros m Hk Hm HmV.
    - destruct (decide (m = s)) as [->|Hms].
      + exists s, 0. split; [|lia].
        apply (run_queued HR); [done|]. apply (core_s_dist HC).
      + destruct (pot_pred Hpot m Hm Hms) as (p & _ & _ & Hp). lia.
    - destruct (decide (m = s)) as [->|Hms].
      { exists s, 0. split; [|lia].
        apply (run_queued HR); [done|]. apply (core_s_dist HC). }
      destruct (pot_pred Hpot m Hm Hms) as (p & Hpdom & Hmp & Hp).
      destruct (decide (p ∈ DijkstraAlgorithm.visited_nodes e)) as [HpV|HpV].
      + assert (Hrel : relaxed_from σ p m).
        { apply (run_expanded HR); [done|]. by rewrite (core_nbrs HC). }
        unfold relaxed_from in Hrel. rewrite (pinv_vis HP p HpV) in Hrel.
        simpl in Hrel.
        apply dist_le_Fin_inv in Hrel as (j & Hj & Hle).
        exists m, j. split; [|lia]. by apply (run_queued HR).
      + destruct (IH p ltac:(lia) Hpdom HpV) as (m' & k' & Hin & Hle).
        exists m', k'. split; [done|lia]. }
  intros m. by apply (Hgen (φ m)).
Qed.

(** A node is visited at its distance. *)
Lemma pop_potential (σ : store) e d n q :
  Inv σ0 s σ e → PInv φ t σ e →
  pops σ e d n q → fresh_pop σ e d n →
  d = Fin (φ n) ∧ Node.distance (deref σ n) = Fin (φ n).
Proof.
  intros HI HP Hpops Hfresh. pose proof HI as [HC _].
  destruct (fresh_pop_dist _ _ _ _ _ _ _ HC Hpops Hfresh) as (k & -> & Hk).
  destruct (pops_spec _ _ _ _ _ _ _ HC Hpops) as (_ & _ & Hmin & Hn & _).
  destruct (frontier σ e HI HP (proj1 Hpops) n) as (m' & k' & Hin & Hle).
  { by rewrite <- (core_dom HC). }
  { apply Hfresh. }
  pose proof (Hmin _ Hin) as Hdk. simpl in Hdk. apply dist_le_Fin in Hdk.
  pose proof (pinv_lb HP n k Hk).
  assert (k = φ n) as -> by lia. done.
Qed.

Lemma step_PInv (σ : store) e fuel σ' e' r :
  Inv σ0 s σ e → PInv φ t σ e →
  DijkstraAlgorithm.step fuel σ e = Some (σ', e', r) →
  PInv φ t σ' e'.
Proof.
  intros HI HP Hstep. pose proof HI as [HC HR].
  destruct (step_cases σ e) as [Hterm|(d & n & q & Hpops & [Hdis|Hfresh])].
  - rewrite (step_terminal fuel σ e Hterm) in Hstep.
    injection Hstep as <- <- <-.
    constructor; simpl; [apply (pinv_end HP)|apply (pinv_lb HP)
                        |apply (pinv_vis HP)|].
    intros _. destruct (DijkstraAlgorithm.is_complete e) eqn:Hc.
    { by apply (pinv_done HP). }
    destruct Hterm as [Hnil|?]; [|done]. exfalso.
    destruct (frontier σ e HI HP Hc t Ht) as (m' & k' & Hin & _).
    { apply (run_end (HR eq_refl)), (pinv_end HP). }
    rewrite Hnil in Hin. by apply elem_of_nil in Hin.
  - rewrite (step_discard fuel σ e d n q Hpops Hdis) in Hstep.
    injection Hstep as <- <- <-.
    constructor; simpl; [apply (pinv_end HP)|apply (pinv_lb HP)
                        |apply (pinv_vis HP)|].
    destruct Hpops as [Hc _]. congruence.
  - destruct (pop_potential σ e d n q HI HP Hpops Hfresh) as [_ Hn].
    destruct (decide (Some n = DijkstraAlgorithm.end_node e)) as [Hend|Hend].
    + rewrite (step_found fuel σ e d n q Hpops Hfresh Hend) in Hstep.
      destruct (DijkstraAlgorithm._reconstruct_path _ _ _)
        as [[σ1 e1]|] eqn:Hrec; [|done].
      injection Hstep as <- <- <-.
      apply reconstruct_path_cases in Hrec
        as [(Hpf & _)|(_ & l & Hwalk & -> & ->)]; [done|].
      simpl in Hwalk. rewrite <- Hend in Hwalk.
      assert (Hd : ∀ a, Node.distance
                          (deref (DijkstraAlgorithm.mark_path
                                    (DijkstraAlgorithm.interior l)
                                    (DijkstraAlgorithm.mark_explored n σ)) a)
                        = Node.distance (deref σ a)).
      { intros a. rewrite mark_path_proj by done.
        by apply mark_explored_proj. }
      constructor; simpl.
      * apply (pinv_end HP).
      * intros a k. rewrite Hd. apply (pinv_lb HP).
      * intros v. rewrite Hd.
        intros [->%elem_of_singleton|Hv]%elem_of_union; [done|].
        by apply (pinv_vis HP).
      * intros _. split; [done|].
        pose proof (visiting_Core _ _ _ _ _ _ _ HC Hpops Hfresh) as HC1.
        pose proof (Core_same _ _ _ _ _
                      (same_traversal_mark_explored n σ) HC1) as HC2.
        rewrite (walk_previous_length _ _ _ _ HC2 fuel n (φ n) l);
          [| by rewrite mark_explored_proj | done].
        assert (n = t) as ->.
        { pose proof (pinv_end HP). congruence. }
        lia.
    + rewrite (step_expand fuel σ e d n q Hpops Hfresh Hend) in Hstep.
      injection Hstep as <- <- <-.
      destruct (pops_spec _ _ _ _ _ _ _ HC Hpops) as (_ & _ & _ & Hndom & _).
      set (σ1 := DijkstraAlgorithm.mark_explored n σ).
      assert (Hd1 : ∀ a, Node.distance (deref σ1 a)
                         = Node.distance (deref σ a))
        by (intros a; by apply mark_explored_proj).
      assert (Hloop :
        (∀ a k, Node.distance
                  (deref (DijkstraAlgorithm.relax_all (visiting e n q) n σ1).1
                     a) = Fin k → φ a ≤ k) ∧
        (∀ v, v ∈ DijkstraAlgorithm.visited_nodes (visiting e n q) →
              Node.distance
                (deref (DijkstraAlgorithm.relax_all (visiting e n q) n σ1).1
                   v) = Fin (φ v))).
      { unfold DijkstraAlgorithm.relax_all.
        apply (relax_all_ind
                 (λ σ' _,
                    (∀ a k, Node.distance (deref σ' a) = Fin k → φ a ≤ k) ∧
                    (∀ v, v ∈ DijkstraAlgorithm.visited_nodes
                                (visiting e n q) →
                          Node.distance (deref σ' v) = Fin (φ v)))).
        - intros σ' q' nb [Hlb Hvis] Hnb HnbV _. split.
          + intros a k. destruct (decide (a = nb)) as [->|Ha].
            * intros Hk%improve_distance.
              rewrite (Hvis n) in Hk by (simpl; set_solver).
              injection Hk as ->.
              apply (pot_edge Hpot n nb).
              { by rewrite <- (core_dom HC). }
              unfold σ1 in Hnb.
              rewrite (mark_explored_proj Node.neighbors) in Hnb by done.
              by rewrite (core_nbrs HC) in Hnb.
            * rewrite deref_improve_ne by done. apply Hlb.
          + intros v Hv. rewrite deref_improve_ne; [by apply Hvis|].
            by intros ->.
        - split.
          + intros a k. rewrite Hd1. apply (pinv_lb HP).
          + intros v. rewrite Hd1. simpl.
            intros [->%elem_of_singleton|Hv]%elem_of_union; [done|].
            by apply (pinv_vis HP). }
      destruct Hloop as [Hlb Hvis].
      constructor; simpl; [apply (pinv_end HP)|done|done|].
      destruct Hpops as [Hc _]. congruence.
Qed.

Lemma steps_PInv (σ : store) e σ' e' :
  Inv σ0 s σ e → PInv φ t σ e → steps σ e σ' e' →
  Inv σ0 s σ' e' ∧ PInv φ t σ' e'.
Proof.
  intros HI HP Hsteps.
  induction Hsteps as [|fuel σ e σ1 e1 r σ2 e2 Hstep _ IH]; [done|].
  apply IH; [by eapply step_Inv | by eapply step_PInv].
Qed.

Lemma init_PInv (σi : store) ei :
  fresh σ0 → s ∈ dom σ0 →
  DijkstraAlgorithm.init σ0 (Some s) (Some t) = inr (σi, ei) →
  PInv φ t σi ei.
Proof.
  intros Hfresh Hs Hinit.
  pose proof (init_Inv σ0 s (Some t) σi ei Hfresh Hs Hinit) as [HC _].
  injection Hinit as <- <-.
  constructor; simpl; try done.
  intros a k Hk.
  destruct (decide (a = s)) as [->|Ha].
  - rewrite (pot_start Hpot). lia.
  - rewrite deref_modify_ne in Hk by done.
    destruct (fresh_deref σ0 a Hfresh) as [Hinf _]. congruence.
Qed.

(** The run finds the end node at its distance. *)
Lemma potential_run (σi : store) ei fuel :
  fresh σ0 → s ∈ dom σ0 →
  DijkstraAlgorithm.init σ0 (Some s) (Some t) = inr (σi, ei) →
  enough_fuel σ0 ≤ fuel →
  ∃ σ' e',
    DijkstraAlgorithm.run_complete fuel σi ei = Some (σ', e', true) ∧
    drive fuel fuel σi ei = Some (σ', e') ∧
    DijkstraAlgorithm.is_complete e' = true ∧
    DijkstraAlgorithm.path_found e' = true ∧
    DijkstraAlgorithm.path_length e' = Z.of_nat (φ t) ∧
    DijkstraAlgorithm.visited_count e' ≤ size (dom σ0).
Proof.
  intros Hfresh Hs Hinit Hfuel.
  pose proof (init_Inv σ0 s (Some t) σi ei Hfresh Hs Hinit) as HI.
  pose proof (init_PInv σi ei Hfresh Hs Hinit) as HP.
  destruct (init_measure σ0 s (Some t) σi ei Hinit) as (Hm & Hsz & Hc).
  destruct (drive_total σ0 s fuel σi ei Hclosed) as (σ' & e' & Hd & HI' & Hc');
    try done; try lia.
  pose proof (steps_drive fuel fuel σi ei σ' e' Hd) as Hsteps.
  destruct (steps_PInv σi ei σ' e' HI HP Hsteps) as [_ HP'].
  destruct (pinv_done HP' Hc') as [Hpf Hlen].
  exists σ', e'. rewrite (run_complete_drive fuel σi ei Hc), Hd, Hpf.
  split_and!; try done. by eapply visited_count_bound.
Qed.

End potential.

(** * Grid graphs *)

Lemma divmod_cell C r c :
  c < C → (r * C + c) / C = r ∧ (r * C + c) mod C = c.
Proof.
  intros Hc. split.
  - symmetry. apply (Nat.div_unique _ _ _ c); lia.
  - symmetry. apply (Nat.mod_unique _ _ r); lia.
Qed.

Lemma cell_divmod C a :
  0 < C → a = a / C * C + a mod C ∧ a mod C < C.
Proof.
  intros HC. split.
  - pose proof (Nat.div_mod_eq a C). lia.
  - apply Nat.mod_upper_bound. lia.
Qed.

(** The neighbours of a cell are the cells next to it in its row and in
    its column. *)
Lemma grid_neighbors_spec R C r c b :
  c < C → r < R →
  b ∈ grid_neighbors R C (r * C + c) ↔
    (1 ≤ r ∧ b = (r - 1) * C + c) ∨ (r + 1 < R ∧ b = (r + 1) * C + c) ∨
    (1 ≤ c ∧ b = r * C + (c - 1)) ∨ (c + 1 < C ∧ b = r * C + (c + 1)).
Proof.
  intros Hc Hr. unfold grid_neighbors.
  destruct (divmod_cell C r c Hc) as [-> ->].
  unfold directions. cbn [flat_map fst snd].
  rewrite !elem_of_app.
  assert (Hup : (Z.to_nat ((Z.of_nat r + -1) * Z.of_nat C + (Z.of_nat c + 0))
                 = (r - 1) * C + c ∨ r = 0)) by nia.
  assert (Hdown : Z.to_nat ((Z.of_nat r + 1) * Z.of_nat C + (Z.of_nat c + 0))
                  = (r + 1) * C + c) by nia.
  assert (Hleft : Z.to_nat ((Z.of_nat r + 0) * Z.of_nat C + (Z.of_nat c + -1))
                  = r * C + (c - 1) ∨ c = 0) by nia.
  assert (Hright : Z.to_nat ((Z.of_nat r + 0) * Z.of_nat C + (Z.of_nat c + 1))
                   = r * C + (c + 1)) by nia.
  rewrite Hdown, Hright.
  destruct Hup as [Hup|Hr0], Hleft as [Hleft|Hc0]; rewrite ?Hup, ?Hleft;
    repeat case_bool_decide; cbn [andb];
    rewrite ?list_elem_of_singleton, ?elem_of_nil;
    intuition lia.
Qed.

Section grid.
Context (R C : nat) (σ0 : store).
Hypothesis HR : 1 ≤ R.
Hypothesis HC : 1 ≤ C.
Hypothesis Hgrid : grid_graph R C σ0.

Lemma grid_dom a : a ∈ dom σ0 ↔ a < R * C.
Proof. destruct Hgrid as [-> _]. rewrite elem_of_set_seq. lia. Qed.

Lemma grid_cell a :
  a < R * C → ∃ r c, a = r * C + c ∧ c < C ∧ r < R.
Proof.
  intros Ha. destruct (cell_divmod C a) as [Heq Hlt]; [lia|].
  exists (a / C), (a mod C). split_and!; [done|done|]. nia.
Qed.

Lemma grid_neighbors_deref a :
  a ∈ dom σ0 → Node.neighbors (deref σ0 a) = grid_neighbors R C a.
Proof.
  intros Ha. apply lookup_deref in Ha.
  destruct Hgrid as [_ Hall]. by destruct (Hall _ _ Ha) as (_ & _ & _ & ?).
Qed.

Lemma grid_closed : closed σ0.
Proof.
  intros a nd Ha. simpl. apply Forall_forall. intros b Hb.
  assert (Hadom : a ∈ dom σ0) by (apply elem_of_dom; eauto).
  rewrite <- (deref_lookup σ0 a nd Ha), (grid_neighbors_deref a Hadom) in Hb.
  apply grid_dom in Hadom.
  destruct (grid_cell a Hadom) as (r & c & -> & Hc & Hr).
  apply grid_neighbors_spec in Hb; [|done|done].
  apply grid_dom. nia.
Qed.

Lemma manhattan_cell r c : c < C → manhattan C (r * C + c) = r + c.
Proof.
  intros Hc. unfold manhattan. by destruct (divmod_cell C r c Hc) as [-> ->].
Qed.

Lemma grid_potential : potential σ0 0 (manhattan C).
Proof.
  constructor.
  - unfold manhattan. by rewrite Nat.Div0.div_0_l, Nat.Div0.mod_0_l.
  - intros a b Ha Hb. rewrite (grid_neighbors_deref a Ha) in Hb.
    apply grid_dom in Ha.
    destruct (grid_cell a Ha) as (r & c & -> & Hc & Hr).
    apply grid_neighbors_spec in Hb; [|done|done].
    rewrite (manhattan_cell r c Hc).
    destruct Hb as [[? ->]|[[? ->]|[[? ->]|[? ->]]]];
      rewrite manhattan_cell by lia; lia.
  - intros a Ha Ha0. apply grid_dom in Ha.
    destruct (grid_cell a Ha) as (r & c & -> & Hc & Hr).
    rewrite (manhattan_cell r c Hc).
    destruct (decide (r = 0)) as [->|Hr0].
    + exists (0 * C + (c - 1)). split_and!.
      * apply grid_dom. nia.
      * rewrite grid_neighbors_deref by (apply grid_dom; nia).
        apply grid_neighbors_spec; [lia|lia|].
        right; right; right. split; [lia|]. f_equal. lia.
      * rewrite manhattan_cell by lia. simpl in Ha0. lia.
    + exists ((r - 1) * C + c). split_and!.
      * apply grid_dom. nia.
      * rewrite grid_neighbors_deref by (apply grid_dom; nia).
        apply grid_neighbors_spec; [lia|lia|].
        right; left. split; [lia|]. f_equal. f_equal. lia.
      * rewrite manhattan_cell by lia. lia.
Qed.

Lemma grid_corner :
  R * C - 1 ∈ dom σ0 ∧ manhattan C (R * C - 1) = (R - 1) + (C - 1).
Proof.
  split; [apply grid_dom; nia|].
  replace (R * C - 1) with ((R - 1) * C + (C - 1)) by nia.
  apply manhattan_cell. lia.
Qed.

End grid.

(** * node.py and grid.py *)

Lemma reset_algorithm_data_idemp nd :
  Node.reset_algorithm_data (Node.reset_algorithm_data nd)
  = Node.reset_algorithm_data nd.
Proof.
  unfold Node.reset_algorithm_data. destruct nd as [? ? ? ? ? ? st ? ? ?].
  by destruct st.
Qed.

Lemma reset_idemp nd : Node.reset (Node.reset nd) = Node.reset nd.
Proof. done. Qed.

Lemma for_each_node_join f g (σ : store) :
  Grid.for_each_node f g σ = foldl (λ σ a, f a σ) σ (mjoin (Grid.grid g)).
Proof.
  unfold Grid.for_each_node. generalize (Grid.grid g). intros l.
  revert σ. induction l as [|cells l IH]; intros σ; [done|].
  simpl. by rewrite foldl_app, IH.
Qed.

Lemma get_all_nodes_join g : Grid.get_all_nodes g = mjoin (Grid.grid g).
Proof.
  unfold Grid.get_all_nodes.
  assert (H : ∀ (l : list (list addr)) acc,
    foldl (λ nodes cells, nodes ++ cells) acc l = acc ++ mjoin l).
  { induction l as [|cells l IH]; intros acc; simpl.
    - by rewrite app_nil_r.
    - by rewrite IH, app_assoc. }
  apply H.
Qed.

Lemma lookup_reset_algorithm_data (σ : store) g a :
  Grid.reset_algorithm_data σ g !! a =
    if decide (a ∈ mjoin (Grid.grid g))
    then Node.reset_algorithm_data <$> σ !! a else σ !! a.
Proof.
  unfold Grid.reset_algorithm_data. rewrite for_each_node_join.
  apply lookup_modify_all, reset_algorithm_data_idemp.
Qed.

Lemma lookup_reset_grid (σ : store) g a :
  (Grid.reset_grid σ g).1 !! a =
    if decide (a ∈ mjoin (Grid.grid g)) then Node.reset <$> σ !! a
    else σ !! a.
Proof.
  unfold Grid.reset_grid. simpl. rewrite for_each_node_join.
  apply lookup_modify_all, reset_idemp.
Qed.

Lemma deref_fmap_lookup f (σ σ' : store) a :
  σ' !! a = f <$> σ !! a → a ∈ dom σ → deref σ' a = f (deref σ a).
Proof.
  intros Hl Ha. apply lookup_deref in Ha. rewrite Ha in Hl.
  by apply deref_lookup.
Qed.

Lemma deref_same_lookup (σ σ' : store) a :
  σ' !! a = σ !! a → deref σ' a = deref σ a.
Proof. intros Hl. unfold deref. by rewrite !lookup_total_alt, Hl. Qed.

Lemma grid_lookup_elem (cells : list (list addr)) r c a :
  grid_lookup cells r c = Some a → a ∈ mjoin cells.
Proof.
  unfold grid_lookup. destruct (cells !! Z.to_nat r) as [l|] eqn:Hl; [|done].
  simpl. intros Ha. apply list_elem_of_join. exists l.
  split; by eapply list_elem_of_lookup_2.
Qed.

Lemma get_node_elem g r c a :
  Grid.get_node g r c = Some a → a ∈ mjoin (Grid.grid g).
Proof.
  unfold Grid.get_node. destruct (_ && _); [|done]. apply grid_lookup_elem.
Qed.

Lemma state_modify (σ : store) node s a :
  node ∈ dom σ →
  Node.state (deref (modify (Node.set_state s) node σ) a) =
    if decide (a = node) then s else Node.state (deref σ a).
Proof.
  intros Hn. case_decide as Ha.
  - subst. by rewrite deref_modify_eq.
  - by rewrite deref_modify_ne.
Qed.

Lemma not_default_dom (σ : store) a :
  Node.state (deref σ a) ≠ EMPTY → a ∈ dom σ.
Proof.
  intros Hst. apply elem_of_dom. unfold deref in Hst.
  rewrite lookup_total_alt in Hst.
  destruct (σ !! a); [done|]. by destruct Hst.
Qed.

Lemma state_demote (σ : store) holder a :
  (∀ h, holder = Some h → h ∈ dom σ) →
  Node.state (deref (Grid.demote holder σ) a) =
    if decide (holder = Some a) then EMPTY else Node.state (deref σ a).
Proof.
  intros Hh. destruct holder as [h|]; cbn [Grid.demote].
  - rewrite state_modify by auto.
    repeat case_decide; congruence.
  - by case_decide.
Qed.

Lemma dom_demote holder (σ : store) : dom (Grid.demote holder σ) = dom σ.
Proof. destruct holder; [apply dom_modify|done]. Qed.

Lemma GInv_holder_dom (σ : store) g :
  GInv σ g →
  (∀ h, Grid.start_node g = Some h → h ∈ dom σ) ∧
  (∀ h, Grid.end_node g = Some h → h ∈ dom σ).
Proof.
  intros HG. split; intros h Hh.
  - by apply (ginv_cells HG), (ginv_start_cell HG).
  - by apply (ginv_cells HG), (ginv_end_cell HG).
Qed.

(** [set_start] designates the cell and demotes the previous holder. *)
Lemma set_start_spec row col (σ : store) g :
  GInv σ g →
  GInv (Grid.set_start row col σ g).1.1 (Grid.set_start row col σ g).1.2 ∧
  if (Grid.set_start row col σ g).2 then
    ∃ node,
      Grid.get_node g row col = Some node ∧
      Grid.start_node (Grid.set_start row col σ g).1.2 = Some node ∧
      ∀ a, Node.state (deref (Grid.set_start row col σ g).1.1 a) =
           if decide (a = node) then START
           else if decide (Grid.start_node g = Some a) then EMPTY
           else Node.state (deref σ a)
  else Grid.set_start row col σ g = (σ, g, false).
Proof.
  intros HG. destruct (GInv_holder_dom σ g HG) as [Hsd Hed].
  unfold Grid.set_start.
  destruct (Grid.get_node g row col) as [node|] eqn:Hnode; [|done].
  destruct (_ || _) eqn:Hcond; [|done]. cbn [fst snd].
  pose proof (get_node_elem g row col node Hnode) as Hcell.
  pose proof (ginv_cells HG node Hcell) as Hdom.
  assert (Hst : ∀ a,
    Node.state (deref (modify (Node.set_state START) node
                         (Grid.demote (Grid.start_node g) σ)) a)
    = if decide (a = node) then START
      else if decide (Grid.start_node g = Some a) then EMPTY
      else Node.state (deref σ a)).
  { intros a. rewrite state_modify by (by rewrite dom_demote).
    case_decide; [done|]. by apply state_demote. }
  assert (Hnode_st : Node.state (deref σ node) = EMPTY ∨
                     Node.state (deref σ node) = START).
  { apply orb_true_iff in Hcond as [H|H];
      apply bool_decide_eq_true in H; auto. }
  split; [|by eauto].
  constructor; simpl.
  - intros a Ha. rewrite dom_modify, dom_demote. by apply (ginv_cells HG).
  - apply (ginv_nodup HG).
  - intros a. rewrite Hst. repeat case_decide; subst; split; try done.
    + congruence.
    + intros Ha. by apply (ginv_start HG) in Ha.
    + congruence.
  - intros a. rewrite Hst. pose proof (ginv_end HG a) as He.
    pose proof (ginv_start HG a) as Hs.
    repeat case_decide; subst; split; try done.
    + intros Hen. apply He in Hen. destruct Hnode_st; congruence.
    + intros Hen. apply He in Hen.
      assert (Node.state (deref σ a) = START) by (by apply Hs). congruence.
    + apply He.
    + apply He.
  - by intros a [= <-].
  - apply (ginv_end_cell HG).
Qed.

(** [set_end] designates the cell and demotes the previous holder. *)
Lemma set_end_spec row col (σ : store) g :
  GInv σ g →
  GInv (Grid.set_end row col σ g).1.1 (Grid.set_end row col σ g).1.2 ∧
  if (Grid.set_end row col σ g).2 then
    ∃ node,
      Grid.get_node g row col = Some node ∧
      Grid.end_node (Grid.set_end row col σ g).1.2 = Some node ∧
      ∀ a, Node.state (deref (Grid.set_end row col σ g).1.1 a) =
           if decide (a = node) then END
           else if decide (Grid.end_node g = Some a) then EMPTY
           else Node.state (deref σ a)
  else Grid.set_end row col σ g = (σ, g, false).
Proof.
  intros HG. destruct (GInv_holder_dom σ g HG) as [Hsd Hed].
  unfold Grid.set_end.
  destruct (Grid.get_node g row col) as [node|] eqn:Hnode; [|done].
  destruct (_ || _) eqn:Hcond; [|done]. cbn [fst snd].
  pose proof (get_node_elem g row col node Hnode) as Hcell.
  pose proof (ginv_cells HG node Hcell) as Hdom.
  assert (Hst : ∀ a,
    Node.state (deref (modify (Node.set_state END) node
                         (Grid.demote (Grid.end_node g) σ)) a)
    = if decide (a = node) then END
      else if decide (Grid.end_node g = Some a) then EMPTY
      else Node.state (deref σ a)).
  { intros a. rewrite state_modify by (by rewrite dom_demote).
    case_decide; [done|]. by apply state_demote. }
  assert (Hnode_st : Node.state (deref σ node) = EMPTY ∨
                     Node.state (deref σ node) = END).
  { apply orb_true_iff in Hcond as [H|H];
      apply bool_decide_eq_true in H; auto. }
  split; [|by eauto].
  constructor; simpl.
  - intros a Ha. rewrite dom_modify, dom_demote. by apply (ginv_cells HG).
  - apply (ginv_nodup HG).
  - intros a. rewrite Hst. pose proof (ginv_end HG a) as He.
    pose proof (ginv_start HG a) as Hs.
    repeat case_decide; subst; split; try done.
    + intros Hen. apply Hs in Hen. destruct Hnode_st; congruence.
    + intros Hen. apply Hs in Hen.
      assert (Node.state (deref σ a) = END) by (by apply He). congruence.
    + apply Hs.
    + apply Hs.
  - intros a. rewrite Hst. repeat case_decide; subst; split; try done.
    + congruence.
    + intros Ha. by apply (ginv_end HG) in Ha.
    + congruence.
  - apply (ginv_start_cell HG).
  - by intros a [= <-].
Qed.

(** Changing a cell that is neither start nor end to a state that is
    neither keeps the grid invariant. *)
Lemma GInv_recolor (σ : store) g node s :
  GInv σ g → node ∈ dom σ →
  Node.state (deref σ node) ≠ START → Node.state (deref σ node) ≠ END →
  s ≠ START → s ≠ END →
  GInv (modify (Node.set_state s) node σ) g.
Proof.
  intros HG Hdom Hs He Hs' He'. constructor.
  - intros a Ha. rewrite dom_modify. by apply (ginv_cells HG).
  - apply (ginv_nodup HG).
  - intros a. rewrite state_modify by done. case_decide; subst.
    + split; [done|]. intros Ha. by apply (ginv_start HG) in Ha.
    + apply (ginv_start HG).
  - intros a. rewrite state_modify by done. case_decide; subst.
    + split; [done|]. intros Ha. by apply (ginv_end HG) in Ha.
    + apply (ginv_end HG).
  - apply (ginv_start_cell HG).
  - apply (ginv_end_cell HG).
Qed.

Lemma toggle_barrier_GInv row col (σ : store) g :
  GInv σ g →
  GInv (Grid.toggle_barrier row col σ g).1.1
       (Grid.toggle_barrier row col σ g).1.2.
Proof.
  intros HG. unfold Grid.toggle_barrier.
  destruct (Grid.get_node g row col) as [node|] eqn:Hnode; [|done].
  destruct (_ || _) eqn:Hcond; [|done].
  pose proof (ginv_cells HG node (get_node_elem g row col node Hnode)) as Hdom.
  assert (Hnode_st : Node.state (deref σ node) = EMPTY ∨
                     Node.state (deref σ node) = BARRIER).
  { apply orb_true_iff in Hcond as [H|H];
      apply bool_decide_eq_true in H; auto. }
  destruct (Node.is_barrier _); cbn [fst snd];
    apply GInv_recolor; try done; destruct Hnode_st; congruence.
Qed.

Lemma set_barrier_GInv row col (σ : store) g :
  GInv σ g →
  GInv (Grid.set_barrier row col σ g).1.1 (Grid.set_barrier row col σ g).1.2.
Proof.
  intros HG. unfold Grid.set_barrier.
  destruct (Grid.get_node g row col) as [node|] eqn:Hnode; [|done].
  destruct (Node.is_empty _) eqn:Hcond; [|done].
  pose proof (ginv_cells HG node (get_node_elem g row col node Hnode)) as Hdom.
  apply bool_decide_eq_true in Hcond. cbn [fst snd].
  apply GInv_recolor; try done; congruence.
Qed.

Lemma state_reset_algorithm_data (σ : store) g a st :
  st = START ∨ st = END ∨ st = BARRIER →
  Node.state (deref (Grid.reset_algorithm_data σ g) a) = st ↔
  Node.state (deref σ a) = st.
Proof.
  intros Hst. unfold deref. rewrite !lookup_total_alt.
  rewrite lookup_reset_algorithm_data.
  case_decide; [|done].
  destruct (σ !! a) as [nd|]; [|done]. simpl.
  unfold Node.reset_algorithm_data.
  destruct nd as [? ? ? ? ? ? s ? ? ?]. simpl.
  destruct s; simpl; destruct Hst as [->|[->| ->]]; done.
Qed.

Lemma dom_modify_all f l (σ : store) :
  dom (foldl (λ σ a, modify f a σ) σ l) = dom σ.
Proof.
  revert σ. induction l as [|a l IH]; intros σ; [done|].
  simpl. by rewrite IH, dom_modify.
Qed.

Lemma reset_algorithm_data_GInv (σ : store) g :
  GInv σ g → GInv (Grid.reset_algorithm_data σ g) g.
Proof.
  intros HG. constructor.
  - intros a Ha. unfold Grid.reset_algorithm_data.
    rewrite for_each_node_join, dom_modify_all. by apply (ginv_cells HG).
  - apply (ginv_nodup HG).
  - intros a. rewrite state_reset_algorithm_data by auto.
    apply (ginv_start HG).
  - intros a. rewrite state_reset_algorithm_data by auto.
    apply (ginv_end HG).
  - apply (ginv_start_cell HG).
  - apply (ginv_end_cell HG).
Qed.

Lemma reset_grid_GInv (σ : store) g :
  GInv σ g → GInv (Grid.reset_grid σ g).1 (Grid.reset_grid σ g).2.
Proof.
  intros HG.
  assert (Hst : ∀ a st, st = START ∨ st = END →
    Node.state (deref (Grid.reset_grid σ g).1 a) ≠ st).
  { intros a st Hst. unfold deref. rewrite lookup_total_alt.
    rewrite lookup_reset_grid. case_decide as Hin.
    - destruct (σ !! a); simpl; destruct Hst as [->| ->]; done.
    - intros Ha. destruct Hst as [->| ->].
      + apply Hin, (ginv_start_cell HG), (ginv_start HG). done.
      + apply Hin, (ginv_end_cell HG), (ginv_end HG). done. }
  constructor.
  - intros a Ha. unfold Grid.reset_grid. cbn [fst].
    rewrite for_each_node_join, dom_modify_all. by apply (ginv_cells HG).
  - apply (ginv_nodup HG).
  - intros a. split; [|done]. intros Ha. exfalso.
    by apply (Hst a START); [left|].
  - intros a. split; [|done]. intros Ha. exfalso.
    by apply (Hst a END); [right|].
  - done.
  - done.
Qed.

Lemma apply_op_GInv w op :
  GInv w.1 w.2 → GInv (apply_op w op).1 (apply_op w op).2.
Proof.
  intros HG. destruct op; simpl.
  - by apply set_start_spec.
  - by apply set_end_spec.
  - by apply toggle_barrier_GInv.
  - by apply set_barrier_GInv.
  - by apply reset_grid_GInv.
  - by apply reset_algorithm_data_GInv.
Qed.

Lemma apply_ops_GInv ops w :
  GInv w.1 w.2 → GInv (apply_ops w ops).1 (apply_ops w ops).2.
Proof.
  revert w. induction ops as [|op ops IH]; intros w HG; [done|].
  simpl. by apply IH, apply_op_GInv.
Qed.

(** When both endpoints are set, they are two different cells. *)
Lemma GInv_ready (σ : store) g :
  GInv σ g → Grid.is_ready_for_pathfinding g = true →
  ∃ a b, Grid.start_node g = Some a ∧ Grid.end_node g = Some b ∧ a ≠ b.
Proof.
  intros HG Hready. unfold Grid.is_ready_for_pathfinding in Hready.
  apply andb_true_iff in Hready as [Hs He].
  apply bool_decide_eq_true in Hs, He.
  destruct (Grid.start_node g) as [a|] eqn:Ha; [|done].
  destruct (Grid.end_node g) as [b|] eqn:Hb; [|done].
  exists a, b. split_and!; try done. intros ->.
  assert (Node.state (deref σ b) = START) by (by apply (ginv_start HG)).
  assert (Node.state (deref σ b) = END) by (by apply (ginv_end HG)).
  congruence.
Qed.

(** ** What [Grid.__init__] builds *)

Lemma create_row_spec rows gap n i (σ : store) m :
  let r := foldl (λ (acc : store * list addr) (j : nat),
                    (<[i * n + j :=
                         Node.init (Z.of_nat i) (Z.of_nat j) gap rows]> acc.1,
                     acc.2 ++ [i * n + j]))
                 (σ, []) (seq 0 m) in
  r.2 = (λ j, i * n + j) <$> seq 0 m ∧
  ∀ a, r.1 !! a =
    if decide (i * n ≤ a < i * n + m)
    then Some (Node.init (Z.of_nat i) (Z.of_nat (a - i * n)) gap rows)
    else σ !! a.
Proof.
  induction m as [|m IH].
  { simpl. split; [done|]. intros a. case_decide; [lia|done]. }
  rewrite seq_S, foldl_app. cbn [foldl].
  destruct IH as [IH1 IH2]. cbv zeta. cbn [fst snd]. split.
  - by rewrite IH1, fmap_app.
  - intros a. simpl. destruct (decide (a = i * n + m)) as [->|Hne].
    + rewrite lookup_insert_eq. rewrite decide_True by lia.
      do 3 f_equal. lia.
    + rewrite lookup_insert_ne by done. rewrite IH2.
      repeat case_decide; try done; lia.
Qed.

Lemma create_grid_spec rows gap m :
  let n := Z.to_nat rows in
  let r := foldl (λ (acc : store * list (list addr)) (i : nat),
                    let '(σ, cells) := Grid.create_row rows gap n i acc.1 in
                    (σ, acc.2 ++ [cells]))
                 (∅, []) (seq 0 m) in
  r.2 = (λ i, (λ j, i * n + j) <$> seq 0 n) <$> seq 0 m ∧
  ∀ a, r.1 !! a =
    if decide (a < m * n)
    then Some (Node.init (Z.of_nat (a / n)) (Z.of_nat (a mod n)) gap rows)
    else None.
Proof.
  intros n. induction m as [|m IH].
  { split; [done|]. intros a. rewrite decide_False by lia. done. }
  rewrite seq_S, foldl_app. cbn [foldl].
  destruct IH as [IH1 IH2]. cbv zeta.
  match goal with |- context [Grid.create_row ?a ?b ?c ?d ?e] =>
    pose proof (create_row_spec a b c d e n) as Hrow;
    change (foldl _ (e, []) (seq 0 n)) with (Grid.create_row a b c d e) in Hrow;
    destruct (Grid.create_row a b c d e) as [σ' cells]
  end.
  cbv zeta in Hrow. cbn [fst snd] in Hrow |- *. destruct Hrow as [Hc Hσ].
  split.
  - by rewrite IH1, Hc, fmap_app.
  - intros a. rewrite Hσ. simpl. case_decide as Hin.
    + rewrite decide_True by lia.
      destruct (divmod_cell n m (a - m * n)) as [Hd Hm]; [lia|].
      replace (m * n + (a - m * n)) with a in Hd, Hm by lia.
      by rewrite Hd, Hm.
    + rewrite IH2. repeat case_decide; try done; lia.
Qed.

Lemma join_cells n m :
  mjoin ((λ i, (λ j, i * n + j) <$> seq 0 n) <$> seq 0 m) = seq 0 (m * n).
Proof.
  induction m as [|m IH]; [done|].
  rewrite seq_S, fmap_app, join_app, IH. simpl. rewrite app_nil_r.
  replace (n + m * n) with (m * n + n) by lia. rewrite seq_app. f_equal.
  simpl. clear IH. generalize (m * n). intros k.
  induction n as [|n IH]; [done|].
  rewrite !seq_S, fmap_app, IH. simpl. done.
Qed.

(** The grid that [Grid.__init__] returns: [n * n] empty nodes, none of
    them start or end. *)
Lemma Grid_init_spec rows width (σ : store) g :
  Grid.init rows width = inr (σ, g) →
  let n := Z.to_nat rows in
  rows ≠ 0%Z ∧
  Grid.rows g = rows ∧
  Grid.grid g = (λ i, (λ j, i * n + j) <$> seq 0 n) <$> seq 0 n ∧
  Grid.start_node g = None ∧ Grid.end_node g = None ∧
  ∀ a, σ !! a =
    if decide (a < n * n)
    then Some (Node.init (Z.of_nat (a / n)) (Z.of_nat (a mod n))
                 (width / rows)%Z rows)
    else None.
Proof.
  unfold Grid.init. case_bool_decide as Hrows; [done|].
  pose proof (create_grid_spec rows (width / rows)%Z (Z.to_nat rows)) as Hspec.
  cbv zeta in Hspec.
  change (foldl _ (∅, []) (seq 0 (Z.to_nat rows)))
    with (Grid._create_grid rows (width / rows)%Z) in Hspec.
  destruct (Grid._create_grid rows (width / rows)%Z) as [σ' cells].
  destruct Hspec as [Hc Hσ]. intros [= <- <-]. simpl. done.
Qed.

Lemma Grid_init_GInv rows width (σ : store) g :
  Grid.init rows width = inr (σ, g) → GInv σ g.
Proof.
  intros Hinit.
  destruct (Grid_init_spec rows width σ g Hinit)
    as (_ & _ & Hgrid & Hs & He & Hσ).
  assert (Hst : ∀ a, Node.state (deref σ a) = EMPTY).
  { intros a. unfold deref. rewrite lookup_total_alt, Hσ.
    by case_decide. }
  constructor.
  - intros a. rewrite Hgrid, join_cells, elem_of_seq. intros Ha.
    apply elem_of_dom. rewrite Hσ. rewrite decide_True by lia. eauto.
  - rewrite Hgrid, join_cells. apply NoDup_seq.
  - intros a. rewrite Hst, Hs. done.
  - intros a. rewrite Hst, He. done.
  - by rewrite Hs.
  - by rewrite He.
Qed.

(** * Runs: what one call of [step] does, fuel, chains *)

Lemma steps_step_n fuel :
  ∀ k (σ : store) e σ' e',
    step_n k fuel σ e = Some (σ', e') → steps σ e σ' e'.
Proof.
  induction k as [|k IH]; intros σ e σ' e' H; simpl in H.
  - injection H as <- <-. constructor.
  - destruct (DijkstraAlgorithm.step fuel σ e) as [[[σ1 e1] r]|] eqn:Hs;
      [|done].
    eapply steps_step; eauto.
Qed.

Lemma reach_Inv (σ0 : store) s t σi ei σ e :
  closed σ0 → fresh σ0 → s ∈ dom σ0 →
  DijkstraAlgorithm.init σ0 (Some s) t = inr (σi, ei) →
  steps σi ei σ e →
  Inv σ0 s σ e.
Proof.
  intros Hcl Hfr Hs Hinit Hsteps.
  eapply steps_Inv; [done| |done]. by eapply init_Inv.
Qed.

(** The four ways in which a call of [step] returns. *)
Lemma step_outcome fuel (σ : store) e σ' e' r :
  DijkstraAlgorithm.step fuel σ e = Some (σ', e', r) →
  ((DijkstraAlgorithm.priority_queue e = [] ∨
    DijkstraAlgorithm.is_complete e = true) ∧
   σ' = σ ∧
   e' = DijkstraAlgorithm.set_flags false true
          (DijkstraAlgorithm.path_found e) e ∧
   r = (false, None)) ∨
  ∃ d n q, pops σ e d n q ∧
    ((discarded σ e d n ∧ σ' = σ ∧
      e' = DijkstraAlgorithm.set_priority_queue q e ∧ r = (true, None)) ∨
     (fresh_pop σ e d n ∧ Some n = DijkstraAlgorithm.end_node e ∧
      r = (false, Some n) ∧
      ∃ chain,
        DijkstraAlgorithm.walk_previous fuel
          (DijkstraAlgorithm.mark_explored n σ) (Some n) = Some chain ∧
        σ' = DijkstraAlgorithm.mark_path (DijkstraAlgorithm.interior chain)
               (DijkstraAlgorithm.mark_explored n σ) ∧
        e' = DijkstraAlgorithm.set_path_length
               (Z.of_nat (length chain) - 1)%Z
               (DijkstraAlgorithm.set_flags false true true
                  (visiting e n q))) ∨
     (fresh_pop σ e d n ∧ Some n ≠ DijkstraAlgorithm.end_node e ∧
      r = (true, Some n) ∧
      σ' = (DijkstraAlgorithm.relax_all (visiting e n q) n
              (DijkstraAlgorithm.mark_explored n σ)).1 ∧
      e' = DijkstraAlgorithm.set_priority_queue
             (DijkstraAlgorithm.relax_all (visiting e n q) n
                (DijkstraAlgorithm.mark_explored n σ)).2
             (visiting e n q))).
Proof.
  intros Hstep.
  destruct (step_cases σ e) as [Hterm|(d & n & q & Hpops & [Hdis|Hfresh])].
  - left. rewrite (step_terminal _ _ _ Hterm) in Hstep.
    injection Hstep as <- <- <-. done.
  - right. exists d, n, q. split; [done|]. left.
    rewrite (step_discard _ _ _ _ _ _ Hpops Hdis) in Hstep.
    injection Hstep as <- <- <-. done.
  - right. exists d, n, q. split; [done|]. right.
    destruct (decide (Some n = DijkstraAlgorithm.end_node e)) as [Hend|Hend].
    + left. rewrite (step_found _ _ _ _ _ _ Hpops Hfresh Hend) in Hstep.
      destruct (DijkstraAlgorithm._reconstruct_path _ _ _)
        as [[σ1 e1]|] eqn:Hrec; [|done].
      injection Hstep as <- <- <-.
      apply reconstruct_path_cases in Hrec
        as [(Hf & _)|(_ & chain & Hwalk & -> & ->)]; [done|].
      cbn [DijkstraAlgorithm.end_node DijkstraAlgorithm.set_flags visiting
           DijkstraAlgorithm.mark_visited
           DijkstraAlgorithm.set_priority_queue] in Hwalk.
      rewrite <- Hend in Hwalk. eauto 10.
    + right. rewrite (step_expand _ _ _ _ _ _ Hpops Hfresh Hend) in Hstep.
      cbv zeta in Hstep. injection Hstep as <- <- <-. done.
Qed.

(** [visited_count] counts the calls that return a node. *)
Lemma step_count fuel (σ : store) e σ' e' c x :
  DijkstraAlgorithm.step fuel σ e = Some (σ', e', (c, x)) →
  DijkstraAlgorithm.visited_count e' =
    DijkstraAlgorithm.visited_count e
    + match x with Some _ => 1 | None => 0 end ∧
  DijkstraAlgorithm.visited_nodes e' =
    match x with
    | Some n => {[n]} ∪ DijkstraAlgorithm.visited_nodes e
    | None => DijkstraAlgorithm.visited_nodes e
    end.
Proof.
  intros Hstep. apply step_outcome in Hstep
    as [(_ & _ & He & Hr)|(d & n & q & _ & [(_ & _ & He & Hr)|[H|H]])].
  - injection Hr as _ ->. subst e'. simpl. split; [lia|done].
  - injection Hr as _ ->. subst e'. simpl. split; [lia|done].
  - destruct H as (_ & _ & Hr & chain & _ & _ & He).
    injection Hr as _ ->. subst e'. simpl. split; [lia|done].
  - destruct H as (_ & _ & Hr & _ & He).
    injection Hr as _ ->. subst e'. simpl. split; [lia|done].
Qed.

(** ** More fuel gives the same result *)

Lemma walk_previous_mono (σ : store) :
  ∀ f f' c l,
    DijkstraAlgorithm.walk_previous f σ c = Some l → f ≤ f' →
    DijkstraAlgorithm.walk_previous f' σ c = Some l.
Proof.
  induction f as [|f IH]; intros f' c l H Hle.
  - destruct c as [c|]; [done|]. by destruct f'.
  - destruct c as [c|]; [|by destruct f'].
    destruct f' as [|f']; [lia|]. simpl in *.
    destruct (DijkstraAlgorithm.walk_previous f σ _) as [l'|] eqn:Hw;
      [|done].
    rewrite (IH f' _ _ Hw) by lia. done.
Qed.

Lemma reconstruct_path_mono f f' (σ : store) e r :
  DijkstraAlgorithm._reconstruct_path f σ e = Some r → f ≤ f' →
  DijkstraAlgorithm._reconstruct_path f' σ e = Some r.
Proof.
  unfold DijkstraAlgorithm._reconstruct_path. intros H Hle.
  destruct (negb (DijkstraAlgorithm.path_found e)); [done|].
  destruct (DijkstraAlgorithm.walk_previous f σ _) as [l|] eqn:Hw; [|done].
  by rewrite (walk_previous_mono _ _ _ _ _ Hw Hle).
Qed.

Lemma step_mono f f' (σ : store) e r :
  DijkstraAlgorithm.step f σ e = Some r → f ≤ f' →
  DijkstraAlgorithm.step f' σ e = Some r.
Proof.
  unfold DijkstraAlgorithm.step. intros H Hle.
  destruct (bool_decide _ || _); [done|].
  destruct (heapq.heappop _ _) as [[[d n] q]|]; [|done].
  destruct (dist_ltb _ _); [done|].
  destruct (decide (n ∈ _)); [done|].
  destruct (decide (Some n = _)); [|done].
  destruct (DijkstraAlgorithm._reconstruct_path f _ _) as [[σ' e']|] eqn:Hr;
    [|done].
  by rewrite (reconstruct_path_mono _ _ _ _ _ Hr Hle).
Qed.

Lemma drive_mono f f' :
  ∀ n n' (σ : store) e r,
    drive n f σ e = Some r → n ≤ n' → f ≤ f' →
    drive n' f' σ e = Some r.
Proof.
  induction n as [|n IH]; intros n' σ e r H Hn Hf; [done|].
  destruct n' as [|n']; [lia|]. simpl in *.
  destruct (DijkstraAlgorithm.step f σ e) as [[[σ1 e1] [c x]]|] eqn:Hs;
    [|done].
  rewrite (step_mono _ _ _ _ _ Hs Hf). destruct c; [|done].
  apply (IH n'); [done|lia|done].
Qed.

(** Two runs of one engine that both return agree. *)
Lemma drive_det n1 f1 n2 f2 (σ : store) e r1 r2 :
  drive n1 f1 σ e = Some r1 → drive n2 f2 σ e = Some r2 → r1 = r2.
Proof.
  intros H1 H2.
  apply (drive_mono _ (f1 `max` f2) _ (n1 `max` n2)) in H1; [|lia..].
  apply (drive_mono _ (f1 `max` f2) _ (n1 `max` n2)) in H2; [|lia..].
  congruence.
Qed.

(** The generator [run_dijkstra_step_by_step] makes the calls of [drive]:
    it yields once per call, and its last yield carries the statistics of
    the engine it leaves. *)
Lemma step_by_step_loop_running b fuel :
  ∀ n (σ : store) e,
    DijkstraAlgorithm.is_complete e = false →
    match drive n fuel σ e with
    | Some (σ', e') =>
        ∃ ys x, step_by_step_loop n fuel σ (running b e) =
                  Some (σ', e',
                        ys ++ [(false, x, DijkstraAlgorithm.get_stats e')])
    | None => step_by_step_loop n fuel σ (running b e) = None
    end.
Proof.
  induction n as [|n IH]; intros σ e Hc.
  - simpl. by rewrite Hc.
  - cbn [drive step_by_step_loop].
    change (DijkstraAlgorithm.is_complete (running b e))
      with (DijkstraAlgorithm.is_complete e).
    rewrite Hc, step_running.
    destruct (DijkstraAlgorithm.step fuel σ e) as [[[σ1 e1] [c x]]|] eqn:Hstep;
      [|done].
    destruct c.
    + apply step_continue in Hstep as (_ & Hc1 & _).
      specialize (IH σ1 e1 Hc1).
      destruct (drive n fuel σ1 e1) as [[σ' e']|].
      * destruct IH as (ys & x' & ->). by eexists (_ :: ys), x'.
      * by rewrite IH.
    + by exists [], x.
Qed.

(** ** The chain of [previous] links *)

Lemma walk_previous_links (σ : store) :
  ∀ f c l,
    DijkstraAlgorithm.walk_previous f σ c = Some l →
    head l = c ∧
    ∀ i a, l !! i = Some a → l !! S i = Node.previous (deref σ a).
Proof.
  induction f as [|f IH]; intros c l H.
  - destruct c as [c|]; [done|]. injection H as <-. done.
  - destruct c as [c|]; [|injection H as <-; done]. simpl in H.
    destruct (DijkstraAlgorithm.walk_previous f σ _) as [l'|] eqn:Hw;
      [|done].
    injection H as <-. apply IH in Hw as [Hhead Hlinks].
    split; [done|]. intros [|i] a Ha; simpl in *.
    + injection Ha as <-. by rewrite <- head_lookup.
    + by apply Hlinks.
Qed.

Lemma chain_NoDup (σ : store) k (chain : list addr) :
  (∀ i b, chain !! i = Some b →
     Node.distance (deref σ b) = Fin (k - i)) →
  length chain ≤ S k → NoDup chain.
Proof.
  intros Hd Hlen. apply NoDup_alt. intros i j b Hi Hj.
  pose proof (Hd _ _ Hi) as H1. pose proof (Hd _ _ Hj) as H2.
  rewrite H1 in H2. injection H2 as H2.
  apply lookup_lt_Some in Hi, Hj. lia.
Qed.

Lemma interior_spec (l : list addr) n s a :
  NoDup l → head l = Some n → last l = Some s →
  a ∈ DijkstraAlgorithm.interior l ↔ a ∈ l ∧ a ≠ n ∧ a ≠ s.
Proof.
  intros Hnd Hhead Hlast. destruct l as [|n' l]; [done|].
  injection Hhead as ->. unfold DijkstraAlgorithm.interior. simpl.
  apply NoDup_cons in Hnd as [Hn Hnd].
  destruct l as [|m l].
  - injection Hlast as <-. simpl. rewrite elem_of_nil.
    rewrite list_elem_of_singleton. naive_solver.
  - change (last (n :: m :: l)) with (last (m :: l)) in Hlast.
    apply last_Some in Hlast as [l' Hl']. rewrite Hl' in *.
    rewrite removelast_last.
    apply NoDup_app in Hnd as (_ & Hs & _).
    rewrite elem_of_cons, elem_of_app, list_elem_of_singleton.
    rewrite elem_of_app, list_elem_of_singleton in Hn.
    split.
    + intros Ha. split; [auto|]. split; intros ->; [tauto|].
      apply (Hs s Ha). by apply list_elem_of_singleton.
    + intros ([->|[Ha| ->]] & Hn' & Hs'); done.
Qed.

Lemma reached_dom (σ : store) a k :
  Node.distance (deref σ a) = Fin k → a ∈ dom σ.
Proof.
  intros H. apply elem_of_dom. unfold deref in H.
  rewrite lookup_total_alt in H.
  destruct (σ !! a); [done|]. done.
Qed.

(** ** The cells in one state *)

Lemma holders_spec st (σ : store) g a :
  a ∈ holders st σ g ↔
  a ∈ mjoin (Grid.grid g) ∧ Node.state (deref σ a) = st.
Proof.
  unfold holders. rewrite get_all_nodes_join, list_elem_of_filter. tauto.
Qed.

Lemma holders_unique st (σ : store) g h :
  NoDup (mjoin (Grid.grid g)) →
  (∀ a, Node.state (deref σ a) = st ↔ h = Some a) →
  (∀ a, h = Some a → a ∈ mjoin (Grid.grid g)) →
  holders st σ g = option_list h.
Proof.
  intros Hnd Hst Hcell.
  assert (Hnd' : NoDup (holders st σ g)).
  { unfold holders. rewrite get_all_nodes_join. by apply NoDup_filter. }
  assert (Hin : ∀ a, a ∈ holders st σ g ↔ h = Some a).
  { intros a. rewrite holders_spec, Hst. naive_solver. }
  destruct h as [b|]; simpl.
  - apply Permutation_singleton_r. apply NoDup_Permutation; [done| |].
    + apply NoDup_singleton.
    + intros a. rewrite Hin, list_elem_of_singleton. naive_solver.
  - destruct (holders st σ g) as [|a l]; [done|].
    by specialize (proj1 (Hin a) (list_elem_of_here _ _)).
Qed.

(** * The shape of a grid and its neighbour lists *)

Lemma mjoin_cells n : mjoin (cells n) = seq 0 (n * n).
Proof. apply join_cells. Qed.

Lemma elem_of_cells n a : a ∈ mjoin (cells n) ↔ a < n * n.
Proof. rewrite mjoin_cells, elem_of_seq. lia. Qed.

Lemma lookup_cells n (r c : Z) :
  (0 ≤ r < Z.of_nat n)%Z → (0 ≤ c < Z.of_nat n)%Z →
  grid_lookup (cells n) r c = Some (Z.to_nat (r * Z.of_nat n + c)).
Proof.
  intros Hr Hc. unfold grid_lookup, cells.
  rewrite list_lookup_fmap, lookup_seq_lt by lia. simpl.
  rewrite list_lookup_fmap, lookup_seq_lt by lia. simpl.
  f_equal. rewrite Z2Nat.inj_add, Z2Nat.inj_mul, Nat2Z.id by nia. done.
Qed.

Lemma grid_lookup_cells_inv n (r c : Z) a :
  grid_lookup (cells n) r c = Some a →
  Z.to_nat r < n ∧ Z.to_nat c < n ∧ a = Z.to_nat r * n + Z.to_nat c.
Proof.
  unfold grid_lookup, cells. rewrite list_lookup_fmap.
  destruct (seq 0 n !! Z.to_nat r) as [i|] eqn:Hi; [|done]. simpl.
  rewrite list_lookup_fmap.
  destruct (seq 0 n !! Z.to_nat c) as [j|] eqn:Hj; [|done]. simpl.
  apply lookup_seq in Hi as [-> ?]. apply lookup_seq in Hj as [-> ?].
  intros [= <-]. done.
Qed.

(** ** Layout is written by [Node.__init__] only *)

Lemma layout_reset_algorithm_data nd :
  layout (Node.reset_algorithm_data nd) = layout nd.
Proof. unfold Node.reset_algorithm_data. by destruct (_ || _). Qed.

Lemma same_layout_refl (σ : store) : same_layout σ σ.
Proof. done. Qed.

Lemma same_layout_trans (σ1 σ2 σ3 : store) :
  same_layout σ1 σ2 → same_layout σ2 σ3 → same_layout σ1 σ3.
Proof.
  intros [Hd1 Hl1] [Hd2 Hl2]. split; [congruence|].
  intros a. by rewrite Hl2, Hl1.
Qed.

Lemma same_layout_modify f a (σ : store) :
  (∀ nd, layout (f nd) = layout nd) → same_layout σ (modify f a σ).
Proof.
  intros Hf. split; [apply dom_modify|].
  intros b. by apply (deref_modify_proj layout).
Qed.

Lemma same_layout_modify_all f l (σ : store) :
  (∀ nd, layout (f nd) = layout nd) →
  same_layout σ (foldl (λ σ a, modify f a σ) σ l).
Proof.
  intros Hf. revert σ. induction l as [|a l IH]; intros σ; [done|].
  simpl. eapply same_layout_trans; [|apply IH].
  by apply same_layout_modify.
Qed.

Lemma same_layout_demote h (σ : store) : same_layout σ (Grid.demote h σ).
Proof. destruct h; [by apply same_layout_modify|done]. Qed.

Lemma same_grid_refl g : same_grid g g.
Proof. done. Qed.

(** No editing operation changes the layout or the matrix of nodes. *)
Lemma apply_op_frame w op :
  same_layout w.1 (apply_op w op).1 ∧ same_grid w.2 (apply_op w op).2.
Proof.
  destruct w as [σ g].
  destruct op as [row col|row col|row col|row col| |]; simpl.
  - unfold Grid.set_start.
    destruct (Grid.get_node g row col) as [node|]; [|done].
    destruct (_ || _); [|done]. simpl. split; [|done].
    eapply same_layout_trans; [apply same_layout_demote|].
    by apply same_layout_modify.
  - unfold Grid.set_end.
    destruct (Grid.get_node g row col) as [node|]; [|done].
    destruct (_ || _); [|done]. simpl. split; [|done].
    eapply same_layout_trans; [apply same_layout_demote|].
    by apply same_layout_modify.
  - unfold Grid.toggle_barrier.
    destruct (Grid.get_node g row col) as [node|]; [|done].
    destruct (_ || _); [|done].
    destruct (Node.is_barrier _); simpl; (split; [|done]);
      by apply same_layout_modify.
  - unfold Grid.set_barrier.
    destruct (Grid.get_node g row col) as [node|]; [|done].
    destruct (Node.is_empty _); [|done]. simpl. split; [|done].
    by apply same_layout_modify.
  - split; [|done].
    change (same_layout σ (Grid.for_each_node (modify Node.reset) g σ)).
    rewrite for_each_node_join. by apply same_layout_modify_all.
  - split; [|done]. unfold Grid.reset_algorithm_data.
    rewrite for_each_node_join.
    apply same_layout_modify_all, layout_reset_algorithm_data.
Qed.

Lemma apply_ops_frame ops w :
  same_layout w.1 (apply_ops w ops).1 ∧ same_grid w.2 (apply_ops w ops).2.
Proof.
  revert w. induction ops as [|op ops IH]; intros w; [done|].
  unfold apply_ops in *. simpl.
  destruct (apply_op_frame w op) as [Hl (Hr & Hw & Hg & Hc)].
  destruct (IH (apply_op w op)) as [Hl' (Hr' & Hw' & Hg' & Hc')].
  split; [by eapply same_layout_trans|].
  repeat split; congruence.
Qed.

Lemma GShape_same n (σ σ' : store) g g' :
  GShape n σ g → same_layout σ σ' → same_grid g g' → GShape n σ' g'.
Proof.
  intros HS [Hd Hl] (Hr & Hw & Hg & Hc). constructor.
  - rewrite Hr. apply (gshape_rows HS).
  - rewrite Hg, Hw. apply (gshape_gap HS).
  - rewrite Hc. apply (gshape_grid HS).
  - rewrite Hd. apply (gshape_dom HS).
  - intros a Ha. rewrite Hl, Hg. by apply (gshape_layout HS).
Qed.

Lemma Grid_init_GShape rows width (σ : store) g :
  (0 < rows)%Z → Grid.init rows width = inr (σ, g) →
  GShape (Z.to_nat rows) σ g ∧ Grid.width g = width.
Proof.
  intros Hrows Hinit.
  pose proof (Grid_init_spec _ _ _ _ Hinit) as (_ & Hr & Hc & _ & _ & Hσ).
  cbv zeta in *.
  assert (Hgap : Grid.gap g = (width / rows)%Z ∧ Grid.width g = width).
  { unfold Grid.init in Hinit. destruct (bool_decide _); [done|].
    destruct (Grid._create_grid _ _) as [σ1 l]. by injection Hinit as _ <-. }
  destruct Hgap as [Hgap Hwidth]. split; [|done]. constructor.
  - rewrite Hr. lia.
  - rewrite Hgap, Hwidth. f_equal. lia.
  - done.
  - apply set_eq. intros a. rewrite elem_of_dom, Hσ, elem_of_set_seq.
    case_decide; split; intros H'; try done; try lia.
  - intros a Ha. specialize (Hσ a). rewrite decide_True in Hσ by done.
    rewrite (deref_lookup _ _ _ Hσ), Hgap, Z2Nat.id by lia. done.
Qed.

Lemma apply_ops_GShape rows width (σ0 : store) g0 ops (σ : store) g :
  (0 < rows)%Z → Grid.init rows width = inr (σ0, g0) →
  apply_ops (σ0, g0) ops = (σ, g) →
  GShape (Z.to_nat rows) σ g.
Proof.
  intros Hrows Hinit Hops.
  destruct (Grid_init_GShape _ _ _ _ Hrows Hinit) as [HS _].
  destruct (apply_ops_frame ops (σ0, g0)) as [Hl Hg].
  rewrite Hops in Hl, Hg. by eapply GShape_same.
Qed.

Lemma GShape_dom n (σ : store) g a :
  GShape n σ g → a ∈ dom σ ↔ a < n * n.
Proof. intros HS. rewrite (gshape_dom HS), elem_of_set_seq. lia. Qed.

Lemma GShape_node n (σ : store) g a :
  GShape n σ g → a < n * n →
  Node.row (deref σ a) = Z.of_nat (a / n) ∧
  Node.col (deref σ a) = Z.of_nat (a mod n) ∧
  Node.total_rows (deref σ a) = Z.of_nat n ∧
  Node.x (deref σ a) = (Z.of_nat (a / n) * Grid.gap g)%Z ∧
  Node.y (deref σ a) = (Z.of_nat (a mod n) * Grid.gap g)%Z ∧
  Node.width (deref σ a) = Grid.gap g.
Proof.
  intros HS Ha. pose proof (gshape_layout HS a Ha) as Hl.
  unfold layout in Hl. simpl in Hl. by injection Hl as -> -> -> -> -> ->.
Qed.

(** * [Node.update_neighbors] and [Grid.update_neighbors] *)

Lemma modify_set_neighbors_app a b L (σ : store) :
  modify (λ nd, Node.set_neighbors (Node.neighbors nd ++ [b]) nd) a
    (modify (Node.set_neighbors L) a σ)
  = modify (Node.set_neighbors (L ++ [b])) a σ.
Proof.
  apply map_eq. intros c. rewrite !lookup_modify.
  destruct (decide (a = c)); [|done]. by destruct (σ !! c).
Qed.

Lemma lookup_fmap_proj {B} (proj : Node.t → B) f (σ σ' : store) a :
  σ' !! a = f <$> σ !! a → (∀ nd, proj (f nd) = proj nd) →
  proj (deref σ' a) = proj (deref σ a).
Proof.
  intros Hl Hf. unfold deref. rewrite !lookup_total_alt, Hl.
  destruct (σ !! a); simpl; auto.
Qed.

(** The loop of [Node.update_neighbors] over the directions [ds], begun
    with the neighbour list [L]. *)
Lemma fold_add_neighbor n (σ : store) a :
  a ∈ dom σ →
  Node.row (deref σ a) = Z.of_nat (a / n) →
  Node.col (deref σ a) = Z.of_nat (a mod n) →
  Node.total_rows (deref σ a) = Z.of_nat n →
  ∀ ds L,
    foldl (add_neighbor (cells n) a)
      (inr (modify (Node.set_neighbors L) a σ)) ds =
    inr (modify
           (Node.set_neighbors
              (L ++ filter (λ b, Node.state (deref σ b) ≠ BARRIER)
                      (flat_map
                         (λ d : Z * Z,
                            let new_row := (Z.of_nat (a / n) + d.1)%Z in
                            let new_col := (Z.of_nat (a mod n) + d.2)%Z in
                            if bool_decide (0 ≤ new_row < Z.of_nat n)%Z
                               && bool_decide (0 ≤ new_col < Z.of_nat n)%Z
                            then [Z.to_nat (new_row * Z.of_nat n + new_col)]
                            else [])
                         ds)))
           a σ).
Proof.
  intros Ha Hrow Hcol Htotal. induction ds as [|d ds IH]; intros L.
  { cbn [foldl flat_map]. by rewrite filter_nil, app_nil_r. }
  cbn [foldl flat_map]. rewrite filter_app.
  unfold add_neighbor at 2.
  rewrite (deref_modify_proj Node.row), (deref_modify_proj Node.col),
    (deref_modify_proj Node.total_rows), Hrow, Hcol, Htotal by done.
  cbv zeta.
  destruct (bool_decide (0 ≤ Z.of_nat (a / n) + d.1 < Z.of_nat n)%Z
            && bool_decide (0 ≤ Z.of_nat (a mod n) + d.2 < Z.of_nat n)%Z)
    eqn:Hin.
  - apply andb_true_iff in Hin as [Hr Hc].
    apply bool_decide_eq_true in Hr, Hc.
    rewrite (lookup_cells n _ _ Hr Hc).
    rewrite (deref_modify_proj Node.is_barrier) by done.
    unfold Node.is_barrier. case_bool_decide as Hb.
    + rewrite IH, filter_cons_False, filter_nil by (by intros []).
      done.
    + rewrite modify_set_neighbors_app, IH.
      rewrite filter_cons_True, filter_nil by done.
      by rewrite <- app_assoc.
  - rewrite IH, filter_nil. done.
Qed.

Lemma Node_update_neighbors_spec n (σ : store) a :
  a ∈ dom σ →
  Node.row (deref σ a) = Z.of_nat (a / n) →
  Node.col (deref σ a) = Z.of_nat (a mod n) →
  Node.total_rows (deref σ a) = Z.of_nat n →
  Node_update_neighbors (cells n) a σ =
    inr (modify (Node.set_neighbors (open_neighbors n σ a)) a σ).
Proof.
  intros Ha Hrow Hcol Htotal. unfold Node_update_neighbors.
  by rewrite (fold_add_neighbor n σ a Ha Hrow Hcol Htotal directions []).
Qed.

Lemma update_neighbors_join (σ : store) g :
  Grid.update_neighbors σ g =
    foldl (λ acc a,
             match acc with
             | inl err => inl err
             | inr σ => Node_update_neighbors (Grid.grid g) a σ
             end)
          (inr σ) (mjoin (Grid.grid g)).
Proof.
  unfold Grid.update_neighbors.
  set (step := λ (acc : exn + store) (a : addr),
                 match acc with
                 | inl err => inl err
                 | inr σ => Node_update_neighbors (Grid.grid g) a σ
                 end).
  generalize (inr σ : exn + store). generalize (Grid.grid g).
  intros l. induction l as [|row l IH]; intros acc; [done|].
  simpl. by rewrite foldl_app, IH.
Qed.

Lemma open_neighbors_ext n (σ σ' : store) a :
  (∀ b, Node.state (deref σ' b) = Node.state (deref σ b)) →
  open_neighbors n σ' a = open_neighbors n σ a.
Proof.
  intros Hst. unfold open_neighbors. apply list_filter_iff.
  intros b. by rewrite Hst.
Qed.

Lemma update_neighbors_fold n (σ0 : store) g :
  GShape n σ0 g →
  ∀ l, (∀ a, a ∈ l → a < n * n) →
    ∃ σ' : store,
      foldl (λ acc a,
               match acc with
               | inl err => inl err
               | inr σ => Node_update_neighbors (Grid.grid g) a σ
               end)
            (inr σ0) l = inr σ' ∧
      ∀ a, σ' !! a =
           if decide (a ∈ l)
           then Node.set_neighbors (open_neighbors n σ0 a) <$> σ0 !! a
           else σ0 !! a.
Proof.
  intros HS l. induction l as [|a l IH] using rev_ind; intros Hl.
  { exists σ0. split; [done|]. intros a. by rewrite decide_False by set_solver. }
  destruct IH as (σk & Hfold & Hk).
  { intros b Hb. apply Hl. set_solver. }
  assert (Ha : a < n * n) by (apply Hl; set_solver).
  assert (Hproj : ∀ {B} (proj : Node.t → B) b,
            (∀ L nd, proj (Node.set_neighbors L nd) = proj nd) →
            proj (deref σk b) = proj (deref σ0 b)).
  { intros B proj b Hp. specialize (Hk b). case_decide.
    - by apply (lookup_fmap_proj proj _ _ _ _ Hk).
    - by apply (lookup_fmap_proj proj id); [rewrite option_fmap_id|]. }
  assert (Hdom : a ∈ dom σk).
  { apply elem_of_dom. rewrite Hk.
    assert (is_Some (σ0 !! a)) as [nd Hnd].
    { apply elem_of_dom, (GShape_dom n σ0 g a HS). done. }
    rewrite Hnd. by case_decide. }
  destruct (GShape_node n σ0 g a HS Ha) as (Hrow & Hcol & Htotal & _).
  rewrite foldl_app, Hfold. cbn [foldl]. rewrite (gshape_grid HS).
  rewrite (Node_update_neighbors_spec n σk a Hdom);
    [|by rewrite (Hproj _ Node.row)|by rewrite (Hproj _ Node.col)
     |by rewrite (Hproj _ Node.total_rows)].
  eexists. split; [done|]. intros b.
  rewrite lookup_modify, (open_neighbors_ext n σ0 σk)
    by (intros c; by apply (Hproj _ Node.state)).
  rewrite Hk. destruct (decide (a = b)) as [->|Hne].
  - rewrite (decide_True (P := b ∈ l ++ [b])) by set_solver.
    destruct (decide (b ∈ l)); by destruct (σ0 !! b).
  - destruct (decide (b ∈ l)) as [Hb|Hb].
    + by rewrite (decide_True (P := b ∈ l ++ [a])) by set_solver.
    + by rewrite (decide_False (P := b ∈ l ++ [a])) by set_solver.
Qed.

(** On a grid that [Grid.__init__] built, [Grid.update_neighbors] never
    raises and writes the neighbour lists only. *)
Lemma update_neighbors_spec n (σ : store) g :
  GShape n σ g →
  ∃ σ' : store,
    Grid.update_neighbors σ g = inr σ' ∧
    ∀ a, σ' !! a = Node.set_neighbors (open_neighbors n σ a) <$> σ !! a.
Proof.
  intros HS. rewrite update_neighbors_join.
  destruct (update_neighbors_fold n σ g HS (mjoin (Grid.grid g)))
    as (σ' & Hfold & Hσ').
  { intros a. rewrite (gshape_grid HS). apply elem_of_cells. }
  exists σ'. split; [done|]. intros a. rewrite Hσ'.
  case_decide as Ha; [done|].
  rewrite (gshape_grid HS), elem_of_cells in Ha.
  assert (Hnone : σ !! a = None).
  { apply not_elem_of_dom. by rewrite (GShape_dom n σ g a HS). }
  by rewrite Hnone.
Qed.

(** ** What the neighbour lists hold *)

Lemma grid_neighbors_cell n a b :
  a < n * n → b ∈ grid_neighbors n n a →
  b < n * n ∧
  adjacent (a / n) (a mod n) (b / n) (b mod n).
Proof.
  intros Ha Hb. assert (Hn : 0 < n) by nia.
  destruct (cell_divmod n a Hn) as [Hdecomp Hmod].
  assert (Hdiv : a / n < n).
  { apply Nat.Div0.div_lt_upper_bound. lia. }
  rewrite Hdecomp in Hb.
  apply (grid_neighbors_spec n n (a / n) (a mod n) b Hmod Hdiv) in Hb.
  unfold adjacent.
  destruct Hb as [[? ->]|[[? ->]|[[? ->]|[? ->]]]].
  - destruct (divmod_cell n (a / n - 1) (a mod n) Hmod) as [-> ->].
    split; [nia|lia].
  - destruct (divmod_cell n (a / n + 1) (a mod n) Hmod) as [-> ->].
    split; [nia|lia].
  - destruct (divmod_cell n (a / n) (a mod n - 1)) as [-> ->]; [lia|].
    split; [nia|lia].
  - destruct (divmod_cell n (a / n) (a mod n + 1)) as [-> ->]; [lia|].
    split; [nia|lia].
Qed.

Lemma grid_neighbors_adjacent n r c r' c' :
  r < n → c < n → r' < n → c' < n → adjacent r c r' c' →
  cell n r' c' ∈ grid_neighbors n n (cell n r c).
Proof.
  intros Hr Hc Hr' Hc' Hadj. unfold cell.
  apply (grid_neighbors_spec n n r c _ Hc Hr).
  destruct Hadj as [[-> [?|?]]|[-> [?|?]]].
  - right; right; left. split; [lia|]. f_equal. lia.
  - right; right; right. split; [lia|]. f_equal. lia.
  - left. split; [lia|]. f_equal. f_equal. lia.
  - right; left. split; [lia|]. f_equal. f_equal. lia.
Qed.

(** * Walks: what a finished run says about the graph *)

Lemma step_endpoints fuel (σ : store) e σ' e' r :
  DijkstraAlgorithm.step fuel σ e = Some (σ', e', r) →
  DijkstraAlgorithm.start_node e' = DijkstraAlgorithm.start_node e ∧
  DijkstraAlgorithm.end_node e' = DijkstraAlgorithm.end_node e.
Proof.
  intros Hstep. apply step_outcome in Hstep
    as [(_ & _ & -> & _)
       |(d & n & q & _ &
          [(_ & _ & -> & _)
          |[(_ & _ & _ & chain & _ & _ & ->)|(_ & _ & _ & _ & ->)]])];
    done.
Qed.

Lemma steps_endpoints (σ : store) e σ' e' :
  steps σ e σ' e' →
  DijkstraAlgorithm.start_node e' = DijkstraAlgorithm.start_node e ∧
  DijkstraAlgorithm.end_node e' = DijkstraAlgorithm.end_node e.
Proof.
  induction 1 as [|fuel σ e σ1 e1 r σ2 e2 Hstep _ [IHs IHe]]; [done|].
  apply step_endpoints in Hstep as [Hs He]. split; congruence.
Qed.

Lemma steps_trans (σ1 : store) e1 σ2 e2 σ3 e3 :
  steps σ1 e1 σ2 e2 → steps σ2 e2 σ3 e3 → steps σ1 e1 σ3 e3.
Proof.
  induction 1 as [|fuel σ e σ' e' r σ'' e'' Hstep _ IH]; [done|].
  intros H3. eapply steps_step; [done|]. by apply IH.
Qed.

(** The last call of a run that is driven to its end. *)
Lemma drive_last fuel :
  ∀ n (σ : store) e σ' e',
    drive n fuel σ e = Some (σ', e') →
    DijkstraAlgorithm.is_complete e = false →
    ∃ σ1 e1 x,
      steps σ e σ1 e1 ∧
      DijkstraAlgorithm.is_complete e1 = false ∧
      DijkstraAlgorithm.path_found e1 = DijkstraAlgorithm.path_found e ∧
      DijkstraAlgorithm.path_length e1 = DijkstraAlgorithm.path_length e ∧
      DijkstraAlgorithm.step fuel σ1 e1 = Some (σ', e', (false, x)).
Proof.
  induction n as [|n IH]; intros σ e σ' e' Hdrive Hc; [done|].
  simpl in Hdrive.
  destruct (DijkstraAlgorithm.step fuel σ e) as [[[σ1 e1] [c x]]|] eqn:Hstep;
    [|done].
  destruct c.
  - pose proof (step_continue _ _ _ _ _ _ Hstep)
      as (_ & Hc1 & _ & Hf1 & Hl1).
    destruct (IH _ _ _ _ Hdrive Hc1)
      as (σ2 & e2 & y & Hsteps & Hc2 & Hf2 & Hl2 & Hlast).
    exists σ2, e2, y. split; [by eapply steps_step|].
    split; [done|]. split; [congruence|]. split; [congruence|done].
  - injection Hdrive as <- <-. exists σ, e, x.
    split; [constructor|]. done.
Qed.

(** ** [previous] links follow neighbour lists *)

Lemma prev_edge_init (σ0 : store) s t σi ei :
  fresh σ0 →
  DijkstraAlgorithm.init σ0 (Some s) t = inr (σi, ei) →
  prev_edge σ0 σi.
Proof.
  intros Hfresh [= <- <-] a u.
  rewrite (deref_modify_proj Node.previous) by done.
  destruct (fresh_deref σ0 a Hfresh) as [_ Hp]. by rewrite Hp.
Qed.

Lemma prev_edge_step (σ0 : store) s (σ : store) e fuel σ' e' r :
  closed σ0 → Inv σ0 s σ e → prev_edge σ0 σ →
  DijkstraAlgorithm.step fuel σ e = Some (σ', e', r) →
  prev_edge σ0 σ'.
Proof.
  intros Hclosed [HC _] HP Hstep. apply step_outcome in Hstep
    as [(_ & -> & _)
       |(d & n & q & Hpops &
          [(_ & -> & _)
          |[(_ & _ & _ & chain & _ & -> & _)|(_ & _ & _ & -> & _)]])];
    [done|done| |].
  - intros a u.
    rewrite (mark_path_proj Node.previous),
      (mark_explored_proj Node.previous) by done.
    apply HP.
  - destruct (pops_spec _ _ _ _ _ _ _ HC Hpops) as (_ & _ & _ & Hn & _).
    set (σ1 := DijkstraAlgorithm.mark_explored n σ).
    assert (Hnb : ∀ nb, nb ∈ Node.neighbors (deref σ1 n) →
              nb ∈ Node.neighbors (deref σ0 n) ∧ nb ∈ dom σ0).
    { intros nb. unfold σ1.
      rewrite (mark_explored_proj Node.neighbors), (core_nbrs HC) by done.
      intros Hnb. split; [done|].
      apply (closed_spec σ0 n nb Hclosed); [|done].
      by rewrite <- (core_dom HC). }
    unfold DijkstraAlgorithm.relax_all.
    apply (relax_all_ind
             (λ (σ2 : store) _, dom σ2 = dom σ0 ∧ prev_edge σ0 σ2)).
    + intros σ2 q2 nb [Hdom HP2] Hin _ _.
      destruct (Hnb nb Hin) as [Hedge Hnbdom].
      split; [by rewrite dom_improve|]. intros a u.
      destruct (decide (a = nb)) as [->|Hne].
      * rewrite deref_improve_eq by (by rewrite Hdom).
        simpl. by intros [= <-].
      * rewrite deref_improve_ne by done. apply HP2.
    + split.
      * unfold σ1. rewrite dom_mark_explored. apply (core_dom HC).
      * intros a u. unfold σ1.
        rewrite (mark_explored_proj Node.previous) by done. apply HP.
Qed.

Lemma prev_edge_steps (σ0 : store) s (σ : store) e σ' e' :
  closed σ0 → Inv σ0 s σ e → prev_edge σ0 σ → steps σ e σ' e' →
  prev_edge σ0 σ'.
Proof.
  intros Hclosed HI HP Hsteps. revert HI HP.
  induction Hsteps as [|fuel σ e σ1 e1 r σ2 e2 Hstep _ IH]; intros HI HP;
    [done|].
  apply IH.
  - by eapply step_Inv.
  - by eapply prev_edge_step.
Qed.

(** ** Along a walk from the start, the first node not yet visited is
    queued at a distance within its position *)

Lemma walk_frontier (σ0 : store) s (σ : store) e l :
  Inv σ0 s σ e → DijkstraAlgorithm.is_complete e = false →
  walk σ0 l → head l = Some s →
  ∀ i a, l !! i = Some a →
    (a ∈ DijkstraAlgorithm.visited_nodes e ∧
     ∃ k, Node.distance (deref σ a) = Fin k ∧ k ≤ i) ∨
    (∃ j b k, j ≤ i ∧ l !! j = Some b ∧
       (b ∉ DijkstraAlgorithm.visited_nodes e) ∧
       (Fin k, b) ∈ DijkstraAlgorithm.priority_queue e ∧ k ≤ j).
Proof.
  intros [HC HR] Hc Hwalk Hhead. specialize (HR Hc).
  assert (Hreached : ∀ i a k, l !! i = Some a →
            Node.distance (deref σ a) = Fin k → k ≤ i →
            (a ∈ DijkstraAlgorithm.visited_nodes e ∧
             ∃ k, Node.distance (deref σ a) = Fin k ∧ k ≤ i) ∨
            (∃ j b k, j ≤ i ∧ l !! j = Some b ∧
               (b ∉ DijkstraAlgorithm.visited_nodes e) ∧
               (Fin k, b) ∈ DijkstraAlgorithm.priority_queue e ∧ k ≤ j)).
  { intros i a k Ha Hd Hk.
    destruct (decide (a ∈ DijkstraAlgorithm.visited_nodes e)) as [Hv|Hv].
    - left. eauto.
    - right. exists i, a, k. split; [done|]. split; [done|].
      split; [done|]. split; [|done]. by apply (run_queued HR). }
  induction i as [|i IH]; intros a Ha.
  - rewrite <- head_lookup, Hhead in Ha. injection Ha as <-.
    apply (Hreached 0 s 0); [by rewrite <- head_lookup| |done].
    apply (core_s_dist HC).
  - destruct (l !! i) as [a'|] eqn:Ha'.
    2:{ apply lookup_ge_None in Ha'. apply lookup_lt_Some in Ha. lia. }
    destruct (IH a' eq_refl)
      as [(Hv & k & Hd & Hk)|(j & b & k & Hj & Hb & Hv & Hq & Hk)].
    + pose proof (Hwalk i a' a Ha' Ha) as Hedge.
      rewrite <- (core_nbrs HC) in Hedge.
      pose proof (run_expanded HR a' a Hv Hedge) as Hrel.
      unfold relaxed_from in Hrel. rewrite Hd in Hrel. simpl in Hrel.
      apply dist_le_Fin_inv in Hrel as (k2 & Hd2 & Hk2).
      apply (Hreached (S i) a k2); [done|done|lia].
    + right. exists j, b, k. split; [lia|done].
Qed.

(** ** The chain that path reconstruction walks is a walk *)

Lemma chain_walk (σ0 σ : store) fuel a chain :
  prev_edge σ0 σ →
  DijkstraAlgorithm.walk_previous fuel σ (Some a) = Some chain →
  walk σ0 (reverse chain).
Proof.
  intros HP Hwalk. destruct (walk_previous_links _ _ _ _ Hwalk) as [_ Hl].
  intros i u b Hu Hb.
  apply reverse_lookup_Some in Hu as [Hu Hi].
  apply reverse_lookup_Some in Hb as [Hb Hi'].
  apply HP. rewrite <- (Hl _ _ Hb). rewrite <- Hu. f_equal. lia.
Qed.

Lemma walk_previous_ext (σ σ' : store) :
  (∀ a, Node.previous (deref σ' a) = Node.previous (deref σ a)) →
  ∀ f c, DijkstraAlgorithm.walk_previous f σ' c
         = DijkstraAlgorithm.walk_previous f σ c.
Proof.
  intros Hp. induction f as [|f IH]; intros [c|]; try done.
  simpl. by rewrite Hp, IH.
Qed.

(** ** The last call of a run *)

Lemma last_call (σ0 : store) s t σi ei (σ : store) e fuel σ' e' x :
  closed σ0 → fresh σ0 → s ∈ dom σ0 →
  DijkstraAlgorithm.init σ0 (Some s) (Some t) = inr (σi, ei) →
  steps σi ei σ e → DijkstraAlgorithm.is_complete e = false →
  DijkstraAlgorithm.step fuel σ e = Some (σ', e', (false, x)) →
  (x = Some t ∧ DijkstraAlgorithm.path_found e' = true ∧
   DijkstraAlgorithm.visited_nodes e'
     = {[t]} ∪ DijkstraAlgorithm.visited_nodes e ∧
   ∃ chain,
     DijkstraAlgorithm.walk_previous fuel σ' (Some t) = Some chain ∧
     walk_from_to σ0 s t (reverse chain) ∧ NoDup chain ∧
     DijkstraAlgorithm.path_length e'
       = (Z.of_nat (length chain) - 1)%Z ∧
     ∀ l, walk_from_to σ0 s t l → length chain ≤ length l) ∨
  (x = None ∧
   DijkstraAlgorithm.path_found e' = DijkstraAlgorithm.path_found e ∧
   DijkstraAlgorithm.path_length e' = DijkstraAlgorithm.path_length e ∧
   DijkstraAlgorithm.visited_nodes e' = DijkstraAlgorithm.visited_nodes e ∧
   (∀ l, walk_from_to σ0 s t l → False) ∧
   ∀ l a, walk σ0 l → head l = Some s → a ∈ l →
     a ∈ DijkstraAlgorithm.visited_nodes e').
Proof.
  intros Hclosed Hfresh Hs Hinit Hsteps Hc Hstep.
  pose proof (reach_Inv _ _ _ _ _ _ _ Hclosed Hfresh Hs Hinit Hsteps) as HI.
  assert (Hend : DijkstraAlgorithm.end_node e = Some t).
  { destruct (steps_endpoints _ _ _ _ Hsteps) as [_ ->].
    by injection Hinit as _ <-. }
  apply step_outcome in Hstep
    as [([Hq|Hc'] & -> & -> & [= ->])
       |(d & n & q & Hpops &
          [(_ & _ & _ & [=])
          |[(Hpop & Hn & [= ->] & chain & Hwalk & -> & ->)
           |(_ & _ & [=] & _)]])];
    [|congruence|].
  - right. split; [done|]. split; [done|]. split; [done|]. split; [done|].
    assert (Hall : ∀ l i a, walk σ0 l → head l = Some s → l !! i = Some a →
              a ∈ DijkstraAlgorithm.visited_nodes e).
    { intros l i a Hw Hh Ha.
      destruct (walk_frontier σ0 s σ e l HI Hc Hw Hh i a Ha)
        as [[Hv _]|(j & b & k & _ & _ & _ & Hin & _)]; [done|].
      rewrite Hq in Hin. by apply elem_of_nil in Hin. }
    split.
    + intros l (Hw & Hh & Hl). rewrite last_lookup in Hl.
      pose proof (Hall l _ t Hw Hh Hl) as Hv.
      destruct HI as [_ HR]. by apply (run_end (HR Hc) t Hend).
    + intros l a Hw Hh Ha. apply list_elem_of_lookup in Ha as [i Hi].
      by apply (Hall l i a).
  - rewrite Hend in Hn. injection Hn as ->. left.
    split; [done|]. split; [done|]. split; [done|].
    set (σ1 := DijkstraAlgorithm.mark_explored t σ) in *.
    destruct (found_spec _ _ _ _ _ _ _ (fuel `max` size (dom σ0))
                HI Hpops Hpop)
      as (k & chain' & Hd & Hk & Hwalk' & Hlen & Hhead & Hlast & Hdist & _);
      [lia|].
    fold σ1 in Hwalk'.
    apply (walk_previous_mono _ _ (fuel `max` size (dom σ0))) in Hwalk
      as Hw; [|lia].
    assert (chain' = chain) as -> by congruence. clear Hw Hwalk'.
    assert (HP : prev_edge σ0 σ1).
    { assert (HPσ : prev_edge σ0 σ).
      { eapply prev_edge_steps; [done| | |done].
        - by eapply init_Inv.
        - by eapply prev_edge_init. }
      intros a u. unfold σ1.
      rewrite (mark_explored_proj Node.previous) by done. apply HPσ. }
    exists chain. split.
    { rewrite <- Hwalk. apply walk_previous_ext. intros a.
      by apply (mark_path_proj Node.previous). }
    split.
    { split; [by eapply chain_walk|].
      by rewrite head_reverse, last_reverse. }
    split; [apply (chain_NoDup σ k); [done|lia]|].
    split; [done|].
    intros l (Hw & Hh & Hl). rewrite last_lookup in Hl.
    destruct (walk_frontier σ0 s σ e l HI Hc Hw Hh _ t Hl)
      as [[Hv _]|(j & b & k' & Hj & _ & _ & Hin & Hk')].
    + by destruct Hpop as [_ Hnv].
    + destruct (pops_spec _ _ _ _ _ _ _ (proj1 HI) Hpops)
        as (_ & _ & Hmin & _).
      specialize (Hmin _ Hin). rewrite Hd in Hmin. simpl in Hmin.
      apply dist_le_Fin in Hmin. apply lookup_lt_Some in Hl. lia.
Qed.

(** What [run_complete] returns on a freshly constructed engine. *)
Lemma run_result (σ0 : store) s t σi ei fuel σ' e' found :
  closed σ0 → fresh σ0 → s ∈ dom σ0 →
  DijkstraAlgorithm.init σ0 (Some s) (Some t) = inr (σi, ei) →
  DijkstraAlgorithm.run_complete fuel σi ei = Some (σ', e', found) →
  steps σi ei σ' e' ∧
  DijkstraAlgorithm.is_complete e' = true ∧
  DijkstraAlgorithm.path_found e' = found ∧
  if found then
    ∃ chain,
      DijkstraAlgorithm.walk_previous fuel σ' (Some t) = Some chain ∧
      walk_from_to σ0 s t (reverse chain) ∧ NoDup chain ∧
      DijkstraAlgorithm.path_length e'
        = (Z.of_nat (length chain) - 1)%Z ∧
      ∀ l, walk_from_to σ0 s t l → length chain ≤ length l
  else
    DijkstraAlgorithm.path_length e' = 0%Z ∧
    (∀ l, walk_from_to σ0 s t l → False) ∧
    ∀ l a, walk σ0 l → head l = Some s → a ∈ l →
      a ∈ DijkstraAlgorithm.visited_nodes e'.
Proof.
  intros Hclosed Hfresh Hs Hinit Hrun.
  assert (Hc : DijkstraAlgorithm.is_complete ei = false ∧
               DijkstraAlgorithm.path_found ei = false ∧
               DijkstraAlgorithm.path_length ei = 0%Z).
  { by injection Hinit as _ <-. }
  destruct Hc as (Hc & Hf0 & Hl0).
  rewrite (run_complete_drive _ _ _ Hc) in Hrun.
  destruct (drive fuel fuel σi ei) as [[σ2 e2]|] eqn:Hdrive; [|done].
  injection Hrun as -> -> <-.
  destruct (drive_last _ _ _ _ _ _ Hdrive Hc)
    as (σ1 & e1 & x & Hsteps & Hc1 & Hf1 & Hl1 & Hlast).
  split.
  { eapply steps_trans; [done|]. eapply steps_step; [done|constructor]. }
  split; [by apply step_stop in Hlast as [? _]|]. split; [done|].
  destruct (last_call _ _ _ _ _ _ _ _ _ _ _ Hclosed Hfresh Hs Hinit
              Hsteps Hc1 Hlast)
    as [(_ & Hf & _ & Hchain)|(_ & Hf & Hl & _ & Hno & Hall)].
  - by rewrite Hf.
  - rewrite Hf, Hf1, Hf0. rewrite Hl, Hl1, Hl0. done.
Qed.

(** * Tidy stores *)

Lemma deref_default (σ : store) a :
  a ∉ dom σ → deref σ a = Node.init 0 0 0 0.
Proof.
  intros Ha. apply not_elem_of_dom in Ha. unfold deref.
  by rewrite lookup_total_alt, Ha.
Qed.

Lemma Tidy_node (σ0 : store) s t a :
  Tidy σ0 s t →
  Node.state (deref σ0 a) ≠ VISITED ∧ Node.state (deref σ0 a) ≠ PATH ∧
  (Node.state (deref σ0 a) = START → a = s) ∧
  (Node.state (deref σ0 a) = END → t = Some a) ∧
  ∀ b, b ∈ Node.neighbors (deref σ0 a) → Node.state (deref σ0 b) ≠ BARRIER.
Proof.
  intros [_ HT]. destruct (σ0 !! a) as [nd|] eqn:Ha.
  - rewrite (deref_lookup _ _ _ Ha).
    destruct (HT a nd Ha) as (H1 & H2 & H3 & H4 & H5).
    repeat (split; [done|]). intros b Hb.
    by apply (proj1 (Forall_forall _ _) H5).
  - rewrite (deref_default σ0 a) by by apply not_elem_of_dom.
    simpl. repeat (split; [done|]). intros b Hb. by apply elem_of_nil in Hb.
Qed.

Lemma tidy_states {σ0 : store} {s t} (HT : Tidy σ0 s t) a :
  Node.state (deref σ0 a) ≠ VISITED ∧ Node.state (deref σ0 a) ≠ PATH.
Proof. destruct (Tidy_node σ0 s t a HT) as (? & ? & _). done. Qed.

Lemma tidy_nbrs {σ0 : store} {s t} (HT : Tidy σ0 s t) a b :
  b ∈ Node.neighbors (deref σ0 a) → Node.state (deref σ0 b) ≠ BARRIER.
Proof. destruct (Tidy_node σ0 s t a HT) as (_ & _ & _ & _ & H). apply H. Qed.

Lemma tidy_start {σ0 : store} {s t} (HT : Tidy σ0 s t) :
  Node.state (deref σ0 s) ≠ BARRIER.
Proof. by destruct HT. Qed.

Lemma tidy_START {σ0 : store} {s t} (HT : Tidy σ0 s t) a :
  Node.state (deref σ0 a) = START → a = s.
Proof. destruct (Tidy_node σ0 s t a HT) as (_ & _ & H & _). apply H. Qed.

Lemma tidy_END {σ0 : store} {s t} (HT : Tidy σ0 s t) a :
  Node.state (deref σ0 a) = END → t = Some a.
Proof. destruct (Tidy_node σ0 s t a HT) as (_ & _ & _ & H & _). apply H. Qed.

(** A store is tidy when its nodes, looked at one by one, are. *)
Lemma Tidy_intro (σ0 : store) s t :
  Node.state (deref σ0 s) ≠ BARRIER →
  (∀ a, a ∈ dom σ0 →
     Node.state (deref σ0 a) ≠ VISITED ∧ Node.state (deref σ0 a) ≠ PATH ∧
     (Node.state (deref σ0 a) = START → a = s) ∧
     (Node.state (deref σ0 a) = END → t = Some a) ∧
     ∀ b, b ∈ Node.neighbors (deref σ0 a) →
       Node.state (deref σ0 b) ≠ BARRIER) →
  Tidy σ0 s t.
Proof.
  intros Hs H. split; [done|]. intros a nd Ha.
  specialize (H a (elem_of_dom_2 _ _ _ Ha)).
  rewrite (deref_lookup _ _ _ Ha) in H.
  destruct H as (H1 & H2 & H3 & H4 & H5).
  repeat (split; [done|]). by apply Forall_forall.
Qed.

(** * A run on a grid as the visualizer prepares it *)

Lemma node_eq (nd nd' : Node.t) :
  layout nd = layout nd' → Node.state nd = Node.state nd' →
  Node.distance nd = Node.distance nd' →
  Node.previous nd = Node.previous nd' →
  Node.neighbors nd = Node.neighbors nd' →
  nd = nd'.
Proof.
  destruct nd, nd'. unfold layout. simpl. intros [= -> -> -> -> -> ->].
  by intros -> -> -> ->.
Qed.

(** ** Nodes that a run reaches are no barriers *)

Lemma reached_open (σ0 : store) s t (σ : store) e a k :
  Core σ0 s σ e → prev_edge σ0 σ → Tidy σ0 s t →
  Node.distance (deref σ a) = Fin k →
  Node.state (deref σ0 a) ≠ BARRIER.
Proof.
  intros HC HP HT Hd.
  destruct (Node.previous (deref σ a)) as [u|] eqn:Hp.
  - apply (tidy_nbrs HT u a). by apply HP.
  - destruct (core_noprev HC a Hp) as [->|Hinf].
    + apply (tidy_start HT).
    + congruence.
Qed.

Lemma recoloured_refl (σ0 : store) : recoloured σ0 σ0.
Proof. intros a. auto. Qed.

Lemma recoloured_same (σ0 σ σ' : store) :
  (∀ a, layout (deref σ' a) = layout (deref σ a) ∧
        Node.state (deref σ' a) = Node.state (deref σ a)) →
  recoloured σ0 σ → recoloured σ0 σ'.
Proof.
  intros Hsame Hrec a. destruct (Hsame a) as [-> ->]. apply Hrec.
Qed.

Lemma recoloured_init (σ0 : store) s t σi ei :
  DijkstraAlgorithm.init σ0 (Some s) t = inr (σi, ei) →
  recoloured σ0 σi.
Proof.
  intros [= <- <-]. apply (recoloured_same σ0 σ0); [|apply recoloured_refl].
  intros a. split.
  - by apply (deref_modify_proj layout).
  - by apply (deref_modify_proj Node.state).
Qed.

Lemma recoloured_mark_explored (σ0 : store) s t (σ : store) e d n q :
  Core σ0 s σ e → prev_edge σ0 σ → Tidy σ0 s t →
  pops σ e d n q → fresh_pop σ e d n →
  recoloured σ0 σ →
  recoloured σ0 (DijkstraAlgorithm.mark_explored n σ).
Proof.
  intros HC HP HT Hpops Hpop Hrec a.
  destruct (pops_spec _ _ _ _ _ _ _ HC Hpops) as (_ & _ & _ & Hn & _).
  destruct (fresh_pop_dist _ _ _ _ _ _ _ HC Hpops Hpop) as (k & _ & Hk).
  pose proof (reached_open _ _ _ _ _ _ _ HC HP HT Hk) as Hopen.
  destruct (Hrec a) as [Hl Hst]. split.
  { by rewrite (mark_explored_proj layout). }
  unfold DijkstraAlgorithm.mark_explored, Node.is_start, Node.is_end.
  destruct (negb _ && negb _) eqn:Hcond; [|done].
  apply andb_true_iff in Hcond as [H1 H2].
  apply negb_true_iff, bool_decide_eq_false in H1, H2.
  rewrite state_modify by done. case_decide as Ha; [|done]. subst a.
  right. split; [|by left].
  destruct (tidy_states HT n) as [Hv Hpth].
  destruct Hst as [Hst|[? _]]; [|done].
  rewrite Hst in H1, H2. by destruct (Node.state (deref σ0 n)).
Qed.

(** One call of [step] keeps the links on neighbour lists, recolours
    [EMPTY] nodes only and visits no barrier. *)
Lemma session_step (σ0 : store) s (σ : store) e fuel σ' e' r :
  closed σ0 → Inv σ0 s σ e → Tidy σ0 s (DijkstraAlgorithm.end_node e) →
  size (dom σ0) ≤ fuel →
  prev_edge σ0 σ → recoloured σ0 σ →
  (∀ v, v ∈ DijkstraAlgorithm.visited_nodes e →
     Node.state (deref σ0 v) ≠ BARRIER) →
  DijkstraAlgorithm.step fuel σ e = Some (σ', e', r) →
  prev_edge σ0 σ' ∧ recoloured σ0 σ' ∧
  ∀ v, v ∈ DijkstraAlgorithm.visited_nodes e' →
    Node.state (deref σ0 v) ≠ BARRIER.
Proof.
  intros Hclosed HI HT Hfuel HP Hrec Hvis Hstep.
  split; [by eapply prev_edge_step|].
  pose proof HI as [HC _].
  apply step_outcome in Hstep
    as [(_ & -> & -> & _)
       |(d & n & q & Hpops &
          [(_ & -> & -> & _)
          |[(Hpop & Hn & _ & chain & Hwalk & -> & ->)
           |(Hpop & _ & _ & -> & ->)]])];
    [done|done| |].
  - (* the end node *)
    destruct (fresh_pop_dist _ _ _ _ _ _ _ HC Hpops Hpop) as (k & _ & Hk).
    pose proof (recoloured_mark_explored _ _ _ _ _ _ _ _ HC HP HT
                  Hpops Hpop Hrec) as Hrec1.
    set (σ1 := DijkstraAlgorithm.mark_explored n σ) in *.
    split.
    + destruct (found_spec _ _ _ _ _ _ _ fuel HI Hpops Hpop Hfuel)
        as (k' & chain' & _ & _ & Hwalk' & Hlen & Hhead & Hlast & Hdist & _).
      fold σ1 in Hwalk'. assert (chain' = chain) as -> by congruence.
      assert (Hnd : NoDup chain) by (apply (chain_NoDup σ k'); [done|lia]).
      intros a. destruct (Hrec1 a) as [Hl Hst]. split.
      { by rewrite (mark_path_proj layout). }
      pose proof (interior_spec chain n s a Hnd Hhead Hlast) as Hint.
      pose proof (lookup_mark_path (DijkstraAlgorithm.interior chain) a σ1)
        as Hlook.
      destruct (decide (a ∈ DijkstraAlgorithm.interior chain)) as [Ha|Ha].
      * apply Hint in Ha as (Ha & Han & Has).
        apply list_elem_of_lookup in Ha as [i Hi].
        pose proof (Hdist i a Hi) as Hda.
        rewrite (deref_fmap_lookup _ _ _ _ Hlook).
        2:{ unfold σ1. rewrite dom_mark_explored. by eapply reached_dom. }
        right. split; [|by right].
        pose proof (reached_open _ _ _ _ _ _ _ HC HP HT Hda) as Hopen.
        destruct (tidy_states HT a) as [Hv Hpth].
        destruct (Node.state (deref σ0 a)) eqn:Hsa; try done.
        -- by apply (tidy_START HT) in Hsa.
        -- apply (tidy_END HT) in Hsa. congruence.
      * by rewrite (deref_same_lookup _ _ _ Hlook).
    + intros v. simpl. rewrite elem_of_union, elem_of_singleton.
      intros [->|Hv]; [|by apply Hvis].
      by eapply reached_open.
  - (* another node *)
    destruct (fresh_pop_dist _ _ _ _ _ _ _ HC Hpops Hpop) as (k & _ & Hk).
    pose proof (recoloured_mark_explored _ _ _ _ _ _ _ _ HC HP HT
                  Hpops Hpop Hrec) as Hrec1.
    set (σ1 := DijkstraAlgorithm.mark_explored n σ) in *.
    split.
    + apply (recoloured_same σ0 σ1); [|done].
      unfold DijkstraAlgorithm.relax_all.
      apply (relax_all_ind
               (λ (σ2 : store) _,
                  ∀ a, layout (deref σ2 a) = layout (deref σ1 a) ∧
                       Node.state (deref σ2 a) = Node.state (deref σ1 a)));
        [|done].
      intros σ2 q2 nb H2 _ _ _ a. destruct (H2 a) as [<- <-].
      split; by apply improve_proj.
    + intros v. simpl. rewrite elem_of_union, elem_of_singleton.
      intros [->|Hv]; [|by apply Hvis].
      by eapply reached_open.
Qed.

Lemma state_mark_explored_ne n a (σ : store) :
  a ≠ n →
  Node.state (deref (DijkstraAlgorithm.mark_explored n σ) a)
  = Node.state (deref σ a).
Proof.
  intros Hne. unfold DijkstraAlgorithm.mark_explored.
  destruct (negb _ && negb _); [|done].
  by rewrite deref_modify_ne.
Qed.

Lemma state_mark_explored_eq n (σ : store) :
  n ∈ dom σ →
  Node.state (deref (DijkstraAlgorithm.mark_explored n σ) n) ≠ EMPTY.
Proof.
  intros Hn. unfold DijkstraAlgorithm.mark_explored, Node.is_start, Node.is_end.
  destruct (negb _ && negb _) eqn:Hcond.
  - by rewrite deref_modify_eq.
  - apply andb_false_iff in Hcond as [H|H];
      apply negb_false_iff, bool_decide_eq_true in H; by rewrite H.
Qed.

Lemma elem_of_removelast (l : list addr) a : a ∈ removelast l → a ∈ l.
Proof.
  induction l as [|x l IH]; [done|]. simpl. destruct l as [|y l].
  - intros H. by apply elem_of_nil in H.
  - rewrite !elem_of_cons. intros [->|H]; [by left|]. right.
    apply elem_of_cons. apply IH. done.
Qed.

Lemma elem_of_interior (l : list addr) a :
  a ∈ DijkstraAlgorithm.interior l → ∃ i, l !! S i = Some a.
Proof.
  unfold DijkstraAlgorithm.interior. intros Ha.
  apply elem_of_removelast in Ha. destruct l as [|x l]; simpl in Ha.
  - by apply elem_of_nil in Ha.
  - apply list_elem_of_lookup in Ha as [i Hi]. by exists i.
Qed.

(** One call of [step] keeps the display in agreement with the engine. *)
Lemma shown_step (σ0 : store) s (σ : store) e fuel σ' e' r :
  Inv σ0 s σ e → shown σ e →
  DijkstraAlgorithm.step fuel σ e = Some (σ', e', r) →
  shown σ' e'.
Proof.
  intros [HC _] [H4 H5] Hstep.
  assert (Hmark : ∀ d n q, pops σ e d n q →
            shown (DijkstraAlgorithm.mark_explored n σ) (visiting e n q)).
  { intros d n q Hpops.
    destruct (pops_spec _ _ _ _ _ _ _ HC Hpops) as (_ & _ & _ & Hn & _).
    split.
    - intros v. simpl. rewrite elem_of_union, elem_of_singleton.
      destruct (decide (v = n)) as [->|Hne].
      + intros _. by apply state_mark_explored_eq.
      + rewrite state_mark_explored_ne by done. intros [?|Hv]; [done|].
        by apply H4.
    - intros a. simpl. rewrite elem_of_union, elem_of_singleton.
      destruct (decide (a = n)) as [->|Hne]; [by left|].
      rewrite state_mark_explored_ne by done. intros Ha. right.
      by apply H5. }
  apply step_outcome in Hstep
    as [(_ & -> & -> & _)
       |(d & n & q & Hpops &
          [(_ & -> & -> & _)
          |[(Hpop & Hn & _ & chain & Hwalk & -> & ->)
           |(Hpop & _ & _ & -> & ->)]])];
    [done|done| |].
  - destruct (Hmark d n q Hpops) as [H4' H5'].
    set (σ1 := DijkstraAlgorithm.mark_explored n σ) in *.
    assert (Hdom1 : dom σ1 = dom σ) by apply dom_mark_explored.
    assert (Hst : ∀ a, Node.state (deref (DijkstraAlgorithm.mark_path
                         (DijkstraAlgorithm.interior chain) σ1) a) = PATH ∨
                       Node.state (deref (DijkstraAlgorithm.mark_path
                         (DijkstraAlgorithm.interior chain) σ1) a)
                       = Node.state (deref σ1 a)).
    { intros a.
      pose proof (lookup_mark_path (DijkstraAlgorithm.interior chain) a σ1)
        as Hlook.
      case_decide as Ha.
      - destruct (σ1 !! a) as [nd|] eqn:Hnd.
        + left. unfold deref. rewrite lookup_total_alt, Hlook. done.
        + right. unfold deref. rewrite !lookup_total_alt, Hlook, Hnd. done.
      - right. by rewrite (deref_same_lookup _ _ _ Hlook). }
    split.
    + intros v Hv. simpl in Hv.
      destruct (Hst v) as [->| ->]; [done|]. by apply H4'.
    + intros a Ha. simpl.
      destruct (decide (a ∈ DijkstraAlgorithm.interior chain)) as [Hin|Hin].
      * apply elem_of_interior in Hin as [i Hi].
        destruct (walk_previous_links _ _ _ _ Hwalk) as [_ Hlinks].
        destruct (chain !! i) as [c|] eqn:Hc.
        2:{ apply lookup_ge_None in Hc. apply lookup_lt_Some in Hi. lia. }
        rewrite (Hlinks i c Hc) in Hi. unfold σ1 in Hi.
        rewrite (mark_explored_proj Node.previous) in Hi by done.
        destruct (core_prev HC c a Hi) as [Hv _].
        apply elem_of_union. by right.
      * apply H5'.
        pose proof (lookup_mark_path (DijkstraAlgorithm.interior chain) a σ1)
          as Hlook.
        rewrite decide_False in Hlook by done.
        by rewrite (deref_same_lookup _ _ _ Hlook) in Ha.
  - destruct (Hmark d n q Hpops) as [H4' H5'].
    set (σ1 := DijkstraAlgorithm.mark_explored n σ) in *.
    assert (Hst : ∀ a,
              Node.state (deref (DijkstraAlgorithm.relax_all
                                   (visiting e n q) n σ1).1 a)
              = Node.state (deref σ1 a)).
    { unfold DijkstraAlgorithm.relax_all.
      apply (relax_all_ind
               (λ (σ2 : store) _,
                  ∀ a, Node.state (deref σ2 a) = Node.state (deref σ1 a)));
        [|done].
      intros σ2 q2 nb H2 _ _ _ a. rewrite <- (H2 a). by apply improve_proj. }
    split.
    + intros v Hv. simpl in Hv. rewrite Hst. by apply H4'.
    + intros a Ha. simpl. rewrite Hst in Ha. by apply H5'.
Qed.

Lemma session_steps (σ0 : store) s t σi ei (σ : store) e :
  closed σ0 → fresh σ0 → s ∈ dom σ0 → Tidy σ0 s t →
  DijkstraAlgorithm.init σ0 (Some s) t = inr (σi, ei) →
  steps σi ei σ e →
  Inv σ0 s σ e ∧ prev_edge σ0 σ ∧ recoloured σ0 σ ∧
  (∀ v, v ∈ DijkstraAlgorithm.visited_nodes e →
     Node.state (deref σ0 v) ≠ BARRIER) ∧
  shown σ e.
Proof.
  intros Hclosed Hfresh Hs HT Hinit Hsteps.
  assert (H0 : Inv σ0 s σi ei ∧ prev_edge σ0 σi ∧ recoloured σ0 σi ∧
               (∀ v, v ∈ DijkstraAlgorithm.visited_nodes ei →
                  Node.state (deref σ0 v) ≠ BARRIER) ∧
               shown σi ei ∧
               DijkstraAlgorithm.end_node ei = t).
  { split; [by eapply init_Inv|]. split; [by eapply prev_edge_init|].
    split; [by eapply recoloured_init|].
    pose proof (recoloured_init _ _ _ _ _ Hinit) as Hrec.
    injection Hinit as <- <-. simpl. split; [set_solver|].
    split; [|done]. split; [set_solver|]. simpl. intros a Ha.
    destruct (tidy_states HT a) as [Hv Hp].
    destruct (Hrec a) as [_ [Hst|[H0 _]]].
    - rewrite Hst in Ha. by destruct Ha.
    - rewrite (deref_modify_proj Node.state) in Ha by done.
      rewrite H0 in Ha. by destruct Ha. }
  clear Hinit. revert H0.
  induction Hsteps as [|fuel σ e σ1 e1 r σ2 e2 Hstep _ IH];
    intros (HI & HP & Hrec & Hvis & Hshown & Hend); [done|].
  apply IH. pose proof (step_endpoints _ _ _ _ _ _ Hstep) as [_ Hend1].
  apply (step_mono _ (fuel `max` size (dom σ0))) in Hstep as Hstep';
    [|lia].
  split; [by eapply step_Inv|].
  assert (HT' : Tidy σ0 s (DijkstraAlgorithm.end_node e)) by by rewrite Hend.
  assert (Hfuel : size (dom σ0) ≤ fuel `max` size (dom σ0)) by lia.
  destruct (session_step σ0 s σ e _ _ _ _ Hclosed HI HT' Hfuel HP Hrec
              Hvis Hstep') as (HP1 & Hrec1 & Hvis1).
  split; [done|]. split; [done|]. split; [done|].
  split; [by eapply shown_step|]. congruence.
Qed.

(** ** Resetting after a run *)

Lemma reset_restores (σ0 : store) s t (σ : store) e a :
  fresh σ0 → Tidy σ0 s t → Core σ0 s σ e → recoloured σ0 σ →
  Node.reset_algorithm_data (deref σ a) = deref σ0 a.
Proof.
  intros Hfresh HT HC Hrec.
  destruct (fresh_deref σ0 a Hfresh) as [Hd Hp].
  destruct (Hrec a) as [Hl Hst]. destruct (tidy_states HT a) as [Hv Hpth].
  pose proof (core_nbrs HC a) as Hn.
  revert Hl Hst Hn. generalize (deref σ a). intros nd Hl Hst Hn.
  apply node_eq.
  - by rewrite layout_reset_algorithm_data.
  - unfold Node.reset_algorithm_data.
    destruct nd as [? ? ? ? ? ? st ? ? ?]. simpl in *.
    destruct Hst as [Hst|[H0 [Hst|Hst]]]; subst st.
    + by destruct (Node.state (deref σ0 a)).
    + by rewrite H0.
    + by rewrite H0.
  - by rewrite Hd.
  - by rewrite Hp.
  - rewrite <- Hn. unfold Node.reset_algorithm_data.
    by destruct (_ || _).
Qed.

Lemma barrier_untouched (σ0 : store) s t (σ : store) e a :
  fresh σ0 → Tidy σ0 s t → Core σ0 s σ e → prev_edge σ0 σ →
  recoloured σ0 σ →
  Node.state (deref σ0 a) = BARRIER →
  deref σ a = deref σ0 a.
Proof.
  intros Hfresh HT HC HP Hrec Hb.
  destruct (fresh_deref σ0 a Hfresh) as [Hd Hp].
  destruct (Hrec a) as [Hl Hst].
  assert (Hinf : Node.distance (deref σ a) = Inf).
  { destruct (Node.distance (deref σ a)) as [k|] eqn:Hk; [|done].
    by destruct (reached_open _ _ _ _ _ _ _ HC HP HT Hk). }
  apply node_eq; [done| | | |].
  - destruct Hst as [Hst|[H0 _]]; [done|congruence].
  - congruence.
  - rewrite Hp. destruct (Node.previous (deref σ a)) as [u|] eqn:Hpu; [|done].
    destruct (core_prev HC a u Hpu) as (_ & k & _ & Hk). congruence.
  - apply (core_nbrs HC).
Qed.

(** * What [start_algorithm] hands to the engine *)

Lemma open_neighbors_barrier n (σ σ' : store) a :
  (∀ b, Node.state (deref σ' b) = BARRIER ↔
        Node.state (deref σ b) = BARRIER) →
  open_neighbors n σ' a = open_neighbors n σ a.
Proof.
  intros Hst. unfold open_neighbors. apply list_filter_iff.
  intros b. by rewrite Hst.
Qed.

Lemma reset_algorithm_data_GShape n (σ : store) g :
  GShape n σ g → GShape n (Grid.reset_algorithm_data σ g) g.
Proof.
  intros HS. apply (GShape_same n σ _ g g HS); [|apply same_grid_refl].
  unfold Grid.reset_algorithm_data. rewrite for_each_node_join.
  apply same_layout_modify_all, layout_reset_algorithm_data.
Qed.

Lemma lookup_reset_algorithm_data_GShape n (σ : store) g a :
  GShape n σ g →
  Grid.reset_algorithm_data σ g !! a = Node.reset_algorithm_data <$> σ !! a.
Proof.
  intros HS. rewrite lookup_reset_algorithm_data.
  case_decide as Ha; [done|].
  rewrite (gshape_grid HS), elem_of_cells in Ha.
  assert (Hnone : σ !! a = None).
  { apply not_elem_of_dom. by rewrite (GShape_dom n σ g a HS). }
  by rewrite Hnone.
Qed.

(** The store after [reset_algorithm_data(); update_neighbors()]. *)
Lemma prepare_spec n (σ : store) g :
  GShape n σ g →
  ∃ σp : store,
    prepare σ g = inr σp ∧
    ∀ a, σp !! a =
         (λ nd, Node.set_neighbors (open_neighbors n σ a)
                  (Node.reset_algorithm_data nd)) <$> σ !! a.
Proof.
  intros HS. unfold prepare.
  destruct (update_neighbors_spec n _ g (reset_algorithm_data_GShape n σ g HS))
    as (σp & Hup & Hσp).
  exists σp. split; [done|]. intros a.
  rewrite Hσp, (lookup_reset_algorithm_data_GShape n σ g a HS).
  rewrite <- option_fmap_compose.
  rewrite (open_neighbors_barrier n σ (Grid.reset_algorithm_data σ g) a);
    [done|].
  intros b. apply state_reset_algorithm_data. auto.
Qed.

Lemma prepare_deref n (σ : store) g (σp : store) :
  GShape n σ g →
  (∀ a, σp !! a =
        (λ nd, Node.set_neighbors (open_neighbors n σ a)
                 (Node.reset_algorithm_data nd)) <$> σ !! a) →
  dom σp = dom σ ∧
  ∀ a,
    layout (deref σp a) = layout (deref σ a) ∧
    Node.state (deref σp a)
      = Node.state (Node.reset_algorithm_data (deref σ a)) ∧
    Node.distance (deref σp a) = Inf ∧
    Node.previous (deref σp a) = None ∧
    Node.neighbors (deref σp a)
      = if decide (a < n * n) then open_neighbors n σ a else [].
Proof.
  intros HS Hσp. split.
  { apply set_eq. intros a. rewrite !elem_of_dom, Hσp.
    by rewrite fmap_is_Some. }
  intros a. unfold deref. rewrite !lookup_total_alt, Hσp.
  destruct (σ !! a) as [nd|] eqn:Hnd; simpl.
  - assert (Ha : a < n * n).
    { apply (GShape_dom n σ g a HS). by apply elem_of_dom. }
    rewrite decide_True by done.
    split; [apply layout_reset_algorithm_data|]. done.
  - assert (Ha : ¬ a < n * n).
    { rewrite <- (GShape_dom n σ g a HS). by apply not_elem_of_dom. }
    by rewrite decide_False by done.
Qed.

Lemma state_reset_cases nd :
  (Node.state (Node.reset_algorithm_data nd) = Node.state nd ∧
   Node.state nd ≠ VISITED ∧ Node.state nd ≠ PATH) ∨
  (Node.state (Node.reset_algorithm_data nd) = EMPTY ∧
   (Node.state nd = VISITED ∨ Node.state nd = PATH)).
Proof.
  unfold Node.reset_algorithm_data. destruct nd as [? ? ? ? ? ? st ? ? ?].
  destruct st; simpl; auto.
Qed.

(** The prepared store of a grid with a start node meets every
    assumption that the engine makes. *)
Lemma prepare_ready n (σ : store) g (σp : store) s :
  GShape n σ g → GInv σ g →
  (∀ a, σp !! a =
        (λ nd, Node.set_neighbors (open_neighbors n σ a)
                 (Node.reset_algorithm_data nd)) <$> σ !! a) →
  Grid.start_node g = Some s →
  closed σp ∧ fresh σp ∧ s ∈ dom σp ∧ Tidy σp s (Grid.end_node g) ∧
  GShape n σp g ∧ GInv σp g.
Proof.
  intros HS HG Hσp Hs.
  destruct (prepare_deref n σ g σp HS Hσp) as [Hdom Hd].
  assert (Hstate : ∀ a st, st = START ∨ st = END ∨ st = BARRIER →
            Node.state (deref σp a) = st ↔ Node.state (deref σ a) = st).
  { intros a st Hst. destruct (Hd a) as (_ & -> & _).
    destruct (state_reset_cases (deref σ a)) as [(-> & _)|(-> & Hv)];
      [done|].
    split; intros H; destruct Hst as [->|[->| ->]];
      try done; destruct Hv; congruence. }
  assert (Hnbr : ∀ a b, b ∈ Node.neighbors (deref σp a) →
            b < n * n ∧ Node.state (deref σ b) ≠ BARRIER).
  { intros a b. destruct (Hd a) as (_ & _ & _ & _ & ->).
    case_decide as Ha; [|by intros H%elem_of_nil].
    unfold open_neighbors. rewrite list_elem_of_filter. intros [Hb Hin].
    split; [|done]. by apply (grid_neighbors_cell n a b Ha). }
  split.
  { intros a nd Ha. apply Forall_forall. intros b Hb.
    rewrite <- (deref_lookup _ _ _ Ha) in Hb.
    destruct (Hnbr a b Hb) as [Hlt _].
    rewrite Hdom. by apply (GShape_dom n σ g b HS). }
  split.
  { intros a nd Ha. rewrite <- (deref_lookup _ _ _ Ha).
    by destruct (Hd a) as (_ & _ & ? & ? & _). }
  assert (Hsdom : s ∈ dom σ).
  { apply (ginv_cells HG), (ginv_start_cell HG), Hs. }
  split; [by rewrite Hdom|]. split.
  { apply Tidy_intro.
    - intros Hb. apply (Hstate s BARRIER) in Hb; [|auto].
      apply (ginv_start HG) in Hs. congruence.
    - intros a _. destruct (Hd a) as (_ & Hst & _).
      split.
      { rewrite Hst.
        destruct (state_reset_cases (deref σ a)) as [(-> & ? & _)|(-> & _)];
          done. }
      split.
      { rewrite Hst.
        destruct (state_reset_cases (deref σ a)) as [(-> & _ & ?)|(-> & _)];
          done. }
      split.
      { intros H. apply (Hstate a START) in H; [|auto].
        apply (ginv_start HG) in H. congruence. }
      split.
      { intros H. apply (Hstate a END) in H; [|auto].
        by apply (ginv_end HG) in H. }
      intros b Hb. destruct (Hnbr a b Hb) as [_ Hopen]. intros H.
      apply Hopen. by apply (Hstate b BARRIER); [auto|]. }
  split.
  { apply (GShape_same n σ σp g g HS); [|apply same_grid_refl].
    split; [done|]. intros a. by destruct (Hd a) as [? _]. }
  constructor.
  - intros a Ha. rewrite Hdom. by apply (ginv_cells HG).
  - apply (ginv_nodup HG).
  - intros a. rewrite (Hstate a START) by auto. apply (ginv_start HG).
  - intros a. rewrite (Hstate a END) by auto. apply (ginv_end HG).
  - apply (ginv_start_cell HG).
  - apply (ginv_end_cell HG).
Qed.

(** ** Walks on the prepared store are routes on the grid *)

Lemma walk_route n (σ : store) g (σp : store) s l :
  GShape n σ g →
  (∀ a, σp !! a =
        (λ nd, Node.set_neighbors (open_neighbors n σ a)
                 (Node.reset_algorithm_data nd)) <$> σ !! a) →
  s < n * n → Node.state (deref σ s) ≠ BARRIER → head l = Some s →
  walk σp l ↔ route n σ l.
Proof.
  intros HS Hσp Hs Hopen Hhead.
  destruct (prepare_deref n σ g σp HS Hσp) as [Hdom Hd].
  assert (Hn : 0 < n) by nia.
  split.
  - intros Hwalk.
    assert (Hcell : ∀ i a, l !! i = Some a →
              a < n * n ∧ Node.state (deref σ a) ≠ BARRIER).
    { induction i as [|i IH]; intros a Ha.
      - rewrite <- head_lookup, Hhead in Ha. by injection Ha as <-.
      - destruct (l !! i) as [a'|] eqn:Ha'.
        2:{ apply lookup_ge_None in Ha'. apply lookup_lt_Some in Ha. lia. }
        destruct (IH a' eq_refl) as [Hlt _].
        pose proof (Hwalk i a' a Ha' Ha) as Hedge.
        destruct (Hd a') as (_ & _ & _ & _ & Hnb). rewrite Hnb in Hedge.
        rewrite decide_True in Hedge by done.
        unfold open_neighbors in Hedge.
        apply list_elem_of_filter in Hedge as [Hb Hin].
        split; [|done]. by apply (grid_neighbors_cell n a' a Hlt). }
    split.
    + intros a Ha. apply list_elem_of_lookup in Ha as [i Hi].
      by apply (Hcell i).
    + intros i a b Ha Hb. destruct (Hcell i a Ha) as [Hlt _].
      pose proof (Hwalk i a b Ha Hb) as Hedge.
      destruct (Hd a) as (_ & _ & _ & _ & Hnb). rewrite Hnb in Hedge.
      rewrite decide_True in Hedge by done.
      unfold open_neighbors in Hedge.
      apply list_elem_of_filter in Hedge as [_ Hin].
      by apply (grid_neighbors_cell n a b Hlt).
  - intros [Hcells Hadj] i a b Ha Hb.
    destruct (Hcells a) as [Hlt _]; [by eapply list_elem_of_lookup_2|].
    destruct (Hcells b) as [Hltb Hbo]; [by eapply list_elem_of_lookup_2|].
    destruct (Hd a) as (_ & _ & _ & _ & ->). rewrite decide_True by done.
    unfold open_neighbors. apply list_elem_of_filter. split; [done|].
    destruct (cell_divmod n a Hn) as [Hea Hma].
    destruct (cell_divmod n b Hn) as [Heb Hmb].
    assert (Hda : a / n < n) by (apply Nat.Div0.div_lt_upper_bound; lia).
    assert (Hdb : b / n < n) by (apply Nat.Div0.div_lt_upper_bound; lia).
    pose proof (grid_neighbors_adjacent n (a / n) (a mod n) (b / n) (b mod n)
                  Hda Hma Hdb Hmb (Hadj i a b Ha Hb)) as Hin.
    unfold cell in Hin. by rewrite <- Hea, <- Heb in Hin.
Qed.

(** * The distances of visited nodes *)

(** A returned node keeps the distance it was popped with. *)
Lemma step_node_distance fuel (σ : store) e σ' e' c n :
  DijkstraAlgorithm.step fuel σ e = Some (σ', e', (c, Some n)) →
  (n ∉ DijkstraAlgorithm.visited_nodes e) ∧
  n ∈ DijkstraAlgorithm.visited_nodes e' ∧
  Node.distance (deref σ' n) = Node.distance (deref σ n) ∧
  ∃ d q, pops σ e d n q ∧ fresh_pop σ e d n.
Proof.
  intros Hstep.
  apply step_outcome in Hstep
    as [(_ & _ & _ & [=])
       |(d & n1 & q & Hpops &
          [(_ & _ & _ & [=])
          |[(Hpop & _ & [= _ <-] & chain & _ & -> & ->)
           |(Hpop & _ & [= _ <-] & -> & ->)]])].
  - split; [by destruct Hpop|]. split; [simpl; set_solver|].
    split; [|by eauto].
    rewrite (mark_path_proj Node.distance) by done.
    by rewrite (mark_explored_proj Node.distance).
  - split; [by destruct Hpop|]. split; [simpl; set_solver|].
    split; [|by eauto].
    rewrite <- (mark_explored_proj Node.distance n n σ) by done.
    unfold DijkstraAlgorithm.relax_all.
    apply (relax_all_ind
             (λ (σ2 : store) _,
                Node.distance (deref σ2 n) =
                Node.distance (deref (DijkstraAlgorithm.mark_explored n σ)
                                 n))); [|done].
    intros σ2 q2 nb H2 _ Hnv _. rewrite <- H2.
    rewrite deref_improve_ne; [done|].
    intros ->. apply Hnv. simpl. set_solver.
Qed.

(** Nodes are visited in the order of their distances. *)
Lemma visit_order (σ0 : store) s (σ : store) e fuel σ' e' c n v :
  Inv σ0 s σ e →
  DijkstraAlgorithm.step fuel σ e = Some (σ', e', (c, Some n)) →
  v ∈ DijkstraAlgorithm.visited_nodes e →
  dist_le (Node.distance (deref σ v)) (Node.distance (deref σ n)).
Proof.
  intros [HC HR] Hstep Hv.
  destruct (step_node_distance _ _ _ _ _ _ _ Hstep)
    as (_ & _ & _ & d & q & Hpops & Hpop).
  destruct (fresh_pop_dist _ _ _ _ _ _ _ HC Hpops Hpop) as (k & -> & ->).
  destruct (pops_spec _ _ _ _ _ _ _ HC Hpops) as (Hperm & _).
  apply (run_settled (HR (proj1 Hpops)) v (Fin k) n Hv).
  rewrite Hperm. by left.
Qed.

(** A popped node that is not visited yet holds its number of edges from
    the start. *)
Lemma pop_shortest (σ0 : store) s (σ : store) e d n q :
  Inv σ0 s σ e → pops σ e d n q → fresh_pop σ e d n →
  shortest σ0 s σ n.
Proof.
  intros HI Hpops Hpop. pose proof HI as [HC _].
  destruct (fresh_pop_dist _ _ _ _ _ _ _ HC Hpops Hpop) as (k & Hd & Hk).
  exists k. split; [done|]. intros l i Hw Hh Hl.
  destruct (walk_frontier σ0 s σ e l HI (proj1 Hpops) Hw Hh i n Hl)
    as [[Hv _]|(j & b & k' & Hj & _ & _ & Hin & Hk')].
  - by destruct Hpop as [_ Hnv].
  - destruct (pops_spec _ _ _ _ _ _ _ HC Hpops) as (_ & _ & Hmin & _).
    specialize (Hmin _ Hin). rewrite Hd in Hmin. simpl in Hmin.
    apply dist_le_Fin in Hmin. lia.
Qed.

Lemma shortest_step (σ0 : store) s (σ : store) e fuel σ' e' r :
  Inv σ0 s σ e →
  (∀ v, v ∈ DijkstraAlgorithm.visited_nodes e → shortest σ0 s σ v) →
  DijkstraAlgorithm.step fuel σ e = Some (σ', e', r) →
  ∀ v, v ∈ DijkstraAlgorithm.visited_nodes e' → shortest σ0 s σ' v.
Proof.
  intros HI Hopt Hstep v Hv. destruct r as [c x].
  destruct (step_count _ _ _ _ _ _ _ Hstep) as [_ Hvis].
  assert (Hold : v ∈ DijkstraAlgorithm.visited_nodes e → shortest σ0 s σ' v).
  { intros Hve. destruct (Hopt v Hve) as (k & Hk & Hmin).
    exists k. split; [|done].
    by destruct (step_visited_frame _ _ _ _ _ _ _ Hstep Hve) as [_ ->]. }
  destruct x as [n|]; [|apply Hold; by rewrite <- Hvis].
  rewrite Hvis, elem_of_union, elem_of_singleton in Hv.
  destruct Hv as [->|Hv]; [|by apply Hold].
  destruct (step_node_distance _ _ _ _ _ _ _ Hstep)
    as (_ & _ & Hd & d & q & Hpops & Hpop).
  destruct (pop_shortest _ _ _ _ _ _ _ HI Hpops Hpop) as (k & Hk & Hmin).
  exists k. split; [congruence|done].
Qed.

Lemma shortest_steps (σ0 : store) s t σi ei (σ : store) e :
  closed σ0 → fresh σ0 → s ∈ dom σ0 →
  DijkstraAlgorithm.init σ0 (Some s) t = inr (σi, ei) →
  steps σi ei σ e →
  ∀ v, v ∈ DijkstraAlgorithm.visited_nodes e → shortest σ0 s σ v.
Proof.
  intros Hclosed Hfresh Hs Hinit Hsteps.
  assert (H0 : Inv σ0 s σi ei ∧
               ∀ v, v ∈ DijkstraAlgorithm.visited_nodes ei →
                 shortest σ0 s σi v).
  { split; [by eapply init_Inv|]. injection Hinit as _ <-. simpl.
    set_solver. }
  clear Hinit. revert H0.
  induction Hsteps as [|fuel σ e σ1 e1 r σ2 e2 Hstep _ IH];
    intros [HI Hopt]; [done|].
  apply IH. split; [by eapply step_Inv|]. by eapply shortest_step.
Qed.

(** Every node with a finite distance [k] is joined to the start by a
    walk of [k] edges, the reverse of its chain of [previous] links. *)
Lemma reached_walk (σ0 : store) s (σ : store) e a k :
  Core σ0 s σ e → prev_edge σ0 σ →
  Node.distance (deref σ a) = Fin k →
  ∃ chain,
    DijkstraAlgorithm.walk_previous (S k) σ (Some a) = Some chain ∧
    length chain = S k ∧ walk_from_to σ0 s a (reverse chain).
Proof.
  intros HC HP Hk.
  destruct (walk_previous_total _ _ _ _ HC k a (S k) Hk)
    as (chain & Hwalk & Hlen & Hhead & Hlast & _); [lia|].
  exists chain. split; [done|]. split; [done|]. split.
  - by eapply chain_walk.
  - by rewrite head_reverse, last_reverse.
Qed.

(** * Clicks and edits *)

Lemma get_node_GShape n (σ : store) g r c :
  GShape n σ g →
  Grid.get_node g r c =
    if bool_decide (0 ≤ r < Z.of_nat n)%Z && bool_decide (0 ≤ c < Z.of_nat n)%Z
    then Some (Z.to_nat (r * Z.of_nat n + c)) else None.
Proof.
  intros HS. unfold Grid.get_node. rewrite (gshape_rows HS), (gshape_grid HS).
  destruct (bool_decide (0 ≤ r < _)%Z) eqn:Hr; [|done].
  destruct (bool_decide (0 ≤ c < _)%Z) eqn:Hc; [|done]. simpl.
  apply bool_decide_eq_true in Hr, Hc. by apply lookup_cells.
Qed.

(** The shape of an edited grid, with its pixel width and cell size. *)
Lemma apply_ops_shape rows width (σ0 : store) g0 ops (σ : store) g :
  (0 < rows)%Z → Grid.init rows width = inr (σ0, g0) →
  apply_ops (σ0, g0) ops = (σ, g) →
  GShape (Z.to_nat rows) σ g ∧ Grid.gap g = (width / rows)%Z.
Proof.
  intros Hrows Hinit Hops.
  pose proof (apply_ops_GShape _ _ _ _ _ _ _ Hrows Hinit Hops) as HS.
  split; [done|].
  destruct (Grid_init_GShape _ _ _ _ Hrows Hinit) as [_ Hw].
  destruct (apply_ops_frame ops (σ0, g0)) as [_ (_ & Hw' & _)].
  rewrite Hops in Hw'. simpl in Hw'.
  rewrite (gshape_gap HS), Hw', Hw. f_equal. lia.
Qed.

(** The node under a pixel. *)
Lemma click_node n (σ : store) g (px py : Z) :
  GShape n σ g → (0 < Grid.gap g)%Z →
  Grid.get_clicked_pos g (px, py)
    = inr ((px / Grid.gap g)%Z, (py / Grid.gap g)%Z) ∧
  match Grid.get_node g (px / Grid.gap g) (py / Grid.gap g) with
  | Some a =>
      a ∈ dom σ ∧
      Node.get_pos (deref σ a) = ((px / Grid.gap g)%Z, (py / Grid.gap g)%Z) ∧
      (Node.x (deref σ a) ≤ px < Node.x (deref σ a) + Node.width (deref σ a))%Z ∧
      (Node.y (deref σ a) ≤ py < Node.y (deref σ a) + Node.width (deref σ a))%Z
  | None =>
      ¬ ((0 ≤ px < Z.of_nat n * Grid.gap g)%Z ∧
         (0 ≤ py < Z.of_nat n * Grid.gap g)%Z)
  end.
Proof.
  intros HS Hgap. split.
  { unfold Grid.get_clicked_pos. rewrite bool_decide_eq_false_2 by lia. done. }
  rewrite (get_node_GShape n σ g _ _ HS).
  set (G := Grid.gap g) in *. set (r := (px / G)%Z). set (c := (py / G)%Z).
  pose proof (Z.div_mod px G ltac:(lia)) as Hpx.
  pose proof (Z.mod_pos_bound px G Hgap) as Hpxm.
  pose proof (Z.div_mod py G ltac:(lia)) as Hpy.
  pose proof (Z.mod_pos_bound py G Hgap) as Hpym.
  fold r in Hpx. fold c in Hpy.
  destruct (bool_decide (0 ≤ r < _)%Z) eqn:Hr; simpl.
  2:{ apply bool_decide_eq_false in Hr. intros [Hx _]. apply Hr. nia. }
  destruct (bool_decide (0 ≤ c < _)%Z) eqn:Hc; simpl.
  2:{ apply bool_decide_eq_false in Hc. intros [_ Hy]. apply Hc. nia. }
  apply bool_decide_eq_true in Hr, Hc.
  set (a := Z.to_nat (r * Z.of_nat n + c)).
  assert (Ha : a = Z.to_nat r * n + Z.to_nat c) by (unfold a; nia).
  assert (Hlt : a < n * n) by nia.
  destruct (divmod_cell n (Z.to_nat r) (Z.to_nat c)) as [Hdiv Hmod]; [lia|].
  rewrite <- Ha in Hdiv, Hmod.
  destruct (GShape_node n σ g a HS Hlt) as (Hrow & Hcol & _ & Hx & Hy & Hw).
  fold G in Hx, Hy, Hw.
  rewrite Hdiv in Hrow, Hx. rewrite Hmod in Hcol, Hy.
  rewrite Z2Nat.id in Hrow, Hcol, Hx, Hy by lia.
  split; [by apply (GShape_dom n σ g a HS)|].
  split; [unfold Node.get_pos; by rewrite Hrow, Hcol|].
  rewrite Hx, Hy, Hw. lia.
Qed.

(** ** What the edits leave alone *)

Lemma deref_modify_all_proj {B} (proj : Node.t → B) f l (σ : store) a :
  (∀ nd, proj (f nd) = proj nd) →
  proj (deref (foldl (λ σ a, modify f a σ) σ l) a) = proj (deref σ a).
Proof.
  intros Hf. revert σ. induction l as [|b l IH]; intros σ; [done|].
  simpl. rewrite IH. by apply deref_modify_proj.
Qed.

Lemma apply_op_neighbors w op a :
  Node.neighbors (deref (apply_op w op).1 a) = Node.neighbors (deref w.1 a).
Proof.
  destruct w as [σ g].
  destruct op as [row col|row col|row col|row col| |]; simpl.
  - unfold Grid.set_start.
    destruct (Grid.get_node g row col) as [node|]; [|done].
    destruct (_ || _); [|done]. simpl.
    rewrite (deref_modify_proj Node.neighbors) by done.
    destruct (Grid.start_node g); [|done]. simpl.
    by rewrite (deref_modify_proj Node.neighbors).
  - unfold Grid.set_end.
    destruct (Grid.get_node g row col) as [node|]; [|done].
    destruct (_ || _); [|done]. simpl.
    rewrite (deref_modify_proj Node.neighbors) by done.
    destruct (Grid.end_node g); [|done]. simpl.
    by rewrite (deref_modify_proj Node.neighbors).
  - unfold Grid.toggle_barrier.
    destruct (Grid.get_node g row col) as [node|]; [|done].
    destruct (_ || _); [|done].
    destruct (Node.is_barrier _); simpl;
      by rewrite (deref_modify_proj Node.neighbors).
  - unfold Grid.set_barrier.
    destruct (Grid.get_node g row col) as [node|]; [|done].
    destruct (Node.is_empty _); [|done]. simpl.
    by rewrite (deref_modify_proj Node.neighbors).
  - change (Node.neighbors
              (deref (Grid.for_each_node (modify Node.reset) g σ) a)
            = Node.neighbors (deref σ a)).
    rewrite for_each_node_join. by apply deref_modify_all_proj.
  - unfold Grid.reset_algorithm_data. rewrite for_each_node_join.
    apply deref_modify_all_proj. intros nd.
    unfold Node.reset_algorithm_data. by destruct (_ || _).
Qed.

Lemma apply_ops_neighbors ops w a :
  Node.neighbors (deref (apply_ops w ops).1 a) = Node.neighbors (deref w.1 a).
Proof.
  revert w. induction ops as [|op ops IH]; intros w; [done|].
  unfold apply_ops in *. simpl. rewrite IH. apply apply_op_neighbors.
Qed.

(** ** [reset_grid] undoes every edit *)

Lemma reset_grid_init rows width (σ0 : store) g0 ops (σ : store) g :
  Grid.init rows width = inr (σ0, g0) →
  apply_ops (σ0, g0) ops = (σ, g) →
  Grid.reset_grid σ g = (σ0, g0).
Proof.
  intros Hinit Hops.
  destruct (Grid_init_spec _ _ _ _ Hinit) as (_ & _ & Hgrid & Hs & He & Hσ0).
  cbv zeta in Hgrid, Hσ0. set (n := Z.to_nat rows) in *.
  destruct (apply_ops_frame ops (σ0, g0)) as [[Hdom Hlay] (Hr & Hw & Hg & Hc)].
  pose proof (apply_ops_neighbors ops (σ0, g0)) as Hnb.
  rewrite Hops in Hdom, Hlay, Hr, Hw, Hg, Hc, Hnb. simpl in *.
  unfold Grid.reset_grid. f_equal.
  - apply map_eq. intros a.
    change (Grid.for_each_node (modify Node.reset) g σ)
      with (Grid.reset_grid σ g).1.
    rewrite lookup_reset_grid, Hc, Hgrid, join_cells, Hσ0.
    assert (Hin : a ∈ seq 0 (n * n) ↔ a < n * n)
      by (rewrite elem_of_seq; lia).
    assert (Hd0 : a ∈ dom σ0 ↔ a < n * n).
    { rewrite elem_of_dom, Hσ0. case_decide; [|by rewrite is_Some_alt].
      split; [done|]. eauto. }
    destruct (decide (a < n * n)) as [Ha|Ha].
    + rewrite decide_True by by apply Hin.
      assert (Hda : a ∈ dom σ) by (rewrite Hdom; by apply Hd0).
      rewrite (lookup_deref σ a Hda). simpl. f_equal.
      assert (H0 : deref σ0 a =
                   Node.init (Z.of_nat (a / n)) (Z.of_nat (a mod n))
                     (width / rows)%Z rows).
      { apply deref_lookup. rewrite Hσ0. by rewrite decide_True. }
      rewrite <- H0. apply node_eq.
      * rewrite <- Hlay. done.
      * by rewrite H0.
      * by rewrite H0.
      * by rewrite H0.
      * rewrite <- Hnb. done.
    + rewrite decide_False by (by rewrite Hin).
      apply not_elem_of_dom. rewrite Hdom. by rewrite Hd0.
  - destruct g, g0. simpl in *. by subst.
Qed.

(** ** Barriers *)

Lemma modify_state_back s s' a (σ : store) :
  a ∈ dom σ → Node.state (deref σ a) = s' →
  modify (Node.set_state s') a (modify (Node.set_state s) a σ) = σ.
Proof.
  intros Ha Hs. apply map_eq. intros b. rewrite !lookup_modify.
  case_decide as Hb; [|done]. subst b.
  rewrite (lookup_deref σ a Ha). simpl. f_equal.
  destruct (deref σ a). simpl in *. by subst.
Qed.

Lemma toggle_barrier_twice row col (σ : store) g :
  GInv σ g →
  (Grid.toggle_barrier row col σ g).2 = true →
  Grid.toggle_barrier row col (Grid.toggle_barrier row col σ g).1.1
    (Grid.toggle_barrier row col σ g).1.2 = (σ, g, true).
Proof.
  intros HG. unfold Grid.toggle_barrier at 1 3 4.
  destruct (Grid.get_node g row col) as [node|] eqn:Hnode; [|done].
  assert (Hdom : node ∈ dom σ).
  { by eapply (ginv_cells HG), get_node_elem. }
  destruct (_ || _) eqn:Hor; [|done].
  unfold Node.is_empty, Node.is_barrier in *.
  destruct (bool_decide (Node.state (deref σ node) = BARRIER)) eqn:Hb;
    simpl; intros _; unfold Grid.toggle_barrier; rewrite Hnode;
    unfold Node.is_empty, Node.is_barrier;
    rewrite deref_modify_eq by done; simpl.
  - apply bool_decide_eq_true in Hb. by rewrite modify_state_back.
  - rewrite orb_false_r in Hor. apply bool_decide_eq_true in Hor.
    by rewrite modify_state_back.
Qed.

Lemma set_barrier_spec row col (σ : store) g :
  GInv σ g →
  (Grid.set_barrier row col σ g).1.2 = g ∧
  (∀ a, Node.state (deref σ a) = BARRIER →
     Node.state (deref (Grid.set_barrier row col σ g).1.1 a) = BARRIER) ∧
  (Grid.set_barrier row col (Grid.set_barrier row col σ g).1.1 g)
    = ((Grid.set_barrier row col σ g).1.1, g, false) ∧
  if (Grid.set_barrier row col σ g).2 then
    ∃ node,
      Grid.get_node g row col = Some node ∧
      Node.state (deref σ node) = EMPTY ∧
      ∀ a, Node.state (deref (Grid.set_barrier row col σ g).1.1 a) =
           if decide (a = node) then BARRIER else Node.state (deref σ a)
  else Grid.set_barrier row col σ g = (σ, g, false).
Proof.
  intros HG.
  destruct (Grid.get_node g row col) as [node|] eqn:Hnode.
  2:{ assert (Heq : Grid.set_barrier row col σ g = (σ, g, false)).
      { unfold Grid.set_barrier. by rewrite Hnode. }
      rewrite Heq. simpl. by rewrite Heq. }
  assert (Hdom : node ∈ dom σ).
  { by eapply (ginv_cells HG), get_node_elem. }
  destruct (bool_decide (Node.state (deref σ node) = EMPTY)) eqn:He.
  - assert (Heq : Grid.set_barrier row col σ g
                  = (modify (Node.set_state BARRIER) node σ, g, true)).
    { unfold Grid.set_barrier. rewrite Hnode. unfold Node.is_empty.
      by rewrite He. }
    rewrite Heq. simpl. apply bool_decide_eq_true in He.
    split; [done|]. split.
    { intros a Ha. rewrite state_modify by done. by case_decide. }
    split.
    { unfold Grid.set_barrier. rewrite Hnode. unfold Node.is_empty.
      rewrite deref_modify_eq by done. done. }
    exists node. split; [done|]. split; [done|].
    intros a. by apply state_modify.
  - assert (Heq : Grid.set_barrier row col σ g = (σ, g, false)).
    { unfold Grid.set_barrier. rewrite Hnode. unfold Node.is_empty.
      by rewrite He. }
    rewrite Heq. simpl. by rewrite Heq.
Qed.

(** ** [get_all_nodes] *)

Lemma get_all_nodes_GShape n (σ : store) g :
  GShape n σ g → Grid.get_all_nodes g = seq 0 (n * n).
Proof.
  intros HS. by rewrite get_all_nodes_join, (gshape_grid HS), mjoin_cells.
Qed.

(** * The drivers on a fresh store *)

Lemma run_dijkstra_complete_inv fuel (σ0 : store) s t σ' found stats :
  run_dijkstra_complete fuel σ0 (Some s) t = inr (Some (σ', (found, stats))) →
  ∃ σi ei e',
    DijkstraAlgorithm.init σ0 (Some s) t = inr (σi, ei) ∧
    DijkstraAlgorithm.run_complete fuel σi ei = Some (σ', e', found) ∧
    stats = DijkstraAlgorithm.get_stats e'.
Proof.
  unfold run_dijkstra_complete.
  destruct (DijkstraAlgorithm.init σ0 (Some s) t) as [|[σi ei]] eqn:Hinit;
    [done|].
  destruct (DijkstraAlgorithm.run_complete fuel σi ei) as [[[σ2 e2] f]|]
    eqn:Hrun; [|done].
  intros [= <- <- <-]. by exists σi, ei, e2.
Qed.

Lemma run_complete_stopped fuel (σ : store) e σ' e' found :
  DijkstraAlgorithm.is_complete e = false →
  DijkstraAlgorithm.run_complete fuel σ e = Some (σ', e', found) →
  steps σ e σ' e' ∧
  DijkstraAlgorithm.is_complete e' = true ∧
  DijkstraAlgorithm.is_running e' = false ∧
  DijkstraAlgorithm.path_found e' = found.
Proof.
  intros Hc Hrun. rewrite (run_complete_drive _ _ _ Hc) in Hrun.
  destruct (drive fuel fuel σ e) as [[σ2 e2]|] eqn:Hdrive; [|done].
  injection Hrun as -> -> <-.
  destruct (drive_last _ _ _ _ _ _ Hdrive Hc)
    as (σ1 & e1 & x & Hsteps & _ & _ & _ & Hlast).
  split.
  { eapply steps_trans; [done|]. eapply steps_step; [done|constructor]. }
  by apply step_stop in Hlast as [? ?].
Qed.

(** In a state that a run reaches, the visited nodes can be reached from
    the start. *)
Lemma visited_reachable (σ0 : store) s t σi ei (σ : store) e v :
  closed σ0 → fresh σ0 → s ∈ dom σ0 →
  DijkstraAlgorithm.init σ0 (Some s) t = inr (σi, ei) →
  steps σi ei σ e →
  v ∈ DijkstraAlgorithm.visited_nodes e →
  ∃ k chain,
    Node.distance (deref σ v) = Fin k ∧
    DijkstraAlgorithm.walk_previous (S k) σ (Some v) = Some chain ∧
    length chain = S k ∧
    walk_from_to σ0 s v (reverse chain) ∧
    ∀ l, walk_from_to σ0 s v l → S k ≤ length l.
Proof.
  intros Hclosed Hfresh Hs Hinit Hsteps Hv.
  pose proof (reach_Inv _ _ _ _ _ _ _ Hclosed Hfresh Hs Hinit Hsteps)
    as [HC _].
  assert (HP : prev_edge σ0 σ).
  { eapply prev_edge_steps; [done| | |done].
    - by eapply init_Inv.
    - by eapply prev_edge_init. }
  destruct (shortest_steps _ _ _ _ _ _ _ Hclosed Hfresh Hs Hinit Hsteps v Hv)
    as (k & Hk & Hmin).
  destruct (reached_walk _ _ _ _ _ _ HC HP Hk) as (chain & Hw & Hlen & Hwalk).
  exists k, chain. repeat (split; [done|]).
  intros l (Hwl & Hh & Hl). rewrite last_lookup in Hl.
  pose proof (Hmin l _ Hwl Hh Hl) as Hle.
  apply lookup_lt_Some in Hl. lia.
Qed.

(** The generator, driven to its end with enough fuel. *)
Lemma step_by_step_result (σ0 : store) s t fuel :
  closed σ0 → fresh σ0 → s ∈ dom σ0 → enough_fuel σ0 ≤ fuel →
  ∃ σi ei σ' e' ys x,
    DijkstraAlgorithm.init σ0 (Some s) t = inr (σi, ei) ∧
    run_dijkstra_step_by_step fuel σ0 (Some s) t =
      inr (Some (σ', e',
                 ys ++ [(false, x, DijkstraAlgorithm.get_stats e')])) ∧
    DijkstraAlgorithm.run_complete fuel σi ei
      = Some (σ', e', DijkstraAlgorithm.path_found e') ∧
    run_dijkstra_complete fuel σ0 (Some s) t =
      inr (Some (σ', (DijkstraAlgorithm.path_found e',
                      DijkstraAlgorithm.get_stats e'))).
Proof.
  intros Hclosed Hfresh Hs Hfuel.
  destruct (DijkstraAlgorithm.init σ0 (Some s) t) as [|[σi ei]] eqn:Hinit;
    [done|].
  pose proof (init_measure _ _ _ _ _ Hinit) as (Hm & Hsize & Hc).
  pose proof (init_Inv _ _ _ _ _ Hfresh Hs Hinit) as HI.
  destruct (drive_total σ0 s fuel σi ei Hclosed) as (σ' & e' & Hd & _ & Hc');
    [lia|lia|done|done|].
  pose proof (step_by_step_loop_running true fuel fuel σi ei Hc) as Hloop.
  rewrite Hd in Hloop. destruct Hloop as (ys & x & Hloop).
  exists σi, ei, σ', e', ys, x. split; [done|].
  assert (Hrun : DijkstraAlgorithm.run_complete fuel σi ei
                 = Some (σ', e', DijkstraAlgorithm.path_found e')).
  { by rewrite (run_complete_drive _ _ _ Hc), Hd. }
  split.
  { unfold run_dijkstra_step_by_step. rewrite Hinit.
    unfold running in Hloop. by rewrite Hloop. }
  split; [done|].
  unfold run_dijkstra_complete. by rewrite Hinit, Hrun.
Qed.

(** ** Preparing twice *)

Lemma update_neighbors_prepared n (σ : store) g (σp : store) :
  GShape n σ g →
  (∀ a, σp !! a =
        (λ nd, Node.set_neighbors (open_neighbors n σ a)
                 (Node.reset_algorithm_data nd)) <$> σ !! a) →
  Grid.update_neighbors σp g = inr σp.
Proof.
  intros HS Hσp.
  destruct (prepare_deref n σ g σp HS Hσp) as [Hdom Hd].
  assert (HSp : GShape n σp g).
  { apply (GShape_same n σ σp g g HS); [|apply same_grid_refl].
    split; [done|]. intros a. by destruct (Hd a) as [? _]. }
  destruct (update_neighbors_spec n σp g HSp) as (σ2 & Hup & Hσ2).
  rewrite Hup. f_equal. apply map_eq. intros a. rewrite Hσ2.
  destruct (σp !! a) as [nd|] eqn:Hnd; [|done]. simpl. f_equal.
  assert (Ha : a < n * n).
  { apply (GShape_dom n σp g a HSp). by apply elem_of_dom. }
  assert (Hnb : Node.neighbors nd = open_neighbors n σp a).
  { rewrite <- (deref_lookup _ _ _ Hnd).
    destruct (Hd a) as (_ & _ & _ & _ & ->). rewrite decide_True by done.
    symmetry. apply open_neighbors_barrier. intros b.
    destruct (Hd b) as (_ & -> & _).
    destruct (state_reset_cases (deref σ b)) as [(-> & _)|(-> & Hv)];
      [done|].
    split; [done|]. intros H. destruct Hv; congruence. }
  rewrite <- Hnb. by destruct nd.
Qed.

(** ** Membership in a neighbour list *)

Lemma elem_of_open_neighbors n (σ : store) a b :
  a < n * n →
  b ∈ open_neighbors n σ a ↔
  b < n * n ∧ adjacent (a / n) (a mod n) (b / n) (b mod n) ∧
  Node.state (deref σ b) ≠ BARRIER.
Proof.
  intros Ha. assert (Hn : 0 < n) by nia.
  unfold open_neighbors. rewrite list_elem_of_filter. split.
  - intros [Hst Hin]. by destruct (grid_neighbors_cell n a b Ha Hin).
  - intros (Hb & Hadj & Hst). split; [done|].
    destruct (cell_divmod n a Hn) as [Hea Hma].
    destruct (cell_divmod n b Hn) as [Heb Hmb].
    assert (Hda : a / n < n) by (apply Nat.Div0.div_lt_upper_bound; lia).
    assert (Hdb : b / n < n) by (apply Nat.Div0.div_lt_upper_bound; lia).
    pose proof (grid_neighbors_adjacent n (a / n) (a mod n) (b / n) (b mod n)
                  Hda Hma Hdb Hmb Hadj) as Hin.
    unfold cell in Hin. by rewrite <- Hea, <- Heb in Hin.
Qed.

(** * The endpoints through a sequence of edits *)

Lemma set_start_end_node row col (σ : store) g :
  Grid.end_node (Grid.set_start row col σ g).1.2 = Grid.end_node g.
Proof.
  unfold Grid.set_start.
  destruct (Grid.get_node g row col) as [node|]; [|done].
  by destruct (_ || _).
Qed.

Lemma set_end_start_node row col (σ : store) g :
  Grid.start_node (Grid.set_end row col σ g).1.2 = Grid.start_node g.
Proof.
  unfold Grid.set_end.
  destruct (Grid.get_node g row col) as [node|]; [|done].
  by destruct (_ || _).
Qed.

Lemma GInv_holders (σ : store) g :
  GInv σ g →
  holders START σ g = option_list (Grid.start_node g) ∧
  holders END σ g = option_list (Grid.end_node g).
Proof.
  intros HG. split; apply holders_unique;
    [exact (ginv_nodup HG)|exact (ginv_start HG)|exact (ginv_start_cell HG)
    |exact (ginv_nodup HG)|exact (ginv_end HG)|exact (ginv_end_cell HG)].
Qed.

(** Only [reset_grid] unsets an endpoint. *)
Lemma apply_op_keeps w op :
  op ≠ ResetGrid →
  (is_Some (Grid.start_node w.2) →
   is_Some (Grid.start_node (apply_op w op).2)) ∧
  (is_Some (Grid.end_node w.2) →
   is_Some (Grid.end_node (apply_op w op).2)).
Proof.
  destruct w as [σ g].
  destruct op as [row col|row col|row col|row col| |]; simpl; intros Hop;
    [| | | |done|done].
  - split; [|by rewrite set_start_end_node].
    unfold Grid.set_start.
    destruct (Grid.get_node g row col) as [node|]; [|done].
    destruct (_ || _); [|done]. simpl. eauto.
  - split; [by rewrite set_end_start_node|].
    unfold Grid.set_end.
    destruct (Grid.get_node g row col) as [node|]; [|done].
    destruct (_ || _); [|done]. simpl. eauto.
  - unfold Grid.toggle_barrier.
    destruct (Grid.get_node g row col) as [node|]; [|done].
    destruct (_ || _); [|done]. by destruct (Node.is_barrier _).
  - unfold Grid.set_barrier.
    destruct (Grid.get_node g row col) as [node|]; [|done].
    by destruct (Node.is_empty _).
Qed.

Lemma apply_ops_keeps ops w :
  ResetGrid ∉ ops →
  (is_Some (Grid.start_node w.2) →
   is_Some (Grid.start_node (apply_ops w ops).2)) ∧
  (is_Some (Grid.end_node w.2) →
   is_Some (Grid.end_node (apply_ops w ops).2)).
Proof.
  revert w. induction ops as [|op ops IH]; intros w Hno; [done|].
  apply not_elem_of_cons in Hno as [Hop Hno].
  destruct (apply_op_keeps w op) as [Hs He]; [done|].
  destruct (IH (apply_op w op) Hno) as [Hs' He'].
  unfold apply_ops in *. simpl. split; auto.
Qed.

(** After [reset_grid] no cell is an endpoint. *)
Lemma reset_grid_none (σ : store) g :
  GInv σ g →
  Grid.start_node (Grid.reset_grid σ g).2 = None ∧
  Grid.end_node (Grid.reset_grid σ g).2 = None ∧
  holders START (Grid.reset_grid σ g).1 (Grid.reset_grid σ g).2 = [] ∧
  holders END (Grid.reset_grid σ g).1 (Grid.reset_grid σ g).2 = [].
Proof.
  intros HG. split; [done|]. split; [done|].
  destruct (GInv_holders _ _ (reset_grid_GInv σ g HG)) as [-> ->]. done.
Qed.

(** * The specification, claim by claim *)

(** ** Shortest paths on grids *)

(** C1.  On an [R] x [C] grid graph without barriers whose neighbour
    lists are computed and whose traversal fields are fresh, an engine
    constructed on cell [(0, 0)] as start and cell [(R - 1, C - 1)] as end
    and driven to completion, by hand or by [run_complete], stops with
    [path_found = true] and [path_length = (R - 1) + (C - 1)], having
    visited at most [R * C] nodes. *)
Theorem C1_grid_shortest_path R C (σ0 : store) fuel :
  1 ≤ R → 1 ≤ C → grid_graph R C σ0 → fresh σ0 →
  enough_fuel σ0 ≤ fuel →
  ∃ σi ei σ' e',
    DijkstraAlgorithm.init σ0
      (Some (cell C 0 0)) (Some (cell C (R - 1) (C - 1))) = inr (σi, ei) ∧
    drive fuel fuel σi ei = Some (σ', e') ∧
    DijkstraAlgorithm.run_complete fuel σi ei = Some (σ', e', true) ∧
    DijkstraAlgorithm.is_complete e' = true ∧
    DijkstraAlgorithm.path_found e' = true ∧
    DijkstraAlgorithm.path_length e' = Z.of_nat ((R - 1) + (C - 1)) ∧
    DijkstraAlgorithm.visited_count e' ≤ R * C.
Proof.
  intros HR HC Hgrid Hfresh Hfuel.
  pose proof (grid_corner R C σ0 HR HC Hgrid) as [Hdom Hman].
  assert (Hend : cell C (R - 1) (C - 1) = R * C - 1) by (unfold cell; nia).
  assert (Hstart : cell C 0 0 = 0) by (unfold cell; lia).
  assert (Hs : 0 ∈ dom σ0) by (apply (grid_dom R C σ0 HR HC Hgrid); nia).
  assert (Hsize : size (dom σ0) = R * C).
  { destruct Hgrid as [-> _]. apply size_set_seq. }
  rewrite Hend, Hstart.
  destruct (potential_run σ0 0 (R * C - 1) (manhattan C)
              (grid_closed R C σ0 HR HC Hgrid)
              (grid_potential R C σ0 HR HC Hgrid) Hdom
              _ _ fuel Hfresh Hs eq_refl Hfuel)
    as (σ' & e' & Hrun & Hdrive & Hcomplete & Hfound & Hlen & Hcount).
  eexists _, _, σ', e'. split; [reflexivity|].
  rewrite Hsize in Hcount. rewrite Hlen, Hman.
  by repeat (split; [done|]).
Qed.

Lemma C1_grid_3x3_witness :
  1 ≤ 3 ∧ grid_graph 3 3 store3 ∧ fresh store3 ∧ enough_fuel store3 ≤ 35 ∧
  ∃ σi ei σ' e',
    DijkstraAlgorithm.init store3
      (Some (cell 3 0 0)) (Some (cell 3 2 2)) = inr (σi, ei) ∧
    drive 35 35 σi ei = Some (σ', e') ∧
    DijkstraAlgorithm.run_complete 35 σi ei = Some (σ', e', true) ∧
    DijkstraAlgorithm.is_complete e' = true ∧
    DijkstraAlgorithm.path_found e' = true ∧
    DijkstraAlgorithm.path_length e' = 4%Z ∧
    DijkstraAlgorithm.visited_count e' ≤ 9.
Proof.
  assert (H3 : 1 ≤ 3) by lia.
  assert (Hgrid : grid_graph 3 3 store3) by by_evaluation.
  assert (Hfresh : fresh store3) by by_evaluation.
  assert (Hfuel : enough_fuel store3 ≤ 35) by by_evaluation.
  exact (conj H3 (conj Hgrid (conj Hfresh (conj Hfuel
    (C1_grid_shortest_path 3 3 store3 35 H3 H3 Hgrid Hfresh Hfuel))))).
Defined.

(** ** Termination *)

(** C2.  An engine constructed on a store whose traversal fields are
    fresh terminates: driving it by repeated calls of [step], or calling
    [run_complete], returns within [enough_fuel σ0] calls with
    [is_complete = true].  In every state that the calls reach,
    [visited_count] is the size of the visited set, which lies within the
    nodes of the store, so it is at most the node count; and a call adds
    one to it exactly when it returns a node. *)
Theorem C2_termination (σ0 : store) s t σi ei :
  closed σ0 → fresh σ0 → s ∈ dom σ0 →
  DijkstraAlgorithm.init σ0 (Some s) t = inr (σi, ei) →
  (∀ fuel, enough_fuel σ0 ≤ fuel →
     ∃ σ' e',
       drive fuel fuel σi ei = Some (σ', e') ∧
       steps σi ei σ' e' ∧
       DijkstraAlgorithm.is_complete e' = true ∧
       DijkstraAlgorithm.run_complete fuel σi ei =
         Some (σ', e', DijkstraAlgorithm.path_found e')) ∧
  (∀ σ e, steps σi ei σ e →
     DijkstraAlgorithm.visited_count e =
       size (DijkstraAlgorithm.visited_nodes e) ∧
     DijkstraAlgorithm.visited_nodes e ⊆ dom σ0 ∧
     DijkstraAlgorithm.visited_count e ≤ size (dom σ0) ∧
     ∀ fuel σ' e' c x,
       DijkstraAlgorithm.step fuel σ e = Some (σ', e', (c, x)) →
       DijkstraAlgorithm.visited_count e' =
         DijkstraAlgorithm.visited_count e
         + match x with Some _ => 1 | None => 0 end).
Proof.
  intros Hclosed Hfresh Hs Hinit. split.
  - intros fuel Hfuel.
    pose proof (init_measure _ _ _ _ _ Hinit) as (Hm & Hsize & Hc).
    pose proof (init_Inv _ _ _ _ _ Hfresh Hs Hinit) as HI.
    destruct (drive_total σ0 s fuel σi ei Hclosed) as (σ' & e' & Hd & _ & Hc');
      [lia|lia|done|done|].
    exists σ', e'. split; [done|]. split; [by eapply steps_drive|].
    split; [done|]. by rewrite (run_complete_drive _ _ _ Hc), Hd.
  - intros σ e Hsteps.
    pose proof (reach_Inv _ _ _ _ _ _ _ Hclosed Hfresh Hs Hinit Hsteps)
      as HI.
    split; [exact (core_count (proj1 HI))|]. split.
    + rewrite <- (core_dom (proj1 HI)). exact (core_visited (proj1 HI)).
    + split; [by eapply visited_count_bound|].
      intros fuel σ' e' c x Hstep.
      by apply step_count in Hstep as [? _].
Qed.

Lemma C2_termination_witness :
  closed store3 ∧ fresh store3 ∧ cell 3 0 0 ∈ dom store3 ∧
  DijkstraAlgorithm.init store3 (Some (cell 3 0 0)) (Some (cell 3 2 2))
    = inr ((run3 0).1, (run3 0).2) ∧
  ∃ σ' e',
    drive 35 35 (run3 0).1 (run3 0).2 = Some (σ', e') ∧
    steps (run3 0).1 (run3 0).2 σ' e' ∧
    DijkstraAlgorithm.is_complete e' = true ∧
    DijkstraAlgorithm.run_complete 35 (run3 0).1 (run3 0).2 =
      Some (σ', e', DijkstraAlgorithm.path_found e').
Proof.
  assert (Hclosed : closed store3) by by_evaluation.
  assert (Hfresh : fresh store3) by by_evaluation.
  assert (Hs : cell 3 0 0 ∈ dom store3) by by_evaluation.
  assert (Hinit :
    DijkstraAlgorithm.init store3 (Some (cell 3 0 0)) (Some (cell 3 2 2))
      = inr ((run3 0).1, (run3 0).2)) by by_computation.
  assert (Hfuel : enough_fuel store3 ≤ 35) by by_evaluation.
  exact (conj Hclosed (conj Hfresh (conj Hs (conj Hinit
    (proj1 (C2_termination store3 (cell 3 0 0) (Some (cell 3 2 2))
              (run3 0).1 (run3 0).2 Hclosed Hfresh Hs Hinit)
       35 Hfuel))))).
Defined.

(** ** Stepping and running *)

(** C3.  Take the engine that [DijkstraAlgorithm.__init__] constructs on
    a store and a start/end pair.  Driving it by repeated calls of [step]
    until [step] returns [False], and calling [run_complete] on it, leave
    the same store and the same engine (so the same [visited_count],
    [path_length] and [path_found]), and [run_complete] returns that
    engine's [path_found]: this holds for any two budgets under which both
    return, and under one budget either both return or none does.  The
    same holds of the drivers [run_dijkstra_step_by_step], whose last
    yield carries the final statistics, and [run_dijkstra_complete]; when
    the constructor raises, it raises in both. *)
Theorem C3_step_run_equivalence (σ0 : store)
    (start_node end_node : option addr) :
  match DijkstraAlgorithm.init σ0 start_node end_node with
  | inl err =>
      ∀ fuel,
        run_dijkstra_step_by_step fuel σ0 start_node end_node = inl err ∧
        run_dijkstra_complete fuel σ0 start_node end_node = inl err
  | inr (σ, e) =>
      (∀ n f fuel σ1 e1 σ2 e2 found,
         drive n f σ e = Some (σ1, e1) →
         DijkstraAlgorithm.run_complete fuel σ e = Some (σ2, e2, found) →
         σ2 = σ1 ∧ e2 = e1 ∧ found = DijkstraAlgorithm.path_found e1 ∧
         DijkstraAlgorithm.get_stats e2 = DijkstraAlgorithm.get_stats e1) ∧
      (∀ fuel,
         DijkstraAlgorithm.run_complete fuel σ e =
           match drive fuel fuel σ e with
           | Some (σ', e') => Some (σ', e', DijkstraAlgorithm.path_found e')
           | None => None
           end) ∧
      (∀ fuel,
         match drive fuel fuel σ e with
         | Some (σ', e') =>
             run_dijkstra_complete fuel σ0 start_node end_node =
               inr (Some (σ', (DijkstraAlgorithm.path_found e',
                               DijkstraAlgorithm.get_stats e'))) ∧
             ∃ ys x,
               run_dijkstra_step_by_step fuel σ0 start_node end_node =
                 inr (Some (σ', e',
                            ys ++ [(false, x,
                                    DijkstraAlgorithm.get_stats e')]))
         | None =>
             run_dijkstra_complete fuel σ0 start_node end_node = inr None ∧
             run_dijkstra_step_by_step fuel σ0 start_node end_node = inr None
         end)
  end.
Proof.
  unfold run_dijkstra_step_by_step, run_dijkstra_complete.
  destruct start_node as [s|]; [|done].
  destruct (DijkstraAlgorithm.init σ0 (Some s) end_node)
    as [err|[σ e]] eqn:Hinit; [done|].
  assert (Hc : DijkstraAlgorithm.is_complete e = false).
  { by injection Hinit as _ <-. }
  split; [|split].
  - intros n f fuel σ1 e1 σ2 e2 found Hdrive Hrun.
    rewrite (run_complete_drive _ _ _ Hc) in Hrun.
    destruct (drive fuel fuel σ e) as [[σ3 e3]|] eqn:Hd; [|done].
    injection Hrun as <- <- <-.
    pose proof (drive_det _ _ _ _ _ _ _ _ Hdrive Hd) as [= <- <-]. done.
  - intros fuel. by apply run_complete_drive.
  - intros fuel. rewrite (run_complete_drive _ _ _ Hc).
    pose proof (step_by_step_loop_running true fuel fuel σ e Hc) as Hgen.
    change (DijkstraAlgorithm.set_flags true _ _ e) with (running true e).
    destruct (drive fuel fuel σ e) as [[σ' e']|].
    + split; [done|]. destruct Hgen as (ys & x & ->). by exists ys, x.
    + by rewrite Hgen.
Qed.

(** ** Finality of visited nodes *)

(** C4.  Along every sequence of [step] calls on one engine, a node that
    is in [visited_nodes] stays there and keeps its distance. *)
Theorem C4_visited_distance_final (σ : store) e σ' e' n :
  steps σ e σ' e' →
  n ∈ DijkstraAlgorithm.visited_nodes e →
  n ∈ DijkstraAlgorithm.visited_nodes e' ∧
  Node.distance (deref σ' n) = Node.distance (deref σ n).
Proof.
  intros Hsteps.
  induction Hsteps as [|fuel σ e σ1 e1 r σ2 e2 Hstep _ IH]; intros Hn;
    [done|].
  destruct (step_visited_frame _ _ _ _ _ _ _ Hstep Hn) as [Hn1 Hd1].
  destruct (IH Hn1) as [Hn2 Hd2]. split; [done|]. by rewrite Hd2.
Qed.

Lemma C4_visited_witness :
  steps (run3 1).1 (run3 1).2 (run3 9).1 (run3 9).2 ∧
  cell 3 0 0 ∈ DijkstraAlgorithm.visited_nodes (run3 1).2 ∧
  cell 3 0 0 ∈ DijkstraAlgorithm.visited_nodes (run3 9).2 ∧
  Node.distance (deref (run3 9).1 (cell 3 0 0)) =
    Node.distance (deref (run3 1).1 (cell 3 0 0)).
Proof.
  assert (Hsteps : steps (run3 1).1 (run3 1).2 (run3 9).1 (run3 9).2).
  { apply (steps_step_n 40 8). by_computation. }
  assert (Hn : cell 3 0 0 ∈ DijkstraAlgorithm.visited_nodes (run3 1).2)
    by by_evaluation.
  exact (conj Hsteps (conj Hn
    (C4_visited_distance_final _ _ _ _ _ Hsteps Hn))).
Defined.

(** ** Construction *)

(** C5, as the code has it.  [DijkstraAlgorithm.__init__] validates
    nothing.  With a start node it always succeeds, whatever the end is
    (the start itself, [None], or a node of no grid): the engine holds the
    two endpoints as given, zero counters, cleared flags, the queue
    [[(0, start)]] and no visited node, and the only write to the store
    is [start.distance = 0].  With [None] as start it raises
    [AttributeError] at that write. *)
Theorem C5_construction (σ : store) (start_node end_node : option addr) :
  match start_node with
  | None =>
      DijkstraAlgorithm.init σ start_node end_node = inl AttributeError
  | Some s =>
      ∃ σ' e,
        DijkstraAlgorithm.init σ start_node end_node = inr (σ', e) ∧
        DijkstraAlgorithm.start_node e = s ∧
        DijkstraAlgorithm.end_node e = end_node ∧
        DijkstraAlgorithm.visited_count e = 0 ∧
        DijkstraAlgorithm.path_length e = 0%Z ∧
        DijkstraAlgorithm.is_running e = false ∧
        DijkstraAlgorithm.is_complete e = false ∧
        DijkstraAlgorithm.path_found e = false ∧
        DijkstraAlgorithm.priority_queue e = [(Fin 0, s)] ∧
        DijkstraAlgorithm.visited_nodes e = ∅ ∧
        dom σ' = dom σ ∧
        ∀ a, deref σ' a =
             if decide (a = s ∧ s ∈ dom σ)
             then Node.set_distance (Fin 0) (deref σ a)
             else deref σ a
  end.
Proof.
  destruct start_node as [s|]; [|done].
  eexists _, _. split; [reflexivity|]. simpl.
  repeat (split; [done|]). split; [apply dom_modify|].
  intros a. case_decide as Ha.
  - destruct Ha as [-> Hs]. by apply deref_modify_eq.
  - destruct (decide (a = s)) as [->|Hne].
    + apply deref_same_lookup. rewrite lookup_modify, decide_True by done.
      assert (Hnone : σ !! s = None) by (apply not_elem_of_dom; tauto).
      by rewrite Hnone.
    + by apply deref_modify_ne.
Qed.

(** C5, against the spec: constructing the engine of the 3 x 3 scenario
    with cell [(0, 0)] as start and as end raises nothing, returns an
    engine, and has written the start node's distance. *)
Lemma C5_same_endpoints_counterexample :
  ∃ σ' e,
    DijkstraAlgorithm.init store3 (Some (cell 3 0 0)) (Some (cell 3 0 0))
      = inr (σ', e) ∧
    DijkstraAlgorithm.start_node e = cell 3 0 0 ∧
    DijkstraAlgorithm.end_node e = Some (cell 3 0 0) ∧
    Node.distance (deref store3 (cell 3 0 0)) = Inf ∧
    Node.distance (deref σ' (cell 3 0 0)) = Fin 0.
Proof.
  eexists _, _. split; [reflexivity|]. repeat split; by_computation.
Qed.

(** ** Popping the end node *)

(** C6.  In every state that a run from a fresh store reaches, a call of
    [step] that pops the end node as a current tuple [(k, end_node)] of a
    node not yet visited returns [(False, end_node)] with [path_found]
    and [is_complete] set and [is_running] cleared, the end node added
    to the visited set and counted, and the rest of the queue kept.  It
    has performed path reconstruction: what it leaves is what
    [_reconstruct_path] returns on the engine with these flags, namely
    [path_length] is [k], the number of nodes of the chain of [previous]
    links from the end node minus one; that chain has [k + 1] nodes, ends
    at the start node and repeats no node; and the nodes of the chain
    other than the two endpoints, and no others, are set to [PATH].  For
    any engine whatsoever, a call that returns [False] with a node has
    popped the end node in this way and has set [path_length] and the
    [PATH] states from the chain that it walked. *)
Theorem C6_end_node_pop (σ0 : store) s t σi ei σ e d n q fuel :
  closed σ0 → fresh σ0 → s ∈ dom σ0 →
  DijkstraAlgorithm.init σ0 (Some s) t = inr (σi, ei) →
  steps σi ei σ e →
  pops σ e d n q → fresh_pop σ e d n →
  DijkstraAlgorithm.end_node e = Some n →
  size (dom σ0) ≤ fuel →
  (∃ σ' e' k chain,
     DijkstraAlgorithm.step fuel σ e = Some (σ', e', (false, Some n)) ∧
     DijkstraAlgorithm.path_found e' = true ∧
     DijkstraAlgorithm.is_complete e' = true ∧
     DijkstraAlgorithm.is_running e' = false ∧
     DijkstraAlgorithm._reconstruct_path fuel
       (DijkstraAlgorithm.mark_explored n σ)
       (DijkstraAlgorithm.set_flags false true true (visiting e n q))
       = Some (σ', e') ∧
     d = Fin k ∧
     DijkstraAlgorithm.walk_previous fuel
       (DijkstraAlgorithm.mark_explored n σ) (Some n) = Some chain ∧
     length chain = S k ∧
     head chain = Some n ∧ last chain = Some s ∧ NoDup chain ∧
     (∀ i a, chain !! i = Some a →
        chain !! S i = Node.previous (deref σ a)) ∧
     DijkstraAlgorithm.path_length e' = Z.of_nat k ∧
     DijkstraAlgorithm.path_length e' = (Z.of_nat (length chain) - 1)%Z ∧
     σ' = DijkstraAlgorithm.mark_path (DijkstraAlgorithm.interior chain)
            (DijkstraAlgorithm.mark_explored n σ) ∧
     (∀ a, Node.state (deref σ' a) =
           if decide (a ∈ chain ∧ a ≠ n ∧ a ≠ s) then PATH
           else Node.state (deref (DijkstraAlgorithm.mark_explored n σ) a)) ∧
     same_traversal (DijkstraAlgorithm.mark_explored n σ) σ' ∧
     DijkstraAlgorithm.visited_nodes e'
       = {[n]} ∪ DijkstraAlgorithm.visited_nodes e ∧
     DijkstraAlgorithm.visited_count e'
       = S (DijkstraAlgorithm.visited_count e) ∧
     DijkstraAlgorithm.priority_queue e' = q) ∧
  (∀ fuel1 (σ1 : store) e1 σ' e' x,
     DijkstraAlgorithm.step fuel1 σ1 e1 = Some (σ', e', (false, Some x)) →
     DijkstraAlgorithm.end_node e1 = Some x ∧
     DijkstraAlgorithm.path_found e' = true ∧
     DijkstraAlgorithm.is_complete e' = true ∧
     DijkstraAlgorithm.is_running e' = false ∧
     (∃ d1 q1, pops σ1 e1 d1 x q1 ∧ fresh_pop σ1 e1 d1 x) ∧
     ∃ chain,
       DijkstraAlgorithm.walk_previous fuel1
         (DijkstraAlgorithm.mark_explored x σ1) (Some x) = Some chain ∧
       DijkstraAlgorithm.path_length e'
         = (Z.of_nat (length chain) - 1)%Z ∧
       σ' = DijkstraAlgorithm.mark_path (DijkstraAlgorithm.interior chain)
              (DijkstraAlgorithm.mark_explored x σ1)).
Proof.
  intros Hclosed Hfresh Hs Hinit Hsteps Hpops Hpop Hend Hfuel. split.
  - pose proof (reach_Inv _ _ _ _ _ _ _ Hclosed Hfresh Hs Hinit Hsteps)
      as HI.
    destruct (found_spec _ _ _ _ _ _ _ fuel HI Hpops Hpop Hfuel)
      as (k & chain & Hd & Hk & Hwalk & Hlen & Hhead & Hlast & Hdist & _).
    set (σ1 := DijkstraAlgorithm.mark_explored n σ) in *.
    assert (Hnd : NoDup chain) by (apply (chain_NoDup σ k); [done|lia]).
    exists (DijkstraAlgorithm.mark_path (DijkstraAlgorithm.interior chain) σ1),
      (DijkstraAlgorithm.set_path_length (Z.of_nat k)
         (DijkstraAlgorithm.set_flags false true true (visiting e n q))),
      k, chain.
    split.
    { by apply (step_found_spec σ e d n q fuel k chain). }
    split; [done|]. split; [done|]. split; [done|]. split.
    { unfold DijkstraAlgorithm._reconstruct_path.
      cbn [DijkstraAlgorithm.path_found DijkstraAlgorithm.end_node
           DijkstraAlgorithm.set_flags visiting
           DijkstraAlgorithm.mark_visited
           DijkstraAlgorithm.set_priority_queue negb].
      rewrite Hend. fold σ1. rewrite Hwalk, Hlen. do 3 f_equal. lia. }
    split; [done|]. split; [done|]. split; [done|]. split; [done|].
    split; [done|]. split; [done|]. split.
    { intros i a Ha.
      destruct (walk_previous_links _ _ _ _ Hwalk) as [_ Hlinks].
      rewrite (Hlinks i a Ha). unfold σ1.
      apply (mark_explored_proj Node.previous). done. }
    split; [done|]. split; [simpl; rewrite Hlen; lia|]. split; [done|].
    split; [|by split; [apply same_traversal_mark_path|]].
    intros a.
    pose proof (interior_spec chain n s a Hnd Hhead Hlast) as Hint.
    pose proof (lookup_mark_path (DijkstraAlgorithm.interior chain) a σ1)
      as Hlook.
    destruct (decide (a ∈ chain ∧ a ≠ n ∧ a ≠ s)) as [Ha|Ha].
    + rewrite decide_True in Hlook by tauto.
      rewrite (deref_fmap_lookup _ _ _ _ Hlook); [done|].
      destruct Ha as [Ha _]. apply list_elem_of_lookup in Ha as [i Hi].
      unfold σ1. rewrite dom_mark_explored.
      by eapply reached_dom, Hdist.
    + rewrite decide_False in Hlook by tauto.
      by rewrite (deref_same_lookup _ _ _ Hlook).
  - intros fuel1 σ1 e1 σ' e' x Hstep.
    apply step_outcome in Hstep
      as [(_ & _ & _ & [=])
         |(d1 & n1 & q1 & Hpops1 &
            [(_ & _ & _ & [=])
            |[(Hpop1 & Hend1 & [= <-] & chain & Hwalk & -> & ->)
             |(_ & _ & [=] & _)]])].
    split; [done|]. split; [done|]. split; [done|]. split; [done|].
    split; [by exists d1, q1|]. by exists chain.
Qed.

Lemma C6_end_node_pop_witness :
  closed store3 ∧ fresh store3 ∧ cell 3 0 0 ∈ dom store3 ∧
  DijkstraAlgorithm.init store3 (Some (cell 3 0 0)) (Some (cell 3 2 2))
    = inr ((run3 0).1, (run3 0).2) ∧
  steps (run3 0).1 (run3 0).2 (run3 8).1 (run3 8).2 ∧
  pops (run3 8).1 (run3 8).2 (Fin 4) (cell 3 2 2) [] ∧
  fresh_pop (run3 8).1 (run3 8).2 (Fin 4) (cell 3 2 2) ∧
  DijkstraAlgorithm.end_node (run3 8).2 = Some (cell 3 2 2) ∧
  size (dom store3) ≤ 40 ∧
  DijkstraAlgorithm.step 40 (run3 8).1 (run3 8).2
    = Some ((run3 9).1, (run3 9).2, (false, Some (cell 3 2 2))) ∧
  DijkstraAlgorithm.path_length (run3 9).2 = 4%Z ∧
  length (filter (λ a, Node.state (deref (run3 9).1 a) = PATH) (seq 0 9))
    = 3 ∧
  ∃ σ' e' k chain,
    DijkstraAlgorithm.step 40 (run3 8).1 (run3 8).2
      = Some (σ', e', (false, Some (cell 3 2 2))) ∧
    DijkstraAlgorithm.path_found e' = true ∧
    DijkstraAlgorithm.is_complete e' = true ∧
    DijkstraAlgorithm.is_running e' = false ∧
    DijkstraAlgorithm._reconstruct_path 40
      (DijkstraAlgorithm.mark_explored (cell 3 2 2) (run3 8).1)
      (DijkstraAlgorithm.set_flags false true true
         (visiting (run3 8).2 (cell 3 2 2) []))
      = Some (σ', e') ∧
    Fin 4 = Fin k ∧
    DijkstraAlgorithm.walk_previous 40
      (DijkstraAlgorithm.mark_explored (cell 3 2 2) (run3 8).1)
      (Some (cell 3 2 2)) = Some chain ∧
    length chain = S k ∧
    head chain = Some (cell 3 2 2) ∧ last chain = Some (cell 3 0 0) ∧
    NoDup chain ∧
    (∀ i a, chain !! i = Some a →
       chain !! S i = Node.previous (deref (run3 8).1 a)) ∧
    DijkstraAlgorithm.path_length e' = Z.of_nat k ∧
    DijkstraAlgorithm.path_length e' = (Z.of_nat (length chain) - 1)%Z ∧
    σ' = DijkstraAlgorithm.mark_path (DijkstraAlgorithm.interior chain)
           (DijkstraAlgorithm.mark_explored (cell 3 2 2) (run3 8).1) ∧
    (∀ a, Node.state (deref σ' a) =
          if decide (a ∈ chain ∧ a ≠ cell 3 2 2 ∧ a ≠ cell 3 0 0) then PATH
          else Node.state
                 (deref (DijkstraAlgorithm.mark_explored (cell 3 2 2)
                           (run3 8).1) a)) ∧
    same_traversal
      (DijkstraAlgorithm.mark_explored (cell 3 2 2) (run3 8).1) σ' ∧
    DijkstraAlgorithm.visited_nodes e'
      = {[cell 3 2 2]} ∪ DijkstraAlgorithm.visited_nodes (run3 8).2 ∧
    DijkstraAlgorithm.visited_count e'
      = S (DijkstraAlgorithm.visited_count (run3 8).2) ∧
    DijkstraAlgorithm.priority_queue e' = [].
Proof.
  assert (Hclosed : closed store3) by by_evaluation.
  assert (Hfresh : fresh store3) by by_evaluation.
  assert (Hs : cell 3 0 0 ∈ dom store3) by by_evaluation.
  assert (Hinit :
    DijkstraAlgorithm.init store3 (Some (cell 3 0 0)) (Some (cell 3 2 2))
      = inr ((run3 0).1, (run3 0).2)) by by_computation.
  assert (Hsteps : steps (run3 0).1 (run3 0).2 (run3 8).1 (run3 8).2).
  { apply (steps_step_n 40 8). by_computation. }
  assert (Hpops : pops (run3 8).1 (run3 8).2 (Fin 4) (cell 3 2 2) []).
  { split; by_computation. }
  assert (Hpop : fresh_pop (run3 8).1 (run3 8).2 (Fin 4) (cell 3 2 2)).
  { split; [by_computation|by_evaluation]. }
  assert (Hend : DijkstraAlgorithm.end_node (run3 8).2 = Some (cell 3 2 2))
    by by_computation.
  assert (Hfuel : size (dom store3) ≤ 40) by by_evaluation.
  assert (Hstep :
    DijkstraAlgorithm.step 40 (run3 8).1 (run3 8).2
      = Some ((run3 9).1, (run3 9).2, (false, Some (cell 3 2 2))))
    by by_computation.
  assert (Hlen : DijkstraAlgorithm.path_length (run3 9).2 = 4%Z)
    by by_computation.
  assert (Hpath :
    length (filter (λ a, Node.state (deref (run3 9).1 a) = PATH) (seq 0 9))
      = 3) by by_computation.
  exact (conj Hclosed (conj Hfresh (conj Hs (conj Hinit (conj Hsteps
    (conj Hpops (conj Hpop (conj Hend (conj Hfuel (conj Hstep (conj Hlen
    (conj Hpath
    (proj1 (C6_end_node_pop store3 (cell 3 0 0) (Some (cell 3 2 2))
              (run3 0).1 (run3 0).2 (run3 8).1 (run3 8).2
              (Fin 4) (cell 3 2 2) [] 40
              Hclosed Hfresh Hs Hinit Hsteps Hpops Hpop Hend
              Hfuel)))))))))))))).
Defined.

(** ** Discarded tuples *)

(** C7.  A call of [step] that pops a tuple whose recorded distance
    exceeds the current distance of its node, or whose node is already
    visited, returns [(True, None)]: the store is the one it was called
    on, and the engine differs by the popped tuple only, so neither
    [visited_count] nor the visited set nor a flag has changed. *)
Theorem C7_discarded_pop fuel (σ : store) e d n q :
  pops σ e d n q → discarded σ e d n →
  ∃ e',
    DijkstraAlgorithm.step fuel σ e = Some (σ, e', (true, None)) ∧
    e' = DijkstraAlgorithm.set_priority_queue q e ∧
    DijkstraAlgorithm.visited_count e' = DijkstraAlgorithm.visited_count e ∧
    DijkstraAlgorithm.visited_nodes e' = DijkstraAlgorithm.visited_nodes e ∧
    DijkstraAlgorithm.path_length e' = DijkstraAlgorithm.path_length e ∧
    DijkstraAlgorithm.is_running e' = DijkstraAlgorithm.is_running e ∧
    DijkstraAlgorithm.is_complete e' = false ∧
    DijkstraAlgorithm.path_found e' = DijkstraAlgorithm.path_found e.
Proof.
  intros Hpops Hdis. eexists. split; [by eapply step_discard|].
  by destruct Hpops.
Qed.

Lemma C7_discarded_pop_witness :
  pops stale3.1 stale3.2 (Fin 2) (cell 3 0 0) [] ∧
  discarded stale3.1 stale3.2 (Fin 2) (cell 3 0 0) ∧
  ∃ e',
    DijkstraAlgorithm.step 40 stale3.1 stale3.2
      = Some (stale3.1, e', (true, None)) ∧
    DijkstraAlgorithm.visited_count e'
      = DijkstraAlgorithm.visited_count stale3.2.
Proof.
  assert (Hpops : pops stale3.1 stale3.2 (Fin 2) (cell 3 0 0) []).
  { split; by_computation. }
  assert (Hdis : discarded stale3.1 stale3.2 (Fin 2) (cell 3 0 0)).
  { left. by_computation. }
  split; [done|]. split; [done|].
  destruct (C7_discarded_pop 40 _ _ _ _ _ Hpops Hdis)
    as (e' & Hstep & _ & Hcount & _).
  by exists e'.
Defined.

(** ** Path reconstruction *)

(** C8.  [_reconstruct_path] does nothing unless [path_found] is set.
    When a call of [step], in a state that a run from a fresh store
    reaches, returns [False] with a node, path reconstruction has run:
    the chain that it walked starts at the end node, follows the
    [previous] links, ends at the start node and repeats no node;
    [path_length] is the number of its nodes minus one; the nodes set to
    [PATH] are the nodes of the chain other than the start and the end,
    every other node keeps the state it had when reconstruction began,
    and no distance, predecessor or neighbour list is written. *)
Theorem C8_path_reconstruction (σ0 : store) s t σi ei σ e fuel σ' e' n :
  closed σ0 → fresh σ0 → s ∈ dom σ0 →
  DijkstraAlgorithm.init σ0 (Some s) t = inr (σi, ei) →
  steps σi ei σ e →
  DijkstraAlgorithm.step fuel σ e = Some (σ', e', (false, Some n)) →
  (∀ f (σ1 : store) e1,
     DijkstraAlgorithm.path_found e1 = false →
     DijkstraAlgorithm._reconstruct_path f σ1 e1 = Some (σ1, e1)) ∧
  ∃ chain,
    DijkstraAlgorithm.walk_previous fuel
      (DijkstraAlgorithm.mark_explored n σ) (DijkstraAlgorithm.end_node e)
      = Some chain ∧
    DijkstraAlgorithm.end_node e = Some n ∧
    head chain = Some n ∧ last chain = Some s ∧ NoDup chain ∧
    (∀ i a, chain !! i = Some a →
       chain !! S i = Node.previous (deref σ a)) ∧
    DijkstraAlgorithm.path_found e' = true ∧
    DijkstraAlgorithm.path_length e' = (Z.of_nat (length chain) - 1)%Z ∧
    (∀ a, Node.state (deref σ' a) =
          if decide (a ∈ chain ∧ a ≠ n ∧ a ≠ s) then PATH
          else Node.state (deref (DijkstraAlgorithm.mark_explored n σ) a)) ∧
    same_traversal (DijkstraAlgorithm.mark_explored n σ) σ'.
Proof.
  intros Hclosed Hfresh Hs Hinit Hsteps Hstep. split.
  { intros f σ1 e1 Hf. unfold DijkstraAlgorithm._reconstruct_path.
    by rewrite Hf. }
  pose proof (reach_Inv _ _ _ _ _ _ _ Hclosed Hfresh Hs Hinit Hsteps) as HI.
  apply step_outcome in Hstep
    as [(_ & _ & _ & [=])
       |(d & n1 & q & Hpops &
          [(_ & _ & _ & [=])
          |[(Hpop & Hend & [= <-] & chain & Hwalk & -> & ->)
           |(_ & _ & [=] & _)]])].
  set (σ1 := DijkstraAlgorithm.mark_explored n σ) in *.
  destruct (found_spec _ _ _ _ _ _ _ (fuel `max` size (dom σ0))
              HI Hpops Hpop)
    as (k & chain' & _ & Hk & Hwalk' & Hlen & Hhead & Hlast & Hdist & _);
    [lia|].
  fold σ1 in Hwalk'.
  apply (walk_previous_mono _ _ (fuel `max` size (dom σ0))) in Hwalk as Hw;
    [|lia].
  assert (chain' = chain) as -> by congruence. clear Hw Hwalk'.
  assert (Hnd : NoDup chain) by (apply (chain_NoDup σ k); [done|lia]).
  exists chain. rewrite <- Hend.
  split; [done|]. split; [done|]. split; [done|]. split; [done|].
  split; [done|]. split.
  { intros i a Ha.
    destruct (walk_previous_links _ _ _ _ Hwalk) as [_ Hlinks].
    rewrite (Hlinks i a Ha). unfold σ1.
    apply (mark_explored_proj Node.previous). done. }
  split; [done|]. split; [done|]. split; [|apply same_traversal_mark_path].
  intros a.
  pose proof (interior_spec chain n s a Hnd Hhead Hlast) as Hint.
  pose proof (lookup_mark_path (DijkstraAlgorithm.interior chain) a σ1)
    as Hlook.
  destruct (decide (a ∈ chain ∧ a ≠ n ∧ a ≠ s)) as [Ha|Ha].
  - rewrite decide_True in Hlook by tauto.
    rewrite (deref_fmap_lookup _ _ _ _ Hlook); [done|].
    destruct Ha as [Ha _]. apply list_elem_of_lookup in Ha as [i Hi].
    unfold σ1. rewrite dom_mark_explored.
    by eapply reached_dom, Hdist.
  - rewrite decide_False in Hlook by tauto.
    by rewrite (deref_same_lookup _ _ _ Hlook).
Qed.

Lemma C8_path_reconstruction_witness :
  closed store3 ∧ fresh store3 ∧ cell 3 0 0 ∈ dom store3 ∧
  DijkstraAlgorithm.init store3 (Some (cell 3 0 0)) (Some (cell 3 2 2))
    = inr ((run3 0).1, (run3 0).2) ∧
  steps (run3 0).1 (run3 0).2 (run3 8).1 (run3 8).2 ∧
  DijkstraAlgorithm.step 40 (run3 8).1 (run3 8).2
    = Some ((run3 9).1, (run3 9).2, (false, Some (cell 3 2 2))) ∧
  ∃ chain,
    DijkstraAlgorithm.walk_previous 40
      (DijkstraAlgorithm.mark_explored (cell 3 2 2) (run3 8).1)
      (DijkstraAlgorithm.end_node (run3 8).2)
      = Some chain ∧
    DijkstraAlgorithm.end_node (run3 8).2 = Some (cell 3 2 2) ∧
    head chain = Some (cell 3 2 2) ∧ last chain = Some (cell 3 0 0) ∧
    NoDup chain ∧
    (∀ i a, chain !! i = Some a →
       chain !! S i = Node.previous (deref (run3 8).1 a)) ∧
    DijkstraAlgorithm.path_found (run3 9).2 = true ∧
    DijkstraAlgorithm.path_length (run3 9).2
      = (Z.of_nat (length chain) - 1)%Z ∧
    (∀ a, Node.state (deref (run3 9).1 a) =
          if decide (a ∈ chain ∧ a ≠ cell 3 2 2 ∧ a ≠ cell 3 0 0) then PATH
          else Node.state
                 (deref (DijkstraAlgorithm.mark_explored (cell 3 2 2)
                           (run3 8).1) a)) ∧
    same_traversal
      (DijkstraAlgorithm.mark_explored (cell 3 2 2) (run3 8).1) (run3 9).1.
Proof.
  assert (Hclosed : closed store3) by by_evaluation.
  assert (Hfresh : fresh store3) by by_evaluation.
  assert (Hs : cell 3 0 0 ∈ dom store3) by by_evaluation.
  assert (Hinit :
    DijkstraAlgorithm.init store3 (Some (cell 3 0 0)) (Some (cell 3 2 2))
      = inr ((run3 0).1, (run3 0).2)) by by_computation.
  assert (Hsteps : steps (run3 0).1 (run3 0).2 (run3 8).1 (run3 8).2).
  { apply (steps_step_n 40 8). by_computation. }
  assert (Hstep :
    DijkstraAlgorithm.step 40 (run3 8).1 (run3 8).2
      = Some ((run3 9).1, (run3 9).2, (false, Some (cell 3 2 2))))
    by by_computation.
  exact (conj Hclosed (conj Hfresh (conj Hs (conj Hinit (conj Hsteps
    (conj Hstep
    (proj2 (C8_path_reconstruction store3 (cell 3 0 0) (Some (cell 3 2 2))
              (run3 0).1 (run3 0).2 (run3 8).1 (run3 8).2 40
              (run3 9).1 (run3 9).2 (cell 3 2 2)
              Hclosed Hfresh Hs Hinit Hsteps Hstep)))))))).
Defined.

(** ** The endpoints of a grid *)

(** C9, as the code has it.  A grid that [Grid.__init__] built has no
    start node and no end node, and it has none again after
    [reset_grid].  After any sequence of editing operations the cells in
    state [START] are the cell that [start_node] names, if it names one,
    and none otherwise; the same holds of [END] and [end_node].  An
    endpoint that is set stays set through every operation but
    [reset_grid], so from the first [set_start] that is accepted until
    the next [reset_grid] the grid has exactly one cell in state
    [START], and likewise for [END].  [set_start] and [set_end], when
    they accept a cell, make it the holder, set the previous holder back
    to [EMPTY] and leave the other endpoint in place; when they refuse,
    nothing changes.  When [is_ready_for_pathfinding] holds, both
    endpoints are set, they are different cells, and the grid has
    exactly one cell in state [START] and one in state [END]. *)
Theorem C9_endpoints (rows width : Z) (σ0 : store) g0 ops (σ : store) g :
  Grid.init rows width = inr (σ0, g0) →
  apply_ops (σ0, g0) ops = (σ, g) →
  holders START σ g = option_list (Grid.start_node g) ∧
  holders END σ g = option_list (Grid.end_node g) ∧
  (∀ a, Node.state (deref σ a) = START ↔ Grid.start_node g = Some a) ∧
  (∀ a, Node.state (deref σ a) = END ↔ Grid.end_node g = Some a) ∧
  (Grid.is_ready_for_pathfinding g = true →
     ∃ a b, Grid.start_node g = Some a ∧ Grid.end_node g = Some b ∧ a ≠ b ∧
            holders START σ g = [a] ∧ holders END σ g = [b]) ∧
  (∀ row col,
     if (Grid.set_start row col σ g).2 then
       ∃ node,
         Grid.get_node g row col = Some node ∧
         Grid.start_node (Grid.set_start row col σ g).1.2 = Some node ∧
         ∀ a, Node.state (deref (Grid.set_start row col σ g).1.1 a) =
              if decide (a = node) then START
              else if decide (Grid.start_node g = Some a) then EMPTY
              else Node.state (deref σ a)
     else Grid.set_start row col σ g = (σ, g, false)) ∧
  (∀ row col,
     if (Grid.set_end row col σ g).2 then
       ∃ node,
         Grid.get_node g row col = Some node ∧
         Grid.end_node (Grid.set_end row col σ g).1.2 = Some node ∧
         ∀ a, Node.state (deref (Grid.set_end row col σ g).1.1 a) =
              if decide (a = node) then END
              else if decide (Grid.end_node g = Some a) then EMPTY
              else Node.state (deref σ a)
     else Grid.set_end row col σ g = (σ, g, false)) ∧
  (∀ row col,
     Grid.end_node (Grid.set_start row col σ g).1.2 = Grid.end_node g ∧
     Grid.start_node (Grid.set_end row col σ g).1.2 = Grid.start_node g) ∧
  (Grid.start_node g0 = None ∧ Grid.end_node g0 = None ∧
   holders START σ0 g0 = [] ∧ holders END σ0 g0 = []) ∧
  (Grid.start_node (Grid.reset_grid σ g).2 = None ∧
   Grid.end_node (Grid.reset_grid σ g).2 = None ∧
   holders START (Grid.reset_grid σ g).1 (Grid.reset_grid σ g).2 = [] ∧
   holders END (Grid.reset_grid σ g).1 (Grid.reset_grid σ g).2 = []) ∧
  (∀ ops' (σ' : store) g',
     ResetGrid ∉ ops' → apply_ops (σ, g) ops' = (σ', g') →
     (is_Some (Grid.start_node g) →
      ∃ a, Grid.start_node g' = Some a ∧ holders START σ' g' = [a]) ∧
     (is_Some (Grid.end_node g) →
      ∃ b, Grid.end_node g' = Some b ∧ holders END σ' g' = [b])).
Proof.
  intros Hinit Hops.
  pose proof (Grid_init_GInv _ _ _ _ Hinit) as HG0.
  assert (HG : GInv σ g).
  { pose proof (apply_ops_GInv ops (σ0, g0) HG0) as HG.
    by rewrite Hops in HG. }
  destruct (GInv_holders σ g HG) as [Hhs Hhe].
  split; [done|]. split; [done|].
  split; [exact (ginv_start HG)|]. split; [exact (ginv_end HG)|].
  split.
  { intros Hready.
    destruct (GInv_ready σ g HG Hready) as (a & b & Ha & Hb & Hne).
    exists a, b. rewrite Hhs, Hhe, Ha, Hb. done. }
  split.
  { intros row col. exact (proj2 (set_start_spec row col σ g HG)). }
  split.
  { intros row col. exact (proj2 (set_end_spec row col σ g HG)). }
  split.
  { intros row col. split;
      [apply set_start_end_node|apply set_end_start_node]. }
  split.
  { destruct (Grid_init_spec _ _ _ _ Hinit) as (_ & _ & _ & Hs & He & _).
    destruct (GInv_holders σ0 g0 HG0) as [-> ->]. by rewrite Hs, He. }
  split; [by apply reset_grid_none|].
  intros ops' σ' g' Hno Hops'.
  assert (HG' : GInv σ' g').
  { pose proof (apply_ops_GInv ops' (σ, g) HG) as HG'.
    by rewrite Hops' in HG'. }
  destruct (apply_ops_keeps ops' (σ, g) Hno) as [Hs He].
  rewrite Hops' in Hs, He. simpl in Hs, He.
  destruct (GInv_holders σ' g' HG') as [Hhs' Hhe'].
  split.
  - intros H. destruct (Hs H) as [a Ha]. exists a. by rewrite Hhs', Ha.
  - intros H. destruct (He H) as [b Hb]. exists b. by rewrite Hhe', Hb.
Qed.

Lemma C9_endpoints_witness :
  Grid.init 3 600 = inr (grid3.1, grid3.2) ∧
  apply_ops (grid3.1, grid3.2) edits3 = (edited3.1, edited3.2) ∧
  holders START edited3.1 edited3.2
    = option_list (Grid.start_node edited3.2) ∧
  holders END edited3.1 edited3.2 = option_list (Grid.end_node edited3.2) ∧
  Grid.start_node edited3.2 = Some (cell 3 1 1) ∧
  Grid.end_node edited3.2 = Some (cell 3 2 2).
Proof.
  assert (Hinit : Grid.init 3 600 = inr (grid3.1, grid3.2))
    by by_computation.
  assert (Hops :
    apply_ops (grid3.1, grid3.2) edits3 = (edited3.1, edited3.2))
    by by_computation.
  assert (Hstart : Grid.start_node edited3.2 = Some (cell 3 1 1))
    by by_computation.
  assert (Hend : Grid.end_node edited3.2 = Some (cell 3 2 2))
    by by_computation.
  pose proof (C9_endpoints 3 600 grid3.1 grid3.2 edits3
                edited3.1 edited3.2 Hinit Hops) as H.
  exact (conj Hinit (conj Hops (conj (proj1 H) (conj (proj1 (proj2 H))
    (conj Hstart Hend))))).
Defined.

(** C9, against the spec: the grid that [Grid.__init__] builds has no
    start node and no end node, in the states of its cells and in its
    fields alike; and it has none again after [reset_grid]. *)
Lemma C9_no_endpoints_counterexample :
  Grid.init 3 600 = inr (grid3.1, grid3.2) ∧
  holders START grid3.1 grid3.2 = [] ∧
  holders END grid3.1 grid3.2 = [] ∧
  Grid.start_node grid3.2 = None ∧
  Grid.end_node grid3.2 = None ∧
  Grid.is_ready_for_pathfinding grid3.2 = false ∧
  holders START (apply_ops grid3 [SetStart 0 0; ResetGrid]).1
    (apply_ops grid3 [SetStart 0 0; ResetGrid]).2 = [].
Proof.
  split; [by_computation|]. split; [by_computation|].
  split; [by_computation|]. split; [by_computation|].
  split; [by_computation|]. split; by_computation.
Qed.

(** ** Resetting the traversal fields *)

(** C10.  [Node.reset_algorithm_data] sets the distance to infinity and
    the predecessor to [None], turns the states [VISITED] and [PATH] into
    [EMPTY] and keeps every other state, and writes no other field.
    [Grid.reset_algorithm_data] does this to every cell of the grid and
    to no other node, so a node is a start, an end or a barrier after it
    exactly when it was one before. *)
Theorem C10_reset_algorithm_data (nd : Node.t) (σ : store) (g : Grid.t)
    (a : addr) :
  Node.distance (Node.reset_algorithm_data nd) = Inf ∧
  Node.previous (Node.reset_algorithm_data nd) = None ∧
  Node.state (Node.reset_algorithm_data nd) =
    (if decide (Node.state nd = VISITED ∨ Node.state nd = PATH)
     then EMPTY else Node.state nd) ∧
  Node.row (Node.reset_algorithm_data nd) = Node.row nd ∧
  Node.col (Node.reset_algorithm_data nd) = Node.col nd ∧
  Node.x (Node.reset_algorithm_data nd) = Node.x nd ∧
  Node.y (Node.reset_algorithm_data nd) = Node.y nd ∧
  Node.width (Node.reset_algorithm_data nd) = Node.width nd ∧
  Node.total_rows (Node.reset_algorithm_data nd) = Node.total_rows nd ∧
  Node.neighbors (Node.reset_algorithm_data nd) = Node.neighbors nd ∧
  Grid.reset_algorithm_data σ g !! a =
    (if decide (a ∈ mjoin (Grid.grid g))
     then Node.reset_algorithm_data <$> σ !! a else σ !! a) ∧
  (Node.state (deref (Grid.reset_algorithm_data σ g) a) = START ↔
   Node.state (deref σ a) = START) ∧
  (Node.state (deref (Grid.reset_algorithm_data σ g) a) = END ↔
   Node.state (deref σ a) = END) ∧
  (Node.state (deref (Grid.reset_algorithm_data σ g) a) = BARRIER ↔
   Node.state (deref σ a) = BARRIER).
Proof.
  split; [done|]. split; [done|]. split.
  { unfold Node.reset_algorithm_data.
    destruct nd as [? ? ? ? ? ? st ? ? ?]. by destruct st. }
  assert (Hframe : ∀ {B} (proj : Node.t → B),
            (∀ s n, proj (Node.set_state s n) = proj n) →
            (∀ d n, proj (Node.set_distance d n) = proj n) →
            (∀ p n, proj (Node.set_previous p n) = proj n) →
            proj (Node.reset_algorithm_data nd) = proj nd).
  { intros B proj H1 H2 H3. unfold Node.reset_algorithm_data.
    rewrite H3, H2. by destruct (_ || _). }
  do 7 (split; [by apply Hframe|]).
  split; [apply lookup_reset_algorithm_data|].
  split; [|split]; apply state_reset_algorithm_data; auto.
Qed.

(** * Further properties of the code *)

(** ** Neighbour lists *)

(** X1.  On a grid that [Grid.__init__] built and that was edited in any
    way, [Grid.update_neighbors] never raises [IndexError].  It writes
    neighbour lists only: afterwards the list of a cell, barrier or not,
    holds the cells that share a side with it and are no barriers, in
    the order up, down, left, right, and nothing else; so every
    neighbour is a node of the grid. *)
Theorem X1_update_neighbors rows width (σ0 : store) g0 ops (σ : store) g :
  (0 < rows)%Z →
  Grid.init rows width = inr (σ0, g0) →
  apply_ops (σ0, g0) ops = (σ, g) →
  ∃ σ' : store,
    Grid.update_neighbors σ g = inr σ' ∧
    (∀ a, σ' !! a =
          Node.set_neighbors (open_neighbors (Z.to_nat rows) σ a)
            <$> σ !! a) ∧
    closed σ' ∧
    ∀ a b, a < Z.to_nat rows * Z.to_nat rows →
      b ∈ Node.neighbors (deref σ' a) ↔
      b < Z.to_nat rows * Z.to_nat rows ∧
      adjacent (a / Z.to_nat rows) (a mod Z.to_nat rows)
               (b / Z.to_nat rows) (b mod Z.to_nat rows) ∧
      Node.state (deref σ b) ≠ BARRIER.
Proof.
  intros Hrows Hinit Hops.
  pose proof (apply_ops_GShape _ _ _ _ _ _ _ Hrows Hinit Hops) as HS.
  set (n := Z.to_nat rows) in *.
  destruct (update_neighbors_spec n σ g HS) as (σ' & Hup & Hσ').
  exists σ'. split; [done|]. split; [done|].
  assert (Hdom : dom σ' = dom σ).
  { apply set_eq. intros a. rewrite !elem_of_dom, Hσ'.
    by rewrite fmap_is_Some. }
  assert (Hnb : ∀ a, a < n * n →
            Node.neighbors (deref σ' a) = open_neighbors n σ a).
  { intros a Ha. assert (a ∈ dom σ) by by apply (GShape_dom n σ g a HS).
    by rewrite (deref_fmap_lookup _ _ _ _ (Hσ' a)). }
  split.
  - intros a nd Ha. apply Forall_forall. intros b Hb.
    assert (Hlt : a < n * n).
    { apply (GShape_dom n σ g a HS). rewrite <- Hdom.
      apply elem_of_dom. eauto. }
    rewrite <- (deref_lookup _ _ _ Ha), (Hnb a Hlt) in Hb.
    apply (elem_of_open_neighbors n σ a b Hlt) in Hb as [Hb _].
    rewrite Hdom. by apply (GShape_dom n σ g b HS).
  - intros a b Ha. rewrite (Hnb a Ha).
    by apply elem_of_open_neighbors.
Qed.

Lemma X1_update_neighbors_witness :
  (0 < 3)%Z ∧
  Grid.init 3 600 = inr (grid3.1, grid3.2) ∧
  apply_ops (grid3.1, grid3.2) walls3 = (maze3.1, maze3.2) ∧
  ∃ σ' : store,
    Grid.update_neighbors maze3.1 maze3.2 = inr σ' ∧
    (∀ a, σ' !! a =
          Node.set_neighbors (open_neighbors (Z.to_nat 3) maze3.1 a)
            <$> maze3.1 !! a) ∧
    closed σ' ∧
    ∀ a b, a < Z.to_nat 3 * Z.to_nat 3 →
      b ∈ Node.neighbors (deref σ' a) ↔
      b < Z.to_nat 3 * Z.to_nat 3 ∧
      adjacent (a / Z.to_nat 3) (a mod Z.to_nat 3)
               (b / Z.to_nat 3) (b mod Z.to_nat 3) ∧
      Node.state (deref maze3.1 b) ≠ BARRIER.
Proof.
  assert (H3 : (0 < 3)%Z) by lia.
  assert (Hinit : Grid.init 3 600 = inr (grid3.1, grid3.2))
    by by_computation.
  assert (Hops : apply_ops (grid3.1, grid3.2) walls3 = (maze3.1, maze3.2))
    by by_computation.
  exact (conj H3 (conj Hinit (conj Hops
    (X1_update_neighbors 3 600 grid3.1 grid3.2 walls3 maze3.1 maze3.2
       H3 Hinit Hops)))).
Defined.

(** ** What a run finds *)

(** X2.  When [run_dijkstra_complete], on a store with fresh traversal
    fields, returns [True], the chain of [previous] links from the end
    node, reversed, is a walk along neighbour lists from the start node
    to the end node that repeats no node, the reported [path_length] is
    its number of edges, and no walk from the start to the end is
    shorter.  The statistics report a complete, stopped run that
    visited no more nodes than the store holds. *)
Theorem X2_shortest_path (σ0 : store) s t fuel (σ' : store) stats :
  closed σ0 → fresh σ0 → s ∈ dom σ0 →
  run_dijkstra_complete fuel σ0 (Some s) (Some t)
    = inr (Some (σ', (true, stats))) →
  DijkstraAlgorithm.stats_path_found stats = true ∧
  DijkstraAlgorithm.stats_is_complete stats = true ∧
  DijkstraAlgorithm.stats_is_running stats = false ∧
  DijkstraAlgorithm.stats_visited_count stats ≤ size (dom σ0) ∧
  ∃ chain,
    DijkstraAlgorithm.walk_previous fuel σ' (Some t) = Some chain ∧
    walk_from_to σ0 s t (reverse chain) ∧ NoDup chain ∧
    DijkstraAlgorithm.stats_path_length stats
      = (Z.of_nat (length chain) - 1)%Z ∧
    ∀ l, walk_from_to σ0 s t l → length chain ≤ length l.
Proof.
  intros Hclosed Hfresh Hs Hrun.
  apply run_dijkstra_complete_inv in Hrun as (σi & ei & e' & Hinit & Hrun & ->).
  assert (Hc : DijkstraAlgorithm.is_complete ei = false)
    by (by injection Hinit as _ <-).
  destruct (run_complete_stopped _ _ _ _ _ _ Hc Hrun)
    as (Hsteps & Hc' & Hr' & Hf').
  destruct (run_result _ _ _ _ _ _ _ _ _ Hclosed Hfresh Hs Hinit Hrun)
    as (_ & _ & _ & chain & Hwalk & Hwft & Hnd & Hlen & Hmin).
  pose proof (reach_Inv _ _ _ _ _ _ _ Hclosed Hfresh Hs Hinit Hsteps) as HI.
  unfold DijkstraAlgorithm.get_stats. simpl. rewrite Hf'.
  split; [done|]. split; [done|]. split; [done|].
  split; [by eapply visited_count_bound|].
  by exists chain.
Qed.

Lemma X2_shortest_path_witness :
  closed ready3 ∧ fresh ready3 ∧ cell 3 0 0 ∈ dom ready3 ∧
  run_dijkstra_complete 40 ready3 (Some (cell 3 0 0)) (Some (cell 3 0 2))
    = inr (Some ((outcome ready3 (cell 3 0 0) (cell 3 0 2)).1,
                 (true, (outcome ready3 (cell 3 0 0) (cell 3 0 2)).2.2))) ∧
  DijkstraAlgorithm.stats_path_length
    (outcome ready3 (cell 3 0 0) (cell 3 0 2)).2.2 = 6%Z ∧
  DijkstraAlgorithm.stats_path_found
    (outcome ready3 (cell 3 0 0) (cell 3 0 2)).2.2 = true ∧
  DijkstraAlgorithm.stats_is_complete
    (outcome ready3 (cell 3 0 0) (cell 3 0 2)).2.2 = true ∧
  DijkstraAlgorithm.stats_is_running
    (outcome ready3 (cell 3 0 0) (cell 3 0 2)).2.2 = false ∧
  DijkstraAlgorithm.stats_visited_count
    (outcome ready3 (cell 3 0 0) (cell 3 0 2)).2.2 ≤ size (dom ready3) ∧
  ∃ chain,
    DijkstraAlgorithm.walk_previous 40
      (outcome ready3 (cell 3 0 0) (cell 3 0 2)).1 (Some (cell 3 0 2))
      = Some chain ∧
    walk_from_to ready3 (cell 3 0 0) (cell 3 0 2) (reverse chain) ∧
    NoDup chain ∧
    DijkstraAlgorithm.stats_path_length
      (outcome ready3 (cell 3 0 0) (cell 3 0 2)).2.2
      = (Z.of_nat (length chain) - 1)%Z ∧
    ∀ l, walk_from_to ready3 (cell 3 0 0) (cell 3 0 2) l →
      length chain ≤ length l.
Proof.
  assert (Hclosed : closed ready3) by by_evaluation.
  assert (Hfresh : fresh ready3) by by_evaluation.
  assert (Hs : cell 3 0 0 ∈ dom ready3) by by_evaluation.
  assert (Hrun :
    run_dijkstra_complete 40 ready3 (Some (cell 3 0 0)) (Some (cell 3 0 2))
      = inr (Some ((outcome ready3 (cell 3 0 0) (cell 3 0 2)).1,
                   (true, (outcome ready3 (cell 3 0 0) (cell 3 0 2)).2.2))))
    by by_computation.
  assert (Hlen :
    DijkstraAlgorithm.stats_path_length
      (outcome ready3 (cell 3 0 0) (cell 3 0 2)).2.2 = 6%Z)
    by by_computation.
  exact (conj Hclosed (conj Hfresh (conj Hs (conj Hrun (conj Hlen
    (X2_shortest_path ready3 (cell 3 0 0) (cell 3 0 2) 40
       (outcome ready3 (cell 3 0 0) (cell 3 0 2)).1
       (outcome ready3 (cell 3 0 0) (cell 3 0 2)).2.2
       Hclosed Hfresh Hs Hrun)))))).
Defined.

(** X3.  When [run_dijkstra_complete], on a store with fresh traversal
    fields, returns [False], no walk along neighbour lists leads from
    the start node to the end node, the reported [path_length] is [0],
    and the search was exhaustive: the reported [visited_count] is the
    number of nodes that a walk from the start node reaches. *)
Theorem X3_no_path (σ0 : store) s t fuel (σ' : store) stats :
  closed σ0 → fresh σ0 → s ∈ dom σ0 →
  run_dijkstra_complete fuel σ0 (Some s) (Some t)
    = inr (Some (σ', (false, stats))) →
  DijkstraAlgorithm.stats_path_found stats = false ∧
  DijkstraAlgorithm.stats_is_complete stats = true ∧
  DijkstraAlgorithm.stats_is_running stats = false ∧
  DijkstraAlgorithm.stats_path_length stats = 0%Z ∧
  (∀ l, ¬ walk_from_to σ0 s t l) ∧
  ∃ V : gset addr,
    (∀ a, a ∈ V ↔ ∃ l, walk_from_to σ0 s a l) ∧
    DijkstraAlgorithm.stats_visited_count stats = size V.
Proof.
  intros Hclosed Hfresh Hs Hrun.
  apply run_dijkstra_complete_inv in Hrun as (σi & ei & e' & Hinit & Hrun & ->).
  assert (Hc : DijkstraAlgorithm.is_complete ei = false)
    by (by injection Hinit as _ <-).
  destruct (run_complete_stopped _ _ _ _ _ _ Hc Hrun)
    as (Hsteps & Hc' & Hr' & Hf').
  destruct (run_result _ _ _ _ _ _ _ _ _ Hclosed Hfresh Hs Hinit Hrun)
    as (_ & _ & _ & Hlen & Hno & Hall).
  pose proof (reach_Inv _ _ _ _ _ _ _ Hclosed Hfresh Hs Hinit Hsteps)
    as [HC _].
  unfold DijkstraAlgorithm.get_stats. simpl. rewrite Hf'.
  split; [done|]. split; [done|]. split; [done|]. split; [done|].
  split; [exact Hno|].
  exists (DijkstraAlgorithm.visited_nodes e'). split; [|apply (core_count HC)].
  intros a. split.
  - intros Ha.
    destruct (visited_reachable _ _ _ _ _ _ _ _ Hclosed Hfresh Hs Hinit
                Hsteps Ha) as (k & chain & _ & _ & _ & Hw & _).
    by exists (reverse chain).
  - intros (l & Hw & Hh & Hl). apply (Hall l a Hw Hh).
    rewrite last_lookup in Hl. by eapply list_elem_of_lookup_2.
Qed.

Lemma X3_no_path_witness :
  closed sealed3 ∧ fresh sealed3 ∧ cell 3 0 0 ∈ dom sealed3 ∧
  run_dijkstra_complete 40 sealed3 (Some (cell 3 0 0)) (Some (cell 3 2 2))
    = inr (Some ((outcome sealed3 (cell 3 0 0) (cell 3 2 2)).1,
                 (false, (outcome sealed3 (cell 3 0 0) (cell 3 2 2)).2.2))) ∧
  DijkstraAlgorithm.stats_visited_count
    (outcome sealed3 (cell 3 0 0) (cell 3 2 2)).2.2 = 1 ∧
  DijkstraAlgorithm.stats_path_found
    (outcome sealed3 (cell 3 0 0) (cell 3 2 2)).2.2 = false ∧
  DijkstraAlgorithm.stats_is_complete
    (outcome sealed3 (cell 3 0 0) (cell 3 2 2)).2.2 = true ∧
  DijkstraAlgorithm.stats_is_running
    (outcome sealed3 (cell 3 0 0) (cell 3 2 2)).2.2 = false ∧
  DijkstraAlgorithm.stats_path_length
    (outcome sealed3 (cell 3 0 0) (cell 3 2 2)).2.2 = 0%Z ∧
  (∀ l, ¬ walk_from_to sealed3 (cell 3 0 0) (cell 3 2 2) l) ∧
  ∃ V : gset addr,
    (∀ a, a ∈ V ↔ ∃ l, walk_from_to sealed3 (cell 3 0 0) a l) ∧
    DijkstraAlgorithm.stats_visited_count
      (outcome sealed3 (cell 3 0 0) (cell 3 2 2)).2.2 = size V.
Proof.
  assert (Hclosed : closed sealed3) by by_evaluation.
  assert (Hfresh : fresh sealed3) by by_evaluation.
  assert (Hs : cell 3 0 0 ∈ dom sealed3) by by_evaluation.
  assert (Hrun :
    run_dijkstra_complete 40 sealed3 (Some (cell 3 0 0)) (Some (cell 3 2 2))
      = inr (Some ((outcome sealed3 (cell 3 0 0) (cell 3 2 2)).1,
                   (false, (outcome sealed3 (cell 3 0 0) (cell 3 2 2)).2.2))))
    by by_computation.
  assert (Hcount :
    DijkstraAlgorithm.stats_visited_count
      (outcome sealed3 (cell 3 0 0) (cell 3 2 2)).2.2 = 1)
    by by_computation.
  exact (conj Hclosed (conj Hfresh (conj Hs (conj Hrun (conj Hcount
    (X3_no_path sealed3 (cell 3 0 0) (cell 3 2 2) 40
       (outcome sealed3 (cell 3 0 0) (cell 3 2 2)).1
       (outcome sealed3 (cell 3 0 0) (cell 3 2 2)).2.2
       Hclosed Hfresh Hs Hrun)))))).
Defined.

(** ** Invariants of a run *)

(** X4.  In every state that calls of [step] reach from a freshly
    constructed engine, each visited node holds its number of edges from
    the start node: its distance is a finite [k], the chain of its
    [previous] links, reversed, is a walk of [k] edges from the start
    node to it, and no walk from the start node reaches it in fewer
    edges.  Nodes are visited in the order of their distances: the node
    that a call returns is at least as far as every node visited
    before. *)
Theorem X4_visited_distances (σ0 : store) s t σi ei (σ : store) e :
  closed σ0 → fresh σ0 → s ∈ dom σ0 →
  DijkstraAlgorithm.init σ0 (Some s) t = inr (σi, ei) →
  steps σi ei σ e →
  (∀ v, v ∈ DijkstraAlgorithm.visited_nodes e →
     ∃ k chain,
       Node.distance (deref σ v) = Fin k ∧
       DijkstraAlgorithm.walk_previous (S k) σ (Some v) = Some chain ∧
       length chain = S k ∧
       walk_from_to σ0 s v (reverse chain) ∧
       ∀ l, walk_from_to σ0 s v l → S k ≤ length l) ∧
  (∀ fuel (σ' : store) e' c n v,
     DijkstraAlgorithm.step fuel σ e = Some (σ', e', (c, Some n)) →
     v ∈ DijkstraAlgorithm.visited_nodes e →
     dist_le (Node.distance (deref σ' v)) (Node.distance (deref σ' n))).
Proof.
  intros Hclosed Hfresh Hs Hinit Hsteps. split.
  - intros v Hv. by eapply visited_reachable.
  - intros fuel σ' e' c n v Hstep Hv.
    pose proof (reach_Inv _ _ _ _ _ _ _ Hclosed Hfresh Hs Hinit Hsteps) as HI.
    destruct (step_visited_frame _ _ _ _ _ _ _ Hstep Hv) as [_ ->].
    destruct (step_node_distance _ _ _ _ _ _ _ Hstep) as (_ & _ & -> & _).
    by eapply visit_order.
Qed.

Lemma X4_visited_distances_witness :
  closed store3 ∧ fresh store3 ∧ cell 3 0 0 ∈ dom store3 ∧
  DijkstraAlgorithm.init store3 (Some (cell 3 0 0)) (Some (cell 3 2 2))
    = inr ((run3 0).1, (run3 0).2) ∧
  steps (run3 0).1 (run3 0).2 (run3 5).1 (run3 5).2 ∧
  cell 3 1 1 ∈ DijkstraAlgorithm.visited_nodes (run3 5).2 ∧
  Node.distance (deref (run3 5).1 (cell 3 1 1)) = Fin 2 ∧
  (∀ v, v ∈ DijkstraAlgorithm.visited_nodes (run3 5).2 →
     ∃ k chain,
       Node.distance (deref (run3 5).1 v) = Fin k ∧
       DijkstraAlgorithm.walk_previous (S k) (run3 5).1 (Some v)
         = Some chain ∧
       length chain = S k ∧
       walk_from_to store3 (cell 3 0 0) v (reverse chain) ∧
       ∀ l, walk_from_to store3 (cell 3 0 0) v l → S k ≤ length l) ∧
  (∀ fuel (σ' : store) e' c n v,
     DijkstraAlgorithm.step fuel (run3 5).1 (run3 5).2
       = Some (σ', e', (c, Some n)) →
     v ∈ DijkstraAlgorithm.visited_nodes (run3 5).2 →
     dist_le (Node.distance (deref σ' v)) (Node.distance (deref σ' n))).
Proof.
  assert (Hclosed : closed store3) by by_evaluation.
  assert (Hfresh : fresh store3) by by_evaluation.
  assert (Hs : cell 3 0 0 ∈ dom store3) by by_evaluation.
  assert (Hinit :
    DijkstraAlgorithm.init store3 (Some (cell 3 0 0)) (Some (cell 3 2 2))
      = inr ((run3 0).1, (run3 0).2)) by by_computation.
  assert (Hsteps : steps (run3 0).1 (run3 0).2 (run3 5).1 (run3 5).2).
  { apply (steps_step_n 40 5). by_computation. }
  assert (Hv : cell 3 1 1 ∈ DijkstraAlgorithm.visited_nodes (run3 5).2)
    by by_evaluation.
  assert (Hd : Node.distance (deref (run3 5).1 (cell 3 1 1)) = Fin 2)
    by by_computation.
  exact (conj Hclosed (conj Hfresh (conj Hs (conj Hinit (conj Hsteps
    (conj Hv (conj Hd
    (X4_visited_distances store3 (cell 3 0 0) (Some (cell 3 2 2))
       (run3 0).1 (run3 0).2 (run3 5).1 (run3 5).2
       Hclosed Hfresh Hs Hinit Hsteps)))))))).
Defined.

(** X5.  In every state that calls of [step] reach from a freshly
    constructed engine, the priority queue is a heap on the recorded
    distances; every tuple in it holds a node of the store and a finite
    distance that is not below the node's current distance; while the
    engine is not complete, every node that has a finite distance and is
    not visited is queued with that distance; and [heappop] on it takes
    out one tuple whose recorded distance is the least in the queue and
    leaves a heap. *)
Theorem X5_priority_queue (σ0 : store) s t σi ei (σ : store) e :
  closed σ0 → fresh σ0 → s ∈ dom σ0 →
  DijkstraAlgorithm.init σ0 (Some s) t = inr (σi, ei) →
  steps σi ei σ e →
  heap_ok (DijkstraAlgorithm.priority_queue e) ∧
  (∀ d a, (d, a) ∈ DijkstraAlgorithm.priority_queue e →
     a ∈ dom σ0 ∧
     ∃ k, d = Fin k ∧ dist_le (Node.distance (deref σ a)) d) ∧
  (DijkstraAlgorithm.is_complete e = false →
   ∀ a k, a ∉ DijkstraAlgorithm.visited_nodes e →
     Node.distance (deref σ a) = Fin k →
     (Fin k, a) ∈ DijkstraAlgorithm.priority_queue e) ∧
  (∀ d n q,
     heapq.heappop σ (DijkstraAlgorithm.priority_queue e)
       = Some ((d, n), q) →
     DijkstraAlgorithm.priority_queue e ≡ₚ (d, n) :: q ∧ heap_ok q ∧
     ∀ y, y ∈ DijkstraAlgorithm.priority_queue e → dist_le d y.1).
Proof.
  intros Hclosed Hfresh Hs Hinit Hsteps.
  pose proof (reach_Inv _ _ _ _ _ _ _ Hclosed Hfresh Hs Hinit Hsteps)
    as [HC HR].
  split; [exact (core_heap HC)|]. split.
  { intros d a Hin. destruct (core_queue HC d a Hin) as [Ha Hk].
    split; [|done]. by rewrite <- (core_dom HC). }
  split.
  { intros Hc. exact (run_queued (HR Hc)). }
  intros d n q Hpop.
  exact (heappop_spec σ _ (d, n) q (core_heap HC) Hpop).
Qed.

Lemma X5_priority_queue_witness :
  closed store3 ∧ fresh store3 ∧ cell 3 0 0 ∈ dom store3 ∧
  DijkstraAlgorithm.init store3 (Some (cell 3 0 0)) (Some (cell 3 2 2))
    = inr ((run3 0).1, (run3 0).2) ∧
  steps (run3 0).1 (run3 0).2 (run3 3).1 (run3 3).2 ∧
  length (DijkstraAlgorithm.priority_queue (run3 3).2) = 3 ∧
  heap_ok (DijkstraAlgorithm.priority_queue (run3 3).2) ∧
  (∀ d a, (d, a) ∈ DijkstraAlgorithm.priority_queue (run3 3).2 →
     a ∈ dom store3 ∧
     ∃ k, d = Fin k ∧ dist_le (Node.distance (deref (run3 3).1 a)) d) ∧
  (DijkstraAlgorithm.is_complete (run3 3).2 = false →
   ∀ a k, a ∉ DijkstraAlgorithm.visited_nodes (run3 3).2 →
     Node.distance (deref (run3 3).1 a) = Fin k →
     (Fin k, a) ∈ DijkstraAlgorithm.priority_queue (run3 3).2) ∧
  (∀ d n q,
     heapq.heappop (run3 3).1 (DijkstraAlgorithm.priority_queue (run3 3).2)
       = Some ((d, n), q) →
     DijkstraAlgorithm.priority_queue (run3 3).2 ≡ₚ (d, n) :: q ∧
     heap_ok q ∧
     ∀ y, y ∈ DijkstraAlgorithm.priority_queue (run3 3).2 →
       dist_le d y.1).
Proof.
  assert (Hclosed : closed store3) by by_evaluation.
  assert (Hfresh : fresh store3) by by_evaluation.
  assert (Hs : cell 3 0 0 ∈ dom store3) by by_evaluation.
  assert (Hinit :
    DijkstraAlgorithm.init store3 (Some (cell 3 0 0)) (Some (cell 3 2 2))
      = inr ((run3 0).1, (run3 0).2)) by by_computation.
  assert (Hsteps : steps (run3 0).1 (run3 0).2 (run3 3).1 (run3 3).2).
  { apply (steps_step_n 40 3). by_computation. }
  assert (Hlen : length (DijkstraAlgorithm.priority_queue (run3 3).2) = 3)
    by by_computation.
  exact (conj Hclosed (conj Hfresh (conj Hs (conj Hinit (conj Hsteps
    (conj Hlen
    (X5_priority_queue store3 (cell 3 0 0) (Some (cell 3 2 2))
       (run3 0).1 (run3 0).2 (run3 3).1 (run3 3).2
       Hclosed Hfresh Hs Hinit Hsteps))))))).
Defined.

(** X6.  Take a store with fresh traversal fields in which no node is
    shown as explored or on a path, no neighbour list holds a barrier,
    the start node is no barrier, and the states [START] and [END] mark
    at most the engine's own endpoints.  In every state that calls of
    [step] reach from an engine constructed on it, the engine has
    written no coordinate and no neighbour list and has changed states
    only from [EMPTY] to [VISITED] or [PATH]; a barrier is exactly as it
    was and is never visited; a node that was [EMPTY] is visited exactly
    when it is shown as [VISITED] or [PATH]; the endpoints keep their
    states; and [Node.reset_algorithm_data] gives every node back as it
    was before the run. *)
Theorem X6_display (σ0 : store) s t σi ei (σ : store) e :
  closed σ0 → fresh σ0 → s ∈ dom σ0 → Tidy σ0 s t →
  DijkstraAlgorithm.init σ0 (Some s) t = inr (σi, ei) →
  steps σi ei σ e →
  recoloured σ0 σ ∧
  (∀ a, Node.neighbors (deref σ a) = Node.neighbors (deref σ0 a)) ∧
  (∀ a, Node.state (deref σ0 a) = BARRIER →
     deref σ a = deref σ0 a ∧ a ∉ DijkstraAlgorithm.visited_nodes e) ∧
  (∀ a, Node.state (deref σ0 a) = EMPTY →
     a ∈ DijkstraAlgorithm.visited_nodes e ↔
     Node.state (deref σ a) = VISITED ∨ Node.state (deref σ a) = PATH) ∧
  (∀ a, Node.state (deref σ0 a) = START ∨ Node.state (deref σ0 a) = END →
     Node.state (deref σ a) = Node.state (deref σ0 a)) ∧
  (∀ a, Node.reset_algorithm_data (deref σ a) = deref σ0 a).
Proof.
  intros Hclosed Hfresh Hs HT Hinit Hsteps.
  destruct (session_steps _ _ _ _ _ _ _ Hclosed Hfresh Hs HT Hinit Hsteps)
    as ([HC _] & HP & Hrec & Hvis & [H4 H5]).
  split; [done|]. split; [exact (core_nbrs HC)|]. split.
  { intros a Ha. split; [by eapply barrier_untouched|].
    intros Hv. by apply (Hvis a Hv). }
  split.
  { intros a Ha. split; [|apply H5].
    intros Hv. destruct (Hrec a) as [_ [Hst|[_ Hst]]]; [|done].
    destruct (H4 a Hv). congruence. }
  split.
  { intros a Ha. destruct (Hrec a) as [_ [Hst|[H0 _]]]; [done|].
    destruct Ha; congruence. }
  intros a. by eapply reset_restores.
Qed.

Lemma X6_display_witness :
  closed ready3 ∧ fresh ready3 ∧ cell 3 0 0 ∈ dom ready3 ∧
  Tidy ready3 (cell 3 0 0) (Some (cell 3 0 2)) ∧
  DijkstraAlgorithm.init ready3 (Some (cell 3 0 0)) (Some (cell 3 0 2))
    = inr ((tour3 0).1, (tour3 0).2) ∧
  steps (tour3 0).1 (tour3 0).2 (tour3 7).1 (tour3 7).2 ∧
  Node.state (deref (tour3 7).1 (cell 3 2 2)) = PATH ∧
  recoloured ready3 (tour3 7).1 ∧
  (∀ a, Node.neighbors (deref (tour3 7).1 a)
        = Node.neighbors (deref ready3 a)) ∧
  (∀ a, Node.state (deref ready3 a) = BARRIER →
     deref (tour3 7).1 a = deref ready3 a ∧
     a ∉ DijkstraAlgorithm.visited_nodes (tour3 7).2) ∧
  (∀ a, Node.state (deref ready3 a) = EMPTY →
     a ∈ DijkstraAlgorithm.visited_nodes (tour3 7).2 ↔
     Node.state (deref (tour3 7).1 a) = VISITED ∨
     Node.state (deref (tour3 7).1 a) = PATH) ∧
  (∀ a, Node.state (deref ready3 a) = START ∨
        Node.state (deref ready3 a) = END →
     Node.state (deref (tour3 7).1 a) = Node.state (deref ready3 a)) ∧
  (∀ a, Node.reset_algorithm_data (deref (tour3 7).1 a) = deref ready3 a).
Proof.
  assert (Hclosed : closed ready3) by by_evaluation.
  assert (Hfresh : fresh ready3) by by_evaluation.
  assert (Hs : cell 3 0 0 ∈ dom ready3) by by_evaluation.
  assert (HT : Tidy ready3 (cell 3 0 0) (Some (cell 3 0 2))) by by_evaluation.
  assert (Hinit :
    DijkstraAlgorithm.init ready3 (Some (cell 3 0 0)) (Some (cell 3 0 2))
      = inr ((tour3 0).1, (tour3 0).2)) by by_computation.
  assert (Hsteps : steps (tour3 0).1 (tour3 0).2 (tour3 7).1 (tour3 7).2).
  { apply (steps_step_n 40 7). by_computation. }
  assert (Hpath : Node.state (deref (tour3 7).1 (cell 3 2 2)) = PATH)
    by by_computation.
  exact (conj Hclosed (conj Hfresh (conj Hs (conj HT (conj Hinit
    (conj Hsteps (conj Hpath
    (X6_display ready3 (cell 3 0 0) (Some (cell 3 0 2))
       (tour3 0).1 (tour3 0).2 (tour3 7).1 (tour3 7).2
       Hclosed Hfresh Hs HT Hinit Hsteps)))))))).
Defined.

(** ** Runs that the visualizer starts *)

(** X7.  What [DijkstraVisualizer.start_algorithm] sets up works on every
    grid that is ready, however it was edited: both endpoints are set and
    differ, [reset_algorithm_data(); update_neighbors()] raises nothing,
    and the generator [run_dijkstra_step_by_step] on the two endpoints,
    driven to its end, stops; its last yield says [False] and carries the
    statistics of a complete, stopped engine.  That engine has found a
    path exactly when the grid has a route from the start cell to the end
    cell, that is a sequence of cells that are no barriers, each sharing
    a side with the one before: if it has, [path_length] is the number
    of steps of a shortest route; if it has not, no route exists. *)
Theorem X7_start_algorithm rows width (σ0 : store) g0 ops (σ : store) g :
  (0 < rows)%Z →
  Grid.init rows width = inr (σ0, g0) →
  apply_ops (σ0, g0) ops = (σ, g) →
  Grid.is_ready_for_pathfinding g = true →
  ∃ (σp : store) s t,
    Grid.start_node g = Some s ∧ Grid.end_node g = Some t ∧ s ≠ t ∧
    prepare σ g = inr σp ∧
    ∀ fuel, enough_fuel σp ≤ fuel →
      ∃ (σ' : store) e' ys x,
        run_dijkstra_step_by_step fuel σp (Some s) (Some t) =
          inr (Some (σ', e',
                     ys ++ [(false, x, DijkstraAlgorithm.get_stats e')])) ∧
        DijkstraAlgorithm.is_complete e' = true ∧
        DijkstraAlgorithm.is_running e' = false ∧
        if DijkstraAlgorithm.path_found e' then
          ∃ l, route (Z.to_nat rows) σ l ∧
               head l = Some s ∧ last l = Some t ∧
               DijkstraAlgorithm.path_length e'
                 = (Z.of_nat (length l) - 1)%Z ∧
               ∀ l', route (Z.to_nat rows) σ l' →
                 head l' = Some s → last l' = Some t →
                 length l ≤ length l'
        else
          ∀ l, route (Z.to_nat rows) σ l →
            head l = Some s → last l = Some t → False.
Proof.
  intros Hrows Hinit Hops Hready.
  pose proof (apply_ops_GShape _ _ _ _ _ _ _ Hrows Hinit Hops) as HS.
  assert (HG : GInv σ g).
  { pose proof (apply_ops_GInv ops (σ0, g0) (Grid_init_GInv _ _ _ _ Hinit))
      as HG.
    by rewrite Hops in HG. }
  set (n := Z.to_nat rows) in *.
  destruct (GInv_ready σ g HG Hready) as (s & t & Hs & Ht & Hne).
  destruct (prepare_spec n σ g HS) as (σp & Hprep & Hσp).
  destruct (prepare_ready n σ g σp s HS HG Hσp Hs)
    as (Hclosed & Hfresh & Hsdom & _).
  assert (Hslt : s < n * n).
  { apply (GShape_dom n σ g s HS), (ginv_cells HG), (ginv_start_cell HG), Hs. }
  assert (Hsopen : Node.state (deref σ s) ≠ BARRIER).
  { apply (ginv_start HG) in Hs. congruence. }
  exists σp, s, t. repeat (split; [done|]).
  intros fuel Hfuel.
  destruct (step_by_step_result σp s (Some t) fuel Hclosed Hfresh Hsdom Hfuel)
    as (σi & ei & σ' & e' & ys & x & Hinit' & Hgen & Hrun & _).
  assert (Hc : DijkstraAlgorithm.is_complete ei = false)
    by (by injection Hinit' as _ <-).
  destruct (run_complete_stopped _ _ _ _ _ _ Hc Hrun)
    as (Hsteps & Hc' & Hr' & _).
  exists σ', e', ys, x. repeat (split; [done|]).
  pose proof (run_result _ _ _ _ _ _ _ _ _ Hclosed Hfresh Hsdom Hinit' Hrun)
    as (_ & _ & _ & Hres).
  destruct (DijkstraAlgorithm.path_found e').
  - destruct Hres as (chain & _ & (Hw & Hh & Hl) & _ & Hlen & Hmin).
    exists (reverse chain). split.
    { by apply (walk_route n σ g σp s (reverse chain) HS Hσp Hslt Hsopen Hh). }
    split; [done|]. split; [done|]. split; [by rewrite length_reverse|].
    intros l' Hroute Hh' Hl'. rewrite length_reverse. apply Hmin.
    split; [|done].
    by apply (walk_route n σ g σp s l' HS Hσp Hslt Hsopen Hh').
  - destruct Hres as (_ & Hno & _). intros l Hroute Hh Hl.
    apply (Hno l). split; [|done].
    by apply (walk_route n σ g σp s l HS Hσp Hslt Hsopen Hh).
Qed.

Lemma X7_start_algorithm_witness :
  (0 < 3)%Z ∧
  Grid.init 3 600 = inr (grid3.1, grid3.2) ∧
  apply_ops (grid3.1, grid3.2) walls3 = (maze3.1, maze3.2) ∧
  Grid.is_ready_for_pathfinding maze3.2 = true ∧
  ∃ (σp : store) s t,
    Grid.start_node maze3.2 = Some s ∧ Grid.end_node maze3.2 = Some t ∧
    s ≠ t ∧
    prepare maze3.1 maze3.2 = inr σp ∧
    ∀ fuel, enough_fuel σp ≤ fuel →
      ∃ (σ' : store) e' ys x,
        run_dijkstra_step_by_step fuel σp (Some s) (Some t) =
          inr (Some (σ', e',
                     ys ++ [(false, x, DijkstraAlgorithm.get_stats e')])) ∧
        DijkstraAlgorithm.is_complete e' = true ∧
        DijkstraAlgorithm.is_running e' = false ∧
        if DijkstraAlgorithm.path_found e' then
          ∃ l, route (Z.to_nat 3) maze3.1 l ∧
               head l = Some s ∧ last l = Some t ∧
               DijkstraAlgorithm.path_length e'
                 = (Z.of_nat (length l) - 1)%Z ∧
               ∀ l', route (Z.to_nat 3) maze3.1 l' →
                 head l' = Some s → last l' = Some t →
                 length l ≤ length l'
        else
          ∀ l, route (Z.to_nat 3) maze3.1 l →
            head l = Some s → last l = Some t → False.
Proof.
  assert (H3 : (0 < 3)%Z) by lia.
  assert (Hinit : Grid.init 3 600 = inr (grid3.1, grid3.2))
    by by_computation.
  assert (Hops : apply_ops (grid3.1, grid3.2) walls3 = (maze3.1, maze3.2))
    by by_computation.
  assert (Hready : Grid.is_ready_for_pathfinding maze3.2 = true)
    by by_computation.
  exact (conj H3 (conj Hinit (conj Hops (conj Hready
    (X7_start_algorithm 3 600 grid3.1 grid3.2 walls3 maze3.1 maze3.2
       H3 Hinit Hops Hready))))).
Defined.

(** X8.  After a run on a prepared grid, starting again starts from the
    same store: on a grid edited in any way and prepared by
    [reset_algorithm_data(); update_neighbors()], in every state that
    calls of [step] reach from the engine constructed on its endpoints,
    [Grid.reset_algorithm_data] gives back the prepared store, node for
    node, and preparing again gives that store too.  Through the run the
    cell in state [START] stays the grid's [start_node], the cell in
    state [END] its [end_node], and the barriers are the cells that were
    barriers before. *)
Theorem X8_run_again rows width (σ0 : store) g0 ops (σ : store) g
    (σp σi : store) ei (σ' : store) e' :
  (0 < rows)%Z →
  Grid.init rows width = inr (σ0, g0) →
  apply_ops (σ0, g0) ops = (σ, g) →
  prepare σ g = inr σp →
  DijkstraAlgorithm.init σp (Grid.start_node g) (Grid.end_node g)
    = inr (σi, ei) →
  steps σi ei σ' e' →
  Grid.reset_algorithm_data σ' g = σp ∧
  prepare σ' g = inr σp ∧
  (∀ a, Node.state (deref σ' a) = START ↔ Grid.start_node g = Some a) ∧
  (∀ a, Node.state (deref σ' a) = END ↔ Grid.end_node g = Some a) ∧
  (∀ a, Node.state (deref σ' a) = BARRIER ↔
        Node.state (deref σ a) = BARRIER).
Proof.
  intros Hrows Hinit Hops Hprep Hinit' Hsteps.
  pose proof (apply_ops_GShape _ _ _ _ _ _ _ Hrows Hinit Hops) as HS.
  assert (HG : GInv σ g).
  { pose proof (apply_ops_GInv ops (σ0, g0) (Grid_init_GInv _ _ _ _ Hinit))
      as HG.
    by rewrite Hops in HG. }
  set (n := Z.to_nat rows) in *.
  destruct (Grid.start_node g) as [s|] eqn:Hs; [|done].
  destruct (prepare_spec n σ g HS) as (σp' & Hprep' & Hσp).
  assert (σp' = σp) as -> by congruence. clear Hprep'.
  destruct (prepare_ready n σ g σp s HS HG Hσp Hs)
    as (Hclosed & Hfresh & Hsdom & HT & HSp & HGp).
  destruct (prepare_deref n σ g σp HS Hσp) as [Hdom Hd].
  destruct (session_steps _ _ _ _ _ _ _ Hclosed Hfresh Hsdom HT Hinit' Hsteps)
    as ([HC _] & HP & Hrec & _ & _).
  assert (Hreset : Grid.reset_algorithm_data σ' g = σp).
  { assert (HS' : GShape n σ' g).
    { apply (GShape_same n σp σ' g g HSp); [|apply same_grid_refl].
      split; [exact (core_dom HC)|]. intros a. by destruct (Hrec a). }
    apply map_eq. intros a.
    rewrite (lookup_reset_algorithm_data_GShape n σ' g a HS').
    destruct (decide (a ∈ dom σp)) as [Ha|Ha].
    - rewrite (lookup_deref σp a Ha).
      rewrite (lookup_deref σ' a) by (by rewrite (core_dom HC)).
      simpl. f_equal. by eapply reset_restores.
    - rewrite (proj1 (not_elem_of_dom σp a) Ha).
      rewrite <- (core_dom HC) in Ha.
      by rewrite (proj1 (not_elem_of_dom σ' a) Ha). }
  split; [done|]. split.
  { unfold prepare. rewrite Hreset.
    by apply (update_neighbors_prepared n σ g σp). }
  assert (Hkeep : ∀ a st, st ≠ EMPTY → st ≠ VISITED → st ≠ PATH →
            Node.state (deref σ' a) = st ↔ Node.state (deref σp a) = st).
  { intros a st H1 H2 H3. destruct (Hrec a) as [_ [->|[H0 Hst]]]; [done|].
    split; intros H; [|congruence]. destruct Hst; congruence. }
  split.
  { intros a. rewrite (Hkeep a START) by done.
    rewrite (ginv_start HGp a). by rewrite Hs. }
  split.
  { intros a. rewrite (Hkeep a END) by done. apply (ginv_end HGp). }
  intros a. rewrite (Hkeep a BARRIER) by done.
  destruct (Hd a) as (_ & -> & _).
  destruct (state_reset_cases (deref σ a)) as [(-> & _)|(-> & Hv)]; [done|].
  split; [done|]. intros H. destruct Hv; congruence.
Qed.

Lemma X8_run_again_witness :
  (0 < 3)%Z ∧
  Grid.init 3 600 = inr (grid3.1, grid3.2) ∧
  apply_ops (grid3.1, grid3.2) walls3 = (maze3.1, maze3.2) ∧
  prepare maze3.1 maze3.2 = inr ready3 ∧
  DijkstraAlgorithm.init ready3 (Grid.start_node maze3.2)
    (Grid.end_node maze3.2) = inr ((tour3 0).1, (tour3 0).2) ∧
  steps (tour3 0).1 (tour3 0).2 (tour3 7).1 (tour3 7).2 ∧
  DijkstraAlgorithm.is_complete (tour3 7).2 = true ∧
  Grid.reset_algorithm_data (tour3 7).1 maze3.2 = ready3 ∧
  prepare (tour3 7).1 maze3.2 = inr ready3 ∧
  (∀ a, Node.state (deref (tour3 7).1 a) = START ↔
        Grid.start_node maze3.2 = Some a) ∧
  (∀ a, Node.state (deref (tour3 7).1 a) = END ↔
        Grid.end_node maze3.2 = Some a) ∧
  (∀ a, Node.state (deref (tour3 7).1 a) = BARRIER ↔
        Node.state (deref maze3.1 a) = BARRIER).
Proof.
  assert (H3 : (0 < 3)%Z) by lia.
  assert (Hinit : Grid.init 3 600 = inr (grid3.1, grid3.2))
    by by_computation.
  assert (Hops : apply_ops (grid3.1, grid3.2) walls3 = (maze3.1, maze3.2))
    by by_computation.
  assert (Hprep : prepare maze3.1 maze3.2 = inr ready3) by by_computation.
  assert (Hinit' :
    DijkstraAlgorithm.init ready3 (Grid.start_node maze3.2)
      (Grid.end_node maze3.2) = inr ((tour3 0).1, (tour3 0).2))
    by by_computation.
  assert (Hsteps : steps (tour3 0).1 (tour3 0).2 (tour3 7).1 (tour3 7).2).
  { apply (steps_step_n 40 7). by_computation. }
  assert (Hdone : DijkstraAlgorithm.is_complete (tour3 7).2 = true)
    by by_computation.
  exact (conj H3 (conj Hinit (conj Hops (conj Hprep (conj Hinit'
    (conj Hsteps (conj Hdone
    (X8_run_again 3 600 grid3.1 grid3.2 walls3 maze3.1 maze3.2
       ready3 (tour3 0).1 (tour3 0).2 (tour3 7).1 (tour3 7).2
       H3 Hinit Hops Hprep Hinit' Hsteps)))))))).
Defined.

(** ** Clicks *)

(** X9.  On a grid at least as wide in pixels as it has rows, edited in
    any way, [get_clicked_pos] divides both coordinates of the pixel by
    the cell size [width // rows] and raises nothing, and [get_node] on
    the result gives the node drawn under the pixel: its [row] and [col]
    are the clicked position and the pixel lies in its square
    [x <= pos[0] < x + width], [y <= pos[1] < y + width].  [get_node]
    gives [None] only for a pixel outside the square of side
    [rows * (width // rows)] that the cells cover. *)
Theorem X9_clicked_node rows width (σ0 : store) g0 ops (σ : store) g
    (px py : Z) :
  (0 < rows ≤ width)%Z →
  Grid.init rows width = inr (σ0, g0) →
  apply_ops (σ0, g0) ops = (σ, g) →
  Grid.get_clicked_pos g (px, py)
    = inr ((px / (width / rows))%Z, (py / (width / rows))%Z) ∧
  match Grid.get_node g (px / (width / rows)) (py / (width / rows)) with
  | Some a =>
      a ∈ dom σ ∧
      Node.get_pos (deref σ a)
        = ((px / (width / rows))%Z, (py / (width / rows))%Z) ∧
      (Node.x (deref σ a) ≤ px
       < Node.x (deref σ a) + Node.width (deref σ a))%Z ∧
      (Node.y (deref σ a) ≤ py
       < Node.y (deref σ a) + Node.width (deref σ a))%Z
  | None =>
      ¬ ((0 ≤ px < rows * (width / rows))%Z ∧
         (0 ≤ py < rows * (width / rows))%Z)
  end.
Proof.
  intros Hrows Hinit Hops.
  destruct (apply_ops_shape _ _ _ _ _ _ _ (proj1 Hrows) Hinit Hops)
    as [HS Hgap].
  assert (Hpos : (0 < Grid.gap g)%Z).
  { rewrite Hgap. apply Z.div_str_pos. lia. }
  pose proof (click_node _ σ g px py HS Hpos) as Hclick.
  rewrite Hgap in Hclick. by rewrite Z2Nat.id in Hclick by lia.
Qed.

Lemma X9_clicked_node_witness :
  (0 < 3 ≤ 10)%Z ∧
  Grid.init 3 10 = inr (narrow3.1, narrow3.2) ∧
  apply_ops (narrow3.1, narrow3.2) walls3
    = ((apply_ops narrow3 walls3).1, (apply_ops narrow3 walls3).2) ∧
  Grid.get_node (apply_ops narrow3 walls3).2 (4 / (10 / 3)) (7 / (10 / 3))
    = Some (cell 3 1 2) ∧
  Grid.get_node (apply_ops narrow3 walls3).2 (9 / (10 / 3)) (7 / (10 / 3))
    = None ∧
  Grid.get_clicked_pos (apply_ops narrow3 walls3).2 (4, 7)%Z
    = inr ((4 / (10 / 3))%Z, (7 / (10 / 3))%Z) ∧
  match Grid.get_node (apply_ops narrow3 walls3).2
          (4 / (10 / 3)) (7 / (10 / 3)) with
  | Some a =>
      a ∈ dom (apply_ops narrow3 walls3).1 ∧
      Node.get_pos (deref (apply_ops narrow3 walls3).1 a)
        = ((4 / (10 / 3))%Z, (7 / (10 / 3))%Z) ∧
      (Node.x (deref (apply_ops narrow3 walls3).1 a) ≤ 4
       < Node.x (deref (apply_ops narrow3 walls3).1 a)
         + Node.width (deref (apply_ops narrow3 walls3).1 a))%Z ∧
      (Node.y (deref (apply_ops narrow3 walls3).1 a) ≤ 7
       < Node.y (deref (apply_ops narrow3 walls3).1 a)
         + Node.width (deref (apply_ops narrow3 walls3).1 a))%Z
  | None =>
      ¬ ((0 ≤ 4 < 3 * (10 / 3))%Z ∧ (0 ≤ 7 < 3 * (10 / 3))%Z)
  end.
Proof.
  assert (H3 : (0 < 3 ≤ 10)%Z) by lia.
  assert (Hinit : Grid.init 3 10 = inr (narrow3.1, narrow3.2))
    by by_computation.
  assert (Hops :
    apply_ops (narrow3.1, narrow3.2) walls3
      = ((apply_ops narrow3 walls3).1, (apply_ops narrow3 walls3).2))
    by by_computation.
  assert (Hin :
    Grid.get_node (apply_ops narrow3 walls3).2 (4 / (10 / 3)) (7 / (10 / 3))
      = Some (cell 3 1 2)) by by_computation.
  assert (Hout :
    Grid.get_node (apply_ops narrow3 walls3).2 (9 / (10 / 3)) (7 / (10 / 3))
      = None) by by_computation.
  exact (conj H3 (conj Hinit (conj Hops (conj Hin (conj Hout
    (X9_clicked_node 3 10 narrow3.1 narrow3.2 walls3
       (apply_ops narrow3 walls3).1 (apply_ops narrow3 walls3).2 4 7
       H3 Hinit Hops)))))).
Defined.

(** X10.  For a positive number of rows [Grid.__init__] raises nothing,
    whatever the pixel width.  When the width is at least [0] and below
    the number of rows, the cell size [width // rows] is [0], and on the
    grid, edited in any way, every call of [get_clicked_pos] raises
    [ZeroDivisionError]; for every other width the cell size is not [0]
    (it is negative for a negative width) and [get_clicked_pos] raises
    nothing. *)
Theorem X10_zero_gap rows width :
  (0 < rows)%Z →
  ∃ (σ0 : store) g0,
    Grid.init rows width = inr (σ0, g0) ∧
    ∀ ops (σ : store) g (pos : Z * Z),
      apply_ops (σ0, g0) ops = (σ, g) →
      Grid.gap g = (width / rows)%Z ∧
      ((0 ≤ width < rows)%Z →
       Grid.gap g = 0%Z ∧
       Grid.get_clicked_pos g pos = inl ZeroDivisionError) ∧
      (¬ (0 ≤ width < rows)%Z →
       Grid.gap g ≠ 0%Z ∧
       Grid.get_clicked_pos g pos
         = inr ((pos.1 / (width / rows))%Z, (pos.2 / (width / rows))%Z)).
Proof.
  intros Hrows.
  destruct (Grid.init rows width) as [err|[σ0 g0]] eqn:Hinit.
  { unfold Grid.init in Hinit.
    rewrite bool_decide_eq_false_2 in Hinit by lia.
    by destruct (Grid._create_grid _ _). }
  exists σ0, g0. split; [done|]. intros ops σ g pos Hops.
  destruct (apply_ops_shape rows width _ _ _ _ _ Hrows Hinit Hops)
    as [_ Hgap].
  split; [done|]. unfold Grid.get_clicked_pos. destruct pos as [y x].
  rewrite Hgap. split.
  - intros Hw. rewrite Z.div_small by done.
    by rewrite bool_decide_eq_true_2.
  - intros Hw.
    assert (Hne : (width / rows)%Z ≠ 0%Z).
    { intros H0. apply Z.div_small_iff in H0; lia. }
    by rewrite bool_decide_eq_false_2.
Qed.

Lemma X10_zero_gap_witness :
  (0 < 3)%Z ∧
  Grid.init 3 2 = inr (flat3.1, flat3.2) ∧
  Grid.gap flat3.2 = 0%Z ∧
  Grid.get_clicked_pos flat3.2 (1, 1)%Z = inl ZeroDivisionError ∧
  ∃ (σ0 : store) g0,
    Grid.init 3 2 = inr (σ0, g0) ∧
    ∀ ops (σ : store) g (pos : Z * Z),
      apply_ops (σ0, g0) ops = (σ, g) →
      Grid.gap g = (2 / 3)%Z ∧
      ((0 ≤ 2 < 3)%Z →
       Grid.gap g = 0%Z ∧
       Grid.get_clicked_pos g pos = inl ZeroDivisionError) ∧
      (¬ (0 ≤ 2 < 3)%Z →
       Grid.gap g ≠ 0%Z ∧
       Grid.get_clicked_pos g pos
         = inr ((pos.1 / (2 / 3))%Z, (pos.2 / (2 / 3))%Z)).
Proof.
  assert (H3 : (0 < 3)%Z) by lia.
  assert (Hinit : Grid.init 3 2 = inr (flat3.1, flat3.2)) by by_computation.
  assert (Hgap : Grid.gap flat3.2 = 0%Z) by by_computation.
  assert (Hclick :
    Grid.get_clicked_pos flat3.2 (1, 1)%Z = inl ZeroDivisionError)
    by by_computation.
  exact (conj H3 (conj Hinit (conj Hgap (conj Hclick
    (X10_zero_gap 3 2 H3))))).
Defined.

(** ** Edits *)

(** X11.  [reset_grid] undoes every edit: on a grid that [Grid.__init__]
    built, after any sequence of [set_start], [set_end],
    [toggle_barrier], [set_barrier], [reset_grid] and
    [reset_algorithm_data] calls, [reset_grid] leaves every node and
    every field of the grid as the constructor built them. *)
Theorem X11_reset_grid rows width (σ0 : store) g0 ops (σ : store) g :
  Grid.init rows width = inr (σ0, g0) →
  apply_ops (σ0, g0) ops = (σ, g) →
  Grid.reset_grid σ g = (σ0, g0).
Proof. apply reset_grid_init. Qed.

Lemma X11_reset_grid_witness :
  Grid.init 3 600 = inr (grid3.1, grid3.2) ∧
  apply_ops (grid3.1, grid3.2) walls3 = (maze3.1, maze3.2) ∧
  Grid.start_node maze3.2 = Some (cell 3 0 0) ∧
  Node.state (deref maze3.1 (cell 3 1 1)) = BARRIER ∧
  Grid.reset_grid maze3.1 maze3.2 = (grid3.1, grid3.2).
Proof.
  assert (Hinit : Grid.init 3 600 = inr (grid3.1, grid3.2))
    by by_computation.
  assert (Hops : apply_ops (grid3.1, grid3.2) walls3 = (maze3.1, maze3.2))
    by by_computation.
  assert (Hs : Grid.start_node maze3.2 = Some (cell 3 0 0))
    by by_computation.
  assert (Hb : Node.state (deref maze3.1 (cell 3 1 1)) = BARRIER)
    by by_computation.
  exact (conj Hinit (conj Hops (conj Hs (conj Hb
    (X11_reset_grid 3 600 grid3.1 grid3.2 walls3 maze3.1 maze3.2
       Hinit Hops))))).
Defined.

(** X12.  [toggle_barrier] undoes itself: on a grid edited in any way,
    when a call is accepted (returns [True]), the same call again is
    accepted too and leaves the grid and every node as they were before
    the first. *)
Theorem X12_toggle_barrier_twice rows width (σ0 : store) g0 ops
    (σ : store) g row col :
  Grid.init rows width = inr (σ0, g0) →
  apply_ops (σ0, g0) ops = (σ, g) →
  (Grid.toggle_barrier row col σ g).2 = true →
  Grid.toggle_barrier row col (Grid.toggle_barrier row col σ g).1.1
    (Grid.toggle_barrier row col σ g).1.2 = (σ, g, true).
Proof.
  intros Hinit Hops. apply toggle_barrier_twice.
  pose proof (apply_ops_GInv ops (σ0, g0) (Grid_init_GInv _ _ _ _ Hinit))
    as HG.
  by rewrite Hops in HG.
Qed.

Lemma X12_toggle_barrier_twice_witness :
  Grid.init 3 600 = inr (grid3.1, grid3.2) ∧
  apply_ops (grid3.1, grid3.2) walls3 = (maze3.1, maze3.2) ∧
  (Grid.toggle_barrier 1 1 maze3.1 maze3.2).2 = true ∧
  Node.state (deref (Grid.toggle_barrier 1 1 maze3.1 maze3.2).1.1
                (cell 3 1 1)) = EMPTY ∧
  Grid.toggle_barrier 1 1 (Grid.toggle_barrier 1 1 maze3.1 maze3.2).1.1
    (Grid.toggle_barrier 1 1 maze3.1 maze3.2).1.2 = (maze3.1, maze3.2, true).
Proof.
  assert (Hinit : Grid.init 3 600 = inr (grid3.1, grid3.2))
    by by_computation.
  assert (Hops : apply_ops (grid3.1, grid3.2) walls3 = (maze3.1, maze3.2))
    by by_computation.
  assert (Hacc : (Grid.toggle_barrier 1 1 maze3.1 maze3.2).2 = true)
    by by_computation.
  assert (Hst :
    Node.state (deref (Grid.toggle_barrier 1 1 maze3.1 maze3.2).1.1
                  (cell 3 1 1)) = EMPTY) by by_computation.
  exact (conj Hinit (conj Hops (conj Hacc (conj Hst
    (X12_toggle_barrier_twice 3 600 grid3.1 grid3.2 walls3 maze3.1 maze3.2
       1 1 Hinit Hops Hacc))))).
Defined.

(** X13.  [set_barrier], the call that the visualizer makes on a middle
    click and while the mouse is dragged, only ever adds barriers: on a
    grid edited in any way it leaves the fields of the grid alone, every
    barrier stays a barrier, an accepted call turns one [EMPTY] cell
    into a barrier and changes no other state, a refused call changes
    nothing, and the same call again is always refused. *)
Theorem X13_set_barrier rows width (σ0 : store) g0 ops (σ : store) g
    row col :
  Grid.init rows width = inr (σ0, g0) →
  apply_ops (σ0, g0) ops = (σ, g) →
  (Grid.set_barrier row col σ g).1.2 = g ∧
  (∀ a, Node.state (deref σ a) = BARRIER →
     Node.state (deref (Grid.set_barrier row col σ g).1.1 a) = BARRIER) ∧
  (Grid.set_barrier row col (Grid.set_barrier row col σ g).1.1 g)
    = ((Grid.set_barrier row col σ g).1.1, g, false) ∧
  if (Grid.set_barrier row col σ g).2 then
    ∃ node,
      Grid.get_node g row col = Some node ∧
      Node.state (deref σ node) = EMPTY ∧
      ∀ a, Node.state (deref (Grid.set_barrier row col σ g).1.1 a) =
           if decide (a = node) then BARRIER else Node.state (deref σ a)
  else Grid.set_barrier row col σ g = (σ, g, false).
Proof.
  intros Hinit Hops. apply set_barrier_spec.
  pose proof (apply_ops_GInv ops (σ0, g0) (Grid_init_GInv _ _ _ _ Hinit))
    as HG.
  by rewrite Hops in HG.
Qed.

Lemma X13_set_barrier_witness :
  Grid.init 3 600 = inr (grid3.1, grid3.2) ∧
  apply_ops (grid3.1, grid3.2) walls3 = (maze3.1, maze3.2) ∧
  (Grid.set_barrier 2 1 maze3.1 maze3.2).2 = true ∧
  (Grid.set_barrier 0 0 maze3.1 maze3.2).2 = false ∧
  (Grid.set_barrier 2 1 maze3.1 maze3.2).1.2 = maze3.2 ∧
  (∀ a, Node.state (deref maze3.1 a) = BARRIER →
     Node.state (deref (Grid.set_barrier 2 1 maze3.1 maze3.2).1.1 a)
     = BARRIER) ∧
  (Grid.set_barrier 2 1 (Grid.set_barrier 2 1 maze3.1 maze3.2).1.1 maze3.2)
    = ((Grid.set_barrier 2 1 maze3.1 maze3.2).1.1, maze3.2, false).
Proof.
  assert (Hinit : Grid.init 3 600 = inr (grid3.1, grid3.2))
    by by_computation.
  assert (Hops : apply_ops (grid3.1, grid3.2) walls3 = (maze3.1, maze3.2))
    by by_computation.
  assert (Hacc : (Grid.set_barrier 2 1 maze3.1 maze3.2).2 = true)
    by by_computation.
  assert (Hrej : (Grid.set_barrier 0 0 maze3.1 maze3.2).2 = false)
    by by_computation.
  pose proof (X13_set_barrier 3 600 grid3.1 grid3.2 walls3 maze3.1 maze3.2
                2 1 Hinit Hops) as H.
  exact (conj Hinit (conj Hops (conj Hacc (conj Hrej
    (conj (proj1 H) (conj (proj1 (proj2 H))
      (proj1 (proj2 (proj2 H))))))))).
Defined.

(** X14.  On a grid edited in any way, [get_all_nodes] lists the nodes
    row by row in the order of their creation: every node of the grid
    once, [rows * rows] in all, and nothing else. *)
Theorem X14_get_all_nodes rows width (σ0 : store) g0 ops (σ : store) g :
  (0 < rows)%Z →
  Grid.init rows width = inr (σ0, g0) →
  apply_ops (σ0, g0) ops = (σ, g) →
  Grid.get_all_nodes g = seq 0 (Z.to_nat rows * Z.to_nat rows) ∧
  NoDup (Grid.get_all_nodes g) ∧
  length (Grid.get_all_nodes g) = Z.to_nat rows * Z.to_nat rows ∧
  ∀ a, a ∈ Grid.get_all_nodes g ↔ a ∈ dom σ.
Proof.
  intros Hrows Hinit Hops.
  pose proof (apply_ops_GShape _ _ _ _ _ _ _ Hrows Hinit Hops) as HS.
  rewrite (get_all_nodes_GShape _ σ g HS).
  split; [done|]. split; [apply NoDup_seq|].
  split; [apply length_seq|].
  intros a. rewrite (GShape_dom _ σ g a HS), elem_of_seq. lia.
Qed.

Lemma X14_get_all_nodes_witness :
  (0 < 3)%Z ∧
  Grid.init 3 600 = inr (grid3.1, grid3.2) ∧
  apply_ops (grid3.1, grid3.2) walls3 = (maze3.1, maze3.2) ∧
  Grid.get_all_nodes maze3.2 = seq 0 (Z.to_nat 3 * Z.to_nat 3) ∧
  NoDup (Grid.get_all_nodes maze3.2) ∧
  length (Grid.get_all_nodes maze3.2) = Z.to_nat 3 * Z.to_nat 3 ∧
  ∀ a, a ∈ Grid.get_all_nodes maze3.2 ↔ a ∈ dom maze3.1.
Proof.
  assert (H3 : (0 < 3)%Z) by lia.
  assert (Hinit : Grid.init 3 600 = inr (grid3.1, grid3.2))
    by by_computation.
  assert (Hops : apply_ops (grid3.1, grid3.2) walls3 = (maze3.1, maze3.2))
    by by_computation.
  exact (conj H3 (conj Hinit (conj Hops
    (X14_get_all_nodes 3 600 grid3.1 grid3.2 walls3 maze3.1 maze3.2
       H3 Hinit Hops)))).
Defined.
